(** * Tool-calling adapters of DouMAINovel: a shallow embedding

    The development follows the Python sources

    - [backend/app/services/json_helper.py]      (the resilient JSON decoder),
    - [backend/app/mcp/adapters/base.py],
      [function_calling.py], [prompt_injection.py] (the two adapter strategies),
    - [backend/app/mcp/adapters/universal.py]     (capability cache and fallback).

    Python [str] values are sequences of Unicode code points and are modelled
    as [list N].  The standard-library functions the sources call ([re],
    [json], [str.strip]) are modelled from CPython's behaviour; what depends on
    binary floating point is kept symbolic in the class [Runtime]. *)

From Stdlib Require Import ZArith NArith List Ascii String Bool Lia.
From stdpp Require Import base option list gmap.

Set Default Proof Using "Type".
Local Open Scope N_scope.

(* ===================================================================== *)
(** * Python strings *)
(* ===================================================================== *)

Module PyStr.

(** A code point and a [str]. *)
Abbreviation char := N (only parsing).
Abbreviation str := (list N) (only parsing).

(** [s2u "abc"] is the [str] of an ASCII literal. *)
Definition s2u (s : string) : str := map N_of_ascii (list_ascii_of_string s).

(** [jq] writes a literal with double quotes: every apostrophe of the ASCII
    literal stands for the code point 34. *)
Definition jq (s : string) : str :=
  map (fun c => if N.eqb c 39 then 34 else c) (s2u s).

Definition DQUOTE : char := 34.
Definition BACKSLASH : char := 92.
Definition LF : char := 10.
Definition CR : char := 13.
Definition TAB : char := 9.
Definition SPACE : char := 32.
Definition LBRACE : char := 123.
Definition RBRACE : char := 125.
Definition LBRACKET : char := 91.
Definition RBRACKET : char := 93.
Definition COMMA : char := 44.
Definition COLON : char := 58.
Definition BACKTICK : char := 96.

Definition in_range (lo hi c : N) : bool := (lo <=? c) && (c <=? hi).

(** [c in s] for a one-character [c]. *)
Definition mem (c : char) (s : str) : bool := existsb (N.eqb c) s.

Fixpoint str_eqb (a b : str) : bool :=
  match a, b with
  | [], [] => true
  | x :: a', y :: b' => N.eqb x y && str_eqb a' b'
  | _, _ => false
  end.

(** [s.startswith(p)] *)
Fixpoint startswith (p s : str) : bool :=
  match p, s with
  | [], _ => true
  | x :: p', y :: s' => N.eqb x y && startswith p' s'
  | _ :: _, [] => false
  end.

(** [Py_UNICODE_ISSPACE]: the characters [str.strip()] removes and the
    regular-expression class [\s] matches on [str] patterns. *)
Definition isspace (c : char) : bool :=
  in_range 9 13 c || in_range 28 32 c || N.eqb c 133 || N.eqb c 160
  || N.eqb c 5760 || in_range 8192 8202 c || N.eqb c 8232 || N.eqb c 8233
  || N.eqb c 8239 || N.eqb c 8287 || N.eqb c 12288.

Fixpoint lstrip (s : str) : str :=
  match s with
  | c :: s' => if isspace c then lstrip s' else s
  | [] => []
  end.

Definition rstrip (s : str) : str := rev (lstrip (rev s)).

(** [s.strip()] *)
Definition strip (s : str) : str := rstrip (lstrip s).

(** Start of a run of ten decimal digits (general category Nd, Unicode 15.0):
    the characters the class [\d] matches on [str] patterns. *)
Definition Nd_starts : list N :=
  [48; 1632; 1776; 1984; 2406; 2534; 2662; 2790; 2918; 3046; 3174; 3302; 3430;
   3558; 3664; 3792; 3872; 4160; 4240; 6112; 6160; 6470; 6608; 6784; 6800;
   6992; 7088; 7232; 7248; 42528; 43216; 43264; 43472; 43504; 43600; 44016;
   65296; 66720; 68912; 69734; 69872; 69942; 70096; 70384; 70736; 70864;
   71248; 71360; 71472; 71904; 72016; 72784; 73040; 73120; 73552; 92768;
   92864; 93008; 120782; 120792; 120802; 120812; 120822; 123200; 123632;
   124144; 125264; 130032].

Definition isdecimal (c : char) : bool :=
  existsb (fun lo => in_range lo (lo + 9) c) Nd_starts.

Definition isdigit_ascii (c : char) : bool := in_range 48 57 c.

(** Decimal text of a natural number and of an integer ([str(n)]). *)
Fixpoint digits_fuel (fuel : nat) (n : N) (acc : str) : str :=
  match fuel with
  | O => acc
  | S f =>
      let acc' := (48 + n mod 10) :: acc in
      if n <? 10 then acc' else digits_fuel f (n / 10) acc'
  end.

Definition str_of_N (n : N) : str := digits_fuel (S (N.to_nat (N.log2 n))) n [].

Definition str_of_Z (z : Z) : str :=
  match z with
  | Z0 => [48]
  | Zpos p => str_of_N (Npos p)
  | Zneg p => 45 :: str_of_N (Npos p)
  end.

Definition str_of_nat (n : nat) : str := str_of_N (N.of_nat n).

End PyStr.
Export PyStr.

(* ===================================================================== *)
(** * Regular expressions ([re]) *)
(* ===================================================================== *)

(** A backtracking matcher with the priorities of CPython's [sre]: the first
    alternative first, greedy repetition longest first, lazy repetition
    shortest first.  Flags are resolved when a pattern is written down:
    [IGNORECASE] in the character tests ([lits_i]), [DOTALL] in the choice
    between [any] and [dot], [MULTILINE] in [Bol] and [Eol]. *)
Module Re.

Inductive regex :=
| Eps
| Chr (f : char -> bool)
| Cat (r1 r2 : regex)
| Alt (r1 r2 : regex)
| Star (r : regex)
| Lazy (r : regex)
| Group (n : nat) (r : regex)
| Bol
| Eol.

(** The matcher's position: the character before it, the text after it and
    the groups captured so far (latest first). *)
Record mstate := MState { prev : option char; rest : str; groups : list (nat * str) }.

Definition kont := mstate -> option mstate.

Definition set_group (n : nat) (s : str) (st : mstate) : mstate :=
  MState (prev st) (rest st) ((n, s) :: groups st).

Fixpoint group_lookup (n : nat) (g : list (nat * str)) : option str :=
  match g with
  | [] => None
  | (k, s) :: g' => if Nat.eqb k n then Some s else group_lookup n g'
  end.

(** Greedy and lazy repetition of [step]; an iteration must consume. *)
Fixpoint star_greedy (step : mstate -> kont -> option mstate) (fuel : nat)
    (st : mstate) (k : kont) : option mstate :=
  match fuel with
  | O => k st
  | S n =>
      match step st (fun st' =>
              if Nat.ltb (length (rest st')) (length (rest st))
              then star_greedy step n st' k else None) with
      | Some r => Some r
      | None => k st
      end
  end.

Fixpoint star_lazy (step : mstate -> kont -> option mstate) (fuel : nat)
    (st : mstate) (k : kont) : option mstate :=
  match fuel with
  | O => k st
  | S n =>
      match k st with
      | Some r => Some r
      | None =>
          step st (fun st' =>
            if Nat.ltb (length (rest st')) (length (rest st))
            then star_lazy step n st' k else None)
      end
  end.

Fixpoint m (r : regex) (st : mstate) (k : kont) : option mstate :=
  match r with
  | Eps => k st
  | Chr f =>
      match rest st with
      | c :: s' => if f c then k (MState (Some c) s' (groups st)) else None
      | [] => None
      end
  | Cat r1 r2 => m r1 st (fun st1 => m r2 st1 k)
  | Alt r1 r2 =>
      match m r1 st k with
      | Some x => Some x
      | None => m r2 st k
      end
  | Star r1 => star_greedy (m r1) (length (rest st)) st k
  | Lazy r1 => star_lazy (m r1) (length (rest st)) st k
  | Group n r1 =>
      m r1 st (fun st' =>
        k (set_group n (take (length (rest st) - length (rest st')) (rest st)) st'))
  | Bol =>
      match prev st with
      | None => k st
      | Some c => if N.eqb c LF then k st else None
      end
  | Eol =>
      match rest st with
      | [] => k st
      | c :: _ => if N.eqb c LF then k st else None
      end
  end.

(** One attempt at the current position. *)
Definition match_here (r : regex) (p : option char) (s : str) : option mstate :=
  m r (MState p s []) Some.

(** A match object: group 0, the numbered groups, and what follows. *)
Record Match := MkMatch {
  m_start : nat; m_group0 : str; m_groups : list (nat * str);
  m_prev : option char; m_rest : str }.

Definition group (n : nat) (mt : Match) : str :=
  match n with
  | O => m_group0 mt
  | _ => default [] (group_lookup n (m_groups mt))
  end.

Definition mk_match (pos : nat) (s : str) (st : mstate) : Match :=
  MkMatch pos (take (length s - length (rest st)) s) (groups st) (prev st) (rest st).

(** [re.search]: the leftmost position at which the pattern matches. *)
Fixpoint search_at (r : regex) (p : option char) (s : str) (pos : nat) : option Match :=
  match match_here r p s with
  | Some st => Some (mk_match pos s st)
  | None =>
      match s with
      | [] => None
      | c :: s' => search_at r (Some c) s' (S pos)
      end
  end.

Definition search (r : regex) (s : str) : option Match := search_at r None s O.

(** The successive non-overlapping matches, left to right. *)
Fixpoint finditer_at (fuel : nat) (r : regex) (p : option char) (s : str) : list Match :=
  match fuel with
  | O => []
  | S f =>
      match match_here r p s with
      | Some st =>
          let mt := mk_match O s st in
          if Nat.ltb (length (rest st)) (length s)
          then mt :: finditer_at f r (prev st) (rest st)
          else mt :: match s with
                     | [] => []
                     | c :: s' => finditer_at f r (Some c) s'
                     end
      | None =>
          match s with
          | [] => []
          | c :: s' => finditer_at f r (Some c) s'
          end
      end
  end.

(** [re.findall] for a pattern with exactly one group. *)
Definition findall1 (r : regex) (s : str) : list str :=
  map (group 1) (finditer_at (S (length s)) r None s).

(** A replacement template: literal text and group references. *)
Inductive titem := TLit (s : str) | TGroup (n : nat).

Definition expand (t : list titem) (st : mstate) : str :=
  flat_map (fun it => match it with
                      | TLit s => s
                      | TGroup n => default [] (group_lookup n (groups st))
                      end) t.

(** [re.sub(r, t, s)] *)
Fixpoint sub_at (fuel : nat) (r : regex) (t : list titem) (p : option char) (s : str) : str :=
  match fuel with
  | O => s
  | S f =>
      match match_here r p s with
      | Some st =>
          if Nat.ltb (length (rest st)) (length s)
          then expand t st ++ sub_at f r t (prev st) (rest st)
          else expand t st ++ match s with
                              | [] => []
                              | c :: s' => c :: sub_at f r t (Some c) s'
                              end
      | None =>
          match s with
          | [] => []
          | c :: s' => c :: sub_at f r t (Some c) s'
          end
      end
  end.

Definition sub (r : regex) (t : list titem) (s : str) : str :=
  sub_at (S (length s)) r t None s.

(** ** Pattern building blocks *)

Definition any : regex := Chr (fun _ => true).              (* [.] with DOTALL *)
Definition dot : regex := Chr (fun c => negb (N.eqb c LF)). (* [.] without *)
Definition lit (c : char) : regex := Chr (N.eqb c).
Definition ws : regex := Chr isspace.                       (* [\s] *)
Definition plus (r : regex) : regex := Cat r (Star r).
Definition opt (r : regex) : regex := Alt r Eps.

Fixpoint cats (l : list regex) : regex :=
  match l with
  | [] => Eps
  | [r] => r
  | r :: l' => Cat r (cats l')
  end.

Definition lits (s : str) : regex := cats (map lit s).

Definition lower_ascii (c : char) : char := if in_range 65 90 c then c + 32 else c.

(** [ichar p c]: under IGNORECASE the pattern letter [p] (written in lower
    case) matches [c].  Beside the two ASCII cases [sre] accepts the code
    points whose simple lower case is [p] (U+212A for k, U+0130 for i) and its
    extra equivalences (U+017F for s, U+0131 for i). *)
Definition ichar (p c : char) : bool :=
  N.eqb (lower_ascii c) p
  || (N.eqb p 115 && N.eqb c 383)
  || (N.eqb p 107 && N.eqb c 8490)
  || (N.eqb p 105 && (N.eqb c 304 || N.eqb c 305)).

Definition lits_i (s : str) : regex := cats (map (fun p => Chr (ichar p)) s).

End Re.

(* ===================================================================== *)
(** * Python values *)
(* ===================================================================== *)

Module Py.

(** The values the adapters receive and build: JSON-like data, and objects
    with attributes (the SDK's response objects).  Dictionary keys are
    strings, and a dictionary keeps its insertion order.  A float is kept as
    the decimal lexeme it was read from. *)
#[warnings="-register-all"]
Inductive pyval :=
| PNone
| PBool (b : bool)
| PInt (z : Z)
| PFloat (lexeme : str)
| PStr (s : str)
| PList (l : list pyval)
| PDict (kv : list (str * pyval))
| PObj (attrs : list (str * pyval)).

(** The exception classes raised inside the adapters and by [json.loads],
    and [Exception] for whatever the caller's functions raise.  Every one is
    an instance of Python's [Exception]: what [except Exception] catches.
    [JSONDecodeError] is a subclass of [ValueError]; an [except
    json.JSONDecodeError] clause catches the first and lets [ValueError] and
    [RecursionError] pass. *)
Inductive pyexc :=
| IndexError | KeyError | TypeError | AttributeError
| JSONDecodeError | ValueError | RecursionError
| Exception (msg : str).

(** The outcome of evaluating Python code: a value or a raised exception. *)
Inductive res (E A : Type) := Ret (a : A) | Raise (e : E).
Arguments Ret {E A} a.
Arguments Raise {E A} e.

(** What the model leaves to the Python runtime and to the environment. *)
Class Runtime := {
  (** the text [json.dumps] prints for the float read from a lexeme *)
  float_repr : str -> str;
  (** [bool(x)] for that float *)
  float_truthy : str -> bool;
  (** [str(x)] for a value that is not a [str] *)
  repr_other : pyval -> str;
  (** [str(e)] for an exception *)
  exc_str : pyexc -> str;
  (** the k-th reading of the clocks: [datetime.now()] in microseconds and
      [time.time()] in milliseconds *)
  now : nat -> Z;
  time_ms : nat -> Z;
  (** the instruction text [format_tools_for_prompt] builds around a
      non-empty tool list and the user message *)
  enhanced_prompt : list pyval -> str -> res pyexc str;
  (** [sys.get_int_max_str_digits()]: the longest integer literal that
      [int] converts, 0 for no limit (4300 unless changed) *)
  int_max_str_digits : nat;
  (** how many arrays and objects, one inside the other, [json.loads] can
      still enter below the outermost one before the interpreter raises
      [RecursionError] (what is left of the recursion limit where the
      program calls it) *)
  nesting_room : nat
}.

Definition rbind {E A B} (x : res E A) (f : A -> res E B) : res E B :=
  match x with
  | Ret a => f a
  | Raise e => Raise e
  end.

Notation "'let*' x ':=' c 'in' k" := (rbind c (fun x => k))
  (at level 10, x name, c at level 200, k at level 200).

Fixpoint assoc {A} (k : str) (d : list (str * A)) : option A :=
  match d with
  | [] => None
  | (k', v) :: d' => if str_eqb k' k then Some v else assoc k d'
  end.

(** [d[k] = v] on an insertion-ordered dictionary. *)
Fixpoint dict_set {A} (k : str) (v : A) (d : list (str * A)) : list (str * A) :=
  match d with
  | [] => [(k, v)]
  | (k', v') :: d' =>
      if str_eqb k' k then (k', v) :: d' else (k', v') :: dict_set k v d'
  end.

(** [bool(x)] *)
Definition truthy `{Runtime} (v : pyval) : bool :=
  match v with
  | PNone => false
  | PBool b => b
  | PInt z => negb (Z.eqb z 0)
  | PFloat lx => float_truthy lx
  | PStr s => negb (Nat.eqb (length s) 0)
  | PList l => negb (Nat.eqb (length l) 0)
  | PDict kv => negb (Nat.eqb (length kv) 0)
  | PObj _ => true
  end.

(** [str(x)] *)
Definition py_str `{Runtime} (v : pyval) : str :=
  match v with
  | PStr s => s
  | _ => repr_other v
  end.

(** [isinstance(x, dict)], [isinstance(x, str)] *)
Definition is_dict (v : pyval) : bool := match v with PDict _ => true | _ => false end.
Definition is_str (v : pyval) : bool := match v with PStr _ => true | _ => false end.

(** [x.get(k, dflt)]: only dictionaries have the method. *)
Definition py_get (v : pyval) (k : str) (dflt : pyval) : res pyexc pyval :=
  match v with
  | PDict kv => Ret (default dflt (assoc k kv))
  | _ => Raise AttributeError
  end.

(** [x[0]] *)
Definition py_index0 (v : pyval) : res pyexc pyval :=
  match v with
  | PList (x :: _) => Ret x
  | PList [] => Raise IndexError
  | PStr (c :: _) => Ret (PStr [c])
  | PStr [] => Raise IndexError
  | PDict _ => Raise KeyError
  | _ => Raise TypeError
  end.

(** [x[k]] for a string [k] *)
Definition py_item (v : pyval) (k : str) : res pyexc pyval :=
  match v with
  | PDict kv => match assoc k kv with Some x => Ret x | None => Raise KeyError end
  | _ => Raise TypeError
  end.

(** [hasattr(x, a)] and [x.a] for a data attribute [a]. *)
Definition py_hasattr (v : pyval) (a : str) : bool :=
  match v with
  | PObj attrs => match assoc a attrs with Some _ => true | None => false end
  | _ => false
  end.

Definition py_getattr (v : pyval) (a : str) : res pyexc pyval :=
  match v with
  | PObj attrs => match assoc a attrs with Some x => Ret x | None => Raise AttributeError end
  | _ => Raise AttributeError
  end.

(** [getattr(x, a, dflt)] *)
Definition py_getattr_default (v : pyval) (a : str) (dflt : pyval) : pyval :=
  match py_getattr v a with Ret x => x | Raise _ => dflt end.

(** [len(x)] *)
Definition py_len (v : pyval) : res pyexc nat :=
  match v with
  | PStr s => Ret (length s)
  | PList l => Ret (length l)
  | PDict kv => Ret (length kv)
  | _ => Raise TypeError
  end.

(** The elements [for x in v] visits. *)
Definition py_iter (v : pyval) : res pyexc (list pyval) :=
  match v with
  | PList l => Ret l
  | PStr s => Ret (map (fun c => PStr [c]) s)
  | PDict kv => Ret (map (fun p => PStr (fst p)) kv)
  | _ => Raise TypeError
  end.

(** [[f(x) for x in l]]: the first exception ends the comprehension. *)
Fixpoint mapM_res {E A B} (f : A -> res E B) (l : list A) : res E (list B) :=
  match l with
  | [] => Ret []
  | x :: l' => let* y := f x in let* ys := mapM_res f l' in Ret (y :: ys)
  end.

End Py.
Export Py.

(* ===================================================================== *)
(** * The [json] module *)
(* ===================================================================== *)

(** [json.loads] as CPython's scanner reads a document (strict mode, the
    constants [NaN], [Infinity] and [-Infinity] accepted), with the two limits
    of the interpreter it can meet (the digits of an integer literal and the
    depth of the recursion), and [json.dumps] with [ensure_ascii=False]. *)
Module Json.

(** The values [json.loads] returns.  A float is kept as its lexeme. *)
#[warnings="-register-all"]
Inductive json :=
| JNull
| JBool (b : bool)
| JInt (z : Z)
| JFloat (lexeme : str)
| JStr (s : str)
| JArr (l : list json)
| JObj (kv : list (str * json)).

Definition is_ws (c : char) : bool :=
  N.eqb c SPACE || N.eqb c TAB || N.eqb c LF || N.eqb c CR.

Fixpoint skip_ws (s : str) : str :=
  match s with
  | c :: s' => if is_ws c then skip_ws s' else s
  | [] => []
  end.

Definition hex_val (c : char) : option N :=
  if in_range 48 57 c then Some (c - 48)
  else if in_range 97 102 c then Some (c - 87)
  else if in_range 65 70 c then Some (c - 55)
  else None.

Definition hex4 (a b c d : char) : option N :=
  match hex_val a, hex_val b, hex_val c, hex_val d with
  | Some x, Some y, Some z, Some w => Some (((x * 16 + y) * 16 + z) * 16 + w)
  | _, _, _, _ => None
  end.

Definition is_high_surrogate (u : N) : bool := in_range 55296 56319 u.
Definition is_low_surrogate (u : N) : bool := in_range 56320 57343 u.
Definition join_surrogates (hi lo : N) : N :=
  65536 + (hi - 55296) * 1024 + (lo - 56320).

(** The character a one-letter escape stands for. *)
Definition simple_escape (e : char) : option char :=
  if N.eqb e DQUOTE then Some DQUOTE
  else if N.eqb e BACKSLASH then Some BACKSLASH
  else if N.eqb e 47 then Some 47
  else if N.eqb e 98 then Some 8
  else if N.eqb e 102 then Some 12
  else if N.eqb e 110 then Some LF
  else if N.eqb e 114 then Some CR
  else if N.eqb e 116 then Some TAB
  else None.

Definition push (c : char) (r : option (str * str)) : option (str * str) :=
  match r with
  | Some (v, rest) => Some (c :: v, rest)
  | None => None
  end.

(** [scanstring]: the text after an opening quote, up to the closing one. *)
Fixpoint scanstring (s : str) : option (str * str) :=
  match s with
  | [] => None
  | c :: s1 =>
      if N.eqb c DQUOTE then Some ([], s1)
      else if N.eqb c BACKSLASH then
        match s1 with
        | [] => None
        | e :: s2 =>
            if N.eqb e 117 then
              match s2 with
              | h1 :: h2 :: h3 :: h4 :: s3 =>
                  match hex4 h1 h2 h3 h4 with
                  | None => None
                  | Some u =>
                      match s3 with
                      | b :: u' :: g1 :: g2 :: g3 :: g4 :: s4 =>
                          match hex4 g1 g2 g3 g4 with
                          | Some lo =>
                              if is_high_surrogate u && N.eqb b BACKSLASH
                                 && N.eqb u' 117 && is_low_surrogate lo
                              then push (join_surrogates u lo) (scanstring s4)
                              else push u (scanstring s3)
                          | None => push u (scanstring s3)
                          end
                      | _ => push u (scanstring s3)
                      end
                  end
              | _ => None
              end
            else
              match simple_escape e with
              | Some x => push x (scanstring s2)
              | None => None
              end
        end
      else if c <=? 31 then None
      else push c (scanstring s1)
  end.

Fixpoint span_digits (s : str) : str * str :=
  match s with
  | c :: s' =>
      if isdigit_ascii c then let (d, r) := span_digits s' in (c :: d, r)
      else ([], s)
  | [] => ([], [])
  end.

Definition Z_of_digits (d : str) : Z :=
  fold_left (fun acc c => (acc * 10 + Z.of_N (c - 48))%Z) d 0%Z.

(** The integer part (an optional minus, then 0 or a digit 1-9 followed by
    digits): sign, digits, rest. *)
Definition scan_int (s : str) : option (bool * str * str) :=
  let (neg, s1) := match s with
                   | c :: s' => if N.eqb c 45 then (true, s') else (false, s)
                   | [] => (false, s)
                   end in
  match s1 with
  | c :: s2 =>
      if N.eqb c 48 then Some (neg, [c], s2)
      else if in_range 49 57 c then
        let (d, r) := span_digits s2 in Some (neg, c :: d, r)
      else None
  | [] => None
  end.

(** The optional fraction: a point and at least one digit. *)
Definition scan_frac (s : str) : str * str :=
  match s with
  | p :: d :: s' =>
      if N.eqb p 46 && isdigit_ascii d then
        let (ds, r) := span_digits s' in (p :: d :: ds, r)
      else ([], s)
  | _ => ([], s)
  end.

(** The optional exponent: e or E, an optional sign, at least one digit. *)
Definition scan_exp (s : str) : str * str :=
  match s with
  | e :: s1 =>
      if N.eqb e 101 || N.eqb e 69 then
        match s1 with
        | g :: s2 =>
            if N.eqb g 43 || N.eqb g 45 then
              match s2 with
              | d :: s3 =>
                  if isdigit_ascii d then
                    let (ds, r) := span_digits s3 in (e :: g :: d :: ds, r)
                  else ([], s)
              | [] => ([], s)
              end
            else if isdigit_ascii g then
              let (ds, r) := span_digits s2 in (e :: g :: ds, r)
            else ([], s)
        | [] => ([], s)
        end
      else ([], s)
  | [] => ([], s)
  end.

Definition match_number (s : str) : option (json * str) :=
  match scan_int s with
  | None => None
  | Some (neg, ds, r1) =>
      let (fr, r2) := scan_frac r1 in
      let (ex, r3) := scan_exp r2 in
      match fr, ex with
      | [], [] =>
          let z := Z_of_digits ds in
          Some (JInt (if neg then (- z)%Z else z), r3)
      | _, _ => Some (JFloat ((if neg then [45] else []) ++ ds ++ fr ++ ex), r3)
      end
  end.

Definition NULL := s2u "null".
Definition TRUE := s2u "true".
Definition FALSE := s2u "false".
Definition NAN := s2u "NaN".
Definition INFINITY := s2u "Infinity".
Definition NEG_INFINITY := s2u "-Infinity".

(** The scalar cases of [scan_once]. *)
Definition scan_scalar (s : str) : option (json * str) :=
  if startswith NULL s then Some (JNull, drop 4 s)
  else if startswith TRUE s then Some (JBool true, drop 4 s)
  else if startswith FALSE s then Some (JBool false, drop 5 s)
  else if startswith NAN s then Some (JFloat NAN, drop 3 s)
  else if startswith INFINITY s then Some (JFloat INFINITY, drop 8 s)
  else if startswith NEG_INFINITY s then Some (JFloat NEG_INFINITY, drop 9 s)
  else match_number s.

Section WithRuntime.
Context `{Runtime}.

(** ** The limits of the interpreter

    [int] refuses a literal of more digits than [sys.get_int_max_str_digits()]
    with [ValueError]; it does not count the digits of a literal of 640 digits
    or fewer, and 0 lifts the limit. *)
Definition INT_DIGITS_THRESHOLD : nat := 640.

Definition too_many_digits (digits : nat) : bool :=
  Nat.ltb INT_DIGITS_THRESHOLD digits
  && Nat.ltb 0 int_max_str_digits && Nat.ltb int_max_str_digits digits.

(** The scanner enters a recursive call at each opening bracket, and the
    interpreter raises [RecursionError] when none is left.  The outermost
    array or object is always entered. *)
Definition nesting_limit : nat := S nesting_room.

Definition too_deep (depth : nat) : bool := Nat.ltb nesting_limit depth.

(** The digits of the integer part of the number at the head of [s]. *)
Definition int_digits (s : str) : nat :=
  match scan_int s with
  | Some (_, ds, _) => length ds
  | None => O
  end.

(** The scalar cases of [scan_once] with the conversions: an integer
    literal goes through [int]. *)
Definition scan_token (s : str) : res pyexc (json * str) :=
  match scan_scalar s with
  | Some (JInt z, r) =>
      if too_many_digits (int_digits s) then Raise ValueError else Ret (JInt z, r)
  | Some (v, r) => Ret (v, r)
  | None => Raise JSONDecodeError
  end.

(** [scan_once], with the array and object loops.  [depth] counts the arrays
    and objects entered around the value; [fuel] bounds the depth of the
    calls of the model, and [2 * length s + 2] is enough for a text [s]. *)
Fixpoint scan_value (fuel depth : nat) (s : str) : res pyexc (json * str) :=
  match fuel with
  | O => Raise JSONDecodeError
  | S f =>
      match s with
      | [] => Raise JSONDecodeError
      | c :: s1 =>
          if N.eqb c DQUOTE then
            match scanstring s1 with
            | Some (v, r) => Ret (JStr v, r)
            | None => Raise JSONDecodeError
            end
          else if N.eqb c LBRACE then
            if too_deep (S depth) then Raise RecursionError else
            match skip_ws s1 with
            | c2 :: s2 =>
                if N.eqb c2 RBRACE then Ret (JObj [], s2)
                else scan_members f (S depth) (skip_ws s1) []
            | [] => Raise JSONDecodeError
            end
          else if N.eqb c LBRACKET then
            if too_deep (S depth) then Raise RecursionError else
            match skip_ws s1 with
            | c2 :: s2 =>
                if N.eqb c2 RBRACKET then Ret (JArr [], s2)
                else scan_elements f (S depth) (skip_ws s1) []
            | [] => Raise JSONDecodeError
            end
          else scan_token s
      end
  end
with scan_elements (fuel depth : nat) (s : str) (acc : list json)
    : res pyexc (json * str) :=
  match fuel with
  | O => Raise JSONDecodeError
  | S f =>
      match scan_value f depth s with
      | Raise e => Raise e
      | Ret (v, r) =>
          match skip_ws r with
          | c :: r1 =>
              if N.eqb c RBRACKET then Ret (JArr (rev (v :: acc)), r1)
              else if N.eqb c COMMA then scan_elements f depth (skip_ws r1) (v :: acc)
              else Raise JSONDecodeError
          | [] => Raise JSONDecodeError
          end
      end
  end
with scan_members (fuel depth : nat) (s : str) (acc : list (str * json))
    : res pyexc (json * str) :=
  match fuel with
  | O => Raise JSONDecodeError
  | S f =>
      match s with
      | q :: s1 =>
          if N.eqb q DQUOTE then
            match scanstring s1 with
            | None => Raise JSONDecodeError
            | Some (key, r) =>
                match skip_ws r with
                | c :: r1 =>
                    if N.eqb c COLON then
                      match scan_value f depth (skip_ws r1) with
                      | Raise e => Raise e
                      | Ret (v, r2) =>
                          match skip_ws r2 with
                          | d :: r3 =>
                              if N.eqb d RBRACE
                              then Ret (JObj (dict_set key v acc), r3)
                              else if N.eqb d COMMA
                              then scan_members f depth (skip_ws r3) (dict_set key v acc)
                              else Raise JSONDecodeError
                          | [] => Raise JSONDecodeError
                          end
                      end
                    else Raise JSONDecodeError
                | [] => Raise JSONDecodeError
                end
            end
          else Raise JSONDecodeError
      | [] => Raise JSONDecodeError
      end
  end.

(** [json.loads(s)]: the value, or the exception raised: [JSONDecodeError]
    where the text departs from the grammar, [ValueError] at an integer
    literal of too many digits and [RecursionError] at a bracket nested too
    deep, whichever the scanner meets first. *)
Definition loads (s : str) : res pyexc json :=
  match scan_value (2 * length s + 2) 0 (skip_ws s) with
  | Ret (v, r) => match skip_ws r with [] => Ret v | _ :: _ => Raise JSONDecodeError end
  | Raise e => Raise e
  end.

(** [json.loads(s)] returns: what a [try] with a bare [except] tests. *)
Definition valid (s : str) : bool :=
  match loads s with Ret _ => true | Raise _ => false end.

End WithRuntime.

(** ** [json.dumps(v, ensure_ascii=False)] *)

Definition hex_digit (n : N) : char := if n <? 10 then 48 + n else 87 + n.

Definition escape_char (c : char) : str :=
  if N.eqb c DQUOTE then [BACKSLASH; DQUOTE]
  else if N.eqb c BACKSLASH then [BACKSLASH; BACKSLASH]
  else if N.eqb c LF then [BACKSLASH; 110]
  else if N.eqb c CR then [BACKSLASH; 114]
  else if N.eqb c TAB then [BACKSLASH; 116]
  else if N.eqb c 8 then [BACKSLASH; 98]
  else if N.eqb c 12 then [BACKSLASH; 102]
  else if c <=? 31 then [BACKSLASH; 117; 48; 48; hex_digit (c / 16); hex_digit (c mod 16)]
  else [c].

Definition encode_str (s : str) : str := DQUOTE :: flat_map escape_char s ++ [DQUOTE].

(** [sep.join(l)] *)
Fixpoint join (sep : str) (l : list str) : str :=
  match l with
  | [] => []
  | [x] => x
  | x :: l' => x ++ sep ++ join sep l'
  end.

(** The program applies [json.dumps] to values that [json.loads] returned:
    their integers and their nesting are within the limits, and [json.dumps]
    raises nothing on them. *)
Fixpoint dumps `{Runtime} (v : json) : str :=
  match v with
  | JNull => NULL
  | JBool true => TRUE
  | JBool false => FALSE
  | JInt z => str_of_Z z
  | JFloat lx => float_repr lx
  | JStr s => encode_str s
  | JArr l => LBRACKET :: join (s2u ", ") (map dumps l) ++ [RBRACKET]
  | JObj kv =>
      LBRACE :: join (s2u ", ")
                  (map (fun p => encode_str (fst p) ++ s2u ": " ++ dumps (snd p)) kv)
        ++ [RBRACE]
  end.

End Json.

(* ===================================================================== *)
(** * [app/services/json_helper.py]: the resilient decoder *)
(* ===================================================================== *)

Module JsonHelper.
Import Re.

(** ** The patterns of [clean_json_response] (all MULTILINE) *)

Definition FENCE := [BACKTICK; BACKTICK; BACKTICK].

(** [^```json\s*\n?] with IGNORECASE *)
Definition FENCE_JSON_RE : regex :=
  cats [Bol; lits FENCE; lits_i (s2u "json"); Star ws; opt (lit LF)].

(** [^```\s*\n?] *)
Definition FENCE_OPEN_RE : regex :=
  cats [Bol; lits FENCE; Star ws; opt (lit LF)].

(** [\n?```\s*$] *)
Definition FENCE_CLOSE_RE : regex :=
  cats [opt (lit LF); lits FENCE; Star ws; Eol].

(** ** The patterns of [_fix_common_errors] (no flags) *)

Definition is_closer (c : char) : bool := N.eqb c RBRACE || N.eqb c RBRACKET.
Definition is_opener (c : char) : bool := N.eqb c LBRACE || N.eqb c LBRACKET.

(** A quoted string: a quote, then characters other than quote and backslash
    or a backslash with any character but a line feed, then a quote. *)
Definition QUOTED_RE : regex :=
  cats [lit DQUOTE;
        Star (Alt (Chr (fun c => negb (N.eqb c DQUOTE || N.eqb c BACKSLASH)))
                  (Cat (lit BACKSLASH) dot));
        lit DQUOTE].

(** A quoted key with its colon. *)
Definition KEY_RE : regex := cats [QUOTED_RE; Star ws; lit COLON].

(** Rule 1: a comma, blanks, a closing bracket (group 1). *)
Definition TRAILING_COMMA_RE : regex :=
  cats [lit COMMA; Star ws; Group 1 (Chr is_closer)].

(** Rule 2: a closing bracket, blanks, then an opening bracket or a quote. *)
Definition CLOSE_OPEN_RE : regex :=
  cats [Group 1 (Chr is_closer); Group 2 (Star ws);
        Group 3 (Chr (fun c => is_opener c || N.eqb c DQUOTE))].

(** Rule 3: a quoted string, blanks (at least one), a quoted key. *)
Definition STRING_KEY_RE : regex :=
  cats [Group 1 QUOTED_RE; Group 2 (plus ws); Group 3 KEY_RE].

(** Rule 4: digits or [true], [false], [null]; blanks; a quoted key. *)
Definition SCALAR_KEY_RE : regex :=
  cats [Group 1 (Alt (plus (Chr isdecimal))
                (Alt (lits (s2u "true")) (Alt (lits (s2u "false")) (lits (s2u "null")))));
        Group 2 (plus ws); Group 3 KEY_RE].

(** Rule 5: control characters other than tab, line feed, carriage return. *)
Definition CONTROL_RE : regex :=
  Chr (fun c => in_range 0 8 c || N.eqb c 11 || N.eqb c 12 || in_range 14 31 c
                || in_range 127 159 c).

Definition INSERT_COMMA : list titem := [TGroup 1; TLit [COMMA]; TGroup 2; TGroup 3].

(** The number of backslashes that end [s] (the loop that walks back from a
    quote). *)
Fixpoint leading_backslashes (s : str) : nat :=
  match s with
  | c :: s' => if N.eqb c BACKSLASH then S (leading_backslashes s') else O
  | [] => O
  end.

Definition trailing_backslashes (s : str) : nat := leading_backslashes (rev s).

(** ** [_fix_unescaped_newlines_in_strings] *)
Fixpoint fix_newlines_loop (text result : str) (in_string : bool) : str :=
  match text with
  | [] => result
  | c :: text' =>
      if N.eqb c DQUOTE then
        let in_string' :=
          if negb in_string then true
          else if Nat.even (trailing_backslashes result) then false else in_string in
        fix_newlines_loop text' (result ++ [c]) in_string'
      else if in_string && N.eqb c LF then
        fix_newlines_loop text' (result ++ [BACKSLASH; 110]) in_string
      else if in_string && N.eqb c CR then
        fix_newlines_loop text' (result ++ [BACKSLASH; 114]) in_string
      else if in_string && N.eqb c TAB then
        fix_newlines_loop text' (result ++ [BACKSLASH; 116]) in_string
      else fix_newlines_loop text' (result ++ [c]) in_string
  end.

Definition _fix_unescaped_newlines_in_strings (text : str) : str :=
  fix_newlines_loop text [] false.

(** ** [_fix_common_errors] *)
Definition _fix_common_errors (text : str) : str :=
  let result := text in
  let result := sub TRAILING_COMMA_RE [TGroup 1] result in
  let result := sub CLOSE_OPEN_RE INSERT_COMMA result in
  let result := sub STRING_KEY_RE INSERT_COMMA result in
  let result := sub SCALAR_KEY_RE INSERT_COMMA result in
  let result := sub CONTROL_RE [] result in
  _fix_unescaped_newlines_in_strings result.

Section WithRuntime.
Context `{Runtime}.

(** ** [_fix_trailing_content]: [i] runs from [len(text) - 1] down to 0;
    [n] is [i + 1].  The [try] has a bare [except]. *)
Fixpoint trailing_loop (text : str) (n : nat) : str :=
  match n with
  | O => text
  | S i =>
      match text !! i with
      | Some c =>
          if is_closer c && Json.valid (take (S i) text) then take (S i) text
          else trailing_loop text i
      | None => trailing_loop text i
      end
  end.

Definition _fix_trailing_content (text : str) : str := trailing_loop text (length text).

(** ** [_fix_missing_commas] *)

Definition BLANKS : str := [SPACE; TAB; LF; CR].

(** The test that decides whether a comma is added before the next value. *)
Definition needs_comma (result : str) (last_value_end : Z) : bool :=
  (0 <=? last_value_end)%Z &&
  (let between := drop (Z.to_nat last_value_end) result in
   negb (Nat.eqb (length (strip between)) 0)
   && negb (mem COMMA between) && negb (mem COLON between)).

Definition last_char (s : str) : option char := last s.

Fixpoint missing_commas_loop (text result : str) (in_string : bool)
    (last_value_end : Z) : str :=
  match text with
  | [] => result
  | c :: text' =>
      if N.eqb c DQUOTE then
        if negb in_string then
          let result := if needs_comma result last_value_end
                        then result ++ [COMMA] else result in
          missing_commas_loop text' (result ++ [c]) true last_value_end
        else if Nat.even (trailing_backslashes result) then
          missing_commas_loop text' (result ++ [c]) false
            (Z.of_nat (length result) + 1)%Z
        else missing_commas_loop text' (result ++ [c]) in_string last_value_end
      else if negb in_string && mem c BLANKS then
        let lve :=
          match last_char result with
          | Some p =>
              if negb (mem p (BLANKS ++ [COMMA; COLON; LBRACKET; LBRACE]))
              then Z.of_nat (length result) else last_value_end
          | None => last_value_end
          end in
        missing_commas_loop text' (result ++ [c]) in_string lve
      else if negb in_string && is_closer c then
        missing_commas_loop text' (result ++ [c]) in_string (-1)%Z
      else if negb in_string && is_opener c then
        let result := if needs_comma result last_value_end
                      then result ++ [COMMA] else result in
        missing_commas_loop text' (result ++ [c]) in_string (-1)%Z
      else missing_commas_loop text' (result ++ [c]) in_string last_value_end
  end.

Definition _fix_missing_commas (text : str) : str :=
  missing_commas_loop text [] false (-1)%Z.

(** ** [_extract_valid_json]; [None] is Python's [None].  The [try] has a
    bare [except]. *)

(** [for end in range(hi, lo, -1)]: the first valid [text[start:end]]. *)
Fixpoint first_valid_slice (text : str) (start lo : nat) (count : nat) : option str :=
  match count with
  | O => None
  | S k =>
      let e := (lo + S k)%nat in
      let candidate := take (e - start) (drop start text) in
      if Json.valid candidate then Some candidate
      else first_valid_slice text start lo k
  end.

(** The indices of the opening brackets of [text], from index [i] on. *)
Fixpoint opener_indices (text : str) (i : nat) : list nat :=
  match text with
  | [] => []
  | c :: text' =>
      if is_opener c then i :: opener_indices text' (S i)
      else opener_indices text' (S i)
  end.

Fixpoint first_some {A B} (f : A -> option B) (l : list A) : option B :=
  match l with
  | [] => None
  | x :: l' => match f x with Some y => Some y | None => first_some f l' end
  end.

Definition _extract_valid_json (text : str) : option str :=
  match first_valid_slice text 0 0 (length text) with
  | Some c => Some c
  | None =>
      first_some (fun start => first_valid_slice text start start (length text - start))
                 (opener_indices text 0)
  end.

(** ** [_try_aggressive_fix]; every [try] has a bare [except]. *)
Definition _try_aggressive_fix (text : str) : str :=
  let result := _fix_common_errors text in
  if Json.valid result then result else
  let result := _fix_trailing_content text in
  if Json.valid result then result else
  let result := _fix_missing_commas text in
  if Json.valid result then result else
  match _extract_valid_json text with
  | Some result =>
      if negb (Nat.eqb (length result) 0) && Json.valid result then result else text
  | None => text
  end.

(** ** [_try_fix_unclosed_json].  The stack is kept with its top first. *)
Definition closer_of (bracket : char) : str :=
  if N.eqb bracket LBRACE then [RBRACE]
  else if N.eqb bracket LBRACKET then [RBRACKET]
  else [].

(** What [try: json.loads(result) ... except json.JSONDecodeError: ...] does
    with the outcome of [json.loads]: the first continuation when it returns,
    the second on [JSONDecodeError]; any other exception goes on. *)
Definition on_decode_error {A} (r : res pyexc Json.json) (returns fails : res pyexc A)
    : res pyexc A :=
  match r with
  | Ret _ => returns
  | Raise JSONDecodeError => fails
  | Raise e => Raise e
  end.

Definition _try_fix_unclosed_json (text : str) (stack : list char) (in_string : bool)
    : res pyexc str :=
  let result := text in
  let result := if in_string then result ++ [DQUOTE] else result in
  let result := result ++ flat_map closer_of stack in
  on_decode_error (Json.loads result) (Ret result) (Ret text).

End WithRuntime.

(** ** The bracket matching loop of [clean_json_response].

    [before] holds the characters already passed, latest first; [i] is the
    index of the head of [text].  The result is [end] (-1 when the loop ran
    off the text), the stack and [in_string]. *)
Fixpoint match_brackets (text before : str) (i : nat) (stack : list char)
    (in_string : bool) : Z * list char * bool :=
  match text with
  | [] => ((-1)%Z, stack, in_string)
  | c :: text' =>
      if N.eqb c DQUOTE then
        let in_string' :=
          if negb in_string then true
          else if Nat.even (leading_backslashes before) then false else in_string in
        match_brackets text' (c :: before) (S i) stack in_string'
      else if in_string then
        match_brackets text' (c :: before) (S i) stack in_string
      else if is_opener c then
        match_brackets text' (c :: before) (S i) (c :: stack) in_string
      else if N.eqb c RBRACE then
        match stack with
        | top :: stack' =>
            if N.eqb top LBRACE then
              match stack' with
              | [] => (Z.of_nat i + 1, [], in_string)%Z
              | _ :: _ => match_brackets text' (c :: before) (S i) stack' in_string
              end
            else match_brackets text' (c :: before) (S i) stack in_string
        | [] => match_brackets text' (c :: before) (S i) stack in_string
        end
      else if N.eqb c RBRACKET then
        match stack with
        | top :: stack' =>
            if N.eqb top LBRACKET then
              match stack' with
              | [] => (Z.of_nat i + 1, [], in_string)%Z
              | _ :: _ => match_brackets text' (c :: before) (S i) stack' in_string
              end
            else match_brackets text' (c :: before) (S i) stack in_string
        | [] => match_brackets text' (c :: before) (S i) stack in_string
        end
      else match_brackets text' (c :: before) (S i) stack in_string
  end.

(** The index of the first opening bracket, or -1. *)
Fixpoint find_start (text : str) (i : nat) : Z :=
  match text with
  | [] => (-1)%Z
  | c :: text' => if is_opener c then Z.of_nat i else find_start text' (S i)
  end.

(** The text after the three fence substitutions and [strip()]. *)
Definition strip_markdown (text : str) : str :=
  let text := sub FENCE_JSON_RE [] text in
  let text := sub FENCE_OPEN_RE [] text in
  let text := sub FENCE_CLOSE_RE [] text in
  strip text.

Section WithRuntime.
Context `{Runtime}.

(** The text cut to its bracketed part: from the first opening bracket to
    the bracket that closes it, or to the end, with the closers the stack
    asks for when that yields JSON. *)
Definition extract_bracketed (text : str) : res pyexc str :=
  let '(end_, stack, in_string) := match_brackets text [] 0 [] false in
  if (0 <? end_)%Z then Ret (take (Z.to_nat end_) text)
  else
    match stack with
    | [] => Ret text
    | _ :: _ => _try_fix_unclosed_json text stack in_string
    end.

(** ** [clean_json_response].  The fast path has a bare [except]; the
    validation of the result catches [JSONDecodeError] alone, and the outer
    handler logs and raises again what reaches it. *)
Definition clean_json_response (text : str) : res pyexc str :=
  match text with
  | [] => Ret text
  | _ :: _ =>
      let text := strip_markdown text in
      if Json.valid text then Ret text else
      let start := find_start text 0 in
      if (start =? -1)%Z then Ret text else
      let text := if (0 <? start)%Z then drop (Z.to_nat start) text else text in
      let* result := extract_bracketed text in
      on_decode_error (Json.loads result) (Ret result) (Ret (_try_aggressive_fix result))
  end.

(** ** [parse_json]: the handler logs and raises again. *)
Definition parse_json (text : str) : res pyexc Json.json :=
  let* cleaned := clean_json_response text in
  Json.loads cleaned.

End WithRuntime.

End JsonHelper.

(* ===================================================================== *)
(** * [app/mcp/adapters]: the two strategies *)
(* ===================================================================== *)

Module Adapters.
Import Re.

(** ** [base.py] *)

Inductive AdapterType := FUNCTION_CALLING | PROMPT_INJECTION | REACT | XML.

(** The dataclass [ToolCallResult].  Python does not check the annotated
    types, so [tool_calls] and [raw_response] hold whatever the parser puts
    there. *)
Record ToolCallResult := MkToolCallResult {
  tool_calls : pyval;
  raw_response : pyval;
  has_tool_calls : bool;
  needs_continuation : bool }.

(** [ToolCallResult(tool_calls=[], raw_response=raw, has_tool_calls=False)];
    [needs_continuation] takes its default. *)
Definition no_tool_calls (raw : pyval) : ToolCallResult :=
  MkToolCallResult (PList []) raw false false.

(** The interface [BaseMCPAdapter] (without [build_continuation_prompt],
    which the orchestrator does not call). *)
Record BaseMCPAdapter := MkAdapter {
  adapter_type : AdapterType;
  supports_native_tools : bool;
  format_tools_for_prompt : list pyval -> str -> res pyexc str;
  parse_tool_calls : pyval -> res pyexc ToolCallResult }.

Definition K_choices := s2u "choices".
Definition K_message := s2u "message".
Definition K_tool_calls := s2u "tool_calls".
Definition K_function_call := s2u "function_call".
Definition K_content := s2u "content".
Definition K_id := s2u "id".
Definition K_type := s2u "type".
Definition K_function := s2u "function".
Definition K_name := s2u "name".
Definition K_arguments := s2u "arguments".

(** [x or y] *)
Definition py_or `{Runtime} (x y : pyval) : pyval := if truthy x then x else y.

(** The normalized invocation [{id, type, function: {name, arguments}}]. *)
Definition invocation (id type name arguments : pyval) : pyval :=
  PDict [(K_id, id); (K_type, type);
         (K_function, PDict [(K_name, name); (K_arguments, arguments)])].

Section WithRuntime.
Context `{Runtime}.

(** ** [function_calling.py] *)

(** One element of the list comprehension over the SDK's tool calls. *)
Definition convert_tool_call (tc : pyval) : res pyexc pyval :=
  let* id := py_getattr tc K_id in
  let* type := py_getattr tc K_type in
  let* f := py_getattr tc K_function in
  let* name := py_getattr f K_name in
  let* f' := py_getattr tc K_function in
  let* arguments := py_getattr f' K_arguments in
  Ret (invocation id type name arguments).

(** The name the log line reads: [tc['function']['name']]. *)
Definition logged_name (tc : pyval) : res pyexc pyval :=
  let* f := py_item tc K_function in py_item f K_name.

(** The statements after the three-way branch. *)
Definition fc_finish (tool_calls content : pyval) : res pyexc ToolCallResult :=
  let* n := py_len tool_calls in
  let has_tool_calls := Nat.ltb 0 n in
  let* _ := if has_tool_calls
            then let* items := py_iter tool_calls in mapM_res logged_name items
            else Ret [] in
  Ret (MkToolCallResult tool_calls (py_or content (PStr [])) has_tool_calls has_tool_calls).

(** The [try] block of [FunctionCallingAdapter.parse_tool_calls]. *)
Definition fc_try (ai_response : pyval) : res pyexc ToolCallResult :=
  if is_dict ai_response then
    let* choices := py_get ai_response K_choices (PList [PDict []]) in
    let* first := py_index0 choices in
    let* message := py_get first K_message (PDict []) in
    let* tool_calls := py_get message K_tool_calls (PList []) in
    let* content := py_get message K_content (PStr []) in
    fc_finish tool_calls content
  else if py_hasattr ai_response K_choices then
    let* choices := py_getattr ai_response K_choices in
    let* first := py_index0 choices in
    let* message := py_getattr first K_message in
    let tool_calls := py_or (py_getattr_default message K_tool_calls PNone) (PList []) in
    let content := py_or (py_getattr_default message K_content (PStr [])) (PStr []) in
    let* tool_calls :=
      if truthy tool_calls
      then let* items := py_iter tool_calls in
           let* l := mapM_res convert_tool_call items in Ret (PList l)
      else Ret tool_calls in
    fc_finish tool_calls content
  else Ret (no_tool_calls (PStr (py_str ai_response))).

(** [FunctionCallingAdapter.parse_tool_calls]: the [try] block and its
    [except Exception] handler. *)
Definition fc_parse_tool_calls (ai_response : pyval) : res pyexc ToolCallResult :=
  match fc_try ai_response with
  | Ret r => Ret r
  | Raise _ => Ret (no_tool_calls (PStr (py_str ai_response)))
  end.

Definition FunctionCallingAdapter : BaseMCPAdapter :=
  MkAdapter FUNCTION_CALLING true (fun _ user_message => Ret user_message)
            fc_parse_tool_calls.

(** ** [prompt_injection.py] *)

(** [<tag>(.*?)</tag>] with DOTALL and IGNORECASE *)
Definition tag_re (tag : string) : regex :=
  cats [lits_i (s2u "<" ++ s2u tag ++ s2u ">"); Group 1 (Lazy any);
        lits_i (s2u "</" ++ s2u tag ++ s2u ">")].

Definition TOOL_CALLS_RE := tag_re "tool_calls".
Definition TOOL_CALL_RE := tag_re "tool_call".
Definition TOOL_NAME_RE := tag_re "tool_name".
Definition ARGUMENTS_RE := tag_re "arguments".

(** The body of the loop over [enumerate(tool_call_matches)], from index [i]
    on; [tool_calls] is the list built so far.  The inner [try] catches
    [JSONDecodeError] alone: any other exception of [json.loads] leaves the
    loop. *)
Fixpoint tool_call_loop (matches : list str) (i : nat) (tool_calls : list pyval)
    : res pyexc (list pyval) :=
  match matches with
  | [] => Ret tool_calls
  | tool_call_content :: matches' =>
      let name_match := search TOOL_NAME_RE tool_call_content in
      let args_match := search ARGUMENTS_RE tool_call_content in
      match name_match, args_match with
      | Some name_match, Some args_match =>
          let tool_name := strip (group 1 name_match) in
          let arguments_str := strip (group 1 args_match) in
          match Json.loads arguments_str with
          | Ret arguments =>
              tool_call_loop matches' (S i)
                (tool_calls ++
                 [invocation (PStr (s2u "call_" ++ str_of_nat i))
                             (PStr (s2u "function")) (PStr tool_name)
                             (PStr (Json.dumps arguments))])
          | Raise JSONDecodeError => tool_call_loop matches' (S i) tool_calls
          | Raise e => Raise e
          end
      | _, _ => tool_call_loop matches' (S i) tool_calls
      end
  end.

(** The first statements of the [try] block: the response is reduced to the
    value the scan works on, unless the function returns at once. *)
Definition pi_normalize (ai_response : pyval) : res pyexc (ToolCallResult + pyval) :=
  if is_dict ai_response then
    let* choices := py_get ai_response K_choices (PList [PDict []]) in
    let* first := py_index0 choices in
    let* message := py_get first K_message (PDict []) in
    let* content := py_get message K_content (PStr []) in
    if negb (truthy content) then Ret (inl (no_tool_calls (PStr [])))
    else Ret (inr content)
  else if negb (is_str ai_response) then Ret (inr (PStr (py_str ai_response)))
  else Ret (inr ai_response).

(** The rest of the [try] block; [re.search] raises [TypeError] on a value
    that is not a string. *)
Definition pi_scan (ai_response : pyval) : res pyexc ToolCallResult :=
  match ai_response with
  | PStr text =>
      match search TOOL_CALLS_RE text with
      | None => Ret (no_tool_calls ai_response)
      | Some tool_calls_match =>
          let tool_calls_content := group 1 tool_calls_match in
          let tool_call_matches := findall1 TOOL_CALL_RE tool_calls_content in
          let* tool_calls := tool_call_loop tool_call_matches 0 [] in
          let has_tool_calls := Nat.ltb 0 (length tool_calls) in
          Ret (MkToolCallResult (PList tool_calls) ai_response
                                has_tool_calls has_tool_calls)
      end
  | _ => Raise TypeError
  end.

(** [PromptInjectionAdapter.parse_tool_calls].  The handler reads the
    variable [ai_response], which the [try] block may have rebound. *)
Definition pi_parse_tool_calls (ai_response : pyval) : res pyexc ToolCallResult :=
  match pi_normalize ai_response with
  | Raise _ => Ret (no_tool_calls ai_response)
  | Ret (inl r) => Ret r
  | Ret (inr ai_response') =>
      match pi_scan ai_response' with
      | Ret r => Ret r
      | Raise _ => Ret (no_tool_calls ai_response')
      end
  end.

(** [PromptInjectionAdapter.format_tools_for_prompt] *)
Definition pi_format_tools_for_prompt (tools : list pyval) (user_message : str)
    : res pyexc str :=
  match tools with
  | [] => Ret user_message
  | _ :: _ => enhanced_prompt tools user_message
  end.

Definition PromptInjectionAdapter : BaseMCPAdapter :=
  MkAdapter PROMPT_INJECTION false pi_format_tools_for_prompt pi_parse_tool_calls.

(** ** [PromptInjectionAdapter._extract_tool_calls_text]; [re.search] raises
    [TypeError] on a value that is not a string. *)

(** The text returned when no block is found: （未找到工具调用） *)
Definition NO_TOOL_CALLS_FOUND : str :=
  [65288; 26410; 25214; 21040; 24037; 20855; 35843; 29992; 65289].

Definition _extract_tool_calls_text (ai_response : pyval) : res pyexc str :=
  match ai_response with
  | PStr text =>
      match search TOOL_CALLS_RE text with
      | Some match_ => Ret (group 0 match_)
      | None => Ret NO_TOOL_CALLS_FOUND
      end
  | _ => Raise TypeError
  end.

(** ** [FunctionCallingAdapter.build_continuation_prompt] *)

(** The pieces of the two f-strings: 工具 , 的结果: and a line feed,
    工具执行结果: between line feeds, and the closing request
    请基于以上工具结果回答用户的问题。 after two line feeds. *)
Definition RESULT_HEAD : str := [24037; 20855; 32].
Definition RESULT_MID : str := [32; 30340; 32467; 26524; 58; 10].
Definition RESULTS_TITLE : str :=
  [10; 10; 24037; 20855; 25191; 34892; 32467; 26524; 58; 10].
Definition RESULTS_REQUEST : str :=
  [10; 10; 35831; 22522; 20110; 20197; 19978; 24037; 20855; 32467; 26524; 22238;
   31572; 29992; 25143; 30340; 38382; 39064; 12290].

(** One element of the list comprehension over [tool_results]. *)
Definition result_text (r : pyval) : res pyexc str :=
  let* name := py_item r K_name in
  let* content := py_item r K_content in
  Ret (RESULT_HEAD ++ py_str name ++ RESULT_MID ++ py_str content).

Definition fc_build_continuation_prompt (original_message : str) (ai_response : pyval)
    (tool_results : list pyval) : res pyexc str :=
  let* texts := mapM_res result_text tool_results in
  let results_text := Json.join [LF; LF] texts in
  Ret (original_message ++ RESULTS_TITLE ++ results_text ++ RESULTS_REQUEST).

(** ** [FunctionCallingAdapter.build_messages_with_tool_results] *)

Definition K_role := s2u "role".
Definition K_tool_call_id := s2u "tool_call_id".

(** The message appended for the AI's tool calls. *)
Definition assistant_message (tool_calls : pyval) : pyval :=
  PDict [(K_role, PStr (s2u "assistant")); (K_content, PNone);
         (K_tool_calls, tool_calls)].

(** The message appended for one tool result. *)
Definition tool_message (result : pyval) : res pyexc pyval :=
  let* tool_call_id := py_get result K_tool_call_id (PStr []) in
  let* name := py_get result K_name (PStr []) in
  let* content := py_get result K_content (PStr []) in
  Ret (PDict [(K_role, PStr (s2u "tool")); (K_tool_call_id, tool_call_id);
              (K_name, name); (K_content, content)]).

(** The loop over [tool_results]; [new_messages] is the list built so far. *)
Fixpoint tool_results_loop (tool_results : list pyval) (new_messages : list pyval)
    : res pyexc (list pyval) :=
  match tool_results with
  | [] => Ret new_messages
  | result :: tool_results' =>
      let* message := tool_message result in
      tool_results_loop tool_results' (new_messages ++ [message])
  end.

Definition build_messages_with_tool_results (messages : list pyval) (tool_calls : pyval)
    (tool_results : list pyval) : res pyexc (list pyval) :=
  let new_messages := messages in
  let new_messages := new_messages ++ [assistant_message tool_calls] in
  tool_results_loop tool_results new_messages.

End WithRuntime.
End Adapters.

(* ===================================================================== *)
(** * [app/mcp/adapters/universal.py]: capability cache and fallback *)
(* ===================================================================== *)

Module Universal.
Import Adapters.

(** The dataclass [APICapability].  [tested_at] is a [datetime] in
    microseconds, [test_duration_ms] the float of the source as an integer. *)
Record APICapability := MkCapability {
  supports_function_calling : bool;
  tested_at : Z;
  test_duration_ms : Z;
  error_message : option str }.

(** What the environment observes of a run: the awaited calls. *)
Inductive Event :=
| EvProbe (api_identifier : str)
| EvCall (message : str) (tools_param : option (list pyval)) (tool_choice_param : option str).

(** The fields of a [UniversalMCPAdapter], with the number of clock readings
    taken so far and the trace of awaited calls. *)
Record State := MkState {
  _capability_cache : gmap str APICapability;
  _cache_ttl : Z;
  _enable_auto_fallback : bool;
  clock_reads : nat;
  trace : list Event }.

Definition MICROSECONDS_PER_HOUR : Z := 3600000000.

(** [UniversalMCPAdapter(cache_ttl_hours, enable_auto_fallback)] *)
Definition init (cache_ttl_hours : Z) (enable_auto_fallback : bool) : State :=
  MkState ∅ (cache_ttl_hours * MICROSECONDS_PER_HOUR) enable_auto_fallback 0 [].

Definition set_cache (c : gmap str APICapability) (st : State) : State :=
  MkState c (_cache_ttl st) (_enable_auto_fallback st) (clock_reads st) (trace st).

Definition tick (st : State) : State :=
  MkState (_capability_cache st) (_cache_ttl st) (_enable_auto_fallback st)
          (S (clock_reads st)) (trace st).

Definition log (e : Event) (st : State) : State :=
  MkState (_capability_cache st) (_cache_ttl st) (_enable_auto_fallback st)
          (clock_reads st) (trace st ++ [e]).

(** A coroutine of the adapter: it ends with a value or an exception, and
    leaves a state either way. *)
Definition M (A : Type) : Type := State -> res pyexc A * State.

Definition ret {A} (a : A) : M A := fun st => (Ret a, st).
Definition raise {A} (e : pyexc) : M A := fun st => (Raise e, st).
Definition bind {A B} (c : M A) (f : A -> M B) : M B :=
  fun st => match c st with
            | (Ret a, st') => f a st'
            | (Raise e, st') => (Raise e, st')
            end.
Definition lift {A} (r : res pyexc A) : M A := fun st => (r, st).

(** [try: body except Exception as e: handler(e)] *)
Definition try_except {A} (body : M A) (handler : pyexc -> M A) : M A :=
  fun st => match body st with
            | (Ret a, st') => (Ret a, st')
            | (Raise e, st') => handler e st'
            end.

Notation "'let!' x ':=' c 'in' k" := (bind c (fun x => k))
  (at level 10, x name, c at level 200, k at level 200).

(** The caller's functions: [call_function(message, tools_param,
    tool_choice_param)] and [test_function()], by their outcome. *)
Definition call_fn := str -> option (list pyval) -> option str -> res pyexc pyval.
Definition test_fn := unit -> res pyexc pyval.

Section WithRuntime.
Context `{Runtime}.

(** A clock is read: the index of the reading. *)
Definition read_clock : M nat := fun st => (Ret (clock_reads st), tick st).

Definition await_call (call_function : call_fn) (message : str)
    (tools_param : option (list pyval)) (tool_choice_param : option str) : M pyval :=
  fun st => (call_function message tools_param tool_choice_param,
             log (EvCall message tools_param tool_choice_param) st).

Definition await_test (api_identifier : str) (test_function : test_fn) : M pyval :=
  fun st => (test_function tt, log (EvProbe api_identifier) st).

Definition store (api_identifier : str) (capability : APICapability) : M unit :=
  fun st => (Ret tt, set_cache (<[api_identifier := capability]> (_capability_cache st)) st).

(** ** [_get_cached_capability] *)
Definition _get_cached_capability (api_identifier : str) : M (option APICapability) :=
  fun st =>
    match _capability_cache st !! api_identifier with
    | None => (Ret None, st)
    | Some capability =>
        let t := now (clock_reads st) in
        let st := tick st in
        if (_cache_ttl st <? t - tested_at capability)%Z
        then (Ret None, set_cache (delete api_identifier (_capability_cache st)) st)
        else (Ret (Some capability), st)
    end.

(** ** [_is_function_calling_response] *)

Fixpoint is_infix (p s : str) : bool :=
  startswith p s || match s with [] => false | _ :: s' => is_infix p s' end.

(** [k in x] for a string [k] *)
Definition py_contains (k : str) (x : pyval) : res pyexc bool :=
  match x with
  | PDict kv => Ret (match assoc k kv with Some _ => true | None => false end)
  | PStr s => Ret (is_infix k s)
  | PList l => Ret (existsb (fun y => match y with PStr s => str_eqb s k | _ => false end) l)
  | _ => Raise TypeError
  end.

Definition fc_response_try (response : pyval) : res pyexc bool :=
  if is_dict response then
    let* choices := py_get response K_choices (PList [PDict []]) in
    let* first := py_index0 choices in
    let* message := py_get first K_message (PDict []) in
    let* a := py_contains K_tool_calls message in
    if a then Ret true else py_contains K_function_call message
  else if py_hasattr response K_choices then
    let* choices := py_getattr response K_choices in
    let* first := py_index0 choices in
    let* message := py_getattr first K_message in
    Ret (py_hasattr message K_tool_calls || py_hasattr message K_function_call)
  else Ret false.

Definition _is_function_calling_response (response : pyval) : bool :=
  match fc_response_try response with
  | Ret b => b
  | Raise _ => false
  end.

(** ** [_detect_capability] *)
Definition _detect_capability (api_identifier : str) (test_function : test_fn)
    : M APICapability :=
  let! start_time := read_clock in
  try_except
    (let! result := await_test api_identifier test_function in
     let supports_fc := _is_function_calling_response result in
     let! t1 := read_clock in
     let duration_ms := (time_ms t1 - time_ms start_time)%Z in
     let! t2 := read_clock in
     let capability := MkCapability supports_fc (now t2) duration_ms None in
     let! _ := store api_identifier capability in
     ret capability)
    (fun e =>
     let! t1 := read_clock in
     let duration_ms := (time_ms t1 - time_ms start_time)%Z in
     let! t2 := read_clock in
     let capability := MkCapability false (now t2) duration_ms (Some (exc_str e)) in
     let! _ := store api_identifier capability in
     ret capability).

(** ** [get_adapter] *)
Definition get_adapter (api_identifier : str) (test_function : option test_fn)
    : M BaseMCPAdapter :=
  let! capability := _get_cached_capability api_identifier in
  let! capability :=
    match capability, test_function with
    | None, Some test_function =>
        let! c := _detect_capability api_identifier test_function in ret (Some c)
    | _, _ => ret capability
    end in
  match capability with
  | Some c =>
      if supports_function_calling c then ret FunctionCallingAdapter
      else ret PromptInjectionAdapter
  | None => ret PromptInjectionAdapter
  end.

(** ** [_try_function_calling] and [_try_prompt_injection] *)
Definition _try_function_calling (tools : list pyval) (user_message : str)
    (call_function : call_fn) (adapter : BaseMCPAdapter) : M ToolCallResult :=
  let! response := await_call call_function user_message (Some tools) (Some (s2u "auto")) in
  lift (parse_tool_calls adapter response).

Definition _try_prompt_injection (tools : list pyval) (user_message : str)
    (call_function : call_fn) (adapter : BaseMCPAdapter) : M ToolCallResult :=
  let! enhanced_prompt := lift (format_tools_for_prompt adapter tools user_message) in
  let! response := await_call call_function enhanced_prompt None None in
  lift (parse_tool_calls adapter response).

(** The degrade step of [call_with_fallback]: the cache entry is
    overwritten with an unsupported record. *)
Definition degrade (api_identifier : str) (e : pyexc) : M unit :=
  let! t := read_clock in
  store api_identifier (MkCapability false (now t) 0 (Some (exc_str e))).

(** The first attempt and the [except] clause, for a resolved adapter. *)
Definition attempt (api_identifier : str) (tools : list pyval) (user_message : str)
    (call_function : call_fn) (adapter : BaseMCPAdapter) : M ToolCallResult :=
  try_except
    (if supports_native_tools adapter
     then _try_function_calling tools user_message call_function adapter
     else _try_prompt_injection tools user_message call_function adapter)
    (fun e st =>
       if _enable_auto_fallback st && supports_native_tools adapter then
         (let! _ := degrade api_identifier e in
          let fallback_adapter := PromptInjectionAdapter in
          _try_prompt_injection tools user_message call_function fallback_adapter) st
       else raise e st).

(** ** [call_with_fallback] *)
Definition call_with_fallback (api_identifier : str) (tools : list pyval)
    (user_message : str) (call_function : call_fn) (test_function : option test_fn)
    : M ToolCallResult :=
  let! adapter := get_adapter api_identifier test_function in
  attempt api_identifier tools user_message call_function adapter.

(** ** [clear_cache]: [None] and the empty string both clear everything. *)
Definition clear_cache (api_identifier : option str) : M unit :=
  fun st =>
    match api_identifier with
    | Some (c :: s) => (Ret tt, set_cache (delete (c :: s) (_capability_cache st)) st)
    | _ => (Ret tt, set_cache ∅ st)
    end.

(** ** The operations a caller can run on the adapter *)
Inductive Op :=
| OpGetAdapter (api_identifier : str) (test_function : option test_fn)
| OpCallWithFallback (api_identifier : str) (tools : list pyval) (user_message : str)
    (call_function : call_fn) (test_function : option test_fn)
| OpClearCache (api_identifier : option str).

Definition run_op (op : Op) (st : State) : State :=
  match op with
  | OpGetAdapter i tf => snd (get_adapter i tf st)
  | OpCallWithFallback i tools msg cf tf => snd (call_with_fallback i tools msg cf tf st)
  | OpClearCache i => snd (clear_cache i st)
  end.

Definition run_ops (ops : list Op) (st : State) : State :=
  fold_left (fun s op => run_op op s) ops st.

(** ** The event loop

    A coroutine of the adapter gives up control only where it awaits the
    caller's functions, at [await test_function()] and at [await
    call_function(...)]: the lock is never held across either, so taking it
    never waits.  Between two such points the statements of a coroutine run
    without interruption; other tasks run while it is suspended.  [run_op]
    above is a coroutine that nothing interrupts. *)

(** Who called the [get_adapter] that awaits a probe: the user, or
    [call_with_fallback] with its arguments. *)
Inductive Caller :=
| ByUser
| ByCallWithFallback (tools : list pyval) (user_message : str) (call_function : call_fn).

(** A task, by the point where it stands: not started; suspended in
    [_detect_capability] at [await test_function()], with its [start_time];
    suspended in the first attempt of [call_with_fallback] at [await
    call_function(...)], with the adapter it resolved and what the call will
    give; suspended in the retry of the [except] clause; finished. *)
Inductive Task :=
| NotStarted (op : Op)
| AwaitsTest (api_identifier : str) (test_function : test_fn) (start_time : nat)
    (caller : Caller)
| AwaitsCall (api_identifier : str) (tools : list pyval) (user_message : str)
    (call_function : call_fn) (adapter : BaseMCPAdapter) (outcome : res pyexc pyval)
| AwaitsRetry (outcome : res pyexc pyval)
| Finished.

(** The choice of adapter at the end of [get_adapter]. *)
Definition select_adapter (capability : option APICapability) : BaseMCPAdapter :=
  match capability with
  | Some c =>
      if supports_function_calling c then FunctionCallingAdapter
      else PromptInjectionAdapter
  | None => PromptInjectionAdapter
  end.

(** [_detect_capability] from the point where [await test_function()] gives
    [outcome]. *)
Definition detect_end (api_identifier : str) (start_time : nat)
    (outcome : res pyexc pyval) : M APICapability :=
  try_except
    (let! result := lift outcome in
     let supports_fc := _is_function_calling_response result in
     let! t1 := read_clock in
     let duration_ms := (time_ms t1 - time_ms start_time)%Z in
     let! t2 := read_clock in
     let capability := MkCapability supports_fc (now t2) duration_ms None in
     let! _ := store api_identifier capability in
     ret capability)
    (fun e =>
     let! t1 := read_clock in
     let duration_ms := (time_ms t1 - time_ms start_time)%Z in
     let! t2 := read_clock in
     let capability := MkCapability false (now t2) duration_ms (Some (exc_str e)) in
     let! _ := store api_identifier capability in
     ret capability).

(** The first attempt of [call_with_fallback] up to [await
    call_function(...)]; when the prompt cannot be built, the [except] clause
    raises the exception again. *)
Definition first_call (api_identifier : str) (tools : list pyval) (user_message : str)
    (call_function : call_fn) (adapter : BaseMCPAdapter) (st : State) : Task * State :=
  if supports_native_tools adapter then
    (AwaitsCall api_identifier tools user_message call_function adapter
       (call_function user_message (Some tools) (Some (s2u "auto"))),
     log (EvCall user_message (Some tools) (Some (s2u "auto"))) st)
  else
    match format_tools_for_prompt adapter tools user_message with
    | Ret enhanced_prompt =>
        (AwaitsCall api_identifier tools user_message call_function adapter
           (call_function enhanced_prompt None None),
         log (EvCall enhanced_prompt None None) st)
    | Raise _ => (Finished, st)
    end.

(** [get_adapter] has returned [adapter] to its caller. *)
Definition resolved (api_identifier : str) (adapter : BaseMCPAdapter) (caller : Caller)
    (st : State) : Task * State :=
  match caller with
  | ByUser => (Finished, st)
  | ByCallWithFallback tools user_message call_function =>
      first_call api_identifier tools user_message call_function adapter st
  end.

(** [get_adapter] from its start to its return or to [await
    test_function()]. *)
Definition get_adapter_begin (api_identifier : str) (test_function : option test_fn)
    (caller : Caller) (st : State) : Task * State :=
  match _get_cached_capability api_identifier st with
  | (Ret None, st1) =>
      match test_function with
      | Some test_function =>
          let (start_time, st2) := (clock_reads st1, tick st1) in
          (AwaitsTest api_identifier test_function start_time caller,
           log (EvProbe api_identifier) st2)
      | None => resolved api_identifier (select_adapter None) caller st1
      end
  | (Ret capability, st1) => resolved api_identifier (select_adapter capability) caller st1
  | (Raise _, st1) => (Finished, st1)
  end.

(** [call_with_fallback] from the point where the first [await
    call_function(...)] gives [outcome]: the result is parsed, or the
    [except] clause runs up to the [await] of the retry. *)
Definition first_call_end (api_identifier : str) (tools : list pyval)
    (user_message : str) (call_function : call_fn) (adapter : BaseMCPAdapter)
    (outcome : res pyexc pyval) (st : State) : Task * State :=
  match (let* response := outcome in parse_tool_calls adapter response) with
  | Ret _ => (Finished, st)
  | Raise e =>
      if _enable_auto_fallback st && supports_native_tools adapter then
        let st1 := snd (degrade api_identifier e st) in
        let fallback_adapter := PromptInjectionAdapter in
        match format_tools_for_prompt fallback_adapter tools user_message with
        | Ret enhanced_prompt =>
            (AwaitsRetry (call_function enhanced_prompt None None),
             log (EvCall enhanced_prompt None None) st1)
        | Raise _ => (Finished, st1)
        end
      else (Finished, st)
  end.

(** The task runs from where it stands to its next [await], or to its end. *)
Definition advance (t : Task) (st : State) : Task * State :=
  match t with
  | NotStarted (OpGetAdapter i tf) => get_adapter_begin i tf ByUser st
  | NotStarted (OpCallWithFallback i tools msg cf tf) =>
      get_adapter_begin i tf (ByCallWithFallback tools msg cf) st
  | NotStarted (OpClearCache i) => (Finished, snd (clear_cache i st))
  | AwaitsTest i tf start_time caller =>
      match detect_end i start_time (tf tt) st with
      | (Ret capability, st1) => resolved i (select_adapter (Some capability)) caller st1
      | (Raise _, st1) => (Finished, st1)
      end
  | AwaitsCall i tools msg cf adapter outcome =>
      first_call_end i tools msg cf adapter outcome st
  | AwaitsRetry _ => (Finished, st)
  | Finished => (Finished, st)
  end.

(** The adapter and the tasks of the event loop. *)
Record Loop := MkLoop { adapter_state : State; tasks : list Task }.

(** The event loop resumes the task at index [i]. *)
Definition resume (i : nat) (l : Loop) : Loop :=
  match tasks l !! i with
  | Some t =>
      let (t', st') := advance t (adapter_state l) in
      MkLoop st' (<[i := t']> (tasks l))
  | None => l
  end.

(** The event loop resumes one task after the other, as the schedule says. *)
Definition run_schedule (schedule : list nat) (l : Loop) : Loop :=
  fold_left (fun l i => resume i l) schedule l.

(** The task runs alone to its end: it has at most three [await]s. *)
Definition run_alone (t : Task) (st : State) : State :=
  let (t1, st1) := advance t st in
  let (t2, st2) := advance t1 st1 in
  let (t3, st3) := advance t2 st2 in
  snd (advance t3 st3).

(** The probes of one endpoint in a trace. *)
Definition is_probe_of (api_identifier : str) (e : Event) : bool :=
  match e with
  | EvProbe i => str_eqb i api_identifier
  | EvCall _ _ _ => false
  end.

Definition probes (api_identifier : str) (tr : list Event) : nat :=
  length (List.filter (is_probe_of api_identifier) tr).

End WithRuntime.
End Universal.

(* ===================================================================== *)
(** * Vocabulary of the statements *)
(* ===================================================================== *)

Module Spec.
Import Re JsonHelper Adapters Universal.

(** ** The decoder *)

(** The text [clean_json_response] works on before any repair: fences
    removed and blanks stripped, then cut to start at the first opening
    bracket and to stop after the bracket that closes it. *)
Definition candidate (text : str) : str :=
  let t := strip_markdown text in
  let start := find_start t 0 in
  if (start =? -1)%Z then t else
  let t' := if (0 <? start)%Z then drop (Z.to_nat start) t else t in
  let '(end_, _, _) := match_brackets t' [] 0 [] false in
  if (0 <? end_)%Z then take (Z.to_nat end_) t' else t'.



(** ** The adapters *)

(** [enumerate(l)], and the same counting from [i]. *)
Definition enumerate_from {A} (i : nat) (l : list A) : list (nat * A) :=
  combine (seq i (length l)) l.

Definition enumerate {A} (l : list A) : list (nat * A) := enumerate_from 0 l.

(** A runtime for closed examples: a float prints as its lexeme, the clocks
    advance by one unit per reading, the instruction text is the user
    message alone, integers have up to 4300 digits (CPython's default) and
    brackets nest 991 deep. *)
Definition sample_runtime : Runtime :=
  {| float_repr := λ lexeme, lexeme;
     float_truthy := λ _, true;
     repr_other := λ _, s2u "<object>";
     exc_str := λ e, match e with Exception m => m | _ => [] end;
     now := λ k, Z.of_nat k;
     time_ms := λ k, Z.of_nat k;
     enhanced_prompt := λ _ user_message, Ret user_message;
     int_max_str_digits := 4300;
     nesting_room := 990 |}.

Section WithRuntime.
Context `{Runtime}.

(** An entry the loop keeps: both tags are found and the stripped body of
    the arguments tag is JSON. *)
Definition well_formed (entry : str) : bool :=
  match search TOOL_NAME_RE entry, search ARGUMENTS_RE entry with
  | Some _, Some args_match => Json.valid (strip (group 1 args_match))
  | _, _ => false
  end.

Definition entry_name (entry : str) : str :=
  match search TOOL_NAME_RE entry with
  | Some name_match => strip (group 1 name_match)
  | None => []
  end.

Definition entry_arguments (entry : str) : str :=
  match search ARGUMENTS_RE entry with
  | Some args_match =>
      match Json.loads (strip (group 1 args_match)) with
      | Ret arguments => Json.dumps arguments
      | Raise _ => []
      end
  | None => []
  end.

(** The exception that leaves the loop at an entry: what [json.loads] raises
    on the arguments of an entry with both tags, unless it is
    [JSONDecodeError]. *)
Definition entry_fault (entry : str) : option pyexc :=
  match search TOOL_NAME_RE entry, search ARGUMENTS_RE entry with
  | Some _, Some args_match =>
      match Json.loads (strip (group 1 args_match)) with
      | Ret _ | Raise JSONDecodeError => None
      | Raise e => Some e
      end
  | _, _ => None
  end.

(** The invocation built from the entry at index [p.1]. *)
Definition entry_invocation (p : nat * str) : pyval :=
  invocation (PStr (s2u "call_" ++ str_of_nat p.1)) (PStr (s2u "function"))
             (PStr (entry_name p.2)) (PStr (entry_arguments p.2)).

(** The well-formed entries with their indices among all entries. *)
Definition surviving (entries : list str) : list (nat * str) :=
  List.filter (λ p, well_formed p.2) (enumerate entries).

(** What a failure inside a [try] block leaves: no invocation. *)
Definition empty_result (r : ToolCallResult) : Prop :=
  tool_calls r = PList [] ∧ has_tool_calls r = false ∧ needs_continuation r = false.



(** The [try] block of [PromptInjectionAdapter.parse_tool_calls] raises. *)
Definition pi_try_raises (ai_response : pyval) : Prop :=
  (∃ e, pi_normalize ai_response = Raise e)
  ∨ (∃ a e, pi_normalize ai_response = Ret (inr a) ∧ pi_scan a = Raise e).

(** ** The orchestrator *)

(** The adapter [get_adapter] selects for a looked-up capability. *)
Definition adapter_for (c : option APICapability) : BaseMCPAdapter :=
  match c with
  | Some c => if supports_function_calling c then FunctionCallingAdapter
              else PromptInjectionAdapter
  | None => PromptInjectionAdapter
  end.

(** The record a probe leaves. *)
Definition probed_record (tf : test_fn) (st : State) : APICapability :=
  let k := clock_reads st in
  match tf tt with
  | Ret result =>
      MkCapability (_is_function_calling_response result) (now (S (S k)))
                   (time_ms (S k) - time_ms k) None
  | Raise e =>
      MkCapability false (now (S (S k))) (time_ms (S k) - time_ms k) (Some (exc_str e))
  end.

(** The record the degrade step writes when clock reading [k] is taken. *)
Definition degraded_record (k : nat) (e : pyexc) : APICapability :=
  MkCapability false (now k) 0 (Some (exc_str e)).



(** From reading [k0] to the readings a run has taken when it leaves the
    state [st], no reading is further than the TTL [ttl] from an earlier
    one. *)
Definition within_ttl (k0 : nat) (ttl : Z) (st : State) : Prop :=
  ∀ k' k, (k0 ≤ k' ≤ k)%nat → (k < clock_reads st)%nat → (now k - now k' ≤ ttl)%Z.

End WithRuntime.

(** The operation removes the record of [id]. *)
Definition clears (id : str) (op : Op) : bool :=
  match op with
  | OpClearCache (Some (c :: s)) => str_eqb (c :: s) id
  | OpClearCache _ => true
  | _ => false
  end.


(** ** Inputs of the examples *)

Definition endpoint : str := s2u "ep".

(** A probe answered with a tool-call field. *)
Definition probe_native : test_fn :=
  λ _, Ret (PDict [(K_choices, PList [PDict [(K_message, PDict [(K_tool_calls, PList [])])]])]).

(** A call that fails whenever tools are passed natively. *)
Definition native_fails : call_fn :=
  λ _ tools_param _,
    match tools_param with
    | Some _ => Raise (Exception (s2u "boom"))
    | None => Ret (PStr (s2u "plain answer"))
    end.

(** Three tasks on one endpoint: a [get_adapter] and two calls of
    [call_with_fallback], every one with the probe. *)
Definition racing_tasks : list Task :=
  [NotStarted (OpGetAdapter endpoint (Some probe_native));
   NotStarted (OpCallWithFallback endpoint [PDict []] (s2u "hi") native_fails
                 (Some probe_native));
   NotStarted (OpCallWithFallback endpoint [PDict []] (s2u "again") native_fails
                 (Some probe_native))].


(** A block whose arguments are not JSON, then a well-formed one. *)
Definition bad_then_good : str :=
  jq "<tool_calls><tool_call><tool_name>a</tool_name><arguments>{bad}</arguments></tool_call><tool_call><tool_name>b</tool_name><arguments>{}</arguments></tool_call></tool_calls>".

(** The digit 1, 4301 times. *)
Definition huge_integer : str := repeat 49%N 4301.

(** A well-formed block, then one whose arguments are an integer of 4301
    digits. *)
Definition good_then_huge : str :=
  s2u "<tool_calls><tool_call><tool_name>a</tool_name><arguments>{}</arguments></tool_call><tool_call><tool_name>b</tool_name><arguments>"
  ++ huge_integer ++ s2u "</arguments></tool_call></tool_calls>".


(** A mapping-shaped response whose tool call holds its arguments as a
    mapping. *)
Definition raw_arguments_response : pyval :=
  PDict [(K_choices, PList [PDict [(K_message, PDict
    [(K_content, PNone);
     (K_tool_calls, PList [invocation (PStr (s2u "call_1")) (PStr (s2u "function"))
                             (PStr (s2u "f")) (PDict [(s2u "a", PInt 1)])])])]])].

End Spec.

(* ===================================================================== *)
(** * Vocabulary of the lexical analysis of JSON texts *)
(* ===================================================================== *)

Module Lexical.
Import Re JsonHelper Json.

(** The lexical state of a JSON text: outside a string, inside one, or just
    after a backslash inside one. *)
Inductive lex := Out | InStr | Esc.

(** One character; [None] when no JSON text continues this way. *)
Definition lex_step (q : lex) (c : char) : option lex :=
  match q with
  | Out => if N.eqb c DQUOTE then Some InStr
           else if N.eqb c BACKTICK then None else Some Out
  | InStr => if N.eqb c DQUOTE then Some Out
             else if N.eqb c BACKSLASH then Some Esc
             else if c <=? 31 then None else Some InStr
  | Esc => if N.eqb c 117 then Some InStr
           else match Json.simple_escape c with Some _ => Some InStr | None => None end
  end.

Fixpoint lex_run (q : lex) (s : str) : option lex :=
  match s with
  | [] => Some q
  | c :: s' => match lex_step q c with Some q' => lex_run q' s' | None => None end
  end.

(** At a line start of a text that lexes, no backtick follows. *)
Definition line_start_inv (p : option char) (s : str) : Prop :=
  ∃ q, lex_run q s ≠ None ∧ ((p = None ∨ p = Some LF) → q = Out).

(** A character that ends a number. *)
Definition stops (c : char) : bool :=
  negb (isdigit_ascii c || N.eqb c 46 || N.eqb c 101 || N.eqb c 69).

(** What may follow a value for the scanner to stop where it did. *)
Definition term (r : str) : Prop :=
  match r with [] => True | c :: _ => stops c = true end.

(** The first and the last character of [pre] are not blanks. *)
Definition edges (pre : str) : Prop :=
  (∃ c t, pre = c :: t ∧ isspace c = false)
  ∧ (∃ t c, pre = t ++ [c] ∧ isspace c = false).

(** [pre] reads as complete JSON tokens. *)
Definition tokens (pre : str) : Prop := lex_run Out pre = Some Out ∧ edges pre.

(** A character of a number. *)
Definition is_numchar (c : char) : bool :=
  isdigit_ascii c || N.eqb c 45 || N.eqb c 43 || N.eqb c 46 || N.eqb c 101 || N.eqb c 69.

(** The text after a run of digits does not go on with a digit. *)
Definition no_digit (x : str) : Prop :=
  match x with [] => True | c :: _ => isdigit_ascii c = false end.

Definition sign_text (neg : bool) : str := if neg then [45] else [].

Definition no_point (x : str) : Prop :=
  match x with [] => True | c :: _ => c ≠ 46 end.

Definition no_e (x : str) : Prop :=
  match x with [] => True | c :: _ => c ≠ 101 ∧ c ≠ 69 end.

(** A number starts with a digit, or with a minus and a digit. *)
Definition number_start (pre : str) : Prop :=
  ∃ c t, pre = c :: t
         ∧ (isdigit_ascii c = true
            ∨ (c = 45 ∧ ∃ d t', t = d :: t' ∧ isdigit_ascii d = true)).

(** The first character does not open a string, an object or an array. *)
Definition scalar_start (pre : str) : Prop :=
  ∃ c t, pre = c :: t ∧ c ≠ DQUOTE ∧ c ≠ LBRACE ∧ c ≠ LBRACKET.

(** The second half of a surrogate pair written as two escapes. *)
Definition surrogate_pair (u : N) (s3 : str) : option (N * str) :=
  match s3 with
  | b :: u' :: g1 :: g2 :: g3 :: g4 :: s4 =>
      match hex4 g1 g2 g3 g4 with
      | Some lo =>
          if is_high_surrogate u && N.eqb b BACKSLASH && N.eqb u' 117 && is_low_surrogate lo
          then Some (join_surrogates u lo, s4) else None
      | None => None
      end
  | _ => None
  end.

(** What [scanstring] consumed is the rest of one string literal, and it reads
    the same whatever follows. *)
Definition string_local (s v r : str) : Prop :=
  ∃ pre, s = pre ++ r
         ∧ lex_run InStr pre = Some Out
         ∧ (∃ t, pre = t ++ [DQUOTE])
         ∧ ∀ x, scanstring (pre ++ x) = Some (v, x).

(** The grammar that [scan_value] follows, without the limits of the
    interpreter: what the scanner returns whenever it returns. *)
Fixpoint parse_value (fuel : nat) (s : str) : option (json * str) :=
  match fuel with
  | O => None
  | S f =>
      match s with
      | [] => None
      | c :: s1 =>
          if N.eqb c DQUOTE then
            match scanstring s1 with
            | Some (v, r) => Some (JStr v, r)
            | None => None
            end
          else if N.eqb c LBRACE then
            match skip_ws s1 with
            | c2 :: s2 =>
                if N.eqb c2 RBRACE then Some (JObj [], s2)
                else parse_members f (skip_ws s1) []
            | [] => None
            end
          else if N.eqb c LBRACKET then
            match skip_ws s1 with
            | c2 :: s2 =>
                if N.eqb c2 RBRACKET then Some (JArr [], s2)
                else parse_elements f (skip_ws s1) []
            | [] => None
            end
          else scan_scalar s
      end
  end
with parse_elements (fuel : nat) (s : str) (acc : list json) : option (json * str) :=
  match fuel with
  | O => None
  | S f =>
      match parse_value f s with
      | None => None
      | Some (v, r) =>
          match skip_ws r with
          | c :: r1 =>
              if N.eqb c RBRACKET then Some (JArr (rev (v :: acc)), r1)
              else if N.eqb c COMMA then parse_elements f (skip_ws r1) (v :: acc)
              else None
          | [] => None
          end
      end
  end
with parse_members (fuel : nat) (s : str) (acc : list (str * json)) : option (json * str) :=
  match fuel with
  | O => None
  | S f =>
      match s with
      | q :: s1 =>
          if N.eqb q DQUOTE then
            match scanstring s1 with
            | None => None
            | Some (key, r) =>
                match skip_ws r with
                | c :: r1 =>
                    if N.eqb c COLON then
                      match parse_value f (skip_ws r1) with
                      | None => None
                      | Some (v, r2) =>
                          match skip_ws r2 with
                          | d :: r3 =>
                              if N.eqb d RBRACE
                              then Some (JObj (dict_set key v acc), r3)
                              else if N.eqb d COMMA
                              then parse_members f (skip_ws r3) (dict_set key v acc)
                              else None
                          | [] => None
                          end
                      end
                    else None
                | [] => None
                end
            end
          else None
      | [] => None
      end
  end.

Section WithRuntime.
Context `{Runtime}.

(** The outcome of a scan with [x] as the text left over. *)
Definition with_rest (x : str) (o : res pyexc (json * str)) : res pyexc (json * str) :=
  match o with
  | Ret (v, _) => Ret (v, x)
  | Raise e => Raise e
  end.

(** What the grammar consumed reads as complete tokens, and it is read
    again with the same result, whatever follows and with any fuel from the
    bound on: by the grammar, and by the scanner at any depth (which returns
    that result, or raises what it raised). *)
Definition value_local (f : nat) : Prop :=
  ∀ s v r, parse_value f s = Some (v, r) →
    ∃ pre, s = pre ++ r ∧ tokens pre
           ∧ (∀ x f', term x → (2 * length pre ≤ f')%nat →
                      parse_value f' (pre ++ x) = Some (v, x))
           ∧ (∀ x f' d, term x → (2 * length pre ≤ f')%nat →
                        scan_value f' d (pre ++ x) = with_rest x (scan_value f d s)).

Definition elements_local (f : nat) : Prop :=
  ∀ s acc v r, parse_elements f s acc = Some (v, r) →
    ∃ pre, s = pre ++ r ∧ tokens pre
           ∧ (∀ x f', (2 * length pre + 1 ≤ f')%nat →
                      parse_elements f' (pre ++ x) acc = Some (v, x))
           ∧ (∀ x f' d, (2 * length pre + 1 ≤ f')%nat →
                        scan_elements f' d (pre ++ x) acc
                        = with_rest x (scan_elements f d s acc)).

Definition members_local (f : nat) : Prop :=
  ∀ s acc v r, parse_members f s acc = Some (v, r) →
    ∃ pre, s = pre ++ r ∧ tokens pre
           ∧ (∀ x f', (2 * length pre + 1 ≤ f')%nat →
                      parse_members f' (pre ++ x) acc = Some (v, x))
           ∧ (∀ x f' d, (2 * length pre + 1 ≤ f')%nat →
                        scan_members f' d (pre ++ x) acc
                        = with_rest x (scan_members f d s acc)).

End WithRuntime.

End Lexical.

(* ===================================================================== *)
(** * Vocabulary of the further properties *)
(* ===================================================================== *)

Module Props.
Import Re JsonHelper Json Lexical Adapters.

(** ** The repairs *)

(** The scanner of the decoder's repairs agrees with the lexical state [q]:
    it is inside a string exactly when [q] is, and the backslashes that end
    what it has written are odd in number exactly after an escaping
    backslash. *)
Definition tracks (q : lex) (result : str) (in_string : bool) : Prop :=
  match q with
  | Out => in_string = false
  | InStr => in_string = true ∧ Nat.even (trailing_backslashes result) = true
  | Esc => in_string = true ∧ Nat.even (trailing_backslashes result) = false
  end.

(** [out] is [text] with commas added, each just before a double quote or an
    opening bracket. *)
Inductive commas_added : str → str → Prop :=
| ca_nil : commas_added [] []
| ca_keep c text out : commas_added text out → commas_added (c :: text) (c :: out)
| ca_add c text out :
    N.eqb c DQUOTE || is_opener c = true →
    commas_added text out → commas_added (c :: text) (COMMA :: c :: out).

(** The class of rule 5 of [_fix_common_errors]. *)
Definition is_control (c : char) : bool :=
  in_range 0 8 c || N.eqb c 11 || N.eqb c 12 || in_range 14 31 c || in_range 127 159 c.

(** [text[i:j]] *)
Definition slice (text : str) (i j : nat) : str := take (j - i) (drop i text).

(** [s] ends with a closing bracket and is JSON. *)
Definition closed_json `{Runtime} (s : str) : bool :=
  match last s with Some c => is_closer c | None => false end && valid s.

(** An opening bracket stands at index [i] of [text]. *)
Definition opener_at (text : str) (i : nat) : Prop :=
  ∃ c, text !! i = Some c ∧ is_opener c = true.

Definition no_backtick (s : str) : Prop := Forall (λ c, c ≠ BACKTICK) s.

(** ** The bracket scan *)

(** A character the bracket scan passes over outside a string. *)
Definition is_plain (c : char) : bool :=
  negb (N.eqb c DQUOTE || is_opener c || is_closer c).

(** How the bracket scan goes on after the bracket that closes the top of
    the stack. *)
Definition after_close (x before : str) (i : nat) (stack : list char)
    : Z * list char * bool :=
  match stack with
  | [] => (Z.of_nat i, [], false)
  | _ :: _ => match_brackets x before i stack false
  end.

Definition string_brackets (s r : str) : Prop :=
  ∃ pre, s = pre ++ r
         ∧ ∀ x before i stack,
             Nat.even (leading_backslashes before) = true →
             match_brackets (pre ++ x) before i stack true
             = match_brackets x (rev pre ++ before) (i + length pre) stack false.

Definition value_brackets (f : nat) : Prop :=
  ∀ s v r, parse_value f s = Some (v, r) →
    ∃ pre, s = pre ++ r
           ∧ ∀ x before i top stack,
               match_brackets (pre ++ x) before i (top :: stack) false
               = match_brackets x (rev pre ++ before) (i + length pre) (top :: stack) false.

Definition elements_brackets (f : nat) : Prop :=
  ∀ s acc v r, parse_elements f s acc = Some (v, r) →
    ∃ pre, s = pre ++ r
           ∧ ∀ x before i stack,
               match_brackets (pre ++ x) before i (LBRACKET :: stack) false
               = after_close x (rev pre ++ before) (i + length pre) stack.

Definition members_brackets (f : nat) : Prop :=
  ∀ s acc v r, parse_members f s acc = Some (v, r) →
    ∃ pre, s = pre ++ r
           ∧ ∀ x before i stack,
               match_brackets (pre ++ x) before i (LBRACE :: stack) false
               = after_close x (rev pre ++ before) (i + length pre) stack.

(** A character of the prose around a JSON text: no double quote and no
    backtick. *)
Definition is_prose (c : char) : bool := negb (N.eqb c DQUOTE || N.eqb c BACKTICK).

(** [s] starts with an opening bracket. *)
Definition opens (s : str) : bool :=
  match s with c :: _ => is_opener c | [] => false end.

(** ** Fenced blocks *)

(** The character before the position reached after [s], when [p] was before
    [s]. *)
Definition last_or (p : option char) (s : str) : option char :=
  match last s with Some c => Some c | None => p end.

(** A fenced block: the opening fence, with the tag [json] or without, a line
    feed, the body, a line feed, the closing fence. *)
Definition fenced (tagged : bool) (body : str) : str :=
  FENCE ++ (if tagged then s2u "json" else []) ++ [LF] ++ body ++ [LF] ++ FENCE.

(** ** JSON written and read back *)

(** No float occurs in [v]. *)
Fixpoint float_free (v : json) : bool :=
  match v with
  | JFloat _ => false
  | JArr l => forallb float_free l
  | JObj kv => forallb (λ p, float_free (snd p)) kv
  | _ => true
  end.

(** The keys are pairwise different. *)
Fixpoint keys_distinct (ks : list str) : bool :=
  match ks with
  | [] => true
  | k :: ks' => negb (existsb (str_eqb k) ks') && keys_distinct ks'
  end.

(** Every object of [v] has pairwise different keys, as in any value that
    [json.loads] returns. *)
Fixpoint distinct_keys (v : json) : bool :=
  match v with
  | JArr l => forallb distinct_keys l
  | JObj kv => keys_distinct (map fst kv) && forallb (λ p, distinct_keys (snd p)) kv
  | _ => true
  end.

(** The digit step of [Z_of_digits]. *)
Definition digit_step (acc : Z) (c : char) : Z := (acc * 10 + Z.of_N (c - 48))%Z.

(** The digits [json.dumps] writes for an integer. *)
Definition digits (z : Z) : nat := length (str_of_N (Z.abs_N z)).

Section WithRuntime.
Context `{Runtime}.

(** The value, standing inside [depth] arrays and objects, is within the
    limits of the interpreter: no integer has too many digits and no bracket
    is nested too deep. *)
Fixpoint within_limits (depth : nat) (v : json) : bool :=
  match v with
  | JInt z => negb (too_many_digits (digits z))
  | JArr l => negb (too_deep (S depth)) && forallb (within_limits (S depth)) l
  | JObj kv =>
      negb (too_deep (S depth)) && forallb (λ p, within_limits (S depth) (snd p)) kv
  | _ => true
  end.

(** The text of a value within the limits is read back as that value,
    whatever follows. *)
Definition reads_back (v : json) : Prop :=
  float_free v = true → distinct_keys v = true →
  ∀ d x f, within_limits d v = true → term x → (2 * length (dumps v) ≤ f)%nat →
           scan_value f d (dumps v ++ x) = Ret (v, x).

Definition member_text (p : str * json) : str :=
  encode_str (fst p) ++ s2u ": " ++ dumps (snd p).

(** What the scanner returns is within the limits. *)
Definition value_within (f : nat) : Prop :=
  ∀ d s v r, scan_value f d s = Ret (v, r) → within_limits d v = true.

Definition elements_within (f : nat) : Prop :=
  ∀ d s acc v r, scan_elements f d s acc = Ret (v, r) →
    forallb (within_limits d) acc = true →
    ∃ l, v = JArr l ∧ forallb (within_limits d) l = true.

Definition members_within (f : nat) : Prop :=
  ∀ d s acc v r, scan_members f d s acc = Ret (v, r) →
    forallb (λ p, within_limits d (snd p)) acc = true →
    ∃ kv, v = JObj kv ∧ forallb (λ p, within_limits d (snd p)) kv = true.

End WithRuntime.

Definition value_keys (f : nat) : Prop :=
  ∀ s v r, parse_value f s = Some (v, r) → distinct_keys v = true.

Definition elements_keys (f : nat) : Prop :=
  ∀ s acc v r, parse_elements f s acc = Some (v, r) →
    forallb distinct_keys acc = true → distinct_keys v = true.

Definition members_keys (f : nat) : Prop :=
  ∀ s acc v r, parse_members f s acc = Some (v, r) →
    keys_distinct (map fst acc) = true →
    forallb (λ p, distinct_keys (snd p)) acc = true → distinct_keys v = true.

Section WithRuntime.
Context `{Runtime}.

(** An invocation of the prompt-injection parser: the fixed type, and as
    arguments the text [json.dumps] writes for a loaded value [v], which
    [json.loads] reads back as [v] when [v] holds no float. *)
Definition json_arguments (inv : pyval) : Prop :=
  ∃ id name source v,
    inv = invocation (PStr id) (PStr (s2u "function")) (PStr name) (PStr (Json.dumps v))
    ∧ Json.loads source = Ret v
    ∧ (float_free v = true → Json.loads (Json.dumps v) = Ret v).

End WithRuntime.

(** ** Tagged blocks *)

(** The text starts with the pattern, letters compared as IGNORECASE does. *)
Fixpoint istarts (pat s : str) : bool :=
  match pat, s with
  | [], _ => true
  | p :: pat', c :: s' => ichar p c && istarts pat' s'
  | _ :: _, [] => false
  end.

(** The first position at which the text starts with the pattern. *)
Fixpoint find_i (pat s : str) : option nat :=
  if istarts pat s then Some 0%nat
  else match s with
       | [] => None
       | _ :: s' => option_map S (find_i pat s')
       end.

(** The opening and the closing tag of a name. *)
Definition open_tag (tag : string) : str := s2u "<" ++ s2u tag ++ s2u ">".
Definition close_tag (tag : string) : str := s2u "</" ++ s2u tag ++ s2u ">".

(** What the pattern of a tag matches at the start of a text: the body up
    to the first closing tag, and the text after that closing tag. *)
Definition tag_split (tag : string) (s : str) : option (str * str) :=
  if istarts (open_tag tag) s then
    let s1 := drop (length (open_tag tag)) s in
    match find_i (close_tag tag) s1 with
    | Some j => Some (take j s1, drop (j + length (close_tag tag)) s1)
    | None => None
    end
  else None.

(** The lazy repetition of [any]: the continuation is tried at every
    position, the nearest first. *)
Fixpoint lazy_scan (k : kont) (p : option char) (s : str) (g : list (nat * str))
    : option mstate :=
  match k (MState p s g) with
  | Some r => Some r
  | None => match s with
            | [] => None
            | c :: s' => lazy_scan k (Some c) s' g
            end
  end.

(** The character before the position reached after [n] characters. *)
Fixpoint prev_after (p : option char) (n : nat) (s : str) : option char :=
  match n, s with
  | S n', c :: s' => prev_after (Some c) n' s'
  | _, _ => p
  end.













Section WithRuntime.
Context `{Runtime}.




End WithRuntime.

End Props.

(* ===================================================================== *)
(** * Vocabulary of the results and of the calls *)
(* ===================================================================== *)

Module CallProps.
Import Re Adapters Universal Spec.

(** ** The results of the adapters *)

(** The name of every invocation can be read as the log line reads it. *)
Definition names_readable (l : list pyval) : Prop :=
  Forall (λ tc, ∃ name, logged_name tc = Ret name) l.

(** The flags of a result agree with its list: both flags are equal, and
    they are set exactly when the list is not empty. *)
Definition coherent (r : ToolCallResult) : Prop :=
  needs_continuation r = has_tool_calls r
  ∧ if has_tool_calls r
    then ∃ tc l, tool_calls r = PList (tc :: l) ∧ names_readable (tc :: l)
    else py_len (tool_calls r) = Ret 0%nat.

(** A mapping-shaped response whose message holds the key [tool_calls] with
    the value [None], beside a text. *)
Definition null_tool_calls_response : pyval :=
  PDict [(K_choices, PList [PDict [(K_message, PDict
    [(K_content, PStr (s2u "hello")); (K_tool_calls, PNone)])]])].

(** ** Tool results *)

(** [d.get(k, '')] on the items of a dictionary. *)
Definition field_or_empty (k : str) (kv : list (str * pyval)) : pyval :=
  default (PStr []) (Py.assoc k kv).

(** The message of role [tool] for a result with the items [kv]. *)
Definition tool_message_of (kv : list (str * pyval)) : pyval :=
  PDict [(K_role, PStr (s2u "tool"));
         (K_tool_call_id, field_or_empty K_tool_call_id kv);
         (K_name, field_or_empty K_name kv);
         (K_content, field_or_empty K_content kv)].

(** One tool result and the message written for it. *)
Definition answers (result message : pyval) : Prop :=
  ∃ kv, result = PDict kv ∧ message = tool_message_of kv.

(** The value has the key: [k in d] for a dictionary [d]. *)
Definition has_key (k : str) (d : pyval) : bool :=
  match d with
  | PDict kv => match Py.assoc k kv with Some _ => true | None => false end
  | _ => false
  end.

Definition named_result (r : pyval) : bool := has_key K_name r && has_key K_content r.

(** ** The awaited calls *)

(** The call of the native attempt: the user message, the tools and the
    tool choice [auto]. *)
Definition native_call (tools : list pyval) (msg : str) : Event :=
  EvCall msg (Some tools) (Some (s2u "auto")).

Section WithRuntime.
Context `{Runtime}.

(** The call of the prompt-injection attempt: the prompt with the tools
    written into it, and no tools parameter; no call when the prompt cannot
    be built. *)
Definition injected_calls (tools : list pyval) (msg : str) : list Event :=
  match pi_format_tools_for_prompt tools msg with
  | Ret p => [EvCall p None None]
  | Raise _ => []
  end.

(** The native call raised. *)
Definition native_raises (cf : call_fn) (tools : list pyval) (msg : str) : bool :=
  match cf msg (Some tools) (Some (s2u "auto")) with
  | Ret _ => false
  | Raise _ => true
  end.

End WithRuntime.

(** A probe and a call that fail. *)
Definition probe_fails : test_fn := λ _, Raise (Exception (s2u "down")).

Definition call_fails : call_fn := λ _ _ _, Raise (Exception (s2u "down")).

End CallProps.

(* ===================================================================== *)
(** * Properties of the resilient decoder *)
(* ===================================================================== *)

Module DecoderFacts.
Import JsonHelper Spec.

Section WithRuntime.
Context `{Runtime}.

Lemma valid_true (s : str) : Json.valid s = true ↔ ∃ v, Json.loads s = Ret v.
Proof.
  unfold Json.valid. destruct (Json.loads s) as [v | e]; split.
  - intros _. exists v. reflexivity.
  - reflexivity.
  - discriminate.
  - intros [v Hv]. discriminate.
Qed.





(** C6.  The decoder repairs the truncated text [{'a': 1, 'b': 'x] to
    [{'a': 1, 'b': 'x'}] (an apostrophe stands for a double quote, as in
    [jq]): the bracket scan ends inside a string with the
    brace still on the stack, [_try_fix_unclosed_json] adds the quote and the
    closing brace, and the result parses to the object with both keys. *)
Theorem truncation_repair :
  let text := jq "{'a': 1, 'b': 'x" in
  clean_json_response text = Ret (jq "{'a': 1, 'b': 'x'}")
  ∧ match_brackets text [] 0 [] false = ((-1)%Z, [LBRACE], true)
  ∧ _try_fix_unclosed_json text [LBRACE] true = Ret (text ++ [DQUOTE] ++ [RBRACE])
  ∧ (let* cleaned := clean_json_response text in Json.loads cleaned)
    = Ret (Json.JObj [(s2u "a", Json.JInt 1); (s2u "b", Json.JStr (s2u "x"))]).
Proof. vm_compute. do 3 (split; [reflexivity |]). reflexivity. Qed.


End WithRuntime.



End DecoderFacts.

(* ===================================================================== *)
(** * Properties of the adapters *)
(* ===================================================================== *)

Module AdapterFacts.
Import Re Adapters Spec.

Lemma enumerate_from_cons {A} i (x : A) l :
  enumerate_from i (x :: l) = (i, x) :: enumerate_from (S i) l.
Proof. reflexivity. Qed.

Lemma enumerate_from_lookup {A} (l : list A) i j p :
  enumerate_from i l !! j = Some p → p.1 = (i + j)%nat ∧ l !! j = Some p.2.
Proof.
  revert i j. induction l as [| x l IH]; intros i j; [destruct j; discriminate |].
  rewrite enumerate_from_cons. destruct j as [| j]; simpl.
  - intros [= <-]. simpl. split; [lia | reflexivity].
  - intros Hp. apply IH in Hp as [-> Hl]. split; [lia | exact Hl].
Qed.

Lemma enumerate_from_take {A} (l : list A) i j :
  take j (enumerate_from i l) = enumerate_from i (take j l).
Proof.
  revert i j. induction l as [| x l IH]; intros i j; [destruct j; reflexivity |].
  destruct j as [| j]; [reflexivity |].
  simpl take. rewrite !enumerate_from_cons. simpl. f_equal. apply IH.
Qed.

Lemma filter_snd_enumerate_from {A} (P : A → bool) (l : list A) i :
  length (List.filter (λ p, P p.2) (enumerate_from i l)) = length (List.filter P l).
Proof.
  revert i. induction l as [| x l IH]; intros i; [reflexivity |].
  rewrite enumerate_from_cons. simpl. destruct (P x); simpl; rewrite IH; reflexivity.
Qed.

Lemma filter_lookup_position {A} (P : A → bool) (l : list A) k x :
  List.filter P l !! k = Some x →
  ∃ j, l !! j = Some x ∧ P x = true ∧ k = length (List.filter P (take j l)).
Proof.
  revert k. induction l as [| y l IH]; intros k; [destruct k; discriminate |].
  simpl. destruct (P y) eqn:Hy.
  - destruct k as [| k]; simpl.
    + intros [= <-]. exists 0%nat. auto.
    + intros Hk. apply IH in Hk as (j & Hj & Hx & ->).
      exists (S j). simpl. rewrite Hy. auto.
  - intros Hk. apply IH in Hk as (j & Hj & Hx & ->).
    exists (S j). simpl. rewrite Hy. auto.
Qed.

Section WithRuntime.
Context `{Runtime}.

Lemma tool_call_loop_cons (e : str) (es : list str) (i : nat) (acc : list pyval) :
  tool_call_loop (e :: es) i acc
  = match entry_fault e with
    | Some x => Raise x
    | None =>
        if well_formed e
        then tool_call_loop es (S i) (acc ++ [entry_invocation (i, e)])
        else tool_call_loop es (S i) acc
    end.
Proof.
  unfold entry_fault, well_formed, entry_invocation, entry_name, entry_arguments, Json.valid.
  cbn [tool_call_loop fst snd].
  destruct (search TOOL_NAME_RE e) as [nm |]; [| reflexivity].
  destruct (search ARGUMENTS_RE e) as [am |]; [| reflexivity].
  destruct (Json.loads (strip (group 1 am))) as [a | x]; [reflexivity |].
  destruct x; reflexivity.
Qed.

Lemma tool_call_loop_spec (entries : list str) (i : nat) (acc : list pyval) :
  Forall (λ e, entry_fault e = None) entries →
  tool_call_loop entries i acc
  = Ret (acc ++ map entry_invocation
                  (List.filter (λ p, well_formed p.2) (enumerate_from i entries))).
Proof.
  intros Hall. revert i acc. induction Hall as [| e es He _ IH]; intros i acc.
  - cbn. rewrite app_nil_r. reflexivity.
  - rewrite tool_call_loop_cons, He, enumerate_from_cons.
    cbn [List.filter snd]. destruct (well_formed e); rewrite IH.
    + rewrite <- app_assoc. reflexivity.
    + reflexivity.
Qed.

Lemma tool_call_loop_fault (entries : list str) (i : nat) (acc : list pyval) :
  Exists (λ e, entry_fault e ≠ None) entries →
  ∃ x, tool_call_loop entries i acc = Raise x.
Proof.
  intros Hex. revert i acc. induction Hex as [e es He | e es _ IH]; intros i acc.
  - rewrite tool_call_loop_cons. destruct (entry_fault e) as [x |]; [| contradiction].
    exists x. reflexivity.
  - rewrite tool_call_loop_cons. destruct (entry_fault e) as [x |];
      [exists x; reflexivity |].
    destruct (well_formed e); apply IH.
Qed.

Lemma fault_or_not (entries : list str) :
  Forall (λ e, entry_fault e = None) entries
  ∨ Exists (λ e, entry_fault e ≠ None) entries.
Proof.
  induction entries as [| e es [IH | IH]].
  - left. constructor.
  - destruct (entry_fault e) eqn:He.
    + right. constructor. rewrite He. discriminate.
    + left. constructor; assumption.
  - right. apply Exists_cons_tl. exact IH.
Qed.


Lemma pi_parse_str (text : str) (m : Match) :
  search TOOL_CALLS_RE text = Some m →
  Forall (λ e, entry_fault e = None) (findall1 TOOL_CALL_RE (group 1 m)) →
  let calls := map entry_invocation (surviving (findall1 TOOL_CALL_RE (group 1 m))) in
  pi_parse_tool_calls (PStr text)
  = Ret (MkToolCallResult (PList calls) (PStr text)
           (Nat.ltb 0 (length calls)) (Nat.ltb 0 (length calls))).
Proof.
  intros Hm Hall calls. unfold pi_parse_tool_calls, pi_normalize, pi_scan.
  cbn [is_dict is_str negb]. rewrite Hm, tool_call_loop_spec by exact Hall. reflexivity.
Qed.

Lemma pi_parse_fault (text : str) (m : Match) :
  search TOOL_CALLS_RE text = Some m →
  Exists (λ e, entry_fault e ≠ None) (findall1 TOOL_CALL_RE (group 1 m)) →
  pi_parse_tool_calls (PStr text) = Ret (no_tool_calls (PStr text)).
Proof.
  intros Hm Hex. unfold pi_parse_tool_calls, pi_normalize, pi_scan.
  cbn [is_dict is_str negb]. rewrite Hm.
  destruct (tool_call_loop_fault _ 0 [] Hex) as [x ->]. reflexivity.
Qed.



Lemma fc_finish_tool_calls (tcs content : pyval) (r : ToolCallResult) :
  fc_finish tcs content = Ret r → tool_calls r = tcs.
Proof.
  unfold fc_finish. destruct (py_len tcs) as [n |]; simpl; [| discriminate].
  destruct (Nat.ltb 0 n).
  - destruct (py_iter tcs) as [items |]; simpl; [| discriminate].
    destruct (mapM_res logged_name items); simpl; [| discriminate].
    intros [= <-]. reflexivity.
  - simpl. intros [= <-]. reflexivity.
Qed.




(** C4, amended.  The id of a surviving invocation is [call_i] where [i]
    is the 0-based position of its entry among all tool_call entries of the
    span, skipped ones included.  The invocation at position [k] of the result
    comes from the entry [i] that has exactly [k] well-formed entries before
    it, so [k <= i], with equality only when no entry before it was skipped. *)
Theorem invocation_id_is_entry_index (text : str) (m : Match) :
  search TOOL_CALLS_RE text = Some m →
  let entries := findall1 TOOL_CALL_RE (group 1 m) in
  ∃ calls : list pyval,
    pi_parse_tool_calls (PStr text)
    = Ret (MkToolCallResult (PList calls) (PStr text)
             (Nat.ltb 0 (length calls)) (Nat.ltb 0 (length calls)))
    ∧ ∀ (k : nat) (inv : pyval),
        calls !! k = Some inv →
        ∃ (i : nat) (e : str),
          entries !! i = Some e ∧ well_formed e = true
          ∧ inv = invocation (PStr (s2u "call_" ++ str_of_nat i)) (PStr (s2u "function"))
                             (PStr (entry_name e)) (PStr (entry_arguments e))
          ∧ k = length (List.filter well_formed (take i entries))
          ∧ (k ≤ i)%nat.
Proof.
  intros Hm entries.
  destruct (fault_or_not entries) as [Hall | Hex];
    [| exists []; split; [exact (pi_parse_fault text m Hm Hex) | intros k inv [=]]].
  exists (map entry_invocation (surviving entries)).
  split; [exact (pi_parse_str text m Hm Hall) |].
  intros k inv Hk. rewrite list_lookup_fmap in Hk.
  destruct (surviving entries !! k) as [[i e] |] eqn:Hs; [| discriminate].
  injection Hk as <-.
  apply filter_lookup_position in Hs as (j & Hj & Hwf & ->).
  apply enumerate_from_lookup in Hj as [Hi He]. simpl in Hi, He, Hwf. subst i.
  exists j, e. split; [exact He |]. split; [exact Hwf |]. split; [reflexivity |].
  unfold enumerate. rewrite enumerate_from_take, filter_snd_enumerate_from.
  split; [reflexivity |].
  etransitivity; [apply filter_length_le |]. rewrite length_take. lia.
Qed.


(** C10.  [parse_tool_calls] of both adapters returns a [ToolCallResult]
    for every input and never raises; when the [try] block fails, the result
    has no invocation, [has_tool_calls] false and [needs_continuation] false.
    A dictionary whose [choices] list is empty is such an input for both. *)
Theorem parse_tool_calls_total (ai_response : pyval) :
  (∃ r, parse_tool_calls FunctionCallingAdapter ai_response = Ret r
        ∧ ((∃ e, fc_try ai_response = Raise e) → empty_result r))
  ∧ (∃ r, parse_tool_calls PromptInjectionAdapter ai_response = Ret r
          ∧ (pi_try_raises ai_response → empty_result r))
  ∧ (∃ r, parse_tool_calls FunctionCallingAdapter (PDict [(K_choices, PList [])]) = Ret r
          ∧ empty_result r)
  ∧ (∃ r, parse_tool_calls PromptInjectionAdapter (PDict [(K_choices, PList [])]) = Ret r
          ∧ empty_result r).
Proof.
  cbn [parse_tool_calls FunctionCallingAdapter PromptInjectionAdapter].
  split; [| split; [| split]].
  - unfold fc_parse_tool_calls. destruct (fc_try ai_response) as [r | e] eqn:Hb.
    + exists r. split; [reflexivity |]. intros [e He]. discriminate.
    + eexists. split; [reflexivity |]. intros _. repeat split.
  - unfold pi_parse_tool_calls, pi_try_raises.
    destruct (pi_normalize ai_response) as [[r | a] | e] eqn:Hn.
    + exists r. split; [reflexivity |].
      intros [[e He] | (a & e & Ha & _)]; discriminate.
    + destruct (pi_scan a) as [r | e] eqn:Hs.
      * exists r. split; [reflexivity |].
        intros [[e He] | (a' & e & Ha & He)]; [discriminate |].
        injection Ha as <-. rewrite Hs in He. discriminate.
      * eexists. split; [reflexivity |]. intros _. repeat split.
    + eexists. split; [reflexivity |]. intros _. repeat split.
  - eexists. split; [vm_compute; reflexivity | repeat split].
  - eexists. split; [vm_compute; reflexivity | repeat split].
Qed.

End WithRuntime.

(** C2 as stated fails: the first block of [good_then_huge] is well-formed,
    [json.loads] raises [ValueError] on the integer of 4301 digits of the
    second, and no invocation comes back. *)
Lemma huge_integer_loses_siblings :
  @pi_parse_tool_calls sample_runtime (PStr good_then_huge)
  = Ret (no_tool_calls (PStr good_then_huge))
  ∧ @Json.loads sample_runtime huge_integer = Raise ValueError
  ∧ ∃ m : Match,
      search TOOL_CALLS_RE good_then_huge = Some m
      ∧ List.filter (@well_formed sample_runtime) (findall1 TOOL_CALL_RE (group 1 m))
        = [s2u "<tool_name>a</tool_name><arguments>{}</arguments>"].
Proof.
  split; [vm_compute; reflexivity |]. split; [vm_compute; reflexivity |].
  eexists. split; [vm_compute; reflexivity |]. vm_compute. reflexivity.
Qed.


(** C4 as stated fails: the only surviving invocation of [bad_then_good]
    stands at position 0 and has the id [call_1]. *)
Lemma first_survivor_is_call_1 :
  @pi_parse_tool_calls sample_runtime (PStr bad_then_good)
  = Ret (MkToolCallResult
           (PList [invocation (PStr (s2u "call_1")) (PStr (s2u "function"))
                              (PStr (s2u "b")) (PStr (s2u "{}"))])
           (PStr bad_then_good) true true).
Proof. vm_compute. reflexivity. Qed.

Lemma invocation_id_is_entry_index_witness :
  ∃ m : Match,
    search TOOL_CALLS_RE bad_then_good = Some m
    ∧ ∃ calls : list pyval,
        @pi_parse_tool_calls sample_runtime (PStr bad_then_good)
        = Ret (MkToolCallResult (PList calls) (PStr bad_then_good)
                 (Nat.ltb 0 (length calls)) (Nat.ltb 0 (length calls)))
        ∧ ∀ (k : nat) (inv : pyval), calls !! k = Some inv → ∃ i : nat, (k ≤ i)%nat.
Proof.
  eexists. split; [vm_compute; reflexivity |].
  destruct (@invocation_id_is_entry_index sample_runtime bad_then_good _
              ltac:(vm_compute; reflexivity)) as (calls & Hp & Hk).
  exists calls. split; [exact Hp |].
  intros k inv Hl. destruct (Hk k inv Hl) as (i & _ & _ & _ & _ & _ & Hle).
  exists i. exact Hle.
Defined.



End AdapterFacts.

(* ===================================================================== *)
(** * Properties of the capability cache and the fallback *)
(* ===================================================================== *)

Module UniversalFacts.
Import Adapters Universal Spec.

Lemma str_eqb_eq (a b : str) : str_eqb a b = true ↔ a = b.
Proof.
  revert b. induction a as [| x a IH]; intros [| y b]; simpl; try (split; congruence).
  rewrite andb_true_iff, N.eqb_eq, IH. split; [intros [-> ->]; reflexivity | intros [= -> ->]; auto].
Qed.


Lemma probes_app (j : str) (tr tr' : list Event) :
  probes j (tr ++ tr') = (probes j tr + probes j tr')%nat.
Proof. unfold probes. rewrite List.filter_app, length_app. reflexivity. Qed.

Lemma probes_call (j : str) (tr : list Event) m t c :
  probes j (tr ++ [EvCall m t c]) = probes j tr.
Proof. rewrite probes_app. unfold probes at 2. simpl. lia. Qed.


Lemma probes_probe_same (j : str) (tr : list Event) :
  probes j (tr ++ [EvProbe j]) = S (probes j tr).
Proof.
  rewrite probes_app. unfold probes at 2. simpl.
  rewrite (proj2 (str_eqb_eq j j) eq_refl). simpl. lia.
Qed.

Section WithRuntime.
Context `{Runtime}.

Lemma get_cached_miss (id : str) (st : State) :
  _capability_cache st !! id = None →
  _get_cached_capability id st = (Ret None, st).
Proof. intros Hc. unfold _get_cached_capability. rewrite Hc. reflexivity. Qed.

Lemma get_cached_hit (id : str) (st : State) (c : APICapability) :
  _capability_cache st !! id = Some c →
  (now (clock_reads st) - tested_at c ≤ _cache_ttl st)%Z →
  _get_cached_capability id st = (Ret (Some c), tick st).
Proof.
  intros Hc Ht. unfold _get_cached_capability. rewrite Hc. cbn [tick _cache_ttl].
  destruct (Z.ltb_spec (_cache_ttl st) (now (clock_reads st) - tested_at c)); [lia | reflexivity].
Qed.

Lemma get_cached_expired (id : str) (st : State) (c : APICapability) :
  _capability_cache st !! id = Some c →
  (_cache_ttl st < now (clock_reads st) - tested_at c)%Z →
  _get_cached_capability id st
  = (Ret None, set_cache (delete id (_capability_cache st)) (tick st)).
Proof.
  intros Hc Ht. unfold _get_cached_capability. rewrite Hc. cbn [tick _cache_ttl].
  destruct (Z.ltb_spec (_cache_ttl st) (now (clock_reads st) - tested_at c)); [reflexivity | lia].
Qed.

Lemma detect_spec (id : str) (tf : test_fn) (st : State) :
  _detect_capability id tf st
  = (Ret (probed_record tf st),
     MkState (<[id := probed_record tf st]> (_capability_cache st)) (_cache_ttl st)
             (_enable_auto_fallback st) (S (S (S (clock_reads st))))
             (trace st ++ [EvProbe id])).
Proof.
  unfold _detect_capability, probed_record, bind, try_except, read_clock, await_test,
    store, ret, tick, log, set_cache.
  cbn. destruct (tf tt); reflexivity.
Qed.

Lemma get_adapter_unfold (id : str) (tf : option test_fn) (st : State) :
  get_adapter id tf st
  = match _get_cached_capability id st with
    | (Ret (Some c), st') => (Ret (adapter_for (Some c)), st')
    | (Ret None, st') =>
        match tf with
        | Some f =>
            match _detect_capability id f st' with
            | (Ret c, st'') => (Ret (adapter_for (Some c)), st'')
            | (Raise e, st'') => (Raise e, st'')
            end
        | None => (Ret PromptInjectionAdapter, st')
        end
    | (Raise e, st') => (Raise e, st')
    end.
Proof.
  unfold get_adapter, bind, ret, adapter_for.
  destruct (_get_cached_capability id st) as [[[c |] | e] st']; try reflexivity.
  - destruct tf; destruct (supports_function_calling c); reflexivity.
  - destruct tf as [f |]; [| reflexivity].
    destruct (_detect_capability id f st') as [[c | e] st'']; [| reflexivity].
    destruct (supports_function_calling c); reflexivity.
Qed.


(** ** What one attempt does to the state *)

Lemma try_pi_state (tools : list pyval) (msg : str) (cf : call_fn)
    (adapter : BaseMCPAdapter) (st : State) :
  let st' := snd (_try_prompt_injection tools msg cf adapter st) in
  _capability_cache st' = _capability_cache st
  ∧ _cache_ttl st' = _cache_ttl st
  ∧ _enable_auto_fallback st' = _enable_auto_fallback st
  ∧ clock_reads st' = clock_reads st
  ∧ ∀ j, probes j (trace st') = probes j (trace st).
Proof.
  unfold _try_prompt_injection, bind, lift, await_call.
  destruct (format_tools_for_prompt adapter tools msg) as [p | e]; cbn.
  - destruct (cf p None None) as [response | e]; cbn;
      repeat split; intros; apply probes_call.
  - repeat split.
Qed.

Lemma attempt_not_native (id : str) (tools : list pyval) (msg : str) (cf : call_fn)
    (adapter : BaseMCPAdapter) (st : State) :
  supports_native_tools adapter = false →
  attempt id tools msg cf adapter st = _try_prompt_injection tools msg cf adapter st.
Proof.
  intros Hn. unfold attempt, try_except. rewrite Hn.
  destruct (_try_prompt_injection tools msg cf adapter st) as [[r | e] st'] eqn:E;
    [reflexivity |].
  rewrite andb_false_r. reflexivity.
Qed.

Lemma attempt_state (id : str) (tools : list pyval) (msg : str) (cf : call_fn)
    (adapter : BaseMCPAdapter) (st : State) :
  let st' := snd (attempt id tools msg cf adapter st) in
  _cache_ttl st' = _cache_ttl st
  ∧ _enable_auto_fallback st' = _enable_auto_fallback st
  ∧ (clock_reads st ≤ clock_reads st')%nat
  ∧ (∀ j, probes j (trace st') = probes j (trace st))
  ∧ (_capability_cache st' = _capability_cache st
     ∨ (supports_native_tools adapter = true
        ∧ ∃ e, _capability_cache st'
               = <[id := degraded_record (clock_reads st) e]> (_capability_cache st))).
Proof.
  destruct (supports_native_tools adapter) eqn:Hn.
  - unfold attempt, try_except. rewrite Hn.
    unfold _try_function_calling, bind, lift, await_call.
    set (st1 := log _ st).
    assert (Hdeg : ∀ e,
      let st' := snd (if _enable_auto_fallback st1 && true
                      then bind (degrade id e) (λ _,
                             _try_prompt_injection tools msg cf PromptInjectionAdapter) st1
                      else raise e st1) in
      _cache_ttl st' = _cache_ttl st
      ∧ _enable_auto_fallback st' = _enable_auto_fallback st
      ∧ (clock_reads st ≤ clock_reads st')%nat
      ∧ (∀ j, probes j (trace st') = probes j (trace st))
      ∧ (_capability_cache st' = _capability_cache st
         ∨ (true = true
            ∧ ∃ e, _capability_cache st'
                   = <[id := degraded_record (clock_reads st) e]> (_capability_cache st)))).
    { intros e. destruct (_enable_auto_fallback st1 && true) eqn:Hf.
      - unfold bind, degrade, read_clock, store, bind.
        cbn -[_try_prompt_injection].
        set (st2 := set_cache _ (tick st1)).
        destruct (try_pi_state tools msg cf PromptInjectionAdapter st2)
          as (Hc & Ht & Hfl & Hr & Hp).
        rewrite Ht, Hfl, Hr, Hc.
        split; [reflexivity |]. split; [reflexivity |].
        split; [cbn; lia |]. split; [intros j; rewrite Hp; apply probes_call |].
        right. split; [reflexivity |]. exists e. reflexivity.
      - cbn. split; [reflexivity |]. split; [reflexivity |]. split; [lia |].
        split; [intros j; apply probes_call | left; reflexivity]. }
    destruct (cf msg (Some tools) (Some (s2u "auto"))) as [response | e].
    + destruct (parse_tool_calls adapter response) as [r | e].
      * cbn. split; [reflexivity |]. split; [reflexivity |]. split; [lia |].
        split; [intros j; apply probes_call | left; reflexivity].
      * apply Hdeg.
    + apply Hdeg.
  - rewrite attempt_not_native by exact Hn.
    destruct (try_pi_state tools msg cf adapter st) as (Hc & Ht & Hfl & Hr & Hp).
    cbn zeta. rewrite Ht, Hfl, Hr, Hc. repeat split; [lia | exact Hp | left; reflexivity].
Qed.

(** ** What [get_adapter] does to the state *)

Lemma get_adapter_hit (id : str) (tf : option test_fn) (st : State) (c : APICapability) :
  _capability_cache st !! id = Some c →
  (now (clock_reads st) - tested_at c ≤ _cache_ttl st)%Z →
  get_adapter id tf st = (Ret (adapter_for (Some c)), tick st).
Proof.
  intros Hc Ht. rewrite get_adapter_unfold, (get_cached_hit id st c Hc Ht). reflexivity.
Qed.

Lemma get_cached_state (id : str) (st : State) :
  ∃ oc st', _get_cached_capability id st = (Ret oc, st')
    ∧ _cache_ttl st' = _cache_ttl st
    ∧ _enable_auto_fallback st' = _enable_auto_fallback st
    ∧ (clock_reads st ≤ clock_reads st')%nat
    ∧ trace st' = trace st
    ∧ _capability_cache st' !! id = oc
    ∧ (oc = _capability_cache st !! id ∨ oc = None)
    ∧ (∀ j, j ≠ id → _capability_cache st' !! j = _capability_cache st !! j).
Proof.
  destruct (_capability_cache st !! id) as [c |] eqn:Hc.
  - destruct (Z.le_gt_cases (now (clock_reads st) - tested_at c) (_cache_ttl st)) as [Ht | Ht].
    + exists (Some c), (tick st). rewrite (get_cached_hit id st c Hc Ht). cbn.
      repeat split; auto.
    + exists None, (set_cache (delete id (_capability_cache st)) (tick st)).
      rewrite (get_cached_expired id st c Hc Ht). cbn.
      repeat split; auto; [apply lookup_delete_eq | intros j Hj; apply lookup_delete_ne; auto].
  - exists None, st. rewrite (get_cached_miss id st Hc).
    repeat split; auto.
Qed.

Lemma get_adapter_state (id : str) (tf : option test_fn) (st : State) :
  ∃ a st', get_adapter id tf st = (Ret a, st')
    ∧ _cache_ttl st' = _cache_ttl st
    ∧ _enable_auto_fallback st' = _enable_auto_fallback st
    ∧ (clock_reads st ≤ clock_reads st')%nat
    ∧ (∀ j, j ≠ id → _capability_cache st' !! j = _capability_cache st !! j)
    ∧ ((trace st' = trace st
        ∧ a = adapter_for (_capability_cache st' !! id)
        ∧ (_capability_cache st' !! id = _capability_cache st !! id
           ∨ _capability_cache st' !! id = None))
       ∨ (∃ f, tf = Some f ∧ trace st' = trace st ++ [EvProbe id])).
Proof.
  rewrite get_adapter_unfold.
  destruct (get_cached_state id st) as (oc & st1 & -> & Ht & Hf & Hr & Htr & Hoc & Hcase & Hother).
  destruct oc as [c |].
  - exists (adapter_for (Some c)), st1. rewrite Hoc.
    destruct Hcase as [Hcase | ?]; [| discriminate].
    repeat split; auto.
  - destruct tf as [f |].
    + rewrite detect_spec. eexists _, _. split; [reflexivity |]. cbn.
      rewrite Ht, Hf, Htr.
      split; [reflexivity |]. split; [reflexivity |]. split; [lia |].
      split; [intros j Hj; rewrite lookup_insert_ne by auto; auto |].
      right. exists f. auto.
    + exists PromptInjectionAdapter, st1. rewrite Hoc.
      repeat split; auto.
Qed.

(** ** Whole operations *)

Lemma call_with_fallback_unfold (id : str) (tools : list pyval) (msg : str)
    (cf : call_fn) (tf : option test_fn) (st st' : State) (a : BaseMCPAdapter) :
  get_adapter id tf st = (Ret a, st') →
  call_with_fallback id tools msg cf tf st = attempt id tools msg cf a st'.
Proof. intros Hg. unfold call_with_fallback, bind. rewrite Hg. reflexivity. Qed.

Lemma run_op_state (op : Op) (st : State) :
  _cache_ttl (run_op op st) = _cache_ttl st
  ∧ _enable_auto_fallback (run_op op st) = _enable_auto_fallback st
  ∧ (clock_reads st ≤ clock_reads (run_op op st))%nat.
Proof.
  destruct op as [id tf | id tools msg cf tf | id]; cbn [run_op].
  - destruct (get_adapter_state id tf st) as (a & st' & -> & Ht & Hf & Hr & _). auto.
  - destruct (get_adapter_state id tf st) as (a & st' & Hg & Ht & Hf & Hr & _).
    rewrite (call_with_fallback_unfold _ _ _ _ _ _ _ _ Hg).
    destruct (attempt_state id tools msg cf a st') as (Ht' & Hf' & Hr' & _).
    rewrite Ht', Hf'. repeat split; [congruence | congruence | lia].
  - unfold clear_cache. destruct id as [[| c s] |]; cbn; auto.
Qed.

Lemma run_ops_state (ops : list Op) (st : State) :
  _cache_ttl (run_ops ops st) = _cache_ttl st
  ∧ _enable_auto_fallback (run_ops ops st) = _enable_auto_fallback st
  ∧ (clock_reads st ≤ clock_reads (run_ops ops st))%nat.
Proof.
  revert st. induction ops as [| op ops IH]; intros st; [cbn; auto |].
  change (run_ops (op :: ops) st) with (run_ops ops (run_op op st)).
  destruct (IH (run_op op st)) as (Ht & Hf & Hr).
  destruct (run_op_state op st) as (Ht' & Hf' & Hr').
  repeat split; [congruence | congruence | lia].
Qed.

(** An operation widens the capability of [j] only by probing [j]. *)
Lemma run_op_narrows (op : Op) (st : State) (j : str) (c : APICapability) :
  _capability_cache (run_op op st) !! j = Some c →
  supports_function_calling c = true →
  _capability_cache st !! j = Some c
  ∨ (probes j (trace st) < probes j (trace (run_op op st)))%nat.
Proof.
  assert (Hget : ∀ id tf a st',
    get_adapter id tf st = (Ret a, st') →
    _capability_cache st' !! j = Some c →
    _capability_cache st !! j = Some c
    ∨ (probes j (trace st) < probes j (trace st'))%nat).
  { intros id tf a st' Hg Hl.
    destruct (get_adapter_state id tf st) as (a' & st'' & Hg' & _ & _ & _ & Hother & Hcase).
    rewrite Hg in Hg'. injection Hg' as <- <-.
    destruct (decide (j = id)) as [-> | Hne]; [| left; rewrite <- Hother by auto; exact Hl].
    destruct Hcase as [(_ & _ & [Heq | Hnone]) | (f & _ & Htr)].
    - left. congruence.
    - congruence.
    - right. rewrite Htr, probes_probe_same. lia. }
  destruct op as [id tf | id tools msg cf tf | id]; cbn [run_op]; intros Hl Hs.
  - destruct (get_adapter id tf st) as [[a | e] st'] eqn:Hg.
    + eapply Hget; eauto.
    + destruct (get_adapter_state id tf st) as (? & ? & Hg' & _); congruence.
  - destruct (get_adapter_state id tf st) as (a & st' & Hg & _).
    rewrite (call_with_fallback_unfold _ _ _ _ _ _ _ _ Hg) in *.
    destruct (attempt_state id tools msg cf a st') as (_ & _ & _ & Hp & Hc).
    rewrite Hp.
    destruct Hc as [Hc | (_ & e & Hc)]; rewrite Hc in Hl.
    + eapply Hget; eauto.
    + destruct (decide (j = id)) as [-> | Hne].
      * rewrite lookup_insert_eq in Hl. injection Hl as <-. discriminate.
      * rewrite lookup_insert_ne in Hl by auto. eapply Hget; eauto.
  - unfold clear_cache in Hl. left. destruct id as [[| x s] |]; cbn in Hl.
    + rewrite lookup_empty in Hl. discriminate.
    + destruct (decide (j = x :: s)) as [-> | Hne].
      * rewrite lookup_delete_eq in Hl. discriminate.
      * rewrite lookup_delete_ne in Hl by auto. exact Hl.
    + rewrite lookup_empty in Hl. discriminate.
Qed.

(** ** The event loop *)





Lemma detect_end_spec (id : str) (start : nat) (o : res pyexc pyval) (s : State) :
  ∃ c, detect_end id start o s
       = (Ret c, MkState (<[id := c]> (_capability_cache s)) (_cache_ttl s)
                   (_enable_auto_fallback s) (S (S (clock_reads s))) (trace s)).
Proof.
  unfold detect_end, bind, try_except, lift, read_clock, store, ret, tick, set_cache.
  destruct o; cbn; eexists; reflexivity.
Qed.

(** [_detect_capability] is its two parts, one after the other. *)
Lemma detect_two_parts (id : str) (tf : test_fn) (s : State) :
  _detect_capability id tf s
  = detect_end id (clock_reads s) (tf tt) (log (EvProbe id) (tick s)).
Proof.
  unfold _detect_capability, detect_end, bind, try_except, lift, read_clock, await_test,
    store, ret, tick, log, set_cache.
  cbn. destruct (tf tt); reflexivity.
Qed.

Lemma begin_lookup (i : str) (tf : option test_fn) (caller : Caller) (s : State) :
  get_adapter_begin i tf caller s
  = match _get_cached_capability i s with
    | (Ret (Some c), s1) => resolved i (select_adapter (Some c)) caller s1
    | (Ret None, s1) =>
        match tf with
        | Some f => (AwaitsTest i f (clock_reads s1) caller, log (EvProbe i) (tick s1))
        | None => resolved i PromptInjectionAdapter caller s1
        end
    | (Raise _, s1) => (Finished, s1)
    end.
Proof.
  unfold get_adapter_begin.
  destruct (_get_cached_capability i s) as [[[c |] | e] s1]; reflexivity.
Qed.













(** A coroutine that nothing interrupts is the operation. *)
Lemma first_call_alone (i : str) (tools : list pyval) (msg : str) (cf : call_fn)
    (a : BaseMCPAdapter) (s : State) :
  let r1 := first_call i tools msg cf a s in
  let r2 := advance (fst r1) (snd r1) in
  let r3 := advance (fst r2) (snd r2) in
  snd r3 = snd (attempt i tools msg cf a s) ∧ fst r3 = Finished.
Proof.
  destruct s as [cache ttl flag k tr].
  unfold first_call, attempt, try_except, _try_function_calling, _try_prompt_injection,
    bind, lift, await_call, raise.
  destruct (supports_native_tools a) eqn:Hn.
  - cbn [advance log _enable_auto_fallback fst snd]. unfold first_call_end.
    rewrite Hn, andb_true_r. cbn [_enable_auto_fallback].
    destruct (cf msg (Some tools) (Some (s2u "auto"))) as [response | e]; cbn [rbind].
    + destruct (parse_tool_calls a response) as [r | e]; [split; reflexivity |].
      destruct flag; [| split; reflexivity]. rewrite (surjective_pairing (degrade i e _)).
      destruct (format_tools_for_prompt PromptInjectionAdapter tools msg) as [p | e'];
        [| split; reflexivity].
      cbn [advance fst snd].
      destruct (cf p None None) as [resp | e'']; [| split; reflexivity].
      destruct (parse_tool_calls PromptInjectionAdapter resp); split; reflexivity.
    + destruct flag; [| split; reflexivity]. rewrite (surjective_pairing (degrade i e _)).
      destruct (format_tools_for_prompt PromptInjectionAdapter tools msg) as [p | e'];
        [| split; reflexivity].
      cbn [advance fst snd].
      destruct (cf p None None) as [resp | e'']; [| split; reflexivity].
      destruct (parse_tool_calls PromptInjectionAdapter resp); split; reflexivity.
  - destruct (format_tools_for_prompt a tools msg) as [p | e];
      [| cbn; rewrite andb_false_r; split; reflexivity].
    cbn [advance log _enable_auto_fallback fst snd]. unfold first_call_end.
    rewrite Hn, !andb_false_r.
    destruct (cf p None None) as [response | e]; cbn [rbind];
      [destruct (parse_tool_calls a response) |]; rewrite ?andb_false_r; split; reflexivity.
Qed.

Lemma run_alone_op (op : Op) (s : State) : run_alone (NotStarted op) s = run_op op s.
Proof.
  assert (Hthree : ∀ i tools msg cf a s0,
    (let (t1, s1) := first_call i tools msg cf a s0 in
     let (t2, s2) := advance t1 s1 in
     let (t3, s3) := advance t2 s2 in snd (advance t3 s3))
    = snd (attempt i tools msg cf a s0)).
  { intros i tools msg cf a s0. pose proof (first_call_alone i tools msg cf a s0) as Hf.
    cbv zeta in Hf. destruct (first_call i tools msg cf a s0) as [t1 s1].
    cbn [fst snd] in Hf. destruct (advance t1 s1) as [t2 s2]. cbn [fst snd] in Hf.
    destruct (advance t2 s2) as [t3 s3]. cbn [fst snd] in Hf. destruct Hf as [<- ->].
    reflexivity. }
  assert (Htwo : ∀ i tools msg cf a s0,
    (let (t1, s1) := first_call i tools msg cf a s0 in
     let (t2, s2) := advance t1 s1 in snd (advance t2 s2))
    = snd (attempt i tools msg cf a s0)).
  { intros i tools msg cf a s0. pose proof (first_call_alone i tools msg cf a s0) as Hf.
    cbv zeta in Hf. destruct (first_call i tools msg cf a s0) as [t1 s1].
    cbn [fst snd] in Hf. destruct (advance t1 s1) as [t2 s2]. cbn [fst snd] in Hf.
    exact (proj1 Hf). }
  destruct op as [i tf | i tools msg cf tf | i]; unfold run_alone; cbn [advance run_op].
  - rewrite begin_lookup, get_adapter_unfold.
    destruct (_get_cached_capability i s) as [[[c |] | e] s1]; try reflexivity.
    destruct tf as [f |]; [| reflexivity].
    cbn [advance]. rewrite detect_two_parts.
    destruct (detect_end_spec i (clock_reads s1) (f tt) (log (EvProbe i) (tick s1)))
      as (c & ->).
    reflexivity.
  - unfold call_with_fallback, bind. rewrite begin_lookup, get_adapter_unfold.
    destruct (_get_cached_capability i s) as [[[c |] | e] s1]; try reflexivity.
    + cbn [resolved]. apply Hthree.
    + destruct tf as [f |]; [| cbn [resolved]; apply Hthree].
      cbn [advance]. rewrite detect_two_parts.
      destruct (detect_end_spec i (clock_reads s1) (f tt) (log (EvProbe i) (tick s1)))
        as (c & ->).
      cbn [resolved]. apply Htwo.
  - reflexivity.
Qed.

(** A run of operations is the event loop with one coroutine at a time. *)
Lemma run_ops_alone (ops : list Op) (s : State) :
  run_ops ops s = fold_left (λ st op, run_alone (NotStarted op) st) ops s.
Proof.
  revert s. induction ops as [| op ops IH]; intros s; [reflexivity |].
  cbn [fold_left]. rewrite run_alone_op. apply IH.
Qed.

(** ** The claims *)


(** C7.  The degrade step writes a record that does not support function
    calling; and whatever operation runs ([get_adapter], [call_with_fallback],
    [clear_cache]), a cache entry that supports function calling afterwards
    was the entry before, unless the operation probed that endpoint
    ([_detect_capability] is the only writer of such a record). *)
Theorem only_a_probe_widens :
  (∀ (id : str) (e : pyexc) (st : State),
     ∃ c, _capability_cache (snd (degrade id e st)) !! id = Some c
          ∧ supports_function_calling c = false)
  ∧ (∀ (op : Op) (st : State) (j : str) (c : APICapability),
       _capability_cache (run_op op st) !! j = Some c →
       supports_function_calling c = true →
       _capability_cache st !! j = Some c
       ∨ (probes j (trace st) < probes j (trace (run_op op st)))%nat).
Proof.
  split.
  - intros id e st. exists (degraded_record (clock_reads st) e).
    split; [| reflexivity]. cbn. apply lookup_insert_eq.
  - exact run_op_narrows.
Qed.

(** C8.  Two successive [get_adapter] calls for one endpoint, each given a
    probe function, with the second call's cache lookup no later than the TTL
    after any clock reading of the first call: the endpoint is probed at most
    once over both, and when the first call probed, the second is answered
    from the record the first wrote (same adapter, one clock reading, no
    other change of state). *)
Theorem cache_reuse (id : str) (tf1 tf2 : test_fn) (st st1 st2 : State)
    (a1 a2 : BaseMCPAdapter) :
  get_adapter id (Some tf1) st = (Ret a1, st1) →
  get_adapter id (Some tf2) st1 = (Ret a2, st2) →
  (∀ k, (clock_reads st ≤ k < clock_reads st1)%nat →
        (now (clock_reads st1) - now k ≤ _cache_ttl st)%Z) →
  (probes id (trace st2) ≤ S (probes id (trace st)))%nat
  ∧ ((probes id (trace st) < probes id (trace st1))%nat →
     ∃ c, _capability_cache st1 !! id = Some c
          ∧ a2 = adapter_for (Some c) ∧ a2 = a1 ∧ st2 = tick st1).
Proof.
  intros Hg1 Hg2 Hk.
  destruct (get_adapter_state id (Some tf1) st)
    as (a & s & Hg & Ht1 & _ & _ & _ & Hcase1).
  rewrite Hg1 in Hg. injection Hg as <- <-.
  destruct (get_adapter_state id (Some tf2) st1)
    as (a & s & Hg & _ & _ & _ & _ & Hcase2).
  rewrite Hg2 in Hg. injection Hg as <- <-.
  destruct Hcase1 as [(Htr1 & _) | (f & _ & Htr1)].
  - split; [| rewrite Htr1; lia].
    destruct Hcase2 as [(-> & _) | (f & _ & ->)]; rewrite Htr1;
      [lia | rewrite probes_probe_same; lia].
  - (* the first call probed: its record answers the second *)
    revert Hg1. rewrite get_adapter_unfold.
    destruct (get_cached_state id st) as (oc & s & -> & _ & _ & Hr & Htr & _).
    destruct oc as [c |]; [intros [= <- <-]; rewrite Htr in Htr1;
      apply (f_equal length) in Htr1; rewrite length_app in Htr1; simpl in Htr1; lia |].
    rewrite detect_spec. intros [= <- <-].
    set (rec := probed_record tf1 s) in *.
    set (st1 := MkState _ _ _ _ _) in *.
    assert (Hc : _capability_cache st1 !! id = Some rec) by apply lookup_insert_eq.
    assert (Hhit : get_adapter id (Some tf2) st1 = (Ret (adapter_for (Some rec)), tick st1)).
    { apply get_adapter_hit; [exact Hc |].
      replace (tested_at rec) with (now (S (S (clock_reads s))))
        by (unfold rec, probed_record; destruct (tf1 tt); reflexivity).
      replace (_cache_ttl st1) with (_cache_ttl st) by (symmetry; exact Ht1).
      apply Hk. cbn. lia. }
    rewrite Hhit in Hg2. injection Hg2 as <- <-.
    split; [| intros _; exists rec; auto].
    unfold st1. cbn [tick trace]. rewrite Htr, probes_probe_same. lia.
Qed.

End WithRuntime.

(** ** Closed instances *)

Lemma cache_reuse_witness :
  ∃ a1 st1 a2 st2,
    @get_adapter sample_runtime endpoint (Some probe_native) (init 24 true) = (Ret a1, st1)
    ∧ @get_adapter sample_runtime endpoint (Some probe_native) st1 = (Ret a2, st2)
    ∧ (probes endpoint (trace st2) ≤ 1)%nat
    ∧ st2 = tick st1.
Proof.
  eexists _, _, _, _. split; [reflexivity |]. split; [reflexivity |].
  destruct (@cache_reuse sample_runtime endpoint probe_native probe_native
              (init 24 true) _ _ _ _ eq_refl eq_refl) as [Hle Hhit].
  - intros k _.
    change (Z.of_nat 3 - Z.of_nat k ≤ 24 * MICROSECONDS_PER_HOUR)%Z.
    unfold MICROSECONDS_PER_HOUR. lia.
  - split; [exact Hle |].
    destruct Hhit as (c & _ & _ & _ & Hst); [vm_compute; lia | exact Hst].
Defined.

(** C1.  A [get_adapter] is awaiting its probe of the endpoint when a
    [call_with_fallback] for the same endpoint probes, goes native, fails
    and stores the degraded record.  The [get_adapter] then gets its answer
    and stores a record that supports function calling, and the next
    [call_with_fallback], begun after that, makes its call natively: within
    the TTL, and no task clears the cache. *)
Lemma stale_probe_undoes_degrade :
  (_capability_cache
     (adapter_state (@run_schedule sample_runtime [0; 1; 1; 1]%nat
                       (MkLoop (init 24 true) racing_tasks))) !! endpoint
   = Some (@degraded_record sample_runtime 4 (Exception (s2u "boom")))
   ∧ tasks (@run_schedule sample_runtime [0; 1; 1; 1]%nat
              (MkLoop (init 24 true) racing_tasks))
     = [AwaitsTest endpoint probe_native 0 ByUser;
        AwaitsRetry (Ret (PStr (s2u "plain answer")));
        NotStarted (OpCallWithFallback endpoint [PDict []] (s2u "again") native_fails
                      (Some probe_native))])
  ∧ (∃ c, _capability_cache
            (adapter_state (@run_schedule sample_runtime [0; 1; 1; 1; 0; 2]%nat
                              (MkLoop (init 24 true) racing_tasks))) !! endpoint = Some c
          ∧ supports_function_calling c = true)
  ∧ tasks (@run_schedule sample_runtime [0; 1; 1; 1; 0; 2]%nat
             (MkLoop (init 24 true) racing_tasks)) !! 2%nat
    = Some (AwaitsCall endpoint [PDict []] (s2u "again") native_fails
              (@FunctionCallingAdapter sample_runtime)
              (Raise (Exception (s2u "boom"))))
  ∧ last (trace (adapter_state (@run_schedule sample_runtime [0; 1; 1; 1; 0; 2]%nat
                                  (MkLoop (init 24 true) racing_tasks))))
    = Some (EvCall (s2u "again") (Some [PDict []]) (Some (s2u "auto")))
  ∧ @within_ttl sample_runtime 0 (24 * MICROSECONDS_PER_HOUR)
      (adapter_state (@run_schedule sample_runtime [0; 1; 1; 1; 0; 2]%nat
                        (MkLoop (init 24 true) racing_tasks)))
  ∧ forallb (λ t, match t with NotStarted op => negb (clears endpoint op) | _ => true end)
      racing_tasks = true.
Proof.
  split; [split; vm_compute; reflexivity |].
  split; [eexists; split; [vm_compute; reflexivity | reflexivity] |].
  split; [vm_compute; reflexivity |]. split; [vm_compute; reflexivity |].
  split; [| vm_compute; reflexivity].
  intros k' k Hk Hlt. vm_compute in Hlt.
  change (Z.of_nat k - Z.of_nat k' ≤ 24 * MICROSECONDS_PER_HOUR)%Z.
  unfold MICROSECONDS_PER_HOUR. lia.
Qed.


Lemma only_a_probe_widens_witness :
  let st := init 24 true in
  let st' := @run_op sample_runtime (OpGetAdapter endpoint (Some probe_native)) st in
  (∃ c, _capability_cache st' !! endpoint = Some c ∧ supports_function_calling c = true)
  ∧ (probes endpoint (trace st) < probes endpoint (trace st'))%nat.
Proof.
  intros st st'.
  assert (Hc : _capability_cache st' !! endpoint
               = Some (MkCapability true 2 1 None)) by (vm_compute; reflexivity).
  split; [eexists; split; [exact Hc | reflexivity] |].
  destruct (proj2 (@only_a_probe_widens sample_runtime) _ st endpoint _ Hc eq_refl)
    as [Hold | Hprobed]; [| exact Hprobed].
  vm_compute in Hold. discriminate Hold.
Defined.

End UniversalFacts.

(* ===================================================================== *)
(** * The decoder on texts that are JSON already *)
(* ===================================================================== *)

Module JsonFacts.
Import Re JsonHelper Spec Lexical Json.

(** ** The lexical states *)

Lemma lex_run_app (q : lex) (a b : str) :
  lex_run q (a ++ b) = match lex_run q a with Some q' => lex_run q' b | None => None end.
Proof.
  revert q. induction a as [| c a IH]; intros q; simpl; [reflexivity |].
  destruct (lex_step q c); [apply IH | reflexivity].
Qed.

Lemma lex_step_lf (q q' : lex) : lex_step q LF = Some q' → q = Out ∧ q' = Out.
Proof. destruct q; vm_compute; intros [= <-]; auto. Qed.

Lemma lex_step_backtick (q q' : lex) : lex_step q BACKTICK = Some q' → q = InStr ∧ q' = InStr.
Proof. destruct q; vm_compute; intros [= <-]; auto. Qed.

Lemma lex_step_space (c : char) (q' : lex) :
  isspace c = true → lex_step InStr c = Some q' → q' = InStr ∧ c ≠ LF.
Proof.
  intros Hs. unfold lex_step.
  destruct (N.eqb_spec c DQUOTE) as [-> | _]; [discriminate Hs |].
  destruct (N.eqb_spec c BACKSLASH) as [-> | _]; [discriminate Hs |].
  destruct (N.leb_spec c 31); [discriminate |].
  intros [= <-]. split; [reflexivity |]. intros ->. vm_compute in H. discriminate.
Qed.

(** ** Substitution where the pattern never matches *)

Lemma sub_at_id (r : regex) (t : list titem) (I : option char → str → Prop) :
  (∀ p s, I p s → match_here r p s = None) →
  (∀ p c s, I p (c :: s) → I (Some c) s) →
  ∀ fuel p s, (length s < fuel)%nat → I p s → sub_at fuel r t p s = s.
Proof.
  intros Hno Hnext fuel. induction fuel as [| fuel IH]; intros p s Hlen HI; [lia |].
  cbn [sub_at]. rewrite (Hno p s HI).
  destruct s as [| c s]; [reflexivity |].
  f_equal. apply IH; [simpl in Hlen; lia | eapply Hnext; eassumption].
Qed.

Lemma line_start_inv_next (p : option char) (c : char) (s : str) :
  line_start_inv p (c :: s) → line_start_inv (Some c) s.
Proof.
  intros (q & Hrun & Hq). cbn [lex_run] in Hrun.
  destruct (lex_step q c) as [q' |] eqn:Hstep; [| contradiction].
  exists q'. split; [exact Hrun |].
  intros [? | [= ->]]; [discriminate |].
  apply lex_step_lf in Hstep. tauto.
Qed.

Lemma m_bol_cat (r : regex) (st : mstate) (k : kont) :
  m (Cat Bol r) st k
  = match prev st with
    | None => m r st k
    | Some c => if N.eqb c LF then m r st k else None
    end.
Proof. reflexivity. Qed.

Lemma no_fence_at_line_start (p : option char) (s : str) (r : regex) :
  line_start_inv p s → match_here (Cat Bol (Cat (lits FENCE) r)) p s = None.
Proof.
  intros (q & Hrun & Hq). unfold match_here. rewrite m_bol_cat. cbn [prev].
  assert (Hhead : m (Cat (lits FENCE) r) (MState p s []) Some = None
                  ∨ ∃ s', s = BACKTICK :: s').
  { destruct s as [| c s]; [left; reflexivity |].
    destruct (N.eqb_spec BACKTICK c) as [<- | Hne]; [right; eauto |].
    left. cbn -[N.eqb]. apply N.eqb_neq in Hne. rewrite Hne. reflexivity. }
  destruct p as [c |].
  - destruct (N.eqb_spec c LF) as [-> | _]; [| reflexivity].
    destruct Hhead as [-> | [s' ->]]; [reflexivity |].
    rewrite Hq in Hrun by auto. cbn [lex_run] in Hrun. contradiction.
  - destruct Hhead as [-> | [s' ->]]; [reflexivity |].
    rewrite Hq in Hrun by auto. cbn [lex_run] in Hrun. contradiction.
Qed.

Lemma star_greedy_S (step : mstate → kont → option mstate) (n : nat) (st : mstate)
    (k : kont) :
  star_greedy step (S n) st k
  = match step st (λ st', if Nat.ltb (length (rest st')) (length (rest st))
                          then star_greedy step n st' k else None) with
    | Some r => Some r
    | None => k st
    end.
Proof. reflexivity. Qed.

Lemma m_ws_cons (pv : option char) (c : char) (s : str) (g : list (nat * str)) (k : kont) :
  m ws (MState pv (c :: s) g) k
  = if isspace c then k (MState (Some c) s g) else None.
Proof. reflexivity. Qed.

Lemma eol_fails_in_string (pv : option char) (s : str) (g : list (nat * str)) :
  lex_run InStr s = Some Out → m Eol (MState pv s g) Some = None.
Proof.
  intros Hrun. cbn -[N.eqb]. destruct s as [| c s]; [discriminate Hrun |].
  destruct (N.eqb_spec c LF) as [-> | _]; [discriminate Hrun | reflexivity].
Qed.

Lemma star_ws_eol_fails (fuel : nat) (pv : option char) (s : str) (g : list (nat * str)) :
  lex_run InStr s = Some Out →
  star_greedy (m ws) fuel (MState pv s g) (λ st, m Eol st Some) = None.
Proof.
  revert pv s. induction fuel as [| fuel IH]; intros pv s Hrun.
  - apply eol_fails_in_string. exact Hrun.
  - rewrite star_greedy_S, (eol_fails_in_string pv s g Hrun).
    destruct s as [| c s]; [reflexivity |].
    rewrite m_ws_cons. destruct (isspace c) eqn:Hc; [| reflexivity].
    cbn [lex_run] in Hrun. destruct (lex_step InStr c) as [q' |] eqn:Hstep; [| discriminate].
    destruct (lex_step_space c q' Hc Hstep) as [-> _].
    cbn [rest length]. rewrite (proj2 (Nat.ltb_lt _ _) (Nat.lt_succ_diag_r _)).
    rewrite (IH (Some c) s Hrun). reflexivity.
Qed.

Lemma fence_tail_fails (pv : option char) (s : str) (g : list (nat * str)) (q : lex) :
  lex_run q s = Some Out →
  m (Cat (lits FENCE) (Cat (Star ws) Eol)) (MState pv s g) Some = None.
Proof.
  intros Hrun. cbn -[N.eqb star_greedy ws].
  destruct s as [| c1 s]; [reflexivity |].
  destruct (N.eqb_spec BACKTICK c1) as [<- | _]; [| reflexivity].
  destruct s as [| c2 s]; [reflexivity |].
  destruct (N.eqb_spec BACKTICK c2) as [<- | _]; [| reflexivity].
  destruct s as [| c3 s]; [reflexivity |].
  destruct (N.eqb_spec BACKTICK c3) as [<- | _]; [| reflexivity].
  cbn [lex_run] in Hrun.
  destruct (lex_step q BACKTICK) as [q1 |] eqn:H1; [| discriminate].
  apply lex_step_backtick in H1 as [-> ->].
  change (lex_run InStr s = Some Out) in Hrun.
  apply star_ws_eol_fails. exact Hrun.
Qed.

Lemma m_lit_cons (x : char) (pv : option char) (c : char) (s : str)
    (g : list (nat * str)) (k : kont) :
  m (lit x) (MState pv (c :: s) g) k
  = if N.eqb x c then k (MState (Some c) s g) else None.
Proof. reflexivity. Qed.

Lemma no_close_fence (p : option char) (s : str) (q : lex) :
  lex_run q s = Some Out → match_here FENCE_CLOSE_RE p s = None.
Proof.
  intros Hrun. unfold match_here.
  change FENCE_CLOSE_RE
    with (Cat (Alt (lit LF) Eps) (Cat (lits FENCE) (Cat (Star ws) Eol))).
  set (R := Cat (lits FENCE) (Cat (Star ws) Eol)).
  change (match m (lit LF) (MState p s []) (λ st1, m R st1 Some) with
          | Some x => Some x
          | None => m R (MState p s []) Some
          end = None).
  unfold R. rewrite (fence_tail_fails p s [] q Hrun).
  destruct s as [| c s]; [reflexivity |].
  rewrite m_lit_cons. destruct (N.eqb_spec LF c) as [<- | _]; [| reflexivity].
  cbn [lex_run] in Hrun. destruct (lex_step q LF) as [q1 |] eqn:H1; [| discriminate].
  apply lex_step_lf in H1 as [-> ->].
  rewrite (fence_tail_fails (Some LF) s [] Out Hrun). reflexivity.
Qed.

(** The three fence substitutions leave a text that lexes as it is. *)
Lemma strip_markdown_lexed (text : str) :
  lex_run Out text = Some Out → strip_markdown text = strip text.
Proof.
  intros Hrun. unfold strip_markdown, sub.
  assert (Hline : line_start_inv None text)
    by (exists Out; split; [rewrite Hrun; discriminate | auto]).
  rewrite (sub_at_id FENCE_JSON_RE [] line_start_inv
             (λ p s HI, no_fence_at_line_start p s _ HI) line_start_inv_next)
    by (auto; lia).
  rewrite (sub_at_id FENCE_OPEN_RE [] line_start_inv
             (λ p s HI, no_fence_at_line_start p s _ HI) line_start_inv_next)
    by (auto; lia).
  rewrite (sub_at_id FENCE_CLOSE_RE [] (λ _ s, ∃ q, lex_run q s = Some Out)).
  - reflexivity.
  - intros p s [q Hq]. exact (no_close_fence p s q Hq).
  - intros p c s [q Hq]. cbn [lex_run] in Hq.
    destruct (lex_step q c) as [q' |]; [eauto | discriminate].
  - lia.
  - eauto.
Qed.


(** ** Blanks *)

Lemma is_ws_isspace (c : char) : is_ws c = true → isspace c = true.
Proof.
  unfold is_ws. rewrite !orb_true_iff, !N.eqb_eq.
  intros [[[-> | ->] | ->] | ->]; reflexivity.
Qed.

Lemma is_ws_lex (c : char) : is_ws c = true → lex_step Out c = Some Out.
Proof.
  unfold is_ws. rewrite !orb_true_iff, !N.eqb_eq.
  intros [[[-> | ->] | ->] | ->]; reflexivity.
Qed.

Lemma is_ws_stops (c : char) : is_ws c = true → stops c = true.
Proof.
  unfold is_ws. rewrite !orb_true_iff, !N.eqb_eq.
  intros [[[-> | ->] | ->] | ->]; reflexivity.
Qed.

(** [skip_ws s] is [s] without a prefix of JSON blanks. *)
Lemma skip_ws_split (s : str) :
  ∃ w, s = w ++ skip_ws s ∧ forallb is_ws w = true
       ∧ match skip_ws s with [] => True | c :: _ => is_ws c = false end.
Proof.
  induction s as [| c s IH]; [exists []; repeat split |].
  destruct IH as (w & Hs & Hw & Hh).
  simpl. destruct (is_ws c) eqn:Hc.
  - exists (c :: w). simpl. rewrite Hc, Hw. split; [f_equal; exact Hs | auto].
  - exists []. simpl. rewrite Hc. auto.
Qed.

Lemma skip_ws_app (w x : str) :
  forallb is_ws w = true →
  match x with [] => True | c :: _ => is_ws c = false end →
  skip_ws (w ++ x) = x.
Proof.
  intros Hw Hx. induction w as [| c w IH]; simpl.
  - destruct x as [| c x]; [reflexivity |]. simpl. rewrite Hx. reflexivity.
  - simpl in Hw. apply andb_true_iff in Hw as [-> Hw]. apply IH. exact Hw.
Qed.

Lemma lex_run_ws (w : str) : forallb is_ws w = true → lex_run Out w = Some Out.
Proof.
  induction w as [| c w IH]; [reflexivity |]. simpl forallb.
  intros [Hc Hw]%andb_true_iff. cbn [lex_run]. rewrite (is_ws_lex c Hc). auto.
Qed.

Lemma lstrip_app (w x : str) :
  forallb isspace w = true →
  match x with [] => True | c :: _ => isspace c = false end →
  lstrip (w ++ x) = x.
Proof.
  intros Hw Hx. induction w as [| c w IH]; simpl.
  - destruct x as [| c x]; [reflexivity |]. simpl. rewrite Hx. reflexivity.
  - simpl in Hw. apply andb_true_iff in Hw as [-> Hw]. apply IH. exact Hw.
Qed.

Lemma forallb_ws_space (w : str) : forallb is_ws w = true → forallb isspace w = true.
Proof.
  induction w as [| c w IH]; [reflexivity |]. simpl.
  intros [Hc Hw]%andb_true_iff. rewrite (is_ws_isspace c Hc). auto.
Qed.

Lemma forallb_rev_true {A} (f : A → bool) (l : list A) :
  forallb f l = true → forallb f (rev l) = true.
Proof.
  rewrite !forallb_forall. intros Hl x Hx. apply Hl, in_rev. exact Hx.
Qed.

(** Stripping a token sequence wrapped in JSON blanks gives it back. *)
Lemma strip_wrapped (w pre r : str) :
  forallb is_ws w = true → forallb is_ws r = true → edges pre →
  strip (w ++ pre ++ r) = pre.
Proof.
  intros Hw Hr [(c & t & Hhead & Hc) (t' & c' & Hlast & Hc')].
  unfold strip. rewrite lstrip_app;
    [| apply forallb_ws_space; exact Hw | rewrite Hhead; exact Hc].
  rewrite Hlast. unfold rstrip. rewrite !rev_app_distr.
  change (rev [c']) with [c']. cbn [app].
  rewrite lstrip_app; [| apply forallb_rev_true, forallb_ws_space; exact Hr | exact Hc'].
  cbn [rev]. rewrite rev_involutive. reflexivity.
Qed.

(** ** Numbers *)

(** Booleans over [N] as propositions, for [lia]. *)
Ltac nprop :=
  unfold is_numchar, stops, isdigit_ascii, is_ws, isspace, in_range,
    DQUOTE, BACKSLASH, BACKTICK, LF, CR, TAB, SPACE, LBRACE, RBRACE,
    LBRACKET, RBRACKET, COMMA, COLON in *;
  repeat match goal with
         | H : _ && _ = true |- _ => apply andb_true_iff in H; destruct H
         | H : _ || _ = true |- _ => apply orb_true_iff in H; destruct H
         | H : _ || _ = false |- _ => apply orb_false_iff in H; destruct H
         | H : _ && _ = false |- _ => apply andb_false_iff in H; destruct H
         | H : negb _ = true |- _ => apply negb_true_iff in H
         | H : negb _ = false |- _ => apply negb_false_iff in H
         | H : (_ <=? _) = true |- _ => apply N.leb_le in H
         | H : (_ <=? _) = false |- _ => apply N.leb_gt in H
         | H : (_ =? _) = true |- _ => apply N.eqb_eq in H
         | H : (_ =? _) = false |- _ => apply N.eqb_neq in H
         end.

Ltac nbool :=
  repeat match goal with
         | |- _ && _ = true => apply andb_true_iff; split
         | |- negb _ = true => apply negb_true_iff
         | |- negb _ = false => apply negb_false_iff
         | |- _ || _ = false => apply orb_false_iff; split
         | |- (_ <=? _) = true => apply N.leb_le
         | |- (_ <=? _) = false => apply N.leb_gt
         | |- (_ =? _) = true => apply N.eqb_eq
         | |- (_ =? _) = false => apply N.eqb_neq
         end.

Lemma numchar_lex (c : char) : is_numchar c = true → lex_step Out c = Some Out.
Proof.
  intros Hc. unfold lex_step.
  destruct (N.eqb_spec c DQUOTE) as [-> | _]; [discriminate Hc |].
  destruct (N.eqb_spec c BACKTICK) as [-> | _]; [discriminate Hc | reflexivity].
Qed.

Lemma numchar_nonspace (c : char) : is_numchar c = true → isspace c = false.
Proof.
  intros Hc. destruct (isspace c) eqn:Hs; [| reflexivity].
  exfalso. nprop; subst; lia.
Qed.

Lemma digit_numchar (c : char) : isdigit_ascii c = true → is_numchar c = true.
Proof. intros Hc. unfold is_numchar. rewrite Hc. reflexivity. Qed.

Lemma lex_run_plain (P : char → bool) (l : str) :
  (∀ c, P c = true → lex_step Out c = Some Out) →
  forallb P l = true → lex_run Out l = Some Out.
Proof.
  intros HP. induction l as [| c l IH]; [reflexivity |]. simpl forallb.
  intros [Hc Hl]%andb_true_iff. cbn [lex_run]. rewrite (HP c Hc). auto.
Qed.

Lemma edges_plain (P : char → bool) (l : str) :
  (∀ c, P c = true → isspace c = false) →
  l ≠ [] → forallb P l = true → edges l.
Proof.
  intros HP Hne Hl. rewrite forallb_forall in Hl. split.
  - destruct l as [| c t]; [contradiction |]. exists c, t.
    split; [reflexivity | apply HP, Hl; left; reflexivity].
  - destruct (exists_last Hne) as (t & c & ->). exists t, c.
    split; [reflexivity | apply HP, Hl, in_or_app; right; left; reflexivity].
Qed.

Lemma span_digits_spec (s d r : str) :
  span_digits s = (d, r) → s = d ++ r ∧ forallb isdigit_ascii d = true.
Proof.
  revert d r. induction s as [| c s IH]; intros d r; simpl.
  - intros [= <- <-]. auto.
  - destruct (isdigit_ascii c) eqn:Hc.
    + destruct (span_digits s) as [d' r']. intros [= <- <-].
      destruct (IH d' r' eq_refl) as [-> Hd]. simpl. rewrite Hc, Hd. auto.
    + intros [= <- <-]. auto.
Qed.

Lemma span_digits_app (d x : str) :
  forallb isdigit_ascii d = true → no_digit x → span_digits (d ++ x) = (d, x).
Proof.
  intros Hd Hx. induction d as [| c d IH]; simpl.
  - destruct x as [| c x]; [reflexivity |]. simpl in *. rewrite Hx. reflexivity.
  - simpl in Hd. apply andb_true_iff in Hd as [-> Hd]. rewrite (IH Hd). reflexivity.
Qed.

Lemma term_no_digit (x : str) : term x → no_digit x.
Proof.
  destruct x as [| c x]; [auto |]. simpl. intros Hc.
  destruct (isdigit_ascii c) eqn:Hd; [| reflexivity].
  unfold stops in Hc. rewrite Hd in Hc. discriminate.
Qed.

Lemma forallb_digit_numchar (d : str) :
  forallb isdigit_ascii d = true → forallb is_numchar d = true.
Proof.
  rewrite !forallb_forall. intros Hd c Hc. apply digit_numchar, Hd, Hc.
Qed.

Lemma scan_int_digits (neg : bool) (s ds r1 : str) :
  match s with
  | c :: s2 =>
      if N.eqb c 48 then Some (neg, [c], s2)
      else if in_range 49 57 c then
        let (d, r) := span_digits s2 in Some (neg, c :: d, r)
      else None
  | [] => None
  end = Some (neg, ds, r1) →
  s = ds ++ r1 ∧ forallb isdigit_ascii ds = true
  ∧ (∃ c t, ds = c :: t)
  ∧ ∀ x, no_digit x →
      match ds ++ x with
      | c :: s2 =>
          if N.eqb c 48 then Some (neg, [c], s2)
          else if in_range 49 57 c then
            let (d, r) := span_digits s2 in Some (neg, c :: d, r)
          else None
      | [] => None
      end = Some (neg, ds, x).
Proof.
  destruct s as [| c s2]; [discriminate |].
  destruct (N.eqb_spec c 48) as [-> | Hne].
  - intros [= <- <-]. repeat split; eauto.
  - destruct (in_range 49 57 c) eqn:Hc; [| discriminate].
    destruct (span_digits s2) as [d r] eqn:Hd. intros [= <- <-].
    destruct (span_digits_spec s2 d r Hd) as [-> Hall].
    assert (Hdc : isdigit_ascii c = true) by (nprop; nbool; lia).
    split; [reflexivity |]. split; [simpl; rewrite Hdc, Hall; reflexivity |].
    split; [eauto |]. intros x Hx. cbn [app].
    apply N.eqb_neq in Hne. rewrite Hne, Hc, (span_digits_app d x Hall Hx). reflexivity.
Qed.

Lemma scan_int_local (s : str) (neg : bool) (ds r1 : str) :
  scan_int s = Some (neg, ds, r1) →
  s = sign_text neg ++ ds ++ r1
  ∧ forallb is_numchar (sign_text neg ++ ds) = true
  ∧ (∃ c t, ds = c :: t ∧ isdigit_ascii c = true)
  ∧ ∀ x, no_digit x → scan_int (sign_text neg ++ ds ++ x) = Some (neg, ds, x).
Proof.
  unfold scan_int.
  destruct s as [| c s'].
  - discriminate.
  - destruct (N.eqb_spec c 45) as [-> | Hne].
    + intros Hs. assert (neg = true) as ->.
      { destruct s' as [| c2 s2]; [discriminate |].
        destruct (c2 =? 48); [injection Hs as <-; reflexivity |].
        destruct (in_range 49 57 c2); [| discriminate].
        destruct (span_digits s2). injection Hs as <-. reflexivity. }
      destruct (scan_int_digits true s' ds r1 Hs) as (-> & Hall & (c & t & ->) & Hre).
      split; [reflexivity |]. split; [simpl; simpl in Hall;
        apply andb_true_iff in Hall as [Hc Ht];
        rewrite (digit_numchar c Hc), (forallb_digit_numchar t Ht); reflexivity |].
      split; [exists c, t; simpl in Hall; apply andb_true_iff in Hall as [Hc _]; auto |].
      intros x Hx. cbn [sign_text app]. cbn [N.eqb Pos.eqb]. exact (Hre x Hx).
    + intros Hs. assert (neg = false) as ->.
      { destruct (c =? 48); [injection Hs as <-; reflexivity |].
        destruct (in_range 49 57 c); [| discriminate].
        destruct (span_digits s'). injection Hs as <-. reflexivity. }
      destruct (scan_int_digits false (c :: s') ds r1 Hs) as (Heq & Hall & (c' & t & ->) & Hre).
      injection Heq as <- ->.
      split; [reflexivity |].
      split; [simpl; simpl in Hall; apply andb_true_iff in Hall as [Hc Ht];
        rewrite (digit_numchar c Hc), (forallb_digit_numchar t Ht); reflexivity |].
      split; [exists c, t; simpl in Hall; apply andb_true_iff in Hall as [Hc _]; auto |].
      intros x Hx. cbn [sign_text app].
      apply N.eqb_neq in Hne. rewrite Hne. exact (Hre x Hx).
Qed.

Lemma scan_frac_local (s fr r2 : str) :
  scan_frac s = (fr, r2) →
  s = fr ++ r2
  ∧ forallb is_numchar fr = true
  ∧ (fr = [] ∨ ∃ t, fr = 46 :: t)
  ∧ ∀ x, no_digit x → (fr = [] → no_point x) → scan_frac (fr ++ x) = (fr, x).
Proof.
  unfold scan_frac.
  assert (Hnil : ∀ x, no_point x →
    match x with
    | p :: d :: s' =>
        if N.eqb p 46 && isdigit_ascii d
        then let (ds, r) := span_digits s' in (p :: d :: ds, r) else ([], x)
    | _ => ([], x)
    end = ([], x)).
  { intros [| p [| d x]] Hx; try reflexivity.
    simpl in Hx. apply N.eqb_neq in Hx. rewrite Hx. reflexivity. }
  destruct s as [| p [| d s']]; try (intros [= <- <-]; repeat split; auto).
  destruct (N.eqb p 46 && isdigit_ascii d) eqn:Hpd.
  - destruct (span_digits s') as [ds r] eqn:Hd. intros [= <- <-].
    destruct (span_digits_spec s' ds r Hd) as [-> Hall].
    apply andb_true_iff in Hpd as [Hp Hdd]. apply N.eqb_eq in Hp. subst p.
    split; [reflexivity |].
    split; [simpl; rewrite (digit_numchar d Hdd), (forallb_digit_numchar ds Hall); reflexivity |].
    split; [right; eauto |].
    intros x Hx _. cbn [app]. cbn [N.eqb Pos.eqb andb]. rewrite Hdd.
    rewrite (span_digits_app ds x Hall Hx). reflexivity.
  - intros [= <- <-]. repeat split; auto.
Qed.

Lemma scan_exp_local (s ex r3 : str) :
  scan_exp s = (ex, r3) →
  s = ex ++ r3
  ∧ forallb is_numchar ex = true
  ∧ (ex = [] ∨ ∃ c t, ex = c :: t ∧ (c = 101 ∨ c = 69))
  ∧ ∀ x, no_digit x → (ex = [] → no_e x) → scan_exp (ex ++ x) = (ex, x).
Proof.
  assert (Hnil : ∀ x, no_e x → scan_exp x = ([], x)).
  { intros [| e x] Hx; [reflexivity |]. simpl in Hx. destruct Hx as [H1 H2].
    apply N.eqb_neq in H1, H2. unfold scan_exp. rewrite H1, H2. reflexivity. }
  assert (Hstop : ([] : str, s) = (ex, r3) →
    s = ex ++ r3 ∧ forallb is_numchar ex = true
    ∧ (ex = [] ∨ ∃ c t, ex = c :: t ∧ (c = 101 ∨ c = 69))
    ∧ ∀ x, no_digit x → (ex = [] → no_e x) → scan_exp (ex ++ x) = (ex, x)).
  { intros [= <- <-]. repeat split; auto. }
  intros H. unfold scan_exp in H. revert H.
  destruct s as [| e s1]; [exact Hstop |].
  destruct (N.eqb e 101 || N.eqb e 69) eqn:He; [| exact Hstop].
  assert (He' : e = 101 ∨ e = 69) by (nprop; auto).
  destruct s1 as [| g s2]; [exact Hstop |].
  destruct (N.eqb g 43 || N.eqb g 45) eqn:Hg.
  - destruct s2 as [| d s3]; [exact Hstop |].
    destruct (isdigit_ascii d) eqn:Hd; [| exact Hstop].
    destruct (span_digits s3) as [ds r] eqn:Hs. intros [= <- <-].
    destruct (span_digits_spec s3 ds r Hs) as [-> Hall].
    split; [reflexivity |].
    assert (Hgn : is_numchar g = true).
    { unfold is_numchar. apply orb_true_iff in Hg as [Hg | Hg];
        apply N.eqb_eq in Hg; subst g; reflexivity. }
    split; [cbn [forallb]; rewrite Hgn, (digit_numchar d Hd), (forallb_digit_numchar ds Hall);
            destruct He' as [-> | ->]; reflexivity |].
    split; [right; eauto |].
    intros x Hx _. unfold scan_exp. cbn [app].
    rewrite He, Hg, Hd, (span_digits_app ds x Hall Hx). reflexivity.
  - destruct (isdigit_ascii g) eqn:Hd; [| exact Hstop].
    destruct (span_digits s2) as [ds r] eqn:Hs. intros [= <- <-].
    destruct (span_digits_spec s2 ds r Hs) as [-> Hall].
    split; [reflexivity |].
    split; [cbn [forallb]; rewrite (digit_numchar g Hd), (forallb_digit_numchar ds Hall);
            destruct He' as [-> | ->]; reflexivity |].
    split; [right; eauto |].
    intros x Hx _. unfold scan_exp. cbn [app].
    rewrite He, Hg, Hd, (span_digits_app ds x Hall Hx). reflexivity.
Qed.

Lemma term_no_point (x : str) : term x → no_point x.
Proof.
  destruct x as [| c x]; [auto |]. simpl. intros Hc ->. discriminate Hc.
Qed.

Lemma term_no_e (x : str) : term x → no_e x.
Proof.
  destruct x as [| c x]; [auto |]. simpl. intros Hc.
  split; intros ->; discriminate Hc.
Qed.

Lemma match_number_local (s : str) (v : json) (r : str) :
  match_number s = Some (v, r) →
  ∃ pre, s = pre ++ r
         ∧ forallb is_numchar pre = true
         ∧ number_start pre
         ∧ ∀ x, term x → match_number (pre ++ x) = Some (v, x).
Proof.
  unfold match_number.
  destruct (scan_int s) as [[[neg ds] r1] |] eqn:Hi; [| discriminate].
  destruct (scan_frac r1) as [fr r2] eqn:Hf.
  destruct (scan_exp r2) as [ex r3] eqn:He.
  intros Hv.
  assert (Hr : r = r3) by (destruct fr, ex; congruence).
  subst r3.
  destruct (scan_int_local s neg ds r1 Hi) as (-> & Hn1 & (c & t & -> & Hc) & Hre1).
  destruct (scan_frac_local r1 fr r2 Hf) as (-> & Hn2 & Hfr & Hre2).
  destruct (scan_exp_local r2 ex r He) as (-> & Hn3 & Hex & Hre3).
  exists (sign_text neg ++ (c :: t) ++ fr ++ ex).
  split; [rewrite <- !app_assoc; reflexivity |].
  split; [rewrite !app_assoc, !forallb_app, <- app_assoc, Hn1, Hn2, Hn3 in *; reflexivity |].
  split.
  { destruct neg; cbn [sign_text app]; [exists 45, ((c :: t) ++ fr ++ ex) | exists c, (t ++ fr ++ ex)];
      split; try reflexivity; [right | left; exact Hc].
    split; [reflexivity |]. exists c, (t ++ fr ++ ex). auto. }
  intros x Hx.
  assert (Hex_x : no_digit (ex ++ x) ∧ no_point (ex ++ x)).
  { destruct Hex as [-> | (e & t' & -> & [-> | ->])]; cbn [app];
      [split; [apply term_no_digit | apply term_no_point]; exact Hx | | ];
      split; simpl; auto; discriminate. }
  assert (Hfr_x : no_digit (fr ++ ex ++ x)).
  { destruct Hfr as [-> | (t' & ->)]; [apply Hex_x | reflexivity]. }
  rewrite <- !app_assoc.
  rewrite (Hre1 (fr ++ ex ++ x) Hfr_x).
  rewrite (Hre2 (ex ++ x) (proj1 Hex_x) (λ _, proj2 Hex_x)).
  rewrite (Hre3 x (term_no_digit x Hx) (λ _, term_no_e x Hx)).
  destruct fr, ex; congruence.
Qed.

(** ** Scalars *)

Lemma startswith_drop (p s : str) :
  startswith p s = true → s = p ++ drop (length p) s.
Proof.
  revert s. induction p as [| x p IH]; intros s; [reflexivity |].
  destruct s as [| y s]; [discriminate |]. simpl.
  intros [Hxy Hp]%andb_true_iff. apply N.eqb_eq in Hxy. subst y.
  f_equal. apply IH. exact Hp.
Qed.

Lemma startswith_head (p : str) (c : char) (s : str) :
  match p with [] => False | p0 :: _ => p0 ≠ c end →
  startswith p (c :: s) = false.
Proof.
  destruct p as [| p0 p]; [contradiction |].
  intros Hne. simpl. apply N.eqb_neq in Hne. rewrite Hne. reflexivity.
Qed.

Lemma literal_local (lit : str) (v : json) :
  tokens lit → scalar_start lit →
  (∀ x, scan_scalar (lit ++ x) = Some (v, x)) →
  ∀ s, startswith lit s = true →
  ∃ pre, s = pre ++ drop (length lit) s ∧ tokens pre ∧ scalar_start pre
         ∧ ∀ x, term x → scan_scalar (pre ++ x) = Some (v, x).
Proof.
  intros Htok Hstart Hre s Hs. exists lit.
  split; [apply startswith_drop; exact Hs |]. auto.
Qed.

Lemma literal_tokens (lit : str) :
  lex_run Out lit = Some Out →
  match lit with [] => False | c :: _ => isspace c = false end →
  match last lit with Some c => isspace c = false | None => False end →
  tokens lit.
Proof.
  intros Hrun Hhead Hlast. split; [exact Hrun |]. split.
  - destruct lit as [| c t]; [contradiction | eauto].
  - destruct lit as [| c t] using rev_ind; [contradiction |].
    rewrite last_snoc in Hlast. eauto.
Qed.

Lemma scan_scalar_local (s : str) (v : json) (r : str) :
  scan_scalar s = Some (v, r) →
  ∃ pre, s = pre ++ r ∧ tokens pre ∧ scalar_start pre
         ∧ ∀ x, term x → scan_scalar (pre ++ x) = Some (v, x).
Proof.
  unfold scan_scalar.
  destruct (startswith NULL s) eqn:H1.
  { intros [= <- <-]. apply (literal_local NULL JNull); auto.
    - apply literal_tokens; reflexivity.
    - exists 110, (s2u "ull"). repeat split; discriminate. }
  destruct (startswith TRUE s) eqn:H2.
  { intros [= <- <-]. apply (literal_local TRUE (JBool true)); auto.
    - apply literal_tokens; reflexivity.
    - exists 116, (s2u "rue"). repeat split; discriminate. }
  destruct (startswith FALSE s) eqn:H3.
  { intros [= <- <-]. apply (literal_local FALSE (JBool false)); auto.
    - apply literal_tokens; reflexivity.
    - exists 102, (s2u "alse"). repeat split; discriminate. }
  destruct (startswith NAN s) eqn:H4.
  { intros [= <- <-]. apply (literal_local NAN (JFloat NAN)); auto.
    - apply literal_tokens; reflexivity.
    - exists 78, (s2u "aN"). repeat split; discriminate. }
  destruct (startswith INFINITY s) eqn:H5.
  { intros [= <- <-]. apply (literal_local INFINITY (JFloat INFINITY)); auto.
    - apply literal_tokens; reflexivity.
    - exists 73, (s2u "nfinity"). repeat split; discriminate. }
  destruct (startswith NEG_INFINITY s) eqn:H6.
  { intros [= <- <-]. apply (literal_local NEG_INFINITY (JFloat NEG_INFINITY)); auto.
    - apply literal_tokens; reflexivity.
    - exists 45, (s2u "Infinity"). repeat split; discriminate. }
  intros Hm.
  destruct (match_number_local s v r Hm) as (pre & -> & Hnum & Hstart & Hre).
  exists pre. split; [reflexivity |].
  assert (Hne : pre ≠ []) by (destruct Hstart as (c & t & -> & _); discriminate).
  split; [split; [exact (lex_run_plain is_numchar pre numchar_lex Hnum)
                 | exact (edges_plain is_numchar pre numchar_nonspace Hne Hnum)] |].
  split.
  { destruct Hstart as (c & t & -> & Hc). exists c, t. split; [reflexivity |].
    simpl in Hnum. apply andb_true_iff in Hnum as [Hcn _].
    repeat split; intros ->; discriminate Hcn. }
  intros x Hx. rewrite (Hre x Hx).
  destruct Hstart as (c & t & -> & [Hc | (-> & d & t' & -> & Hd)]); cbn [app].
  - assert (Hr : 48 ≤ c ≤ 57) by (nprop; lia).
    rewrite !startswith_head by (vm_compute; lia). reflexivity.
  - assert (Hr : 48 ≤ d ≤ 57) by (nprop; lia).
    rewrite (startswith_head NULL), (startswith_head TRUE), (startswith_head FALSE),
      (startswith_head NAN), (startswith_head INFINITY) by (vm_compute; lia).
    change NEG_INFINITY with (45 :: 73 :: s2u "nfinity").
    cbn [startswith].
    replace (N.eqb 73 d) with false by (symmetry; apply N.eqb_neq; lia).
    reflexivity.
Qed.

(** ** Strings *)

Lemma scanstring_cons (c : char) (s1 : str) :
  scanstring (c :: s1)
  = if N.eqb c DQUOTE then Some ([], s1)
    else if N.eqb c BACKSLASH then
      match s1 with
      | [] => None
      | e :: s2 =>
          if N.eqb e 117 then
            match s2 with
            | h1 :: h2 :: h3 :: h4 :: s3 =>
                match hex4 h1 h2 h3 h4 with
                | None => None
                | Some u =>
                    match surrogate_pair u s3 with
                    | Some (j, s4) => push j (scanstring s4)
                    | None => push u (scanstring s3)
                    end
                end
            | _ => None
            end
          else
            match simple_escape e with
            | Some x => push x (scanstring s2)
            | None => None
            end
      end
    else if c <=? 31 then None
    else push c (scanstring s1).
Proof.
  cbn [scanstring].
  destruct (N.eqb c DQUOTE); [reflexivity |].
  destruct (N.eqb c BACKSLASH); [| reflexivity].
  destruct s1 as [| e s2]; [reflexivity |].
  destruct (N.eqb e 117); [| reflexivity].
  destruct s2 as [| h1 [| h2 [| h3 [| h4 s3]]]]; try reflexivity.
  destruct (hex4 h1 h2 h3 h4) as [u |]; [| reflexivity].
  unfold surrogate_pair.
  destruct s3 as [| b [| u' [| g1 [| g2 [| g3 [| g4 s4]]]]]]; try reflexivity.
  destruct (hex4 g1 g2 g3 g4) as [lo |]; [| reflexivity].
  destruct (is_high_surrogate u && N.eqb b BACKSLASH && N.eqb u' 117 && is_low_surrogate lo);
    reflexivity.
Qed.

Lemma hex_val_lex (c : char) (n : N) :
  hex_val c = Some n → lex_step InStr c = Some InStr ∧ c ≠ DQUOTE.
Proof.
  unfold hex_val, lex_step. intros Hc.
  assert (Hr : 48 ≤ c ≤ 57 ∨ 97 ≤ c ≤ 102 ∨ 65 ≤ c ≤ 70).
  { destruct (in_range 48 57 c) eqn:H1; [nprop; lia |].
    destruct (in_range 97 102 c) eqn:H2; [nprop; lia |].
    destruct (in_range 65 70 c) eqn:H3; [nprop; lia | discriminate]. }
  unfold DQUOTE, BACKSLASH.
  destruct (N.eqb_spec c 34); [lia |]. destruct (N.eqb_spec c 92); [lia |].
  destruct (N.leb_spec c 31); [lia |]. split; [reflexivity | lia].
Qed.

Lemma hex4_lex (a b c d : char) (u : N) :
  hex4 a b c d = Some u →
  lex_run InStr [a; b; c; d] = Some InStr
  ∧ a ≠ DQUOTE ∧ b ≠ DQUOTE ∧ c ≠ DQUOTE ∧ d ≠ DQUOTE.
Proof.
  unfold hex4.
  destruct (hex_val a) as [x |] eqn:Ha; [| discriminate].
  destruct (hex_val b) as [y |] eqn:Hb; [| discriminate].
  destruct (hex_val c) as [z |] eqn:Hc; [| discriminate].
  destruct (hex_val d) as [w |] eqn:Hd; [| discriminate].
  intros _.
  destruct (hex_val_lex a x Ha) as [Ha1 Ha2]. destruct (hex_val_lex b y Hb) as [Hb1 Hb2].
  destruct (hex_val_lex c z Hc) as [Hc1 Hc2]. destruct (hex_val_lex d w Hd) as [Hd1 Hd2].
  cbn [lex_run]. rewrite Ha1, Hb1, Hc1, Hd1. auto.
Qed.

Lemma surrogate_pair_some (u : N) (s3 : str) (j : N) (s4 : str) :
  surrogate_pair u s3 = Some (j, s4) →
  ∃ g1 g2 g3 g4 lo,
    s3 = [BACKSLASH; 117; g1; g2; g3; g4] ++ s4
    ∧ hex4 g1 g2 g3 g4 = Some lo
    ∧ ∀ x, surrogate_pair u ([BACKSLASH; 117; g1; g2; g3; g4] ++ x) = Some (j, x).
Proof.
  unfold surrogate_pair.
  destruct s3 as [| b [| u' [| g1 [| g2 [| g3 [| g4 s4']]]]]]; try discriminate.
  destruct (hex4 g1 g2 g3 g4) as [lo |] eqn:Hg; [| discriminate].
  destruct (is_high_surrogate u && N.eqb b BACKSLASH && N.eqb u' 117 && is_low_surrogate lo)
    eqn:Hcond; [| discriminate].
  intros [= <- <-].
  apply andb_true_iff in Hcond as [Hcond Hlo].
  apply andb_true_iff in Hcond as [Hcond Hu].
  apply andb_true_iff in Hcond as [Hhi Hb].
  apply N.eqb_eq in Hb, Hu. subst b u'.
  exists g1, g2, g3, g4, lo. split; [reflexivity |]. split; [exact Hg |].
  intros x. cbn [app]. rewrite Hg, Hhi, Hlo. reflexivity.
Qed.

Lemma surrogate_pair_none (u : N) (pre3 r : str) :
  surrogate_pair u (pre3 ++ r) = None →
  (∃ t, pre3 = t ++ [DQUOTE]) →
  ∀ x, surrogate_pair u (pre3 ++ x) = None.
Proof.
  intros Hnone [t Ht] x.
  destruct (surrogate_pair u (pre3 ++ x)) as [[j y] |] eqn:E; [exfalso | reflexivity].
  apply surrogate_pair_some in E as (g1 & g2 & g3 & g4 & lo & Heq & Hg & Hre).
  apply app_eq_inv in Heq as [(k & Hpre & _) | (k & Hsix & _)].
  - rewrite Hpre, <- app_assoc, Hre in Hnone. discriminate.
  - destruct (hex4_lex g1 g2 g3 g4 lo Hg) as (_ & H1 & H2 & H3 & H4).
    assert (Hin : In DQUOTE [BACKSLASH; 117; g1; g2; g3; g4]).
    { rewrite Hsix, Ht. apply in_or_app. left. apply in_or_app. right. left. reflexivity. }
    simpl in Hin.
    destruct Hin as [H | [H | [H | [H | [H | [H | []]]]]]];
      try discriminate H; congruence.
Qed.

Lemma push_some (c : char) (o : option (str * str)) (v r : str) :
  push c o = Some (v, r) → ∃ v0, o = Some (v0, r) ∧ v = c :: v0.
Proof.
  destruct o as [[v0 r0] |]; [| discriminate]. intros [= <- <-]. eauto.
Qed.

Lemma lex_run_u4 (a b c d : char) (u : N) (s : str) :
  hex4 a b c d = Some u →
  lex_run InStr ([BACKSLASH; 117; a; b; c; d] ++ s) = lex_run InStr s.
Proof.
  intros H. destruct (hex4_lex a b c d u H) as (Hlex & _).
  rewrite lex_run_app.
  change (lex_run InStr [BACKSLASH; 117; a; b; c; d]) with (lex_run InStr [a; b; c; d]).
  rewrite Hlex. reflexivity.
Qed.

Lemma lex_run_esc (e y : char) (s : str) :
  N.eqb e 117 = false → simple_escape e = Some y →
  lex_run InStr (BACKSLASH :: e :: s) = lex_run InStr s.
Proof.
  intros He Hy. cbn [lex_run].
  change (lex_step InStr BACKSLASH) with (Some Esc).
  unfold lex_step. rewrite He, Hy. reflexivity.
Qed.

Lemma scanstring_esc (e y : char) (s : str) :
  N.eqb e 117 = false → simple_escape e = Some y →
  scanstring (BACKSLASH :: e :: s) = push y (scanstring s).
Proof.
  intros He Hy. rewrite scanstring_cons.
  change (N.eqb BACKSLASH DQUOTE) with false. change (N.eqb BACKSLASH BACKSLASH) with true.
  cbv iota. rewrite He, Hy. reflexivity.
Qed.

Lemma scanstring_u4 (a b c d : char) (u : N) (s : str) :
  hex4 a b c d = Some u →
  scanstring ([BACKSLASH; 117; a; b; c; d] ++ s)
  = match surrogate_pair u s with
    | Some (j, s4) => push j (scanstring s4)
    | None => push u (scanstring s)
    end.
Proof.
  intros H. cbn [app]. rewrite scanstring_cons.
  change (N.eqb BACKSLASH DQUOTE) with false. change (N.eqb BACKSLASH BACKSLASH) with true.
  change (N.eqb 117 117) with true.
  cbv iota. rewrite H. reflexivity.
Qed.

Lemma scanstring_local_bounded (n : nat) :
  ∀ s, (length s ≤ n)%nat → ∀ v r, scanstring s = Some (v, r) → string_local s v r.
Proof.
  induction n as [| n IH]; intros s Hlen v r Hs.
  { destruct s; [discriminate Hs | simpl in Hlen; lia]. }
  destruct s as [| c s1]; [discriminate Hs |].
  rewrite scanstring_cons in Hs.
  destruct (N.eqb_spec c DQUOTE) as [-> | Hq].
  { injection Hs as <- <-. exists [DQUOTE].
    split; [reflexivity |]. split; [reflexivity |]. split; [exists []; reflexivity |].
    intros x. reflexivity. }
  destruct (N.eqb_spec c BACKSLASH) as [-> | Hb].
  - destruct s1 as [| e s2]; [discriminate Hs |].
    destruct (N.eqb_spec e 117) as [-> | He].
    + destruct s2 as [| h1 [| h2 [| h3 [| h4 s3]]]]; try discriminate Hs.
      destruct (hex4 h1 h2 h3 h4) as [u |] eqn:Hh; [| discriminate Hs].
      destruct (surrogate_pair u s3) as [[j s4] |] eqn:Hp.
      * apply surrogate_pair_some in Hp as (g1 & g2 & g3 & g4 & lo & -> & Hg & Hre).
        apply push_some in Hs as (v0 & Hs & ->).
        destruct (IH s4 ltac:(simpl in Hlen; lia) v0 r Hs)
          as (pre & -> & Hrun & [t Ht] & Hx).
        exists ([BACKSLASH; 117; h1; h2; h3; h4] ++ [BACKSLASH; 117; g1; g2; g3; g4] ++ pre).
        split; [rewrite <- !app_assoc; reflexivity |].
        split; [rewrite (lex_run_u4 _ _ _ _ _ _ Hh), (lex_run_u4 _ _ _ _ _ _ Hg); exact Hrun |].
        split; [exists ([BACKSLASH; 117; h1; h2; h3; h4] ++ [BACKSLASH; 117; g1; g2; g3; g4] ++ t);
                rewrite Ht, <- !app_assoc; reflexivity |].
        intros x. rewrite <- !app_assoc.
        rewrite (scanstring_u4 _ _ _ _ _ _ Hh), Hre, Hx. reflexivity.
      * apply push_some in Hs as (v0 & Hs & ->).
        destruct (IH s3 ltac:(simpl in Hlen; lia) v0 r Hs) as (pre & -> & Hrun & [t Ht] & Hx).
        exists ([BACKSLASH; 117; h1; h2; h3; h4] ++ pre).
        split; [reflexivity |].
        split; [rewrite (lex_run_u4 _ _ _ _ _ _ Hh); exact Hrun |].
        split; [exists ([BACKSLASH; 117; h1; h2; h3; h4] ++ t); rewrite Ht, <- app_assoc;
                reflexivity |].
        intros x. rewrite <- app_assoc.
        rewrite (scanstring_u4 _ _ _ _ _ _ Hh),
          (surrogate_pair_none u pre r Hp (ex_intro _ t Ht) x), Hx. reflexivity.
    + destruct (simple_escape e) as [y |] eqn:Hy; [| discriminate Hs].
      apply push_some in Hs as (v0 & Hs & ->).
      destruct (IH s2 ltac:(simpl in Hlen; lia) v0 r Hs) as (pre & -> & Hrun & [t Ht] & Hx).
      apply N.eqb_neq in He.
      exists (BACKSLASH :: e :: pre).
      split; [reflexivity |].
      split; [rewrite (lex_run_esc _ _ _ He Hy); exact Hrun |].
      split; [exists (BACKSLASH :: e :: t); rewrite Ht; reflexivity |].
      intros x. cbn [app]. rewrite (scanstring_esc _ _ _ He Hy), Hx. reflexivity.
  - destruct (N.leb_spec c 31) as [| Hc]; [discriminate Hs |].
    apply push_some in Hs as (v0 & Hs & ->).
    destruct (IH s1 ltac:(simpl in Hlen; lia) v0 r Hs) as (pre & -> & Hrun & [t Ht] & Hx).
    exists (c :: pre).
    apply N.eqb_neq in Hq, Hb. apply N.leb_gt in Hc.
    split; [reflexivity |].
    split; [cbn [lex_run]; unfold lex_step; rewrite Hq, Hb, Hc; exact Hrun |].
    split; [exists (c :: t); rewrite Ht; reflexivity |].
    intros x. cbn [app]. rewrite scanstring_cons, Hq, Hb, Hc, Hx. reflexivity.
Qed.

Lemma scanstring_local (s v r : str) : scanstring s = Some (v, r) → string_local s v r.
Proof. apply (scanstring_local_bounded (length s)). lia. Qed.

(** ** Values *)

Lemma skip_ws_char (r : str) (c : char) (r1 : str) :
  skip_ws r = c :: r1 →
  ∃ w, r = w ++ c :: r1 ∧ forallb is_ws w = true ∧ is_ws c = false
       ∧ ∀ x, skip_ws (w ++ c :: x) = c :: x.
Proof.
  intros H. destruct (skip_ws_split r) as (w & Hr & Hw & Hh). rewrite H in Hr, Hh.
  exists w. split; [exact Hr |]. split; [exact Hw |]. split; [exact Hh |].
  intros x. apply skip_ws_app; assumption.
Qed.

Lemma lex_run_seq (q q' : lex) (a b : str) :
  lex_run q a = Some q' → lex_run q (a ++ b) = lex_run q' b.
Proof. intros H. rewrite lex_run_app, H. reflexivity. Qed.

Lemma lex_run_cons (q q' : lex) (c : char) (b : str) :
  lex_step q c = Some q' → lex_run q (c :: b) = lex_run q' b.
Proof. intros H. cbn [lex_run]. rewrite H. reflexivity. Qed.

Lemma lex_run_blanks (w b : str) :
  forallb is_ws w = true → lex_run Out (w ++ b) = lex_run Out b.
Proof. intros H. apply lex_run_seq, lex_run_ws, H. Qed.

Lemma edges_ends (c : char) (m b : str) :
  isspace c = false →
  (∃ t c', b = t ++ [c'] ∧ isspace c' = false) →
  edges (c :: m ++ b).
Proof.
  intros Hc (t & c' & -> & Hc'). split.
  - exists c, (m ++ t ++ [c']). auto.
  - exists (c :: m ++ t), c'. split; [| exact Hc'].
    cbn [app]. rewrite <- app_assoc. reflexivity.
Qed.

Lemma edges_close (c : char) (m : str) (c' : char) :
  isspace c = false → isspace c' = false → edges (c :: m ++ [c']).
Proof. intros Hc Hc'. apply edges_ends; [exact Hc |]. exists [], c'. auto. Qed.

Lemma parse_value_str (f : nat) (s1 : str) :
  parse_value (S f) (DQUOTE :: s1)
  = match scanstring s1 with Some (v, r) => Some (JStr v, r) | None => None end.
Proof. reflexivity. Qed.

Lemma parse_value_obj (f : nat) (s1 : str) :
  parse_value (S f) (LBRACE :: s1)
  = match skip_ws s1 with
    | c2 :: s2 => if N.eqb c2 RBRACE then Some (JObj [], s2)
                  else parse_members f (skip_ws s1) []
    | [] => None
    end.
Proof. reflexivity. Qed.

Lemma parse_value_arr (f : nat) (s1 : str) :
  parse_value (S f) (LBRACKET :: s1)
  = match skip_ws s1 with
    | c2 :: s2 => if N.eqb c2 RBRACKET then Some (JArr [], s2)
                  else parse_elements f (skip_ws s1) []
    | [] => None
    end.
Proof. reflexivity. Qed.

Lemma parse_value_scalar (f : nat) (c : char) (s1 : str) :
  c ≠ DQUOTE → c ≠ LBRACE → c ≠ LBRACKET →
  parse_value (S f) (c :: s1) = scan_scalar (c :: s1).
Proof.
  intros H1 H2 H3. apply N.eqb_neq in H1, H2, H3.
  cbn [parse_value]. rewrite H1, H2, H3. reflexivity.
Qed.

Lemma parse_elements_S (f : nat) (s : str) (acc : list json) :
  parse_elements (S f) s acc
  = match parse_value f s with
    | None => None
    | Some (v, r) =>
        match skip_ws r with
        | c :: r1 =>
            if N.eqb c RBRACKET then Some (JArr (rev (v :: acc)), r1)
            else if N.eqb c COMMA then parse_elements f (skip_ws r1) (v :: acc)
            else None
        | [] => None
        end
    end.
Proof. reflexivity. Qed.

Lemma parse_members_S (f : nat) (s1 : str) (acc : list (str * json)) :
  parse_members (S f) (DQUOTE :: s1) acc
  = match scanstring s1 with
    | None => None
    | Some (key, r) =>
        match skip_ws r with
        | c :: r1 =>
            if N.eqb c COLON then
              match parse_value f (skip_ws r1) with
              | None => None
              | Some (v, r2) =>
                  match skip_ws r2 with
                  | d :: r3 =>
                      if N.eqb d RBRACE
                      then Some (JObj (dict_set key v acc), r3)
                      else if N.eqb d COMMA
                      then parse_members f (skip_ws r3) (dict_set key v acc)
                      else None
                  | [] => None
                  end
              end
            else None
        | [] => None
        end
    end.
Proof. reflexivity. Qed.

Ltac lnorm := repeat first [rewrite <- app_assoc | progress cbn [app]].
Ltac fuel_S f' Hf :=
  destruct f' as [| f']; [revert Hf; cbn [length]; lia |].
Ltac fuel_le Hf :=
  revert Hf; repeat first [rewrite length_app | progress cbn [length]]; lia.

Section WithRuntime.
Context {runtime : Runtime}.

Lemma scan_value_str (f d : nat) (s1 : str) :
  scan_value (S f) d (DQUOTE :: s1)
  = match scanstring s1 with
    | Some (v, r) => Ret (JStr v, r)
    | None => Raise JSONDecodeError
    end.
Proof. reflexivity. Qed.

Lemma scan_value_obj (f d : nat) (s1 : str) :
  scan_value (S f) d (LBRACE :: s1)
  = if too_deep (S d) then Raise RecursionError else
    match skip_ws s1 with
    | c2 :: s2 => if N.eqb c2 RBRACE then Ret (JObj [], s2)
                  else scan_members f (S d) (skip_ws s1) []
    | [] => Raise JSONDecodeError
    end.
Proof. reflexivity. Qed.

Lemma scan_value_arr (f d : nat) (s1 : str) :
  scan_value (S f) d (LBRACKET :: s1)
  = if too_deep (S d) then Raise RecursionError else
    match skip_ws s1 with
    | c2 :: s2 => if N.eqb c2 RBRACKET then Ret (JArr [], s2)
                  else scan_elements f (S d) (skip_ws s1) []
    | [] => Raise JSONDecodeError
    end.
Proof. reflexivity. Qed.

Lemma scan_value_scalar (f d : nat) (c : char) (s1 : str) :
  c ≠ DQUOTE → c ≠ LBRACE → c ≠ LBRACKET →
  scan_value (S f) d (c :: s1) = scan_token (c :: s1).
Proof.
  intros H1 H2 H3. apply N.eqb_neq in H1, H2, H3.
  cbn [scan_value]. rewrite H1, H2, H3. reflexivity.
Qed.

Lemma scan_elements_S (f d : nat) (s : str) (acc : list json) :
  scan_elements (S f) d s acc
  = match scan_value f d s with
    | Raise e => Raise e
    | Ret (v, r) =>
        match skip_ws r with
        | c :: r1 =>
            if N.eqb c RBRACKET then Ret (JArr (rev (v :: acc)), r1)
            else if N.eqb c COMMA then scan_elements f d (skip_ws r1) (v :: acc)
            else Raise JSONDecodeError
        | [] => Raise JSONDecodeError
        end
    end.
Proof. reflexivity. Qed.

Lemma scan_members_S (f d : nat) (s1 : str) (acc : list (str * json)) :
  scan_members (S f) d (DQUOTE :: s1) acc
  = match scanstring s1 with
    | None => Raise JSONDecodeError
    | Some (key, r) =>
        match skip_ws r with
        | c :: r1 =>
            if N.eqb c COLON then
              match scan_value f d (skip_ws r1) with
              | Raise e => Raise e
              | Ret (v, r2) =>
                  match skip_ws r2 with
                  | d' :: r3 =>
                      if N.eqb d' RBRACE
                      then Ret (JObj (dict_set key v acc), r3)
                      else if N.eqb d' COMMA
                      then scan_members f d (skip_ws r3) (dict_set key v acc)
                      else Raise JSONDecodeError
                  | [] => Raise JSONDecodeError
                  end
              end
            else Raise JSONDecodeError
        | [] => Raise JSONDecodeError
        end
    end.
Proof. reflexivity. Qed.

(** ** The scanner follows the grammar *)

Lemma scan_token_parse (s : str) (p : json * str) :
  scan_token s = Ret p → scan_scalar s = Some p.
Proof.
  unfold scan_token. destruct (scan_scalar s) as [[v r] |]; [| discriminate].
  destruct v; try (intros [= <-]; reflexivity).
  destruct (too_many_digits _); [discriminate | intros [= <-]; reflexivity].
Qed.

Lemma scan_parse (f : nat) :
  (∀ d s p, scan_value f d s = Ret p → parse_value f s = Some p)
  ∧ (∀ d s acc p, scan_elements f d s acc = Ret p → parse_elements f s acc = Some p)
  ∧ (∀ d s acc p, scan_members f d s acc = Ret p → parse_members f s acc = Some p).
Proof.
  induction f as [| f (Hv & He & Hm)]; [repeat split; intros; discriminate |].
  split; [| split].
  - intros d s p. destruct s as [| c s1]; [discriminate |].
    destruct (N.eqb_spec c DQUOTE) as [-> | Hq].
    { rewrite scan_value_str, parse_value_str.
      destruct (scanstring s1) as [[v r] |]; [intros [= <-]; reflexivity | discriminate]. }
    destruct (N.eqb_spec c LBRACE) as [-> | Hlb].
    { rewrite scan_value_obj, parse_value_obj. destruct (too_deep (S d)); [discriminate |].
      destruct (skip_ws s1) as [| c2 s2]; [discriminate |].
      destruct (N.eqb c2 RBRACE); [intros [= <-]; reflexivity | apply Hm]. }
    destruct (N.eqb_spec c LBRACKET) as [-> | Hlk].
    { rewrite scan_value_arr, parse_value_arr. destruct (too_deep (S d)); [discriminate |].
      destruct (skip_ws s1) as [| c2 s2]; [discriminate |].
      destruct (N.eqb c2 RBRACKET); [intros [= <-]; reflexivity | apply He]. }
    rewrite scan_value_scalar, parse_value_scalar by assumption. apply scan_token_parse.
  - intros d s acc p. rewrite scan_elements_S, parse_elements_S.
    destruct (scan_value f d s) as [[v r] | e] eqn:Hs; [| discriminate].
    rewrite (Hv _ _ _ Hs). destruct (skip_ws r) as [| c r1]; [discriminate |].
    destruct (N.eqb c RBRACKET); [intros [= <-]; reflexivity |].
    destruct (N.eqb c COMMA); [apply He | discriminate].
  - intros d s acc p. destruct s as [| q s1]; [discriminate |].
    destruct (N.eqb_spec q DQUOTE) as [-> | Hq];
      [| cbn [scan_members]; apply N.eqb_neq in Hq; rewrite Hq; discriminate].
    rewrite scan_members_S, parse_members_S.
    destruct (scanstring s1) as [[key r] |]; [| discriminate].
    destruct (skip_ws r) as [| c r1]; [discriminate |].
    destruct (N.eqb c COLON); [| discriminate].
    destruct (scan_value f d (skip_ws r1)) as [[v r2] | e] eqn:Hs; [| discriminate].
    rewrite (Hv _ _ _ Hs). destruct (skip_ws r2) as [| c3 r3]; [discriminate |].
    destruct (N.eqb c3 RBRACE); [intros [= <-]; reflexivity |].
    destruct (N.eqb c3 COMMA); [apply Hm | discriminate].
Qed.

Lemma scan_value_parse (f d : nat) (s : str) (p : json * str) :
  scan_value f d s = Ret p → parse_value f s = Some p.
Proof. apply scan_parse. Qed.

(** ** The digits of an integer literal do not depend on what follows *)

Lemma scalar_int_number (s : str) (z : Z) (r : str) :
  scan_scalar s = Some (JInt z, r) → match_number s = Some (JInt z, r).
Proof.
  unfold scan_scalar.
  repeat match goal with
         | |- context [if startswith ?l s then _ else _] =>
             destruct (startswith l s); [discriminate |]
         end.
  auto.
Qed.

Lemma int_digits_local (s : str) (z : Z) (pre r x : str) :
  scan_scalar s = Some (JInt z, r) → s = pre ++ r → term x →
  int_digits (pre ++ x) = int_digits s.
Proof.
  intros Hs%scalar_int_number Hpre Hx. unfold match_number in Hs.
  destruct (scan_int s) as [[[neg ds] r1] |] eqn:Hi; [| discriminate].
  destruct (scan_frac r1) as [fr r2] eqn:Hf.
  destruct (scan_exp r2) as [ex r3] eqn:He.
  destruct fr; [| destruct ex; discriminate]. destruct ex; [| discriminate].
  injection Hs as _ <-.
  destruct (scan_int_local s neg ds r1 Hi) as (Hs & _ & _ & Hre).
  destruct (scan_frac_local r1 [] r2 Hf) as (-> & _).
  destruct (scan_exp_local r2 [] r3 He) as (-> & _).
  cbn [app] in Hs. rewrite Hs, app_assoc in Hpre. apply app_inv_tail in Hpre. subst pre.
  unfold int_digits. rewrite Hi, <- app_assoc, (Hre x (term_no_digit x Hx)). reflexivity.
Qed.

Lemma scan_token_local (s : str) (v : json) (pre r x : str) :
  scan_scalar s = Some (v, r) → s = pre ++ r →
  (∀ y, term y → scan_scalar (pre ++ y) = Some (v, y)) → term x →
  scan_token (pre ++ x) = with_rest x (scan_token s).
Proof.
  intros Hs Hpre Hre Hx. unfold scan_token. rewrite (Hre x Hx), Hs.
  destruct v; try reflexivity.
  rewrite (int_digits_local s z pre r x Hs Hpre Hx).
  destruct (too_many_digits _); reflexivity.
Qed.


Lemma tokens_head (pre : str) :
  tokens pre → ∃ c t, pre = c :: t ∧ is_ws c = false ∧ isspace c = false.
Proof.
  intros [_ [(c & t & -> & Hc) _]]. exists c, t. split; [reflexivity |].
  split; [| exact Hc].
  destruct (is_ws c) eqn:E; [| reflexivity]. apply is_ws_isspace in E. congruence.
Qed.

Lemma term_blank_then (w : str) (c : char) (x : str) :
  forallb is_ws w = true → stops c = true → term (w ++ c :: x).
Proof.
  intros Hw Hc. destruct w as [| b w]; [exact Hc |].
  simpl in Hw. apply andb_true_iff in Hw as [Hb _]. apply is_ws_stops, Hb.
Qed.

Lemma value_step (f : nat) : elements_local f → members_local f → value_local (S f).
Proof.
  intros He Hm s v r H.
  destruct s as [| c s1]; [discriminate H |].
  destruct (N.eqb_spec c DQUOTE) as [-> | Hq].
  { rewrite parse_value_str in H.
    destruct (scanstring s1) as [[k r0] |] eqn:Hs; [| discriminate H].
    injection H as <- <-.
    destruct (scanstring_local _ _ _ Hs) as (pre & -> & Hrun & [t Ht] & Hx).
    exists (DQUOTE :: pre). split; [reflexivity |]. split; [| split].
    - split; [rewrite (lex_run_cons Out InStr) by reflexivity; exact Hrun |].
      rewrite Ht. apply edges_close; reflexivity.
    - intros x f' _ Hf. fuel_S f' Hf. cbn [app]. rewrite parse_value_str, Hx. reflexivity.
    - intros x f' d _ Hf. fuel_S f' Hf. cbn [app].
      rewrite !scan_value_str, (Hx x), Hs. reflexivity. }
  destruct (N.eqb_spec c LBRACE) as [-> | Hlb].
  { rewrite parse_value_obj in H.
    destruct (skip_ws s1) as [| c2 s2] eqn:Hsk; [discriminate H |].
    destruct (skip_ws_char _ _ _ Hsk) as (w & -> & Hw & Hc2 & Hre).
    destruct (N.eqb_spec c2 RBRACE) as [-> | Hc2'].
    - injection H as <- <-. exists (LBRACE :: w ++ [RBRACE]).
      split; [lnorm; reflexivity |]. split; [| split].
      + split; [| apply edges_close; reflexivity].
        rewrite (lex_run_cons Out Out) by reflexivity. rewrite lex_run_blanks by exact Hw.
        reflexivity.
      + intros x f' _ Hf. fuel_S f' Hf. lnorm. rewrite parse_value_obj, Hre. reflexivity.
      + intros x f' d _ Hf. fuel_S f' Hf. lnorm. rewrite !scan_value_obj, !Hre.
        destruct (too_deep (S d)); reflexivity.
    - destruct (Hm _ _ _ _ H) as (pre & Hpre & Htok & Hx & Hy).
      destruct (tokens_head pre Htok) as (c0 & t0 & -> & _ & _).
      injection Hpre as <- ->.
      exists (LBRACE :: w ++ c2 :: t0).
      split; [lnorm; reflexivity |]. split; [| split].
      + destruct Htok as [Hlex [_ Hlast]]. split.
        * rewrite (lex_run_cons Out Out) by reflexivity. rewrite lex_run_blanks by exact Hw.
          exact Hlex.
        * apply edges_ends; [reflexivity | exact Hlast].
      + intros x f' _ Hf. fuel_S f' Hf. lnorm. rewrite parse_value_obj, Hre.
        apply N.eqb_neq in Hc2'. rewrite Hc2'.
        apply (Hx x f'). fuel_le Hf.
      + intros x f' d _ Hf. fuel_S f' Hf. lnorm. rewrite !scan_value_obj, !Hre.
        apply N.eqb_neq in Hc2'. rewrite Hc2'.
        destruct (too_deep (S d)); [reflexivity |].
        apply (Hy x f' (S d)). fuel_le Hf. }
  destruct (N.eqb_spec c LBRACKET) as [-> | Hlk].
  { rewrite parse_value_arr in H.
    destruct (skip_ws s1) as [| c2 s2] eqn:Hsk; [discriminate H |].
    destruct (skip_ws_char _ _ _ Hsk) as (w & -> & Hw & Hc2 & Hre).
    destruct (N.eqb_spec c2 RBRACKET) as [-> | Hc2'].
    - injection H as <- <-. exists (LBRACKET :: w ++ [RBRACKET]).
      split; [lnorm; reflexivity |]. split; [| split].
      + split; [| apply edges_close; reflexivity].
        rewrite (lex_run_cons Out Out) by reflexivity. rewrite lex_run_blanks by exact Hw.
        reflexivity.
      + intros x f' _ Hf. fuel_S f' Hf. lnorm. rewrite parse_value_arr, Hre. reflexivity.
      + intros x f' d _ Hf. fuel_S f' Hf. lnorm. rewrite !scan_value_arr, !Hre.
        destruct (too_deep (S d)); reflexivity.
    - destruct (He _ _ _ _ H) as (pre & Hpre & Htok & Hx & Hy).
      destruct (tokens_head pre Htok) as (c0 & t0 & -> & _ & _).
      injection Hpre as <- ->.
      exists (LBRACKET :: w ++ c2 :: t0).
      split; [lnorm; reflexivity |]. split; [| split].
      + destruct Htok as [Hlex [_ Hlast]]. split.
        * rewrite (lex_run_cons Out Out) by reflexivity. rewrite lex_run_blanks by exact Hw.
          exact Hlex.
        * apply edges_ends; [reflexivity | exact Hlast].
      + intros x f' _ Hf. fuel_S f' Hf. lnorm. rewrite parse_value_arr, Hre.
        apply N.eqb_neq in Hc2'. rewrite Hc2'.
        apply (Hx x f'). fuel_le Hf.
      + intros x f' d _ Hf. fuel_S f' Hf. lnorm. rewrite !scan_value_arr, !Hre.
        apply N.eqb_neq in Hc2'. rewrite Hc2'.
        destruct (too_deep (S d)); [reflexivity |].
        apply (Hy x f' (S d)). fuel_le Hf. }
  rewrite parse_value_scalar in H by assumption.
  destruct (scan_scalar_local _ _ _ H) as (pre & Hpre & Htok & (c0 & t0 & -> & H1 & H2 & H3) & Hx).
  exists (c0 :: t0). split; [exact Hpre |]. split; [exact Htok |]. split.
  - intros x f' Hterm Hf. fuel_S f' Hf. cbn [app].
    rewrite parse_value_scalar by assumption. apply (Hx x Hterm).
  - intros x f' d Hterm Hf. fuel_S f' Hf.
    rewrite (scan_value_scalar f d c s1) by assumption. cbn [app].
    rewrite scan_value_scalar by assumption.
    exact (scan_token_local (c :: s1) v (c0 :: t0) r x H Hpre Hx Hterm).
Qed.

Lemma edges_wrap (a m b : str) :
  edges a → (∃ t c', b = t ++ [c'] ∧ isspace c' = false) → edges (a ++ m ++ b).
Proof.
  intros [(c & t & -> & Hc) _] Hb. cbn [app]. rewrite app_assoc.
  apply edges_ends; assumption.
Qed.

Lemma last_single (c : char) :
  isspace c = false → ∃ t c', [c] = t ++ [c'] ∧ isspace c' = false.
Proof. intros H. exists [], c. auto. Qed.

Lemma skip_ws_pre (r1 pre r2 : str) :
  skip_ws r1 = pre ++ r2 → tokens pre →
  ∃ w, r1 = w ++ pre ++ r2 ∧ forallb is_ws w = true
       ∧ ∀ y, skip_ws (w ++ pre ++ y) = pre ++ y.
Proof.
  intros H Htok. destruct (skip_ws_split r1) as (w & Hr & Hw & _). rewrite H in Hr.
  exists w. split; [exact Hr |]. split; [exact Hw |].
  intros y. destruct (tokens_head pre Htok) as (c & t & -> & Hc & _).
  apply skip_ws_app; [exact Hw | exact Hc].
Qed.

Lemma elements_step (f : nat) : value_local f → elements_local f → elements_local (S f).
Proof.
  intros Hv He s acc v r H. rewrite parse_elements_S in H.
  destruct (parse_value f s) as [[v1 r0] |] eqn:Hp; [| discriminate H].
  destruct (Hv _ _ _ Hp) as (pv & -> & Htokv & Hxv & Hyv).
  destruct (skip_ws r0) as [| c r1] eqn:Hsk; [discriminate H |].
  destruct (skip_ws_char _ _ _ Hsk) as (w & -> & Hw & Hc & Hre).
  destruct (N.eqb_spec c RBRACKET) as [-> | Hnb].
  - injection H as <- <-. exists (pv ++ w ++ [RBRACKET]).
    split; [lnorm; reflexivity |]. split; [| split].
    + split; [| apply edges_wrap; [apply Htokv | apply last_single; reflexivity]].
      rewrite (lex_run_seq Out Out pv) by apply Htokv.
      rewrite lex_run_blanks by exact Hw. reflexivity.
    + intros x f' Hf. destruct f' as [| f']; [lia |]. lnorm.
      rewrite parse_elements_S.
      rewrite (Hxv (w ++ RBRACKET :: x) f')
        by (first [apply term_blank_then; [exact Hw | reflexivity] | fuel_le Hf]).
      rewrite Hre. reflexivity.
    + intros x f' d Hf. destruct f' as [| f']; [lia |]. lnorm.
      rewrite !scan_elements_S.
      rewrite (Hyv (w ++ RBRACKET :: x) f' d)
        by (first [apply term_blank_then; [exact Hw | reflexivity] | fuel_le Hf]).
      destruct (scan_value f d (pv ++ _)) as [[v' r'] | e] eqn:Hsv; [| reflexivity].
      apply scan_value_parse in Hsv. rewrite Hp in Hsv. injection Hsv as <- <-.
      cbn [with_rest]. rewrite !Hre. reflexivity.
  - destruct (N.eqb_spec c COMMA) as [-> | Hnc]; [| discriminate H].
    destruct (He _ _ _ _ H) as (pe & Hpe & Htoke & Hxe & Hye).
    destruct (skip_ws_pre _ _ _ Hpe Htoke) as (w2 & -> & Hw2 & Hre2).
    exists (pv ++ (w ++ COMMA :: w2) ++ pe).
    split; [lnorm; reflexivity |]. split; [| split].
    + split; [| apply edges_wrap; [apply Htokv | apply Htoke]].
      lnorm. rewrite (lex_run_seq Out Out pv) by apply Htokv.
      rewrite lex_run_blanks by exact Hw.
      rewrite (lex_run_cons Out Out) by reflexivity.
      rewrite lex_run_blanks by exact Hw2. apply Htoke.
    + intros x f' Hf. destruct f' as [| f']; [lia |]. lnorm.
      rewrite parse_elements_S.
      rewrite (Hxv (w ++ COMMA :: w2 ++ pe ++ x) f')
        by (first [apply term_blank_then; [exact Hw | reflexivity] | fuel_le Hf]).
      rewrite Hre. cbv beta iota.
      change (N.eqb COMMA RBRACKET) with false. change (N.eqb COMMA COMMA) with true.
      cbv iota. rewrite Hre2. apply (Hxe x f'). fuel_le Hf.
    + intros x f' d Hf. destruct f' as [| f']; [lia |]. lnorm.
      rewrite !scan_elements_S.
      rewrite (Hyv (w ++ COMMA :: w2 ++ pe ++ x) f' d)
        by (first [apply term_blank_then; [exact Hw | reflexivity] | fuel_le Hf]).
      destruct (scan_value f d (pv ++ _)) as [[v' r'] | e] eqn:Hsv; [| reflexivity].
      apply scan_value_parse in Hsv. rewrite Hp in Hsv. injection Hsv as <- <-.
      cbn [with_rest]. rewrite !Hre. cbv beta iota.
      change (N.eqb COMMA RBRACKET) with false. change (N.eqb COMMA COMMA) with true.
      cbv iota. rewrite (Hre2 x). apply (Hye x f' d). fuel_le Hf.
Qed.

Lemma members_step (f : nat) : value_local f → members_local f → members_local (S f).
Proof.
  intros Hv Hm s acc v r H.
  destruct s as [| q s1]; [discriminate H |].
  destruct (N.eqb_spec q DQUOTE) as [-> | Hq];
    [| cbn [parse_members] in H; apply N.eqb_neq in Hq; rewrite Hq in H; discriminate H].
  rewrite parse_members_S in H.
  destruct (scanstring s1) as [[key r0] |] eqn:Hs; [| discriminate H].
  destruct (scanstring_local _ _ _ Hs) as (pk & -> & Hrunk & [tk Htk] & Hxk).
  destruct (skip_ws r0) as [| c r1] eqn:Hsk; [discriminate H |].
  destruct (skip_ws_char _ _ _ Hsk) as (w1 & -> & Hw1 & Hc & Hre1).
  destruct (N.eqb_spec c COLON) as [-> | Hncol]; [| discriminate H].
  destruct (parse_value f (skip_ws r1)) as [[v1 r2] |] eqn:Hp; [| discriminate H].
  destruct (Hv _ _ _ Hp) as (pv & Hpv & Htokv & Hxv & Hyv).
  destruct (skip_ws_pre _ _ _ Hpv Htokv) as (w2 & -> & Hw2 & Hre2).
  destruct (skip_ws r2) as [| d r3] eqn:Hsk3; [discriminate H |].
  destruct (skip_ws_char _ _ _ Hsk3) as (w3 & -> & Hw3 & Hd & Hre3).
  destruct (N.eqb_spec d RBRACE) as [-> | Hnb].
  - injection H as <- <-.
    exists (DQUOTE :: (pk ++ w1 ++ COLON :: w2 ++ pv ++ w3) ++ [RBRACE]).
    split; [lnorm; reflexivity |]. split; [| split].
    + split; [| apply edges_close; reflexivity].
      lnorm. rewrite (lex_run_cons Out InStr) by reflexivity.
      rewrite (lex_run_seq InStr Out pk) by exact Hrunk.
      rewrite lex_run_blanks by exact Hw1.
      rewrite (lex_run_cons Out Out) by reflexivity.
      rewrite lex_run_blanks by exact Hw2.
      rewrite (lex_run_seq Out Out pv) by apply Htokv.
      rewrite lex_run_blanks by exact Hw3. reflexivity.
    + intros x f' Hf. destruct f' as [| f']; [lia |]. lnorm.
      rewrite parse_members_S, Hxk, Hre1. cbv beta iota.
      change (N.eqb COLON COLON) with true. cbv iota.
      rewrite Hre2.
      rewrite (Hxv (w3 ++ RBRACE :: x) f')
        by (first [apply term_blank_then; [exact Hw3 | reflexivity] | fuel_le Hf]).
      rewrite Hre3. reflexivity.
    + intros x f' d' Hf. destruct f' as [| f']; [lia |]. lnorm.
      rewrite !scan_members_S, (Hxk (w1 ++ COLON :: w2 ++ pv ++ w3 ++ RBRACE :: x)), Hs.
      rewrite !Hre1. cbv beta iota.
      change (N.eqb COLON COLON) with true. cbv iota.
      rewrite (Hre2 (w3 ++ RBRACE :: x)).
      rewrite (Hyv (w3 ++ RBRACE :: x) f' d')
        by (first [apply term_blank_then; [exact Hw3 | reflexivity] | fuel_le Hf]).
      destruct (scan_value f d' (skip_ws _)) as [[v' r'] | e] eqn:Hsv; [| reflexivity].
      apply scan_value_parse in Hsv. rewrite Hp in Hsv. injection Hsv as <- <-.
      cbn [with_rest]. rewrite !Hre3. reflexivity.
  - destruct (N.eqb_spec d COMMA) as [-> | Hnc]; [| discriminate H].
    destruct (Hm _ _ _ _ H) as (pm & Hpm & Htokm & Hxm & Hym).
    destruct (skip_ws_pre _ _ _ Hpm Htokm) as (w4 & -> & Hw4 & Hre4).
    exists (DQUOTE :: (pk ++ w1 ++ COLON :: w2 ++ pv ++ w3 ++ COMMA :: w4) ++ pm).
    split; [lnorm; reflexivity |]. split; [| split].
    + split; [| apply edges_ends; [reflexivity | apply Htokm]].
      lnorm. rewrite (lex_run_cons Out InStr) by reflexivity.
      rewrite (lex_run_seq InStr Out pk) by exact Hrunk.
      rewrite lex_run_blanks by exact Hw1.
      rewrite (lex_run_cons Out Out) by reflexivity.
      rewrite lex_run_blanks by exact Hw2.
      rewrite (lex_run_seq Out Out pv) by apply Htokv.
      rewrite lex_run_blanks by exact Hw3.
      rewrite (lex_run_cons Out Out) by reflexivity.
      rewrite lex_run_blanks by exact Hw4. apply Htokm.
    + intros x f' Hf. destruct f' as [| f']; [lia |]. lnorm.
      rewrite parse_members_S, Hxk, Hre1. cbv beta iota.
      change (N.eqb COLON COLON) with true. cbv iota.
      rewrite Hre2.
      rewrite (Hxv (w3 ++ COMMA :: w4 ++ pm ++ x) f')
        by (first [apply term_blank_then; [exact Hw3 | reflexivity] | fuel_le Hf]).
      rewrite Hre3. cbv beta iota.
      change (N.eqb COMMA RBRACE) with false. change (N.eqb COMMA COMMA) with true.
      cbv iota. rewrite Hre4. apply (Hxm x f'). fuel_le Hf.
    + intros x f' d' Hf. destruct f' as [| f']; [lia |]. lnorm.
      rewrite !scan_members_S,
        (Hxk (w1 ++ COLON :: w2 ++ pv ++ w3 ++ COMMA :: w4 ++ pm ++ x)), Hs.
      rewrite !Hre1. cbv beta iota.
      change (N.eqb COLON COLON) with true. cbv iota.
      rewrite (Hre2 (w3 ++ COMMA :: w4 ++ pm ++ x)).
      rewrite (Hyv (w3 ++ COMMA :: w4 ++ pm ++ x) f' d')
        by (first [apply term_blank_then; [exact Hw3 | reflexivity] | fuel_le Hf]).
      destruct (scan_value f d' (skip_ws _)) as [[v' r'] | e] eqn:Hsv; [| reflexivity].
      apply scan_value_parse in Hsv. rewrite Hp in Hsv. injection Hsv as <- <-.
      cbn [with_rest]. rewrite !Hre3. cbv beta iota.
      change (N.eqb COMMA RBRACE) with false. change (N.eqb COMMA COMMA) with true.
      cbv iota. rewrite (Hre4 x). apply (Hym x f' d'). fuel_le Hf.
Qed.

Lemma parsers_local (f : nat) : value_local f ∧ elements_local f ∧ members_local f.
Proof.
  induction f as [| f (Hv & He & Hm)].
  - repeat split; intros ? **; discriminate.
  - split; [apply value_step; assumption |].
    split; [apply elements_step | apply members_step]; assumption.
Qed.

(** ** Whole texts *)

Lemma skip_ws_nil (r : str) : skip_ws r = [] → forallb is_ws r = true.
Proof.
  intros H. destruct (skip_ws_split r) as (w & Hr & Hw & _).
  rewrite H, app_nil_r in Hr. rewrite Hr. exact Hw.
Qed.

Lemma skip_ws_tokens (pre : str) : tokens pre → skip_ws pre = pre.
Proof.
  intros Htok. destruct (tokens_head pre Htok) as (c & t & -> & Hc & _).
  apply (skip_ws_app [] (c :: t)); [reflexivity | exact Hc].
Qed.

Lemma loads_scan (text : str) (v : json) :
  loads text = Ret v
  ↔ ∃ r, scan_value (2 * length text + 2) 0 (skip_ws text) = Ret (v, r) ∧ skip_ws r = [].
Proof.
  unfold loads.
  destruct (scan_value (2 * length text + 2) 0 (skip_ws text)) as [[v0 r] | e].
  - destruct (skip_ws r) as [| c r'] eqn:Hr; split.
    + intros [= ->]. exists r. auto.
    + intros (r1 & [= -> ->] & _). reflexivity.
    + discriminate.
    + intros (r1 & [= -> ->] & Hn). congruence.
  - split; [discriminate | intros (r & Hr & _); discriminate].
Qed.

(** What [json.loads] returns is what the grammar reads. *)
Lemma loads_parse (text : str) (v : json) :
  loads text = Ret v →
  ∃ r, parse_value (2 * length text + 2) (skip_ws text) = Some (v, r) ∧ skip_ws r = [].
Proof.
  intros (r & Hs & Hr)%loads_scan. exists r.
  split; [exact (scan_value_parse _ _ _ _ Hs) | exact Hr].
Qed.

(** A text that [json.loads] accepts is one value between JSON blanks, and the
    value alone loads to the same result. *)
Lemma loads_shape (text : str) (v : json) :
  loads text = Ret v →
  ∃ w pre r, text = w ++ pre ++ r
             ∧ forallb is_ws w = true ∧ forallb is_ws r = true
             ∧ tokens pre ∧ loads pre = Ret v.
Proof.
  intros (r & Hs & Hr)%loads_scan.
  pose proof (scan_value_parse _ _ _ _ Hs) as Hp.
  destruct (parsers_local (2 * length text + 2)) as (Hv & _ & _).
  destruct (Hv _ _ _ Hp) as (pre & Hpre & Htok & _ & Hy).
  destruct (skip_ws_pre _ _ _ Hpre Htok) as (w & Htext & Hw & _).
  exists w, pre, r. split; [exact Htext |]. split; [exact Hw |].
  split; [apply skip_ws_nil, Hr |]. split; [exact Htok |].
  unfold loads. rewrite (skip_ws_tokens pre Htok).
  specialize (Hy [] (2 * length pre + 2)%nat 0%nat I ltac:(lia)).
  rewrite app_nil_r in Hy. rewrite Hy, Hs. reflexivity.
Qed.

Lemma lex_run_wrapped (w pre r : str) :
  forallb is_ws w = true → forallb is_ws r = true → tokens pre →
  lex_run Out (w ++ pre ++ r) = Some Out.
Proof.
  intros Hw Hr [Hlex _].
  rewrite lex_run_blanks by exact Hw.
  rewrite (lex_run_seq Out Out pre) by exact Hlex.
  apply lex_run_ws, Hr.
Qed.

Lemma clean_fast_path (text : str) :
  text ≠ [] → valid (strip_markdown text) = true →
  clean_json_response text = Ret (strip_markdown text).
Proof.
  intros Hne Hv. destruct text as [| c t]; [contradiction |].
  unfold clean_json_response. cbv zeta. rewrite Hv. reflexivity.
Qed.

Lemma loads_valid (text : str) (v : json) : loads text = Ret v → valid text = true.
Proof. unfold valid. intros ->. reflexivity. Qed.

(** C3, amended.  For every text that already parses as JSON the decoder
    returns [text.strip()]: the text without the blanks around it, and so the
    text itself, character for character, when no blank surrounds it.  What
    it returns loads to the same value, and the decoder returns it unchanged
    when applied again. *)
Theorem valid_json_returned_stripped (text : str) :
  valid text = true →
  clean_json_response text = Ret (strip text)
  ∧ (let* cleaned := clean_json_response text in loads cleaned) = loads text
  ∧ (let* cleaned := clean_json_response text in clean_json_response cleaned)
    = clean_json_response text.
Proof.
  unfold valid. destruct (loads text) as [v | e] eqn:Hl; [intros _ | discriminate].
  destruct (loads_shape text v Hl) as (w & pre & r & -> & Hw & Hr & Htok & Hpre).
  assert (Hne : pre ≠ []).
  { destruct (tokens_head pre Htok) as (c & t & -> & _). discriminate. }
  assert (Hstrip : strip (w ++ pre ++ r) = pre) by (apply strip_wrapped; [| | apply Htok]; assumption).
  assert (Hmd : strip_markdown (w ++ pre ++ r) = pre).
  { rewrite strip_markdown_lexed by (apply lex_run_wrapped; assumption). exact Hstrip. }
  assert (Hstrip' : strip pre = pre).
  { rewrite <- (app_nil_r pre) at 1.
    apply (strip_wrapped [] pre []); [reflexivity | reflexivity | apply Htok]. }
  assert (Hmd' : strip_markdown pre = pre).
  { rewrite strip_markdown_lexed by apply Htok. exact Hstrip'. }
  assert (Hclean : clean_json_response (w ++ pre ++ r) = Ret pre).
  { rewrite clean_fast_path; [rewrite Hmd; reflexivity | |].
    - destruct w; [destruct pre; [contradiction | discriminate] | discriminate].
    - rewrite Hmd. exact (loads_valid pre v Hpre). }
  rewrite Hclean, Hstrip. cbn [rbind]. split; [reflexivity |]. split; [exact Hpre |].
  rewrite clean_fast_path; [rewrite Hmd'; reflexivity | exact Hne |].
  rewrite Hmd'. exact (loads_valid pre v Hpre).
Qed.

End WithRuntime.

(** C3 as stated fails: [ {'a': 1} ], with a blank on either side, parses as
    JSON, and the decoder returns it without the two blanks. *)
Lemma padded_json_is_stripped :
  @valid sample_runtime (jq " {'a': 1} ") = true
  ∧ @clean_json_response sample_runtime (jq " {'a': 1} ") = Ret (jq "{'a': 1}")
  ∧ jq "{'a': 1}" ≠ jq " {'a': 1} ".
Proof. vm_compute. split; [reflexivity |]. split; [reflexivity | discriminate]. Qed.

Lemma valid_json_returned_stripped_witness :
  let text := jq "[1, {'k': 'v'}] " in
  @valid sample_runtime text = true
  ∧ @clean_json_response sample_runtime text = Ret (strip text)
  ∧ (let* cleaned := @clean_json_response sample_runtime text in
     @loads sample_runtime cleaned) = @loads sample_runtime text
  ∧ (let* cleaned := @clean_json_response sample_runtime text in
     @clean_json_response sample_runtime cleaned)
    = @clean_json_response sample_runtime text.
Proof.
  split; [vm_compute; reflexivity |].
  apply (@valid_json_returned_stripped sample_runtime (jq "[1, {'k': 'v'}] ")).
  vm_compute. reflexivity.
Defined.

End JsonFacts.
(* ===================================================================== *)
(** * The repairs of the decoder *)
(* ===================================================================== *)

Module RepairFacts.
Import Re JsonHelper Spec Lexical Json JsonFacts Props.

Section WithRuntime.
Context {runtime : Runtime}.

Lemma trailing_backslashes_snoc (result : str) (c : char) :
  trailing_backslashes (result ++ [c])
  = if N.eqb c BACKSLASH then S (trailing_backslashes result) else O.
Proof.
  unfold trailing_backslashes. rewrite rev_app_distr. reflexivity.
Qed.

Lemma fix_newlines_loop_cons (c : char) (text result : str) (in_string : bool) :
  fix_newlines_loop (c :: text) result in_string
  = if N.eqb c DQUOTE then
      fix_newlines_loop text (result ++ [c])
        (if negb in_string then true
         else if Nat.even (trailing_backslashes result) then false else in_string)
    else if in_string && N.eqb c LF then
      fix_newlines_loop text (result ++ [BACKSLASH; 110]) in_string
    else if in_string && N.eqb c CR then
      fix_newlines_loop text (result ++ [BACKSLASH; 114]) in_string
    else if in_string && N.eqb c TAB then
      fix_newlines_loop text (result ++ [BACKSLASH; 116]) in_string
    else fix_newlines_loop text (result ++ [c]) in_string.
Proof. reflexivity. Qed.

(** One character that the lexer accepts is copied, and the scanner keeps
    track. *)
Lemma tracks_step (q q' : lex) (c : char) (text result : str) (in_string : bool) :
  lex_step q c = Some q' → tracks q result in_string →
  ∃ in_string',
    fix_newlines_loop (c :: text) result in_string
    = fix_newlines_loop text (result ++ [c]) in_string'
    ∧ tracks q' (result ++ [c]) in_string'.
Proof.
  intros Hstep Htr. rewrite fix_newlines_loop_cons.
  unfold tracks in *. rewrite trailing_backslashes_snoc.
  destruct q; cbn [lex_step] in Hstep.
  - subst in_string. cbn [negb andb].
    destruct (N.eqb_spec c DQUOTE) as [-> | Hq].
    + injection Hstep as <-. eexists. split; [reflexivity |]. split; reflexivity.
    + destruct (N.eqb c BACKTICK); [discriminate |]. injection Hstep as <-.
      eexists. split; reflexivity.
  - destruct Htr as [-> He]. rewrite He. cbn [negb andb].
    destruct (N.eqb_spec c DQUOTE) as [-> | Hq].
    + injection Hstep as <-. eexists. split; reflexivity.
    + destruct (N.eqb_spec c BACKSLASH) as [-> | Hb].
      * injection Hstep as <-. eexists. split; [reflexivity |].
        split; [reflexivity |]. rewrite Nat.even_succ, <- Nat.negb_even, He. reflexivity.
      * destruct (N.leb_spec c 31) as [| Hc]; [discriminate |]. injection Hstep as <-.
        replace (N.eqb c LF) with false by (symmetry; apply N.eqb_neq; intros ->; vm_compute in Hc; discriminate).
        replace (N.eqb c CR) with false by (symmetry; apply N.eqb_neq; intros ->; vm_compute in Hc; discriminate).
        replace (N.eqb c TAB) with false by (symmetry; apply N.eqb_neq; intros ->; vm_compute in Hc; discriminate).
        eexists. split; [reflexivity |]. split; reflexivity.
  - destruct Htr as [-> He]. rewrite He. cbn [negb andb].
    assert (Hplain : c ≠ LF ∧ c ≠ CR ∧ c ≠ TAB).
    { repeat split; intros ->; vm_compute in Hstep; discriminate. }
    destruct Hplain as (H1 & H2 & H3). apply N.eqb_neq in H1, H2, H3.
    rewrite H1, H2, H3.
    assert (Hq' : q' = InStr).
    { destruct (N.eqb c 117); [congruence |].
      destruct (simple_escape c); [congruence | discriminate]. }
    subst q'.
    destruct (N.eqb_spec c DQUOTE) as [-> | Hq].
    + eexists. split; [reflexivity |]. split; reflexivity.
    + eexists. split; [reflexivity |]. split; [reflexivity |].
      destruct (N.eqb c BACKSLASH); [| reflexivity].
      rewrite Nat.even_succ, <- Nat.negb_even, He. reflexivity.
Qed.

Lemma fix_newlines_lexed (text : str) :
  ∀ q q' result in_string,
    lex_run q text = Some q' → tracks q result in_string →
    fix_newlines_loop text result in_string = result ++ text.
Proof.
  induction text as [| c text IH]; intros q q' result in_string Hrun Htr.
  - cbn. rewrite app_nil_r. reflexivity.
  - cbn [lex_run] in Hrun. destruct (lex_step q c) as [q1 |] eqn:Hstep; [| discriminate].
    destruct (tracks_step q q1 c text result in_string Hstep Htr) as (b & -> & Htr').
    rewrite (IH q1 q' _ b Hrun Htr'), <- app_assoc. reflexivity.
Qed.

Lemma valid_lexes (text : str) : valid text = true → lex_run Out text = Some Out.
Proof.
  unfold valid. destruct (loads text) as [v |] eqn:Hl; [intros _ | discriminate].
  destruct (loads_shape text v Hl) as (w & pre & r & -> & Hw & Hr & Htok & _).
  apply lex_run_wrapped; assumption.
Qed.

(** X1.  The newline repair does not touch JSON: on a text that [json.loads]
    accepts, [_fix_unescaped_newlines_in_strings] returns the text unchanged. *)
Theorem fix_newlines_keeps_json (text : str) :
  valid text = true → _fix_unescaped_newlines_in_strings text = text.
Proof.
  intros Hv. unfold _fix_unescaped_newlines_in_strings.
  rewrite (fix_newlines_lexed text Out Out [] false (valid_lexes text Hv)); reflexivity.
Qed.

Lemma fix_newlines_loop_fixpoint (text : str) :
  ∀ result in_string,
    ∃ t, fix_newlines_loop text result in_string = result ++ t
         ∧ fix_newlines_loop t result in_string = result ++ t.
Proof.
  induction text as [| c text IH]; intros result in_string.
  - exists []. cbn. rewrite app_nil_r. auto.
  - rewrite fix_newlines_loop_cons.
    destruct (N.eqb c DQUOTE) eqn:Hq.
    { destruct (IH (result ++ [c])
                  (if negb in_string then true
                   else if Nat.even (trailing_backslashes result) then false else in_string))
        as (t & H1 & H2).
      exists (c :: t). rewrite fix_newlines_loop_cons, Hq, H1, H2, <- app_assoc. auto. }
    assert (Hesc : ∀ e, e ≠ DQUOTE → e ≠ LF → e ≠ CR → e ≠ TAB →
              ∃ t, fix_newlines_loop text (result ++ [BACKSLASH; e]) in_string = result ++ t
                   ∧ fix_newlines_loop t result in_string = result ++ t).
    { intros e E1 E2 E3 E4.
      destruct (IH (result ++ [BACKSLASH; e]) in_string) as (t & H1 & H2).
      exists (BACKSLASH :: e :: t). rewrite H1, <- app_assoc. split; [reflexivity |].
      rewrite fix_newlines_loop_cons.
      change (N.eqb BACKSLASH DQUOTE) with false. change (N.eqb BACKSLASH LF) with false.
      change (N.eqb BACKSLASH CR) with false. change (N.eqb BACKSLASH TAB) with false.
      rewrite !andb_false_r. rewrite fix_newlines_loop_cons.
      apply N.eqb_neq in E1, E2, E3, E4. rewrite E1, E2, E3, E4, !andb_false_r.
      rewrite <- app_assoc. cbn [app]. rewrite H2, <- app_assoc. reflexivity. }
    destruct (in_string && N.eqb c LF) eqn:H1; [apply Hesc; discriminate |].
    destruct (in_string && N.eqb c CR) eqn:H2; [apply Hesc; discriminate |].
    destruct (in_string && N.eqb c TAB) eqn:H3; [apply Hesc; discriminate |].
    destruct (IH (result ++ [c]) in_string) as (t & H4 & H5).
    exists (c :: t). rewrite fix_newlines_loop_cons, Hq, H1, H2, H3, H4, H5, <- app_assoc. auto.
Qed.

(** X2.  [_fix_unescaped_newlines_in_strings] is idempotent: applied to its
    own result it returns that result, for every text. *)
Theorem fix_newlines_idempotent (text : str) :
  _fix_unescaped_newlines_in_strings (_fix_unescaped_newlines_in_strings text)
  = _fix_unescaped_newlines_in_strings text.
Proof.
  unfold _fix_unescaped_newlines_in_strings.
  destruct (fix_newlines_loop_fixpoint text [] false) as (t & -> & H2). exact H2.
Qed.

Lemma missing_commas_loop_app (text : str) :
  ∀ result in_string last_value_end,
    ∃ t, missing_commas_loop text result in_string last_value_end = result ++ t
         ∧ commas_added text t.
Proof.
  induction text as [| c text IH]; intros result in_string lve.
  - exists []. cbn. rewrite app_nil_r. split; [reflexivity | constructor].
  - assert (Hkeep : ∀ b l, ∃ t, missing_commas_loop text (result ++ [c]) b l = result ++ t
                              ∧ commas_added (c :: text) t).
    { intros b l. destruct (IH (result ++ [c]) b l) as (t & -> & Hca).
      exists (c :: t). rewrite <- app_assoc. split; [reflexivity | constructor; exact Hca]. }
    assert (Hadd : N.eqb c DQUOTE || is_opener c = true →
              ∀ b l, ∃ t, missing_commas_loop text
                            ((if needs_comma result lve then result ++ [COMMA] else result)
                             ++ [c]) b l = result ++ t
                          ∧ commas_added (c :: text) t).
    { intros Hc b l. destruct (needs_comma result lve); [| apply Hkeep].
      destruct (IH ((result ++ [COMMA]) ++ [c]) b l) as (t & -> & Hca).
      exists (COMMA :: c :: t). rewrite <- !app_assoc.
      split; [reflexivity | constructor; assumption]. }
    cbn [missing_commas_loop].
    destruct (N.eqb c DQUOTE) eqn:Hq.
    { destruct (negb in_string); [apply Hadd; reflexivity |].
      destruct (Nat.even (trailing_backslashes result)); apply Hkeep. }
    destruct (negb in_string && mem c BLANKS); [apply Hkeep |].
    destruct (negb in_string && is_closer c); [apply Hkeep |].
    destruct (negb in_string && is_opener c) eqn:Ho; [| apply Hkeep].
    apply Hadd. apply andb_true_iff in Ho as [_ ->]. reflexivity.
Qed.

(** X3.  For every text, the result of [_fix_missing_commas] is the text with
    commas inserted and nothing else changed or removed; each inserted comma
    stands directly before a double quote or an opening bracket of the text. *)
Theorem fix_missing_commas_only_adds (text : str) :
  commas_added text (_fix_missing_commas text).
Proof.
  unfold _fix_missing_commas.
  destruct (missing_commas_loop_app text [] false (-1)%Z) as (t & -> & Hca). exact Hca.
Qed.

(** ** Rule 5 and the control characters *)

Lemma sub_at_delete_class (f : char → bool) (fuel : nat) :
  ∀ p s, (length s < fuel)%nat →
         sub_at fuel (Chr f) [] p s = List.filter (λ c, negb (f c)) s.
Proof.
  induction fuel as [| fuel IH]; intros p s Hlen; [lia |].
  destruct s as [| c s]; [reflexivity |].
  cbn [sub_at]. unfold match_here. cbn [m rest groups].
  destruct (f c) eqn:Hc; cbn [List.filter]; rewrite Hc; cbn [negb].
  - cbn [rest length prev expand flat_map app].
    rewrite (proj2 (Nat.ltb_lt _ _) (Nat.lt_succ_diag_r _)).
    apply IH. simpl in Hlen. lia.
  - f_equal. apply IH. simpl in Hlen. lia.
Qed.

Lemma fix_newlines_loop_Forall (P : char → Prop) (text : str) :
  P BACKSLASH → P 110 → P 114 → P 116 →
  ∀ result in_string,
    Forall P text → Forall P result → Forall P (fix_newlines_loop text result in_string).
Proof.
  intros Hb Hn Hr Ht.
  induction text as [| c text IH]; intros result in_string Htext Hres; [exact Hres |].
  apply Forall_cons in Htext as [Hc Htext].
  rewrite fix_newlines_loop_cons.
  repeat match goal with
         | |- context [if ?b then _ else _] => destruct b
         end; apply IH; try assumption; apply Forall_app; split; auto.
Qed.

(** X4.  For every text, the result of [_fix_common_errors] holds none of the
    control characters its rule 5 removes (U+0000 to U+0008, U+000B, U+000C,
    U+000E to U+001F, U+007F to U+009F): the newline repair that runs
    afterwards brings none back. *)
Theorem fix_common_errors_no_control (text : str) :
  Forall (λ c, is_control c = false) (_fix_common_errors text).
Proof.
  unfold _fix_common_errors. cbv zeta.
  set (t4 := sub SCALAR_KEY_RE _ _).
  unfold _fix_unescaped_newlines_in_strings.
  apply fix_newlines_loop_Forall; try reflexivity; [| constructor].
  unfold sub. change CONTROL_RE with (Chr is_control).
  rewrite sub_at_delete_class by lia.
  apply List.Forall_forall. intros x Hx. apply filter_In in Hx as [_ Hx].
  destruct (is_control x); [discriminate | reflexivity].
Qed.

Lemma last_take_S (text : str) (i : nat) (c : char) :
  text !! i = Some c → last (take (S i) text) = Some c.
Proof.
  intros Hc. rewrite last_lookup, length_take.
  assert (Hlt : (i < length text)%nat) by (eapply lookup_lt_Some; exact Hc).
  replace (Nat.pred (S i `min` length text)) with i by lia.
  rewrite lookup_take_lt by lia. exact Hc.
Qed.

Lemma trailing_loop_spec (text : str) (n : nat) :
  (n ≤ length text)%nat →
  (∃ k, (k ≤ n)%nat ∧ trailing_loop text n = take k text
        ∧ closed_json (take k text) = true
        ∧ ∀ k', (k < k' ≤ n)%nat → closed_json (take k' text) = false)
  ∨ (trailing_loop text n = text
     ∧ ∀ k', (k' ≤ n)%nat → closed_json (take k' text) = false).
Proof.
  induction n as [| i IH]; intros Hn.
  - right. split; [reflexivity |]. intros k' Hk. replace k' with O by lia. reflexivity.
  - destruct (lookup_lt_is_Some_2 text i ltac:(lia)) as [c Hc].
    cbn [trailing_loop]. rewrite Hc.
    assert (Hcj : closed_json (take (S i) text) = is_closer c && valid (take (S i) text)).
    { unfold closed_json. rewrite (last_take_S text i c Hc). reflexivity. }
    destruct (is_closer c && valid (take (S i) text)) eqn:Hgood.
    + left. exists (S i). split; [lia |]. split; [reflexivity |]. split; [exact Hcj |].
      intros k' Hk. lia.
    + destruct (IH ltac:(lia)) as [(k & Hk & Heq & Hcl & Hmax) | [Heq Hnone]].
      * left. exists k. split; [lia |]. split; [exact Heq |]. split; [exact Hcl |].
        intros k' Hk'. destruct (Nat.eq_dec k' (S i)) as [-> | Hne]; [exact Hcj |].
        apply Hmax. lia.
      * right. split; [exact Heq |].
        intros k' Hk'. destruct (Nat.eq_dec k' (S i)) as [-> | Hne]; [exact Hcj |].
        apply Hnone. lia.
Qed.

(** X5.  [_fix_trailing_content] returns the longest prefix of the text that
    ends with a closing bracket and that [json.loads] accepts; when no prefix
    is such, it returns the text unchanged. *)
Theorem fix_trailing_content_longest (text : str) :
  let r := _fix_trailing_content text in
  (∃ k, (k ≤ length text)%nat ∧ r = take k text ∧ closed_json r = true
        ∧ ∀ k', (k < k' ≤ length text)%nat → closed_json (take k' text) = false)
  ∨ (r = text ∧ ∀ k', (k' ≤ length text)%nat → closed_json (take k' text) = false).
Proof.
  cbv zeta. unfold _fix_trailing_content.
  destruct (trailing_loop_spec text (length text) ltac:(lia))
    as [(k & Hk & Heq & Hcl & Hmax) | [Heq Hnone]].
  - left. exists k. rewrite Heq. auto.
  - right. auto.
Qed.

(** ** [_extract_valid_json] *)

Lemma first_valid_slice_spec (text : str) (start lo count : nat) :
  match first_valid_slice text start lo count with
  | Some c =>
      ∃ e, (lo < e ≤ lo + count)%nat ∧ c = slice text start e ∧ valid c = true
           ∧ ∀ e', (e < e' ≤ lo + count)%nat → valid (slice text start e') = false
  | None => ∀ e, (lo < e ≤ lo + count)%nat → valid (slice text start e) = false
  end.
Proof.
  induction count as [| k IH]; cbn [first_valid_slice].
  - intros e He. lia.
  - fold (slice text start (lo + S k)).
    destruct (valid (slice text start (lo + S k))) eqn:Hv.
    + exists (lo + S k)%nat. split; [lia |]. split; [reflexivity |]. split; [exact Hv |].
      intros e' He'. lia.
    + destruct (first_valid_slice text start lo k) as [c |].
      * destruct IH as (e & He & Hc & Hvc & Hmax).
        exists e. split; [lia |]. split; [exact Hc |]. split; [exact Hvc |].
        intros e' He'. destruct (Nat.eq_dec e' (lo + S k)%nat) as [-> | Hne]; [exact Hv |].
        apply Hmax. lia.
      * intros e He. destruct (Nat.eq_dec e (lo + S k)%nat) as [-> | Hne]; [exact Hv |].
        apply IH. lia.
Qed.

Lemma first_some_openers {B} (f : nat → option B) (text : str) :
  ∀ suffix b, suffix = drop b text →
    match first_some f (opener_indices suffix b) with
    | Some r => ∃ i, (b ≤ i)%nat ∧ opener_at text i ∧ f i = Some r
                     ∧ ∀ i', (b ≤ i' < i)%nat → opener_at text i' → f i' = None
    | None => ∀ i, (b ≤ i)%nat → opener_at text i → f i = None
    end.
Proof.
  intros suffix. induction suffix as [| c suffix IH]; intros b Hs.
  - cbn. intros i Hi (c & Hc & _).
    apply lookup_lt_Some in Hc. apply (f_equal length) in Hs.
    rewrite length_drop in Hs. simpl in Hs. lia.
  - assert (Hb : text !! b = Some c).
    { pose proof (lookup_drop text b 0) as Hl. rewrite <- Hs, Nat.add_0_r in Hl.
      symmetry. exact Hl. }
    assert (Hs' : suffix = drop (S b) text).
    { rewrite (drop_S text c b Hb) in Hs. congruence. }
    specialize (IH (S b) Hs').
    cbn [opener_indices].
    destruct (is_opener c) eqn:Hc; cbn [first_some].
    + destruct (f b) as [r |] eqn:Hf.
      * exists b. split; [lia |]. split; [exists c; auto |]. split; [exact Hf |].
        intros i' Hi'. lia.
      * destruct (first_some f (opener_indices suffix (S b))) as [r |].
        -- destruct IH as (i & Hi & Ho & Hfi & Hmin).
           exists i. split; [lia |]. split; [exact Ho |]. split; [exact Hfi |].
           intros i' Hi' Ho'. destruct (Nat.eq_dec i' b) as [-> | Hne]; [exact Hf |].
           apply Hmin; [lia | exact Ho'].
        -- intros i Hi Ho. destruct (Nat.eq_dec i b) as [-> | Hne]; [exact Hf |].
           apply IH; [lia | exact Ho].
    + destruct (first_some f (opener_indices suffix (S b))) as [r |].
      * destruct IH as (i & Hi & Ho & Hfi & Hmin).
        exists i. split; [lia |]. split; [exact Ho |]. split; [exact Hfi |].
        intros i' Hi' Ho'. destruct (Nat.eq_dec i' b) as [-> | Hne].
        -- destruct Ho' as (c' & Hc' & Hop). congruence.
        -- apply Hmin; [lia | exact Ho'].
      * intros i Hi Ho. destruct (Nat.eq_dec i b) as [-> | Hne].
        -- destruct Ho as (c' & Hc' & Hop). congruence.
        -- apply IH; [lia | exact Ho].
Qed.

(** X6.  What [_extract_valid_json] returns is a non-empty slice of the text
    that [json.loads] accepts and that starts at index 0 or at an opening
    bracket: the longest accepted slice from that start, where no earlier
    start (index 0 or an earlier opening bracket) has an accepted slice.  It
    returns [None] exactly when no slice from index 0 or from an opening
    bracket is accepted. *)
Theorem extract_valid_json_spec (text : str) :
  match _extract_valid_json text with
  | Some r =>
      ∃ i j, (i < j ≤ length text)%nat ∧ (i = O ∨ opener_at text i)
             ∧ r = slice text i j ∧ valid r = true
             ∧ (∀ j', (j < j' ≤ length text)%nat → valid (slice text i j') = false)
             ∧ (∀ i' j', (i' < i)%nat → (i' < j' ≤ length text)%nat →
                         i' = O ∨ opener_at text i' → valid (slice text i' j') = false)
  | None =>
      ∀ i j, (i < j ≤ length text)%nat → i = O ∨ opener_at text i →
             valid (slice text i j) = false
  end.
Proof.
  unfold _extract_valid_json.
  pose proof (first_valid_slice_spec text 0 0 (length text)) as Hpre.
  destruct (first_valid_slice text 0 0 (length text)) as [c |].
  { destruct Hpre as (e & He & Hc & Hv & Hmax).
    exists O, e. split; [lia |]. split; [auto |]. split; [exact Hc |]. split; [exact Hv |].
    split; [intros j' Hj'; apply Hmax; lia | intros i' j' Hi'; lia]. }
  set (f := λ start : nat, first_valid_slice text start start (length text - start)).
  pose proof (first_some_openers f text text O eq_refl) as Hop.
  assert (Hf : ∀ i, opener_at text i → f i = None →
                    ∀ j, (i < j ≤ length text)%nat → valid (slice text i j) = false).
  { intros i Ho Hfi j Hj. unfold f in Hfi.
    pose proof (first_valid_slice_spec text i i (length text - i)) as Hs.
    rewrite Hfi in Hs. apply Hs. lia. }
  destruct (first_some f (opener_indices text 0)) as [r |].
  - destruct Hop as (i & _ & Ho & Hfi & Hmin).
    pose proof (first_valid_slice_spec text i i (length text - i)) as Hs.
    unfold f in Hfi. rewrite Hfi in Hs. destruct Hs as (e & He & Hr & Hv & Hmax).
    assert (Hi : (i < length text)%nat).
    { destruct Ho as (c & Hc & _). eapply lookup_lt_Some; exact Hc. }
    exists i, e. split; [lia |]. split; [auto |]. split; [exact Hr |]. split; [exact Hv |].
    split; [intros j' Hj'; apply Hmax; lia |].
    intros i' j' Hi' Hj' [-> | Ho']; [apply Hpre; lia |].
    apply (Hf i' Ho'); [apply Hmin; [lia | exact Ho'] | exact Hj'].
  - intros i j Hj [-> | Ho]; [apply Hpre; lia |].
    apply (Hf i Ho); [apply Hop; [lia | exact Ho] | exact Hj].
Qed.

(** ** Texts without fences and brackets *)

Lemma fence_head_fails (pv : option char) (s : str) (g : list (nat * str)) (k : kont)
    (r : regex) :
  match s with c :: _ => c ≠ BACKTICK | [] => True end →
  m (Cat (lits FENCE) r) (MState pv s g) k = None.
Proof.
  intros Hs. destruct s as [| c s]; [reflexivity |].
  cbn -[N.eqb]. replace (N.eqb BACKTICK c) with false; [reflexivity |].
  symmetry. apply N.eqb_neq. congruence.
Qed.

Lemma no_backtick_head (s : str) :
  no_backtick s → match s with c :: _ => c ≠ BACKTICK | [] => True end.
Proof. intros Hs. destruct Hs; auto. Qed.

Lemma open_fence_needs_backtick (p : option char) (s : str) (r : regex) :
  no_backtick s → match_here (Cat Bol (Cat (lits FENCE) r)) p s = None.
Proof.
  intros Hs. unfold match_here. rewrite m_bol_cat. cbn [prev].
  rewrite (fence_head_fails p s [] Some r (no_backtick_head s Hs)).
  destruct p as [c |]; [destruct (N.eqb c LF) |]; reflexivity.
Qed.

Lemma close_fence_needs_backtick (p : option char) (s : str) :
  no_backtick s → match_here FENCE_CLOSE_RE p s = None.
Proof.
  intros Hs. unfold match_here.
  change FENCE_CLOSE_RE
    with (Cat (Alt (lit LF) Eps) (Cat (lits FENCE) (Cat (Star ws) Eol))).
  set (R := Cat (lits FENCE) (Cat (Star ws) Eol)).
  change (match m (lit LF) (MState p s []) (λ st1, m R st1 Some) with
          | Some x => Some x
          | None => m R (MState p s []) Some
          end = None).
  unfold R. rewrite (fence_head_fails p s [] Some _ (no_backtick_head s Hs)).
  destruct s as [| c s]; [reflexivity |].
  rewrite m_lit_cons. destruct (N.eqb LF c); [| reflexivity].
  rewrite fence_head_fails; [reflexivity |].
  apply no_backtick_head. inversion Hs; assumption.
Qed.

Lemma strip_markdown_no_backtick (text : str) :
  no_backtick text → strip_markdown text = strip text.
Proof.
  intros Hs. unfold strip_markdown, sub.
  assert (Hnext : ∀ (p : option char) (c : char) (s : str),
            no_backtick (c :: s) → no_backtick s)
    by (intros p c s Hcs; inversion Hcs; assumption).
  rewrite (sub_at_id FENCE_JSON_RE [] (λ _ s, no_backtick s)
             (λ p s HI, open_fence_needs_backtick p s _ HI) Hnext) by (auto; lia).
  rewrite (sub_at_id FENCE_OPEN_RE [] (λ _ s, no_backtick s)
             (λ p s HI, open_fence_needs_backtick p s _ HI) Hnext) by (auto; lia).
  rewrite (sub_at_id FENCE_CLOSE_RE [] (λ _ s, no_backtick s)
             close_fence_needs_backtick Hnext) by (auto; lia).
  reflexivity.
Qed.

Lemma lstrip_Forall (P : char → Prop) (s : str) : Forall P s → Forall P (lstrip s).
Proof.
  induction 1 as [| c s Hc Hs IH]; [constructor |].
  cbn. destruct (isspace c); [exact IH | constructor; assumption].
Qed.

Lemma strip_Forall (P : char → Prop) (s : str) : Forall P s → Forall P (strip s).
Proof.
  intros Hs. unfold strip, rstrip.
  apply Forall_rev, lstrip_Forall, Forall_rev, lstrip_Forall, Hs.
Qed.

Lemma find_start_none (s : str) (i : nat) :
  Forall (λ c, is_opener c = false) s → find_start s i = (-1)%Z.
Proof.
  intros Hs. revert i. induction Hs as [| c s Hc Hs IH]; intros i; [reflexivity |].
  cbn. rewrite Hc. apply IH.
Qed.

(** X7.  A text that holds no opening bracket and no backtick is returned by
    [clean_json_response] with its surrounding whitespace stripped and nothing
    else changed, whether it is JSON or not. *)
Theorem plain_text_is_stripped (text : str) :
  forallb (λ c, negb (is_opener c || N.eqb c BACKTICK)) text = true →
  clean_json_response text = Ret (strip text).
Proof.
  intros Hplain. rewrite forallb_forall in Hplain.
  assert (Hb : no_backtick text).
  { apply List.Forall_forall. intros c Hc. specialize (Hplain c Hc).
    apply negb_true_iff, orb_false_iff in Hplain as [_ Hplain].
    apply N.eqb_neq, Hplain. }
  assert (Ho : Forall (λ c, is_opener c = false) text).
  { apply List.Forall_forall. intros c Hc. specialize (Hplain c Hc).
    apply negb_true_iff, orb_false_iff in Hplain as [Hplain _]. exact Hplain. }
  destruct text as [| c0 text0]; [reflexivity |].
  unfold clean_json_response. cbv zeta.
  rewrite (strip_markdown_no_backtick _ Hb).
  destruct (valid (strip (c0 :: text0))); [reflexivity |].
  rewrite (find_start_none _ 0 (strip_Forall _ _ Ho)). reflexivity.
Qed.

(** ** [parse_json] *)

Lemma clean_of_wrapped (w pre r : str) :
  forallb is_ws w = true → forallb is_ws r = true → tokens pre → valid pre = true →
  clean_json_response (w ++ pre ++ r) = Ret pre.
Proof.
  intros Hw Hr Htok Hv.
  assert (Hmd : strip_markdown (w ++ pre ++ r) = pre).
  { rewrite strip_markdown_lexed by (apply lex_run_wrapped; assumption).
    apply strip_wrapped; [exact Hw | exact Hr | apply Htok]. }
  rewrite clean_fast_path; [rewrite Hmd; reflexivity | | rewrite Hmd; exact Hv].
  destruct (tokens_head pre Htok) as (c & t & -> & _).
  destruct w; discriminate.
Qed.

(** X8.  When [json.loads] accepts a text and returns a value, [parse_json]
    returns the same value for that text: the cleaning step does not change
    what a JSON text decodes to. *)
Theorem parse_json_agrees_with_loads (text : str) (v : json) :
  loads text = Ret v → parse_json text = Ret v.
Proof.
  intros Hl. destruct (loads_shape text v Hl) as (w & pre & r & -> & Hw & Hr & Htok & Hpre).
  unfold parse_json.
  rewrite (clean_of_wrapped w pre r Hw Hr Htok); [exact Hpre |].
  unfold valid. rewrite Hpre. reflexivity.
Qed.

End WithRuntime.

(** ** Closed instances *)

#[local] Existing Instance sample_runtime.

Lemma fix_newlines_keeps_json_witness :
  let text := jq "{'a': 'x\ny', 'b': [1, 2]}" in
  valid text = true ∧ _fix_unescaped_newlines_in_strings text = text.
Proof.
  split; [vm_compute; reflexivity |].
  apply (fix_newlines_keeps_json (jq "{'a': 'x\ny', 'b': [1, 2]}")).
  vm_compute. reflexivity.
Defined.

Lemma plain_text_is_stripped_witness :
  let text := s2u "  no data today " in
  forallb (λ c, negb (is_opener c || N.eqb c BACKTICK)) text = true
  ∧ clean_json_response text = Ret (s2u "no data today").
Proof.
  split; [vm_compute; reflexivity |].
  rewrite (plain_text_is_stripped (s2u "  no data today ")) by (vm_compute; reflexivity).
  vm_compute. reflexivity.
Defined.

Lemma parse_json_agrees_with_loads_witness :
  let text := jq " {'a': [1, true, null]} " in
  loads text = Ret (JObj [(s2u "a", JArr [JInt 1; JBool true; JNull])])
  ∧ parse_json text = Ret (JObj [(s2u "a", JArr [JInt 1; JBool true; JNull])]).
Proof.
  split; [vm_compute; reflexivity |].
  apply (parse_json_agrees_with_loads (jq " {'a': [1, true, null]} ")).
  vm_compute. reflexivity.
Defined.

End RepairFacts.

(* ===================================================================== *)
(** * The bracket scan on JSON texts *)
(* ===================================================================== *)

Module ScanFacts.
Import Re JsonHelper Spec Lexical Json DecoderFacts JsonFacts Props RepairFacts.

Section WithRuntime.
Context {runtime : Runtime}.

Lemma mb_plain_step (c : char) (text before : str) (i : nat) (stack : list char) :
  is_plain c = true →
  match_brackets (c :: text) before i stack false
  = match_brackets text (c :: before) (S i) stack false.
Proof.
  unfold is_plain, is_closer. intros Hc. apply negb_true_iff in Hc.
  apply orb_false_iff in Hc as [Hc Hcl]. apply orb_false_iff in Hc as [Hq Ho].
  apply orb_false_iff in Hcl as [H1 H2].
  cbn [match_brackets]. rewrite Hq, Ho, H1, H2. reflexivity.
Qed.

Lemma mb_plain_run (pre : str) :
  Forall (λ c, is_plain c = true) pre →
  ∀ x before i stack,
    match_brackets (pre ++ x) before i stack false
    = match_brackets x (rev pre ++ before) (i + length pre) stack false.
Proof.
  induction 1 as [| c pre Hc Hpre IH]; intros x before i stack.
  - cbn. rewrite Nat.add_0_r. reflexivity.
  - cbn [app]. rewrite (mb_plain_step c _ _ _ _ Hc), IH.
    cbn [rev length]. rewrite <- app_assoc, Nat.add_succ_r. reflexivity.
Qed.

Lemma mb_inside_step (c : char) (text before : str) (i : nat) (stack : list char) :
  c ≠ DQUOTE →
  match_brackets (c :: text) before i stack true
  = match_brackets text (c :: before) (S i) stack true.
Proof.
  intros Hc. apply N.eqb_neq in Hc. cbn [match_brackets]. rewrite Hc. reflexivity.
Qed.

Lemma mb_inside_run (pre : str) :
  Forall (λ c, c ≠ DQUOTE) pre →
  ∀ x before i stack,
    match_brackets (pre ++ x) before i stack true
    = match_brackets x (rev pre ++ before) (i + length pre) stack true.
Proof.
  induction 1 as [| c pre Hc Hpre IH]; intros x before i stack.
  - cbn. rewrite Nat.add_0_r. reflexivity.
  - cbn [app]. rewrite (mb_inside_step c _ _ _ _ Hc), IH.
    cbn [rev length]. rewrite <- app_assoc, Nat.add_succ_r. reflexivity.
Qed.

Lemma mb_quote_inside (text before : str) (i : nat) (stack : list char) :
  match_brackets (DQUOTE :: text) before i stack true
  = match_brackets text (DQUOTE :: before) (S i) stack
      (negb (Nat.even (leading_backslashes before))).
Proof.
  cbn [match_brackets]. change (N.eqb DQUOTE DQUOTE) with true. cbv iota. cbn [negb].
  destruct (Nat.even (leading_backslashes before)); reflexivity.
Qed.

Lemma mb_quote_outside (text before : str) (i : nat) (stack : list char) :
  match_brackets (DQUOTE :: text) before i stack false
  = match_brackets text (DQUOTE :: before) (S i) stack true.
Proof. reflexivity. Qed.

Lemma hex_val_plain (c : char) (n : N) :
  hex_val c = Some n → c ≠ DQUOTE ∧ c ≠ BACKSLASH.
Proof.
  intros Hc. destruct (hex_val_lex c n Hc) as [Hstep Hq]. split; [exact Hq |].
  intros ->. discriminate Hstep.
Qed.

Lemma hex4_plain (a b c d : char) (u : N) :
  hex4 a b c d = Some u →
  Forall (λ c, c ≠ DQUOTE) [a; b; c; d] ∧ d ≠ BACKSLASH.
Proof.
  unfold hex4.
  destruct (hex_val a) as [x |] eqn:Ha; [| discriminate].
  destruct (hex_val b) as [y |] eqn:Hb; [| discriminate].
  destruct (hex_val c) as [z |] eqn:Hc; [| discriminate].
  destruct (hex_val d) as [w |] eqn:Hd; [| discriminate].
  intros _.
  apply hex_val_plain in Ha as [Ha _], Hb as [Hb _], Hc as [Hc _], Hd as [Hd Hd'].
  split; [repeat constructor; assumption | exact Hd'].
Qed.

Lemma leading_backslashes_cons (c : char) (s : str) :
  c ≠ BACKSLASH → leading_backslashes (c :: s) = O.
Proof. intros Hc. apply N.eqb_neq in Hc. cbn. rewrite Hc. reflexivity. Qed.

Lemma scanstring_brackets_bounded (n : nat) :
  ∀ s, (length s ≤ n)%nat → ∀ v r, scanstring s = Some (v, r) → string_brackets s r.
Proof.
  induction n as [| n IH]; intros s Hlen v r Hs.
  { destruct s; [discriminate Hs | simpl in Hlen; lia]. }
  destruct s as [| c s1]; [discriminate Hs |].
  rewrite scanstring_cons in Hs.
  destruct (N.eqb_spec c DQUOTE) as [-> | Hq].
  { injection Hs as <- <-. exists [DQUOTE]. split; [reflexivity |].
    intros x before i stack Hev. cbn [app]. rewrite mb_quote_inside, Hev.
    cbn [negb rev app length]. rewrite Nat.add_1_r. reflexivity. }
  destruct (N.eqb_spec c BACKSLASH) as [-> | Hb].
  - destruct s1 as [| e s2]; [discriminate Hs |].
    destruct (N.eqb_spec e 117) as [-> | He].
    + destruct s2 as [| h1 [| h2 [| h3 [| h4 s3]]]]; try discriminate Hs.
      destruct (hex4 h1 h2 h3 h4) as [u |] eqn:Hh; [| discriminate Hs].
      destruct (hex4_plain _ _ _ _ _ Hh) as [Hhq Hhb].
      destruct (surrogate_pair u s3) as [[j s4] |] eqn:Hp.
      * apply surrogate_pair_some in Hp as (g1 & g2 & g3 & g4 & lo & -> & Hg & _).
        destruct (hex4_plain _ _ _ _ _ Hg) as [Hgq Hgb].
        apply push_some in Hs as (v0 & Hs & ->).
        destruct (IH s4 ltac:(simpl in Hlen; lia) v0 r Hs) as (pre & -> & Hx).
        exists ([BACKSLASH; 117; h1; h2; h3; h4; BACKSLASH; 117; g1; g2; g3; g4] ++ pre).
        split; [reflexivity |].
        intros x before i stack Hev. rewrite <- app_assoc.
        rewrite mb_inside_run
          by (repeat (constructor; [discriminate |]);
              inversion Hhq as [| ? ? ? Hhq1]; subst;
              inversion Hhq1 as [| ? ? ? Hhq2]; subst;
              inversion Hhq2 as [| ? ? ? Hhq3]; subst;
              inversion Hhq3; subst;
              repeat (constructor; [assumption |]);
              repeat (constructor; [discriminate |]); exact Hgq).
        rewrite Hx by (cbn [rev app]; rewrite leading_backslashes_cons by exact Hgb;
                       reflexivity).
        rewrite rev_app_distr, <- app_assoc, length_app, Nat.add_assoc. reflexivity.
      * apply push_some in Hs as (v0 & Hs & ->).
        destruct (IH s3 ltac:(simpl in Hlen; lia) v0 r Hs) as (pre & -> & Hx).
        exists ([BACKSLASH; 117; h1; h2; h3; h4] ++ pre).
        split; [reflexivity |].
        intros x before i stack Hev. rewrite <- app_assoc.
        rewrite mb_inside_run by (repeat (constructor; [discriminate |]); exact Hhq).
        rewrite Hx by (cbn [rev app]; rewrite leading_backslashes_cons by exact Hhb;
                       reflexivity).
        rewrite rev_app_distr, <- app_assoc, length_app, Nat.add_assoc. reflexivity.
    + destruct (simple_escape e) as [y |] eqn:Hy; [| discriminate Hs].
      apply push_some in Hs as (v0 & Hs & ->).
      destruct (IH s2 ltac:(simpl in Hlen; lia) v0 r Hs) as (pre & -> & Hx).
      exists ([BACKSLASH; e] ++ pre). split; [reflexivity |].
      intros x before i stack Hev. cbn [app].
      rewrite mb_inside_step by discriminate.
      assert (Hev' : Nat.even (leading_backslashes (e :: BACKSLASH :: before)) = true).
      { destruct (N.eqb_spec e BACKSLASH) as [-> | Hne].
        - cbn. cbn in Hev. exact Hev.
        - rewrite leading_backslashes_cons by exact Hne. reflexivity. }
      destruct (N.eqb_spec e DQUOTE) as [-> | Hne].
      * rewrite mb_quote_inside.
        replace (Nat.even (leading_backslashes (BACKSLASH :: before))) with false
          by (cbn [leading_backslashes]; change (N.eqb BACKSLASH BACKSLASH) with true;
              cbv iota; rewrite Nat.even_succ, <- Nat.negb_even, Hev; reflexivity).
        cbn [negb]. rewrite Hx by exact Hev'.
        cbn [rev length]. rewrite <- !app_assoc. cbn [app].
        f_equal. lia.
      * rewrite mb_inside_step by exact Hne. rewrite Hx by exact Hev'.
        cbn [rev length]. rewrite <- !app_assoc. cbn [app].
        f_equal. lia.
  - destruct (N.leb_spec c 31) as [| Hc]; [discriminate Hs |].
    apply push_some in Hs as (v0 & Hs & ->).
    destruct (IH s1 ltac:(simpl in Hlen; lia) v0 r Hs) as (pre & -> & Hx).
    exists (c :: pre). split; [reflexivity |].
    intros x before i stack Hev. cbn [app].
    rewrite mb_inside_step by exact Hq.
    rewrite Hx by (rewrite leading_backslashes_cons by exact Hb; reflexivity).
    cbn [rev length]. rewrite <- app_assoc. cbn [app]. f_equal. lia.
Qed.

Lemma scanstring_brackets (s v r : str) : scanstring s = Some (v, r) → string_brackets s r.
Proof. apply (scanstring_brackets_bounded (length s)). lia. Qed.

(** ** Scalars and blanks *)

Lemma numchar_plain (c : char) : is_numchar c = true → is_plain c = true.
Proof.
  intros Hc. unfold is_plain, is_opener, is_closer.
  destruct (N.eqb_spec c DQUOTE) as [-> | _]; [discriminate Hc |].
  destruct (N.eqb_spec c LBRACE) as [-> | _]; [discriminate Hc |].
  destruct (N.eqb_spec c LBRACKET) as [-> | _]; [discriminate Hc |].
  destruct (N.eqb_spec c RBRACE) as [-> | _]; [discriminate Hc |].
  destruct (N.eqb_spec c RBRACKET) as [-> | _]; [discriminate Hc |].
  reflexivity.
Qed.

Lemma ws_plain (w : str) : forallb is_ws w = true → Forall (λ c, is_plain c = true) w.
Proof.
  intros Hw. apply List.Forall_forall. intros c Hc.
  rewrite forallb_forall in Hw. specialize (Hw c Hc).
  unfold is_ws in Hw. rewrite !orb_true_iff, !N.eqb_eq in Hw.
  destruct Hw as [[[-> | ->] | ->] | ->]; reflexivity.
Qed.

Lemma scan_scalar_plain (s : str) (v : json) (r : str) :
  scan_scalar s = Some (v, r) →
  ∃ pre, s = pre ++ r ∧ Forall (λ c, is_plain c = true) pre.
Proof.
  unfold scan_scalar.
  assert (Hlit : ∀ lit, Forall (λ c, is_plain c = true) lit → startswith lit s = true →
            ∃ pre, s = pre ++ drop (length lit) s ∧ Forall (λ c, is_plain c = true) pre).
  { intros lit Hp Hs. exists lit. split; [apply startswith_drop, Hs | exact Hp]. }
  destruct (startswith NULL s) eqn:H1;
    [intros [= <- <-]; apply (Hlit NULL); [repeat constructor | exact H1] |].
  destruct (startswith TRUE s) eqn:H2;
    [intros [= <- <-]; apply (Hlit TRUE); [repeat constructor | exact H2] |].
  destruct (startswith FALSE s) eqn:H3;
    [intros [= <- <-]; apply (Hlit FALSE); [repeat constructor | exact H3] |].
  destruct (startswith NAN s) eqn:H4;
    [intros [= <- <-]; apply (Hlit NAN); [repeat constructor | exact H4] |].
  destruct (startswith INFINITY s) eqn:H5;
    [intros [= <- <-]; apply (Hlit INFINITY); [repeat constructor | exact H5] |].
  destruct (startswith NEG_INFINITY s) eqn:H6;
    [intros [= <- <-]; apply (Hlit NEG_INFINITY); [repeat constructor | exact H6] |].
  intros Hm. destruct (match_number_local s v r Hm) as (pre & -> & Hnum & _).
  exists pre. split; [reflexivity |].
  apply List.Forall_forall. intros c Hc. apply numchar_plain.
  rewrite forallb_forall in Hnum. apply Hnum, Hc.
Qed.

(** ** Brackets *)

Lemma mb_open (c : char) (text before : str) (i : nat) (stack : list char) :
  is_opener c = true →
  match_brackets (c :: text) before i stack false
  = match_brackets text (c :: before) (S i) (c :: stack) false.
Proof.
  intros Hc. cbn [match_brackets]. rewrite Hc.
  replace (N.eqb c DQUOTE) with false; [reflexivity |].
  symmetry. apply N.eqb_neq. intros ->. discriminate Hc.
Qed.

Lemma mb_close_brace (text before : str) (i : nat) (stack : list char) :
  match_brackets (RBRACE :: text) before i (LBRACE :: stack) false
  = after_close text (RBRACE :: before) (S i) stack.
Proof.
  cbn [match_brackets]. change (N.eqb RBRACE DQUOTE) with false.
  change (is_opener RBRACE) with false. change (N.eqb RBRACE RBRACE) with true.
  change (N.eqb LBRACE LBRACE) with true. cbv iota.
  destruct stack; [| reflexivity].
  unfold after_close. f_equal. f_equal. lia.
Qed.

Lemma mb_close_bracket (text before : str) (i : nat) (stack : list char) :
  match_brackets (RBRACKET :: text) before i (LBRACKET :: stack) false
  = after_close text (RBRACKET :: before) (S i) stack.
Proof.
  cbn [match_brackets]. change (N.eqb RBRACKET DQUOTE) with false.
  change (is_opener RBRACKET) with false. change (N.eqb RBRACKET RBRACE) with false.
  change (N.eqb RBRACKET RBRACKET) with true.
  change (N.eqb LBRACKET LBRACKET) with true. cbv iota.
  destruct stack; [| reflexivity].
  unfold after_close. f_equal. f_equal. lia.
Qed.

Ltac same_lists :=
  repeat first [rewrite rev_app_distr | rewrite <- app_assoc | progress cbn [rev app]];
  reflexivity.
Ltac same_index :=
  repeat first [rewrite length_app | progress cbn [length]]; lia.
Ltac same_scan :=
  first [reflexivity
        | f_equal; [same_lists | same_index]
        | unfold after_close; f_equal; [same_lists | same_index]].

Lemma after_close_eq (x b b' : str) (i i' : nat) (stack : list char) :
  b = b' → i = i' → after_close x b i stack = after_close x b' i' stack.
Proof. intros -> ->. reflexivity. Qed.

Lemma mb_eq (x b b' : str) (i i' : nat) (stack : list char) (q : bool) :
  b = b' → i = i' → match_brackets x b i stack q = match_brackets x b' i' stack q.
Proof. intros -> ->. reflexivity. Qed.

Lemma value_brackets_step (f : nat) :
  elements_brackets f → members_brackets f → value_brackets (S f).
Proof.
  intros He Hm s v r H.
  destruct s as [| c s1]; [discriminate H |].
  destruct (N.eqb_spec c DQUOTE) as [-> | Hq].
  { rewrite parse_value_str in H.
    destruct (scanstring s1) as [[k r0] |] eqn:Hs; [| discriminate H].
    injection H as <- <-.
    destruct (scanstring_brackets _ _ _ Hs) as (pre & -> & Hx).
    exists (DQUOTE :: pre). split; [reflexivity |].
    intros x before i top stack. cbn [app].
    rewrite mb_quote_outside, Hx by reflexivity.
    apply mb_eq; [same_lists | same_index]. }
  destruct (N.eqb_spec c LBRACE) as [-> | Hlb].
  { rewrite parse_value_obj in H.
    destruct (skip_ws s1) as [| c2 s2] eqn:Hsk; [discriminate H |].
    destruct (skip_ws_char _ _ _ Hsk) as (w & -> & Hw & _ & _).
    destruct (N.eqb_spec c2 RBRACE) as [-> | Hc2'].
    - injection H as <- <-. exists (LBRACE :: w ++ [RBRACE]).
      split; [lnorm; reflexivity |].
      intros x before i top stack. lnorm.
      rewrite mb_open by reflexivity. rewrite (mb_plain_run w (ws_plain w Hw)).
      rewrite mb_close_brace. unfold after_close.
      apply mb_eq; [same_lists | same_index].
    - destruct (Hm _ _ _ _ H) as (pre & -> & Hx).
      exists (LBRACE :: w ++ pre). split; [lnorm; reflexivity |].
      intros x before i top stack. lnorm.
      rewrite mb_open by reflexivity. rewrite (mb_plain_run w (ws_plain w Hw)).
      rewrite Hx. unfold after_close.
      apply mb_eq; [same_lists | same_index]. }
  destruct (N.eqb_spec c LBRACKET) as [-> | Hlk].
  { rewrite parse_value_arr in H.
    destruct (skip_ws s1) as [| c2 s2] eqn:Hsk; [discriminate H |].
    destruct (skip_ws_char _ _ _ Hsk) as (w & -> & Hw & _ & _).
    destruct (N.eqb_spec c2 RBRACKET) as [-> | Hc2'].
    - injection H as <- <-. exists (LBRACKET :: w ++ [RBRACKET]).
      split; [lnorm; reflexivity |].
      intros x before i top stack. lnorm.
      rewrite mb_open by reflexivity. rewrite (mb_plain_run w (ws_plain w Hw)).
      rewrite mb_close_bracket. unfold after_close.
      apply mb_eq; [same_lists | same_index].
    - destruct (He _ _ _ _ H) as (pre & -> & Hx).
      exists (LBRACKET :: w ++ pre). split; [lnorm; reflexivity |].
      intros x before i top stack. lnorm.
      rewrite mb_open by reflexivity. rewrite (mb_plain_run w (ws_plain w Hw)).
      rewrite Hx. unfold after_close.
      apply mb_eq; [same_lists | same_index]. }
  rewrite parse_value_scalar in H by assumption.
  destruct (scan_scalar_plain _ _ _ H) as (pre & Hpre & Hplain).
  exists pre. split; [exact Hpre |].
  intros x before i top stack. apply mb_plain_run, Hplain.
Qed.

Lemma elements_brackets_step (f : nat) :
  value_brackets f → elements_brackets f → elements_brackets (S f).
Proof.
  intros Hv He s acc v r H. rewrite parse_elements_S in H.
  destruct (parse_value f s) as [[v1 r0] |] eqn:Hp; [| discriminate H].
  destruct (Hv _ _ _ Hp) as (pv & -> & Hxv).
  destruct (skip_ws r0) as [| c r1] eqn:Hsk; [discriminate H |].
  destruct (skip_ws_char _ _ _ Hsk) as (w & -> & Hw & _ & _).
  destruct (N.eqb_spec c RBRACKET) as [-> | Hnb].
  - injection H as <- <-. exists (pv ++ w ++ [RBRACKET]).
    split; [lnorm; reflexivity |].
    intros x before i stack. lnorm.
    rewrite Hxv, (mb_plain_run w (ws_plain w Hw)), mb_close_bracket.
    apply after_close_eq; [same_lists | same_index].
  - destruct (N.eqb_spec c COMMA) as [-> | Hnc]; [| discriminate H].
    destruct (He _ _ _ _ H) as (pe & Hpe & Hxe).
    destruct (skip_ws_split r1) as (w2 & Hr1 & Hw2 & _). rewrite Hpe in Hr1. subst r1.
    exists (pv ++ w ++ COMMA :: w2 ++ pe).
    split; [lnorm; reflexivity |].
    intros x before i stack. lnorm.
    rewrite Hxv, (mb_plain_run w (ws_plain w Hw)), mb_plain_step by reflexivity.
    rewrite (mb_plain_run w2 (ws_plain w2 Hw2)), Hxe.
    apply after_close_eq; [same_lists | same_index].
Qed.

Lemma members_brackets_step (f : nat) :
  value_brackets f → members_brackets f → members_brackets (S f).
Proof.
  intros Hv Hm s acc v r H.
  destruct s as [| q s1]; [discriminate H |].
  destruct (N.eqb_spec q DQUOTE) as [-> | Hq];
    [| cbn [parse_members] in H; apply N.eqb_neq in Hq; rewrite Hq in H; discriminate H].
  rewrite parse_members_S in H.
  destruct (scanstring s1) as [[key r0] |] eqn:Hs; [| discriminate H].
  destruct (scanstring_brackets _ _ _ Hs) as (pk & -> & Hxk).
  destruct (skip_ws r0) as [| c r1] eqn:Hsk; [discriminate H |].
  destruct (skip_ws_char _ _ _ Hsk) as (w1 & -> & Hw1 & _ & _).
  destruct (N.eqb_spec c COLON) as [-> | Hncol]; [| discriminate H].
  destruct (parse_value f (skip_ws r1)) as [[v1 r2] |] eqn:Hp; [| discriminate H].
  destruct (Hv _ _ _ Hp) as (pv & Hpv & Hxv).
  destruct (skip_ws_split r1) as (w2 & Hr1 & Hw2 & _). rewrite Hpv in Hr1. subst r1.
  destruct (skip_ws r2) as [| d r3] eqn:Hsk3; [discriminate H |].
  destruct (skip_ws_char _ _ _ Hsk3) as (w3 & -> & Hw3 & _ & _).
  destruct (N.eqb_spec d RBRACE) as [-> | Hnb].
  - injection H as <- <-.
    exists (DQUOTE :: pk ++ w1 ++ COLON :: w2 ++ pv ++ w3 ++ [RBRACE]).
    split; [lnorm; reflexivity |].
    intros x before i stack. lnorm.
    rewrite mb_quote_outside, Hxk by reflexivity.
    rewrite (mb_plain_run w1 (ws_plain w1 Hw1)), mb_plain_step by reflexivity.
    rewrite (mb_plain_run w2 (ws_plain w2 Hw2)), Hxv.
    rewrite (mb_plain_run w3 (ws_plain w3 Hw3)), mb_close_brace.
    apply after_close_eq; [same_lists | same_index].
  - destruct (N.eqb_spec d COMMA) as [-> | Hnc]; [| discriminate H].
    destruct (Hm _ _ _ _ H) as (pm & Hpm & Hxm).
    destruct (skip_ws_split r3) as (w4 & Hr3 & Hw4 & _). rewrite Hpm in Hr3. subst r3.
    exists (DQUOTE :: pk ++ w1 ++ COLON :: w2 ++ pv ++ w3 ++ COMMA :: w4 ++ pm).
    split; [lnorm; reflexivity |].
    intros x before i stack. lnorm.
    rewrite mb_quote_outside, Hxk by reflexivity.
    rewrite (mb_plain_run w1 (ws_plain w1 Hw1)), mb_plain_step by reflexivity.
    rewrite (mb_plain_run w2 (ws_plain w2 Hw2)), Hxv.
    rewrite (mb_plain_run w3 (ws_plain w3 Hw3)), mb_plain_step by reflexivity.
    rewrite (mb_plain_run w4 (ws_plain w4 Hw4)), Hxm.
    apply after_close_eq; [same_lists | same_index].
Qed.

Lemma parsers_brackets (f : nat) :
  value_brackets f ∧ elements_brackets f ∧ members_brackets f.
Proof.
  induction f as [| f (Hv & He & Hm)].
  - repeat split; intros ? **; discriminate.
  - split; [apply value_brackets_step; assumption |].
    split; [apply elements_brackets_step | apply members_brackets_step]; assumption.
Qed.

Lemma lstrip_app_keep (p s : str) :
  match s with c :: _ => isspace c = false | [] => False end →
  lstrip (p ++ s) = lstrip p ++ s.
Proof.
  intros Hs. induction p as [| c p IH].
  - destruct s as [| c s]; [contradiction |]. cbn. rewrite Hs. reflexivity.
  - cbn. destruct (isspace c); [exact IH | reflexivity].
Qed.

Lemma strip_around (p j q : str) (c d : char) (t t' : str) :
  j = c :: t → j = t' ++ [d] → isspace c = false → isspace d = false →
  strip (p ++ j ++ q) = lstrip p ++ j ++ rstrip q.
Proof.
  intros Hhead Hlast Hc Hd. unfold strip.
  rewrite (lstrip_app_keep p (j ++ q)) by (rewrite Hhead; exact Hc).
  unfold rstrip. rewrite !rev_app_distr, <- app_assoc.
  rewrite (lstrip_app_keep (rev q) (rev j ++ rev (lstrip p)))
    by (rewrite Hlast, rev_app_distr; exact Hd).
  rewrite !rev_app_distr, !rev_involutive, <- app_assoc. reflexivity.
Qed.

Lemma lstrip_head (p : str) :
  match lstrip p with c :: _ => isspace c = false | [] => True end.
Proof.
  induction p as [| c p IH]; [exact I |].
  cbn. destruct (isspace c) eqn:Hc; [exact IH | exact Hc].
Qed.

Lemma rstrip_last (q : str) (t : str) (d : char) :
  rstrip q = t ++ [d] → isspace d = false.
Proof.
  unfold rstrip. intros H. apply (f_equal (@rev _)) in H.
  rewrite rev_involutive, rev_app_distr in H. cbn in H.
  pose proof (lstrip_head (rev q)) as Hh. rewrite H in Hh. exact Hh.
Qed.

Lemma lstrip_forallb (P : char → bool) (s : str) :
  forallb P s = true → forallb P (lstrip s) = true.
Proof.
  induction s as [| c s IH]; [reflexivity |]. cbn [forallb lstrip].
  intros [Hc Hs]%andb_true_iff.
  destruct (isspace c); [apply IH, Hs | cbn; rewrite Hc, Hs; reflexivity].
Qed.

Lemma rstrip_forallb (P : char → bool) (s : str) :
  forallb P s = true → forallb P (rstrip s) = true.
Proof.
  intros Hs. unfold rstrip.
  apply forallb_rev_true, lstrip_forallb, forallb_rev_true, Hs.
Qed.

Lemma prose_lexes (s : str) : forallb is_prose s = true → lex_run Out s = Some Out.
Proof.
  apply lex_run_plain. intros c Hc. unfold is_prose in Hc.
  apply negb_true_iff, orb_false_iff in Hc as [H1 H2].
  unfold lex_step. rewrite H1, H2. reflexivity.
Qed.

Lemma forallb_weaken (P Q : char → bool) (s : str) :
  (∀ c, P c = true → Q c = true) → forallb P s = true → forallb Q s = true.
Proof.
  intros HPQ. rewrite !forallb_forall. intros Hs c Hc. apply HPQ, Hs, Hc.
Qed.

Lemma forallb_and_l (P Q : char → bool) (s : str) :
  forallb (λ c, P c && Q c) s = true → forallb P s = true.
Proof. apply forallb_weaken. intros c H. apply andb_prop in H. tauto. Qed.

Lemma forallb_and_r (P Q : char → bool) (s : str) :
  forallb (λ c, P c && Q c) s = true → forallb Q s = true.
Proof. apply forallb_weaken. intros c H. apply andb_prop in H. tauto. Qed.

Lemma find_start_app (p : str) (c : char) (s : str) (i : nat) :
  forallb (λ c, negb (is_opener c)) p = true → is_opener c = true →
  find_start (p ++ c :: s) i = Z.of_nat (i + length p).
Proof.
  intros Hp Hc. revert i. induction p as [| a p IH]; intros i.
  - cbn. rewrite Hc. f_equal. lia.
  - cbn [forallb] in Hp. apply andb_true_iff in Hp as [Ha Hp].
    apply negb_true_iff in Ha. cbn [app find_start length]. rewrite Ha, (IH Hp).
    f_equal. lia.
Qed.

(** The scan of a text that starts with a bracketed JSON value stops right
    after the value. *)
Lemma bracketed_scan (f : nat) (s : str) (v : json) (r : str) :
  parse_value f s = Some (v, r) → opens s = true →
  ∃ pre, s = pre ++ r
         ∧ ∀ x before i,
             match_brackets (pre ++ x) before i [] false
             = (Z.of_nat (i + length pre), [], false).
Proof.
  intros H Ho. destruct f as [| f]; [discriminate H |].
  destruct (parsers_brackets f) as (_ & He & Hm).
  destruct s as [| c s1]; [discriminate Ho |]. cbn [opens] in Ho.
  unfold is_opener in Ho. apply orb_true_iff in Ho as [Ho | Ho]; apply N.eqb_eq in Ho; subst c.
  - rewrite parse_value_obj in H.
    destruct (skip_ws s1) as [| c2 s2] eqn:Hsk; [discriminate H |].
    destruct (skip_ws_char _ _ _ Hsk) as (w & -> & Hw & _ & _).
    destruct (N.eqb_spec c2 RBRACE) as [-> | Hc2'].
    + injection H as <- <-. exists (LBRACE :: w ++ [RBRACE]).
      split; [lnorm; reflexivity |].
      intros x before i. lnorm.
      rewrite mb_open by reflexivity. rewrite (mb_plain_run w (ws_plain w Hw)).
      rewrite mb_close_brace. unfold after_close. f_equal. f_equal. f_equal. same_index.
    + destruct (Hm _ _ _ _ H) as (pre & -> & Hx).
      exists (LBRACE :: w ++ pre). split; [lnorm; reflexivity |].
      intros x before i. lnorm.
      rewrite mb_open by reflexivity. rewrite (mb_plain_run w (ws_plain w Hw)).
      rewrite Hx. unfold after_close. f_equal. f_equal. f_equal. same_index.
  - rewrite parse_value_arr in H.
    destruct (skip_ws s1) as [| c2 s2] eqn:Hsk; [discriminate H |].
    destruct (skip_ws_char _ _ _ Hsk) as (w & -> & Hw & _ & _).
    destruct (N.eqb_spec c2 RBRACKET) as [-> | Hc2'].
    + injection H as <- <-. exists (LBRACKET :: w ++ [RBRACKET]).
      split; [lnorm; reflexivity |].
      intros x before i. lnorm.
      rewrite mb_open by reflexivity. rewrite (mb_plain_run w (ws_plain w Hw)).
      rewrite mb_close_bracket. unfold after_close. f_equal. f_equal. f_equal. same_index.
    + destruct (He _ _ _ _ H) as (pre & -> & Hx).
      exists (LBRACKET :: w ++ pre). split; [lnorm; reflexivity |].
      intros x before i. lnorm.
      rewrite mb_open by reflexivity. rewrite (mb_plain_run w (ws_plain w Hw)).
      rewrite Hx. unfold after_close. f_equal. f_equal. f_equal. same_index.
Qed.

Lemma opener_not_ws (c : char) : is_opener c = true → is_ws c = false.
Proof.
  unfold is_opener. intros [H | H]%orb_true_iff; apply N.eqb_eq in H; subst c; reflexivity.
Qed.

Lemma opens_skip_ws (s : str) : opens s = true → skip_ws s = s.
Proof.
  destruct s as [| c s]; [discriminate |]. cbn [opens]. intros Hc.
  cbn. rewrite (opener_not_ws c Hc). reflexivity.
Qed.

(** A JSON text that starts with a bracket: the scan of it, followed by
    anything, stops where its value ends, and only blanks follow the value. *)
Lemma loads_bracketed (s : str) (v : json) :
  loads s = Ret v → opens s = true →
  ∃ pre r, s = pre ++ r ∧ forallb is_ws r = true
           ∧ ∀ x, match_brackets (pre ++ x) [] 0 [] false
                  = (Z.of_nat (length pre), [], false).
Proof.
  intros (r & Hp & Hr)%loads_parse Ho. rewrite (opens_skip_ws s Ho) in Hp.
  destruct (bracketed_scan _ _ _ _ Hp Ho) as (pre & -> & Hx).
  exists pre, r. split; [reflexivity |]. split; [apply skip_ws_nil, Hr |].
  intros x. apply (Hx x [] O).
Qed.

Lemma blank_tail_empty (r t : str) (d : char) :
  forallb is_ws r = true → r = t ++ [d] → isspace d = false → False.
Proof.
  intros Hr -> Hd. rewrite forallb_app in Hr. apply andb_true_iff in Hr as [_ Hr].
  cbn in Hr. rewrite andb_true_r in Hr. apply is_ws_isspace in Hr. congruence.
Qed.

Lemma closer_not_space (c : char) : is_closer c = true → isspace c = false.
Proof.
  unfold is_closer. intros [H | H]%orb_true_iff; apply N.eqb_eq in H; subst c; reflexivity.
Qed.

Lemma opener_not_space (c : char) : is_opener c = true → isspace c = false.
Proof.
  unfold is_opener. intros [H | H]%orb_true_iff; apply N.eqb_eq in H; subst c; reflexivity.
Qed.

(** A bracketed JSON text with no blank after it: the scan of it, followed by
    anything, stops at its end. *)
Lemma closed_json_scan (j : str) :
  closed_json j = true → opens j = true →
  ∀ x, match_brackets (j ++ x) [] 0 [] false = (Z.of_nat (length j), [], false).
Proof.
  unfold closed_json. intros [Hlast Hv]%andb_true_iff Ho.
  unfold valid in Hv. destruct (loads j) as [v |] eqn:Hl; [| discriminate Hv].
  destruct (loads_bracketed j v Hl Ho) as (pre & r & Hj & Hr & Hx).
  destruct r as [| r0 r1] using rev_ind; [rewrite app_nil_r in Hj; subst pre; exact Hx |].
  exfalso. rewrite Hj, app_assoc, last_snoc in Hlast.
  apply (blank_tail_empty _ _ _ Hr eq_refl), closer_not_space, Hlast.
Qed.

Lemma isspace_not_ws (c : char) : isspace c = false → is_ws c = false.
Proof.
  intros Hc. destruct (is_ws c) eqn:E; [| reflexivity].
  apply is_ws_isspace in E. congruence.
Qed.

Lemma leading_prose_invalid (c : char) (t rest : str) (o : char) :
  isspace c = false → c ≠ DQUOTE → is_opener c = false →
  In o (t ++ rest) → is_opener o = true →
  valid (c :: t ++ rest) = false.
Proof.
  intros Hsp Hq Hop Hin Ho. unfold valid.
  destruct (loads (c :: t ++ rest)) as [v | e] eqn:Hl; [exfalso | reflexivity].
  apply loads_parse in Hl as (r & Hs & Hr). revert Hs.
  cbn [skip_ws]. rewrite (isspace_not_ws c Hsp).
  replace (2 * length (c :: t ++ rest) + 2)%nat
    with (S (2 * length (c :: t ++ rest) + 1)) by lia.
  rewrite parse_value_scalar;
    [| exact Hq | intros ->; discriminate Hop | intros ->; discriminate Hop].
  intros Hs.
  destruct (scan_scalar_plain _ _ _ Hs) as (pre & Heq & Hplain).
  assert (Hall : Forall (λ c, is_plain c = true) (c :: t ++ rest)).
  { rewrite Heq. apply Forall_app. split; [exact Hplain |].
    apply ws_plain, skip_ws_nil, Hr. }
  rewrite List.Forall_forall in Hall. specialize (Hall o (or_intror Hin)).
  unfold is_plain in Hall. rewrite Ho, orb_true_r in Hall. discriminate Hall.
Qed.

Lemma trailing_prose_invalid (j t : str) (d : char) :
  closed_json j = true → opens j = true → isspace d = false →
  valid (j ++ t ++ [d]) = false.
Proof.
  intros Hj Ho Hd. unfold valid.
  destruct (loads (j ++ t ++ [d])) as [v |] eqn:Hl; [exfalso | reflexivity].
  assert (Ho' : opens (j ++ t ++ [d]) = true) by (destruct j; [discriminate Ho | exact Ho]).
  destruct (loads_bracketed _ v Hl Ho') as (pre & r & Heq & Hr & Hx).
  pose proof (closed_json_scan j Hj Ho (t ++ [d])) as Hscan.
  specialize (Hx r). rewrite <- Heq, Hscan in Hx.
  assert (Hlen : length j = length pre) by (injection Hx as Hx; lia).
  apply app_inj_1 in Heq as [_ Heq]; [| exact Hlen].
  exact (blank_tail_empty r t d Hr (eq_sym Heq) Hd).
Qed.

(** X9.  JSON inside prose is cut out exactly: for a text made of a prefix
    without double quote, backtick or opening bracket, a JSON text that starts
    with an opening bracket and ends with a closing bracket, and a suffix
    without double quote or backtick, [clean_json_response] returns that JSON
    text. *)
Theorem embedded_json_is_extracted (p j q : str) :
  closed_json j = true → opens j = true →
  forallb (λ c, is_prose c && negb (is_opener c)) p = true →
  forallb is_prose q = true →
  clean_json_response (p ++ j ++ q) = Ret j.
Proof.
  intros Hj Ho Hp Hq.
  assert (Hv : valid j = true) by (unfold closed_json in Hj; apply andb_true_iff in Hj; tauto).
  destruct j as [| c t] eqn:Ej; [discriminate Ho |]. rewrite <- Ej in *.
  assert (Hc : is_opener c = true) by (rewrite Ej in Ho; exact Ho).
  destruct (exists_last (l := j) ltac:(rewrite Ej; discriminate)) as (t' & d & Elast).
  assert (Hd : is_closer d = true).
  { unfold closed_json in Hj. rewrite Elast, last_snoc in Hj.
    apply andb_true_iff in Hj. tauto. }
  (* the fences do nothing *)
  assert (Hlex : lex_run Out (p ++ j ++ q) = Some Out).
  { rewrite (lex_run_seq Out Out p)
      by (apply prose_lexes, (forallb_and_l _ _ _ Hp)).
    rewrite (lex_run_seq Out Out j) by (apply valid_lexes, Hv).
    apply prose_lexes, Hq. }
  assert (Hmd : strip_markdown (p ++ j ++ q) = lstrip p ++ j ++ rstrip q).
  { rewrite (strip_markdown_lexed _ Hlex).
    apply (strip_around p j q c d t t' Ej Elast);
      [apply opener_not_space, Hc | apply closer_not_space, Hd]. }
  set (p' := lstrip p) in *. set (q' := rstrip q) in *.
  assert (Hp' : forallb (λ c, is_prose c && negb (is_opener c)) p' = true)
    by (apply lstrip_forallb, Hp).
  (* what remains is JSON only when nothing surrounds [j] *)
  assert (Hcases : valid (p' ++ j ++ q') = true → p' = [] ∧ q' = []).
  { intros Hval. destruct p' as [| a p0] eqn:Ep.
    - split; [reflexivity |].
      destruct (q') as [| b q0] eqn:Eq using rev_ind; [reflexivity | exfalso].
      cbn [app] in Hval.
      rewrite (trailing_prose_invalid j q0 b Hj Ho (rstrip_last q q0 b Eq)) in Hval.
      discriminate Hval.
    - exfalso. cbn [forallb] in Hp'. apply andb_true_iff in Hp' as [Ha _].
      apply andb_true_iff in Ha as [Ha1 Ha2]. apply negb_true_iff in Ha2.
      unfold is_prose in Ha1. apply negb_true_iff, orb_false_iff in Ha1 as [Ha1 _].
      pose proof (lstrip_head p) as Hh. fold p' in Hh. rewrite Ep in Hh.
      cbn [app] in Hval.
      rewrite (leading_prose_invalid a p0 (j ++ q') c Hh) in Hval;
        [discriminate Hval | apply N.eqb_neq, Ha1 | exact Ha2 | | exact Hc].
      apply in_or_app. right. rewrite Ej. left. reflexivity. }
  assert (Hne : p ++ j ++ q ≠ []) by (rewrite Ej; destruct p; discriminate).
  destruct (p ++ j ++ q) as [| a0 text0] eqn:Etext; [contradiction |].
  unfold clean_json_response. cbv zeta. rewrite Hmd.
  destruct (valid (p' ++ j ++ q')) eqn:Hval.
  { destruct (Hcases eq_refl) as [-> ->]. cbn [app]. rewrite app_nil_r. reflexivity. }
  assert (Hstart : find_start (p' ++ j ++ q') 0 = Z.of_nat (length p')).
  { rewrite Ej. cbn [app]. rewrite find_start_app; [reflexivity | | exact Hc].
    apply (forallb_and_r _ _ _ Hp'). }
  rewrite Hstart.
  destruct (Z.eqb_spec (Z.of_nat (length p')) (-1)); [lia |].
  assert (Hcut : (if (0 <? Z.of_nat (length p'))%Z
                  then drop (Z.to_nat (Z.of_nat (length p'))) (p' ++ j ++ q')
                  else p' ++ j ++ q') = j ++ q').
  { destruct (Z.ltb_spec 0 (Z.of_nat (length p'))).
    - rewrite Nat2Z.id, drop_app_length. reflexivity.
    - destruct p'; [reflexivity | simpl in *; lia]. }
  rewrite Hcut.
  assert (Hext : extract_bracketed (j ++ q') = Ret j).
  { unfold extract_bracketed. rewrite (closed_json_scan j Hj Ho q').
    destruct (Z.ltb_spec 0 (Z.of_nat (length j))) as [_ | Hz];
      [| rewrite Ej in Hz; simpl in Hz; lia].
    rewrite Nat2Z.id, take_app_length. reflexivity. }
  rewrite Hext. cbn [rbind].
  apply valid_true in Hv as [v Hv]. rewrite Hv. reflexivity.
Qed.

End WithRuntime.

(** ** Closed instances *)

#[local] Existing Instance sample_runtime.

Lemma embedded_json_is_extracted_witness :
  let p := s2u "Here is the plan: " in
  let j := jq "{'steps': ['a}', 'b'], 'n': 2}" in
  let q := s2u " - hope this helps {really}" in
  closed_json j = true ∧ opens j = true
  ∧ forallb (λ c, is_prose c && negb (is_opener c)) p = true
  ∧ forallb is_prose q = true
  ∧ clean_json_response (p ++ j ++ q) = Ret j.
Proof.
  split; [vm_compute; reflexivity |]. split; [vm_compute; reflexivity |].
  split; [vm_compute; reflexivity |]. split; [vm_compute; reflexivity |].
  apply (embedded_json_is_extracted (s2u "Here is the plan: ")
           (jq "{'steps': ['a}', 'b'], 'n': 2}") (s2u " - hope this helps {really}"));
    vm_compute; reflexivity.
Defined.

End ScanFacts.

(* ===================================================================== *)
(** * Fenced JSON texts *)
(* ===================================================================== *)

Module FenceFacts.
Import Re JsonHelper Spec Lexical Json JsonFacts Props RepairFacts ScanFacts.

Lemma last_or_cons (p : option char) (c : char) (s : str) :
  last_or p (c :: s) = last_or (Some c) s.
Proof. unfold last_or. destruct s as [| d s]; [reflexivity |]. cbn [last]. 
  destruct (last (d :: s)) eqn:E; [reflexivity |]. 
  apply last_None in E. discriminate. Qed.

Lemma last_or_snoc (p : option char) (s : str) (c : char) :
  last_or p (s ++ [c]) = Some c.
Proof. unfold last_or. rewrite last_snoc. reflexivity. Qed.

Lemma sub_at_fuel (r : regex) (t : list titem) (f1 : nat) :
  ∀ f2 p s, (length s < f1)%nat → (length s < f2)%nat →
            sub_at f1 r t p s = sub_at f2 r t p s.
Proof.
  induction f1 as [| f1 IH]; intros f2 p s H1 H2; [lia |].
  destruct f2 as [| f2]; [lia |]. cbn [sub_at].
  destruct (match_here r p s) as [st |].
  - destruct (Nat.ltb_spec (length (rest st)) (length s)) as [Hlt | Hge].
    + f_equal. apply IH; lia.
    + destruct s as [| c s]; [reflexivity |]. f_equal. f_equal.
      apply IH; simpl in *; lia.
  - destruct s as [| c s]; [reflexivity |]. f_equal. apply IH; simpl in *; lia.
Qed.

(** [re.sub] over a stretch where the pattern matches nowhere. *)
Lemma sub_at_skip (r : regex) (t : list titem) (Inv : option char → str → Prop)
    (tail : str) :
  (∀ p s, s ≠ [] → Inv p s → match_here r p (s ++ tail) = None) →
  (∀ p c s, Inv p (c :: s) → Inv (Some c) s) →
  ∀ s fuel p, Inv p s → (length (s ++ tail) < fuel)%nat →
    sub_at fuel r t p (s ++ tail) = s ++ sub_at (fuel - length s) r t (last_or p s) tail.
Proof.
  intros Hno Hnext s. induction s as [| c s IH]; intros fuel p HI Hlen.
  - cbn [app length]. rewrite Nat.sub_0_r. reflexivity.
  - destruct fuel as [| fuel]; [lia |].
    cbn [sub_at]. rewrite (Hno p (c :: s)) by (auto; discriminate).
    cbn [app]. f_equal. rewrite last_or_cons.
    apply IH; [eapply Hnext; exact HI | simpl in Hlen; lia].
Qed.

(** The greedy run of blanks. *)
Lemma star_ws_blanks (w s : str) (g : list (nat * str)) (k : kont) :
  forallb isspace w = true →
  match s with c :: _ => isspace c = false | [] => True end →
  ∀ fuel p, (length (w ++ s) ≤ fuel)%nat →
    k (MState (last_or p w) s g) ≠ None →
    star_greedy (m ws) fuel (MState p (w ++ s) g) k = k (MState (last_or p w) s g).
Proof.
  intros Hw Hs. induction w as [| a w IH]; intros fuel p Hlen Hk.
  - cbn [app]. change (last_or p []) with p in *.
    destruct fuel as [| fuel]; [reflexivity |]. rewrite star_greedy_S.
    destruct s as [| c s]; [reflexivity |]. rewrite m_ws_cons, Hs. reflexivity.
  - cbn [forallb] in Hw. apply andb_true_iff in Hw as [Ha Hw].
    destruct fuel as [| fuel]; [simpl in Hlen; lia |]. rewrite star_greedy_S.
    cbn [app]. rewrite m_ws_cons, Ha. cbn [rest length].
    rewrite (proj2 (Nat.ltb_lt _ _) (Nat.lt_succ_diag_r _)).
    rewrite last_or_cons in *.
    rewrite (IH Hw fuel (Some a)) by (simpl in Hlen; lia || exact Hk).
    destruct (k (MState (last_or (Some a) w) s g)); [reflexivity | contradiction].
Qed.

Lemma opt_lf_continues (p : option char) (s : str) (g : list (nat * str)) :
  match s with c :: _ => isspace c = false | [] => True end →
  m (opt (lit LF)) (MState p s g) Some = Some (MState p s g).
Proof.
  intros Hs. cbn -[N.eqb]. destruct s as [| c s]; [reflexivity |].
  destruct (N.eqb_spec LF c) as [<- | _]; [discriminate Hs | reflexivity].
Qed.

(** The opening fence, its tag, and the blanks after it are one match. *)
Lemma json_fence_matches (w s : str) :
  forallb isspace w = true →
  match s with c :: _ => isspace c = false | [] => True end →
  match_here FENCE_JSON_RE None (FENCE ++ s2u "json" ++ w ++ s)
  = Some (MState (last_or (Some 110) w) s []).
Proof.
  intros Hw Hs. unfold match_here.
  change (m FENCE_JSON_RE (MState None (FENCE ++ s2u "json" ++ w ++ s) []) Some)
    with (star_greedy (m ws) (length (w ++ s)) (MState (Some 110) (w ++ s) [])
            (λ st1, m (opt (lit LF)) st1 Some)).
  rewrite (star_ws_blanks w s [] _ Hw Hs) by (rewrite ?opt_lf_continues by exact Hs; auto; discriminate).
  apply opt_lf_continues, Hs.
Qed.

Lemma open_fence_matches (p : option char) (w s : str) :
  p = None ∨ p = Some LF →
  forallb isspace w = true →
  match s with c :: _ => isspace c = false | [] => True end →
  match_here FENCE_OPEN_RE p (FENCE ++ w ++ s)
  = Some (MState (last_or (Some BACKTICK) w) s []).
Proof.
  intros Hp Hw Hs. unfold match_here.
  assert (Heq : m FENCE_OPEN_RE (MState p (FENCE ++ w ++ s) []) Some
                = star_greedy (m ws) (length (w ++ s)) (MState (Some BACKTICK) (w ++ s) [])
                    (λ st1, m (opt (lit LF)) st1 Some))
    by (destruct Hp as [-> | ->]; reflexivity).
  rewrite Heq.
  rewrite (star_ws_blanks w s [] _ Hw Hs) by (rewrite ?opt_lf_continues by exact Hs; auto; discriminate).
  apply opt_lf_continues, Hs.
Qed.

(** Inside a stretch that lexes, followed by whatever, no fence opens. *)
Lemma inside_no_fence (r : regex) (tail : str) (p : option char) (s : str) :
  s ≠ [] → line_start_inv p s →
  match_here (Cat Bol (Cat (lits FENCE) r)) p (s ++ tail) = None.
Proof.
  intros Hne (q & Hrun & Hq). unfold match_here. rewrite m_bol_cat. cbn [prev].
  destruct s as [| c s]; [contradiction |]. cbn [app].
  assert (Hhead : (p = None ∨ p = Some LF) →
            m (Cat (lits FENCE) r) (MState p (c :: s ++ tail) []) Some = None).
  { intros Hp. apply fence_head_fails. intros ->. rewrite (Hq Hp) in Hrun.
    cbn [lex_run] in Hrun. apply Hrun. reflexivity. }
  destruct p as [a |]; [| apply Hhead; auto].
  destruct (N.eqb_spec a LF) as [-> | _]; [apply Hhead; auto | reflexivity].
Qed.

Lemma lexed_inside (p : option char) (s : str) :
  lex_run Out s = Some Out → line_start_inv p s.
Proof. intros Hs. exists Out. split; [rewrite Hs; discriminate | auto]. Qed.

(** The two opening-fence patterns pass over a stretch that lexes and ends
    a line; what they do with the closing fence after it. *)
Lemma skip_to_closing_fence (r : regex) (p : option char) (s : str) (fuel : nat) :
  lex_run Out (s ++ [LF]) = Some Out →
  (length ((s ++ [LF]) ++ FENCE) < fuel)%nat →
  sub_at fuel (Cat Bol (Cat (lits FENCE) r)) [] p ((s ++ [LF]) ++ FENCE)
  = (s ++ [LF]) ++ sub_at 4 (Cat Bol (Cat (lits FENCE) r)) [] (Some LF) FENCE.
Proof.
  intros Hlex Hlen.
  rewrite (sub_at_skip _ [] line_start_inv FENCE
             (inside_no_fence r FENCE) line_start_inv_next)
    by (auto using lexed_inside).
  rewrite last_or_snoc. f_equal.
  apply sub_at_fuel; [| simpl; lia].
  rewrite length_app in Hlen. simpl in *. lia.
Qed.

Lemma close_fence_sub_lexed (s : str) :
  lex_run Out s = Some Out → sub FENCE_CLOSE_RE [] s = s.
Proof.
  intros Hs. unfold sub.
  apply (sub_at_id FENCE_CLOSE_RE [] (λ _ s, ∃ q, lex_run q s = Some Out)).
  - intros p s' [q Hq]. exact (no_close_fence p s' q Hq).
  - intros p c s' [q Hq]. cbn [lex_run] in Hq.
    destruct (lex_step q c) as [q' |]; [eauto | discriminate].
  - lia.
  - eauto.
Qed.

Lemma body_head (s : str) :
  match s with c :: _ => isspace c = false | [] => False end →
  match (s ++ [LF]) ++ FENCE with c :: _ => isspace c = false | [] => True end.
Proof. intros Hhead. destruct s; [contradiction | exact Hhead]. Qed.

Lemma tagged_first_sub (w s : str) :
  forallb isspace w = true →
  lex_run Out (s ++ [LF]) = Some Out →
  match s with c :: _ => isspace c = false | [] => False end →
  sub FENCE_JSON_RE [] (FENCE ++ s2u "json" ++ (LF :: w) ++ (s ++ [LF]) ++ FENCE)
  = (s ++ [LF]) ++ FENCE.
Proof.
  intros Hw Hlex Hhead.
  unfold sub. cbn [sub_at].
  rewrite (json_fence_matches (LF :: w) ((s ++ [LF]) ++ FENCE))
    by (first [exact (body_head s Hhead) | cbn [forallb]; rewrite Hw; reflexivity]).
  cbn [rest prev expand flat_map app].
  match goal with
  | |- (if ?b then _ else _) = _ =>
      replace b with true
        by (symmetry; apply Nat.ltb_lt; repeat (rewrite length_app; simpl); lia)
  end.
  change FENCE_JSON_RE with (Cat Bol (Cat (lits FENCE)
    (cats [lits_i (s2u "json"); Star ws; opt (lit LF)]))).
  rewrite skip_to_closing_fence by (first [exact Hlex | repeat (rewrite length_app; simpl); lia]).
  reflexivity.
Qed.

Lemma untagged_first_sub (w s : str) :
  forallb isspace w = true →
  lex_run Out (s ++ [LF]) = Some Out →
  match s with c :: _ => isspace c = false | [] => False end →
  sub FENCE_JSON_RE [] (FENCE ++ (LF :: w) ++ (s ++ [LF]) ++ FENCE)
  = FENCE ++ (LF :: w) ++ (s ++ [LF]) ++ FENCE.
Proof.
  intros Hw Hlex Hhead.
  unfold sub.
  set (n := length (FENCE ++ (LF :: w) ++ (s ++ [LF]) ++ FENCE)).
  assert (Hn : (length (((LF :: w) ++ s) ++ [LF]) + 6 = n)%nat)
    by (unfold n, FENCE; repeat first [rewrite length_app | progress cbn [length app]]; lia).
  destruct n as [| [| [| n]]];
    try (revert Hn; repeat first [rewrite length_app | progress cbn [length app]]; lia).
  change (sub_at (S (S (S (S n)))) FENCE_JSON_RE []
            None (FENCE ++ (LF :: w) ++ (s ++ [LF]) ++ FENCE))
    with (FENCE ++ sub_at (S n) FENCE_JSON_RE [] (Some BACKTICK)
                     ((LF :: w) ++ (s ++ [LF]) ++ FENCE)).
  f_equal.
  change FENCE_JSON_RE with (Cat Bol (Cat (lits FENCE)
    (cats [lits_i (s2u "json"); Star ws; opt (lit LF)]))).
  replace ((LF :: w) ++ (s ++ [LF]) ++ FENCE) with ((((LF :: w) ++ s) ++ [LF]) ++ FENCE)
    by (rewrite <- !app_assoc; reflexivity).
  rewrite skip_to_closing_fence;
    [reflexivity | | rewrite length_app; change (length FENCE) with 3%nat; lia].
  rewrite <- app_assoc.
  rewrite (lex_run_seq Out Out (LF :: w)); [exact Hlex |].
  apply (lex_run_plain isspace); [| cbn [forallb]; rewrite Hw; reflexivity].
  intros c Hc. unfold lex_step.
  destruct (N.eqb_spec c DQUOTE) as [-> | _]; [discriminate Hc |].
  destruct (N.eqb_spec c BACKTICK) as [-> | _]; [discriminate Hc | reflexivity].
Qed.

Lemma tagged_second_sub (s : str) :
  lex_run Out (s ++ [LF]) = Some Out →
  sub FENCE_OPEN_RE [] ((s ++ [LF]) ++ FENCE) = s ++ [LF].
Proof.
  intros Hlex.
  unfold sub.
  change FENCE_OPEN_RE with (Cat Bol (Cat (lits FENCE) (cats [Star ws; opt (lit LF)]))).
  rewrite skip_to_closing_fence by (first [exact Hlex | lia]).
  change (sub_at 4 _ [] (Some LF) FENCE) with (@nil N). apply app_nil_r.
Qed.

Lemma untagged_second_sub (w s : str) :
  forallb isspace w = true →
  lex_run Out (s ++ [LF]) = Some Out →
  match s with c :: _ => isspace c = false | [] => False end →
  sub FENCE_OPEN_RE [] (FENCE ++ (LF :: w) ++ (s ++ [LF]) ++ FENCE) = s ++ [LF].
Proof.
  intros Hw Hlex Hhead.
  unfold sub. cbn [sub_at].
  rewrite (open_fence_matches None (LF :: w) ((s ++ [LF]) ++ FENCE))
    by (first [exact (body_head s Hhead) | cbn [forallb]; rewrite Hw; reflexivity | auto]).
  cbn [rest prev expand flat_map app].
  match goal with
  | |- (if ?b then _ else _) = _ =>
      replace b with true
        by (symmetry; apply Nat.ltb_lt; repeat (rewrite length_app; simpl); lia)
  end.
  change FENCE_OPEN_RE with (Cat Bol (Cat (lits FENCE) (cats [Star ws; opt (lit LF)]))).
  rewrite skip_to_closing_fence by (first [exact Hlex | repeat (rewrite length_app; simpl); lia]).
  change (sub_at 4 _ [] (Some LF) FENCE) with (@nil N). apply app_nil_r.
Qed.

Lemma fences_removed (w s : str) (tagged : bool) :
  forallb isspace w = true →
  lex_run Out (s ++ [LF]) = Some Out →
  match s with c :: _ => isspace c = false | [] => False end →
  strip_markdown (FENCE ++ (if tagged then s2u "json" else []) ++ (LF :: w)
                    ++ (s ++ [LF]) ++ FENCE)
  = strip (s ++ [LF]).
Proof.
  intros Hw Hlex Hhead.
  unfold strip_markdown. destruct tagged.
  - rewrite (tagged_first_sub w s Hw Hlex Hhead), (tagged_second_sub s Hlex),
      (close_fence_sub_lexed _ Hlex).
    reflexivity.
  - change ([] ++ (LF :: w) ++ (s ++ [LF]) ++ FENCE)
      with ((LF :: w) ++ (s ++ [LF]) ++ FENCE).
    rewrite (untagged_first_sub w s Hw Hlex Hhead), (untagged_second_sub w s Hw Hlex Hhead),
      (close_fence_sub_lexed _ Hlex).
    reflexivity.
Qed.

Section WithRuntime.
Context {runtime : Runtime}.

(** X10.  A JSON text inside a Markdown code fence (the fence of three
    backticks, with the tag json or without, a line feed, the text, a line
    feed, the closing fence) is unwrapped: [clean_json_response] returns the
    text stripped of surrounding whitespace, and [parse_json] returns what
    [json.loads] returns for the text. *)
Theorem fenced_json_is_unwrapped (tagged : bool) (j : str) :
  valid j = true →
  clean_json_response (fenced tagged j) = Ret (strip j)
  ∧ parse_json (fenced tagged j) = loads j.
Proof.
  unfold valid. destruct (loads j) as [v |] eqn:Hl; [intros _ | discriminate].
  destruct (loads_shape j v Hl) as (w & pre & r & -> & Hw & Hr & Htok & Hpre).
  assert (Hshape : fenced tagged (w ++ pre ++ r)
                   = FENCE ++ (if tagged then s2u "json" else []) ++ (LF :: w)
                       ++ ((pre ++ r) ++ [LF]) ++ FENCE).
  { unfold fenced. destruct tagged; rewrite <- ?app_assoc; reflexivity. }
  assert (Hr' : forallb is_ws (r ++ [LF]) = true)
    by (rewrite forallb_app, Hr; reflexivity).
  assert (Hmd : strip_markdown (fenced tagged (w ++ pre ++ r)) = pre).
  { rewrite Hshape, fences_removed.
    - rewrite <- app_assoc. apply (strip_wrapped [] pre (r ++ [LF])); [reflexivity | | apply Htok].
      exact Hr'.
    - apply forallb_ws_space, Hw.
    - rewrite <- app_assoc. rewrite (lex_run_seq Out Out pre) by apply Htok.
      apply lex_run_ws, Hr'.
    - destruct (tokens_head pre Htok) as (c & t & -> & _ & Hc). exact Hc. }
  assert (Hclean : clean_json_response (fenced tagged (w ++ pre ++ r)) = Ret pre).
  { rewrite clean_fast_path; [rewrite Hmd; reflexivity | destruct tagged; discriminate |].
    rewrite Hmd. unfold valid. rewrite Hpre. reflexivity. }
  split.
  - rewrite Hclean. f_equal. symmetry.
    apply strip_wrapped; [exact Hw | exact Hr | apply Htok].
  - unfold parse_json. rewrite Hclean. exact Hpre.
Qed.

End WithRuntime.

(** ** Closed instances *)

#[local] Existing Instance sample_runtime.

Lemma fenced_json_is_unwrapped_witness :
  let j := jq "{'a': '```'}" in
  valid j = true
  ∧ clean_json_response (fenced true j) = Ret (strip j)
  ∧ parse_json (fenced true j) = loads j.
Proof.
  split; [vm_compute; reflexivity |].
  apply (fenced_json_is_unwrapped true (jq "{'a': '```'}")).
  vm_compute. reflexivity.
Defined.

End FenceFacts.

(* ===================================================================== *)
(** * JSON written and read back *)
(* ===================================================================== *)

Module RoundTrip.
Import Re JsonHelper Adapters Spec Lexical Json DecoderFacts JsonFacts Props RepairFacts AdapterFacts.

Section WithRuntime.
Context {runtime : Runtime}.

(** ** Induction on JSON values *)

Lemma json_induction (P : json → Prop) :
  P JNull → (∀ b, P (JBool b)) → (∀ z, P (JInt z)) → (∀ lx, P (JFloat lx)) →
  (∀ s, P (JStr s)) →
  (∀ l, Forall P l → P (JArr l)) →
  (∀ kv, Forall (λ p, P (snd p)) kv → P (JObj kv)) →
  ∀ v, P v.
Proof.
  intros Hnull Hbool Hint Hfloat Hstr Harr Hobj.
  fix IH 1. intros [| b | z | lx | s | l | kv].
  - exact Hnull.
  - apply Hbool.
  - apply Hint.
  - apply Hfloat.
  - apply Hstr.
  - apply Harr. induction l as [| x l IHl]; constructor; [apply IH | exact IHl].
  - apply Hobj. induction kv as [| p kv IHkv]; constructor; [apply IH | exact IHkv].
Qed.

(** ** Integers *)

Lemma digits_fuel_S (f : nat) (n : N) (acc : str) :
  digits_fuel (S f) n acc
  = if n <? 10 then (48 + n mod 10) :: acc
    else digits_fuel f (n / 10) ((48 + n mod 10) :: acc).
Proof. reflexivity. Qed.

Lemma digits_fuel_spec (fuel : nat) :
  ∀ n acc, n < 2 ^ N.of_nat (S fuel) →
    ∃ ds, digits_fuel (S fuel) n acc = ds ++ acc
          ∧ forallb isdigit_ascii ds = true
          ∧ (∃ c t, ds = c :: t ∧ (0 < n → in_range 49 57 c = true) ∧ (n = 0 → ds = [48]))
          ∧ ∀ a, fold_left digit_step ds a
                 = (a * 10 ^ Z.of_nat (length ds) + Z.of_N n)%Z.
Proof.
  induction fuel as [| fuel IH]; intros n acc Hn.
  all: rewrite digits_fuel_S; destruct (N.ltb_spec n 10) as [Hlt | Hge].
  1, 3: rewrite (N.mod_small n 10) by lia; exists [48 + n]; split; [reflexivity |];
    (split; [cbn [forallb]; unfold isdigit_ascii, in_range;
             rewrite andb_true_r, andb_true_iff, !N.leb_le; lia |]);
    (split;
     [exists (48 + n), []; split; [reflexivity |]; split;
        [intros Hpos; unfold in_range; rewrite andb_true_iff, !N.leb_le; lia
        | intros ->; reflexivity]
     | intros a; cbn; unfold digit_step; replace (48 + n - 48) with n by lia; lia]).
  - exfalso. change (2 ^ N.of_nat 1) with 2 in Hn. lia.
  - assert (Hn' : n / 10 < 2 ^ N.of_nat (S fuel)).
    { rewrite (Nat2N.inj_succ (S fuel)), N.pow_succ_r' in Hn.
      apply N.Div0.div_lt_upper_bound. lia. }
    destruct (IH (n / 10) ((48 + n mod 10) :: acc) Hn')
      as (ds & Heq & Hdig & (c & t & Hds & Hhead & _) & Hval).
    exists (ds ++ [48 + n mod 10]). rewrite Heq, <- app_assoc.
    split; [reflexivity |].
    assert (Hm : n mod 10 < 10) by (apply N.mod_lt; lia).
    split.
    { rewrite forallb_app, Hdig. cbn [forallb andb]. unfold isdigit_ascii, in_range.
      rewrite andb_true_r, andb_true_iff, !N.leb_le.
      revert Hm. generalize (n mod 10). clear. intros m Hm. lia. }
    split.
    + exists c, (t ++ [48 + n mod 10]). rewrite Hds. split; [reflexivity |].
      split; [| intros ->; lia].
      intros _. apply Hhead.
      apply N.div_str_pos. lia.
    + intros a. rewrite fold_left_app, Hval. cbn [fold_left]. unfold digit_step.
      rewrite (N.add_comm 48), N.add_sub.
      rewrite length_app, Nat2Z.inj_add. cbn [length].
      rewrite Z.pow_add_r by lia. change (10 ^ Z.of_nat 1)%Z with 10%Z.
      rewrite N2Z.inj_div, N2Z.inj_mod. change (Z.of_N 10) with 10%Z.
      pose proof (Z.div_mod (Z.of_N n) 10 ltac:(lia)) as Hzdm.
      revert Hzdm. generalize (Z.of_N n `div` 10)%Z (Z.of_N n `mod` 10)%Z.
      generalize (10 ^ Z.of_nat (length ds))%Z (Z.of_N n). clear. intros. lia.
Qed.

Lemma str_of_N_spec (n : N) :
  ∃ c t, str_of_N n = c :: t
         ∧ forallb isdigit_ascii (c :: t) = true
         ∧ (0 < n → in_range 49 57 c = true) ∧ (n = 0 → t = [] ∧ c = 48)
         ∧ Z_of_digits (c :: t) = Z.of_N n.
Proof.
  unfold str_of_N.
  assert (Hn : n < 2 ^ N.of_nat (S (N.to_nat (N.log2 n)))).
  { rewrite Nat2N.inj_succ, N2Nat.id.
    destruct (N.eq_dec n 0) as [-> | Hne]; [reflexivity |].
    apply N.log2_spec. lia. }
  destruct (digits_fuel_spec _ n [] Hn) as (ds & Heq & Hdig & (c & t & -> & Hpos & Hzero) & Hval).
  rewrite Heq, app_nil_r. exists c, t. split; [reflexivity |]. split; [exact Hdig |].
  split; [exact Hpos |]. split.
  - intros H0. specialize (Hzero H0). injection Hzero as -> ->. auto.
  - unfold Z_of_digits. change (fold_left _ (c :: t) 0%Z) with (fold_left digit_step (c :: t) 0%Z).
    rewrite Hval. lia.
Qed.

Lemma scan_frac_none (x : str) : no_point x → scan_frac x = ([], x).
Proof.
  destruct x as [| p [| d x]]; try reflexivity; cbn [no_point]; intros Hp;
    apply N.eqb_neq in Hp; cbn [scan_frac]; rewrite Hp; reflexivity.
Qed.

Lemma scan_exp_none (x : str) : no_e x → scan_exp x = ([], x).
Proof.
  destruct x as [| e x]; [reflexivity |]. cbn [no_e]. intros [H1 H2].
  apply N.eqb_neq in H1, H2. cbn [scan_exp]. rewrite H1, H2. reflexivity.
Qed.

Lemma digits_scan (neg : bool) (c : char) (t x : str) :
  forallb isdigit_ascii (c :: t) = true →
  (c = 48 → t = []) → no_digit x →
  scan_int (sign_text neg ++ (c :: t) ++ x) = Some (neg, c :: t, x).
Proof.
  intros Hdig Hzero Hx. cbn [forallb] in Hdig. apply andb_true_iff in Hdig as [Hc Ht].
  assert (Hc45 : N.eqb c 45 = false).
  { apply N.eqb_neq. intros ->. discriminate Hc. }
  assert (Hbody : match (c :: t) ++ x with
                  | c :: s2 =>
                      if N.eqb c 48 then Some (neg, [c], s2)
                      else if in_range 49 57 c then
                        let (d, r) := span_digits s2 in Some (neg, c :: d, r)
                      else None
                  | [] => None
                  end = Some (neg, c :: t, x)).
  { cbn [app]. destruct (N.eqb_spec c 48) as [-> | Hne].
    - rewrite (Hzero eq_refl). reflexivity.
    - replace (in_range 49 57 c) with true.
      + rewrite (span_digits_app t x Ht Hx). reflexivity.
      + symmetry. unfold isdigit_ascii, in_range in *.
        apply andb_true_iff in Hc as [H1 H2]. apply N.leb_le in H1, H2.
        rewrite andb_true_iff, !N.leb_le. lia. }
  unfold scan_int. destruct neg; cbn [sign_text app].
  - change (N.eqb 45 45) with true. cbv iota. exact Hbody.
  - rewrite Hc45. exact Hbody.
Qed.

Lemma int_text_parses (z : Z) (x : str) :
  term x → scan_scalar (str_of_Z z ++ x) = Some (JInt z, x).
Proof.
  intros Hx.
  assert (Hnum : ∀ neg c t, forallb isdigit_ascii (c :: t) = true → (c = 48 → t = []) →
            match_number (sign_text neg ++ (c :: t) ++ x)
            = Some (JInt (if neg then (- Z_of_digits (c :: t))%Z else Z_of_digits (c :: t)), x)).
  { intros neg c t Hdig Hzero. unfold match_number.
    rewrite (digits_scan neg c t x Hdig Hzero (term_no_digit x Hx)).
    rewrite (scan_frac_none x (term_no_point x Hx)), (scan_exp_none x (term_no_e x Hx)).
    reflexivity. }
  assert (Hlit : ∀ c s, isdigit_ascii c = true →
            scan_scalar (c :: s) = match_number (c :: s)).
  { intros c s Hc. unfold scan_scalar.
    assert (Hr : 48 ≤ c ≤ 57).
    { unfold isdigit_ascii, in_range in Hc. apply andb_true_iff in Hc as [H1 H2].
      apply N.leb_le in H1, H2. lia. }
    rewrite !startswith_head by (vm_compute; lia). reflexivity. }
  destruct z as [| p | p]; cbn [str_of_Z].
  - cbn [app]. rewrite (Hlit 48 x eq_refl). exact (Hnum false 48 [] eq_refl (λ _, eq_refl)).
  - destruct (str_of_N_spec (Npos p)) as (c & t & -> & Hdig & Hpos & _ & Hval).
    specialize (Hpos ltac:(lia)).
    assert (Hc : isdigit_ascii c = true) by (cbn in Hdig; apply andb_true_iff in Hdig; tauto).
    cbn [app]. rewrite (Hlit c _ Hc).
    change (match_number (c :: t ++ x))
      with (match_number (sign_text false ++ (c :: t) ++ x)).
    rewrite (Hnum false c t Hdig), Hval; [reflexivity |].
    intros ->. discriminate Hpos.
  - destruct (str_of_N_spec (Npos p)) as (c & t & -> & Hdig & Hpos & _ & Hval).
    specialize (Hpos ltac:(lia)).
    assert (Hc : isdigit_ascii c = true) by (cbn in Hdig; apply andb_true_iff in Hdig; tauto).
    assert (Hr : 48 ≤ c ≤ 57).
    { unfold isdigit_ascii, in_range in Hc. apply andb_true_iff in Hc as [H1 H2].
      apply N.leb_le in H1, H2. lia. }
    unfold scan_scalar. cbn [app].
    rewrite (startswith_head NULL), (startswith_head TRUE), (startswith_head FALSE),
      (startswith_head NAN), (startswith_head INFINITY) by (vm_compute; lia).
    change NEG_INFINITY with (45 :: 73 :: s2u "nfinity").
    cbn [startswith].
    replace (N.eqb 73 c) with false by (symmetry; apply N.eqb_neq; lia).
    change (N.eqb 45 45) with true. cbn [andb].
    change (match_number (45 :: c :: t ++ x))
      with (match_number (sign_text true ++ (c :: t) ++ x)).
    rewrite (Hnum true c t Hdig), Hval; [reflexivity |].
    intros ->. discriminate Hpos.
Qed.

(** The digits the scanner counts in the text of an integer. *)
Lemma int_digits_text (z : Z) (x : str) :
  term x → int_digits (str_of_Z z ++ x) = digits z.
Proof.
  intros Hx. unfold int_digits, digits.
  destruct z as [| p | p]; cbn [str_of_Z Z.abs_N].
  - reflexivity.
  - destruct (str_of_N_spec (Npos p)) as (c & t & Hs & Hdig & Hpos & _).
    rewrite Hs. specialize (Hpos ltac:(lia)).
    change ((c :: t) ++ x) with (sign_text false ++ (c :: t) ++ x).
    rewrite (digits_scan false c t x Hdig); [reflexivity | | exact (term_no_digit x Hx)].
    intros ->. discriminate Hpos.
  - destruct (str_of_N_spec (Npos p)) as (c & t & Hs & Hdig & Hpos & _).
    rewrite Hs. specialize (Hpos ltac:(lia)).
    change ((45 :: c :: t) ++ x) with (sign_text true ++ (c :: t) ++ x).
    rewrite (digits_scan true c t x Hdig); [reflexivity | | exact (term_no_digit x Hx)].
    intros ->. discriminate Hpos.
Qed.

Lemma int_text_scans (z : Z) (x : str) :
  term x → too_many_digits (digits z) = false →
  scan_token (str_of_Z z ++ x) = Ret (JInt z, x).
Proof.
  intros Hx Hd. unfold scan_token.
  rewrite (int_text_parses z x Hx), (int_digits_text z x Hx), Hd. reflexivity.
Qed.

(** A run of digits denotes a number below the power of ten of its length. *)
Lemma digits_value_bound (ds : str) :
  forallb isdigit_ascii ds = true →
  ∀ a, (0 ≤ a →
        a * 10 ^ Z.of_nat (length ds) ≤ fold_left digit_step ds a
        < (a + 1) * 10 ^ Z.of_nat (length ds))%Z.
Proof.
  induction ds as [| c ds IH]; intros Hdig a Ha.
  - cbn. lia.
  - cbn [forallb] in Hdig. apply andb_true_iff in Hdig as [Hc Hds].
    cbn [fold_left length]. rewrite Nat2Z.inj_succ, Z.pow_succ_r by lia.
    assert (Hr : (0 ≤ Z.of_N (c - 48) ≤ 9)%Z).
    { unfold isdigit_ascii, in_range in Hc. apply andb_true_iff in Hc as [H1 H2].
      apply N.leb_le in H1, H2. lia. }
    change (digit_step a c) with (a * 10 + Z.of_N (c - 48))%Z.
    specialize (IH Hds (a * 10 + Z.of_N (c - 48))%Z ltac:(lia)).
    assert (Hp : (0 < 10 ^ Z.of_nat (length ds))%Z) by (apply Z.pow_pos_nonneg; lia).
    revert IH Hp Hr. generalize (fold_left digit_step ds (a * 10 + Z.of_N (c - 48))%Z).
    generalize (10 ^ Z.of_nat (length ds))%Z (Z.of_N (c - 48)). clear. intros P k F IH Hp Hr.
    assert (H1 : (0 ≤ k * P)%Z) by (apply Z.mul_nonneg_nonneg; lia).
    assert (H2 : (k * P ≤ 9 * P)%Z) by (apply Z.mul_le_mono_nonneg_r; lia).
    replace ((a * 10 + k) * P)%Z with (a * (10 * P) + k * P)%Z in IH by ring.
    replace ((a * 10 + k + 1) * P)%Z with (a * (10 * P) + k * P + P)%Z in IH by ring.
    replace ((a + 1) * (10 * P))%Z with (a * (10 * P) + 10 * P)%Z by ring.
    lia.
Qed.

(** The text [json.dumps] writes for the number a run of digits denotes is
    not longer than the run. *)
Lemma digits_of_value (ds : str) :
  forallb isdigit_ascii ds = true → ds ≠ [] →
  (length (str_of_N (Z.to_N (Z_of_digits ds))) ≤ length ds)%nat.
Proof.
  intros Hdig Hne.
  destruct (digits_value_bound ds Hdig 0%Z ltac:(lia)) as [Hlo Hhi].
  change (fold_left digit_step ds 0%Z) with (Z_of_digits ds) in Hlo, Hhi.
  set (n := Z.to_N (Z_of_digits ds)).
  assert (Hn : Z.of_N n = Z_of_digits ds) by (unfold n; rewrite Z2N.id; lia).
  destruct (str_of_N_spec n) as (c & t & Hs & Hd & Hpos & Hzero & Hval). rewrite Hs.
  destruct (N.eq_dec n 0) as [H0 | H0].
  - destruct (Hzero H0) as [-> _]. destruct ds; [contradiction | cbn [length]; lia].
  - specialize (Hpos ltac:(lia)).
    cbn [forallb] in Hd. apply andb_true_iff in Hd as [_ Ht].
    pose proof (digits_value_bound t Ht (Z.of_N (c - 48)) ltac:(lia)) as [Hlo' _].
    change (fold_left digit_step t (Z.of_N (c - 48)))
      with (fold_left digit_step (c :: t) 0%Z) in Hlo'.
    change (fold_left digit_step (c :: t) 0%Z) with (Z_of_digits (c :: t)) in Hlo'.
    rewrite Hval, Hn in Hlo'.
    assert (Hc : (1 ≤ Z.of_N (c - 48))%Z).
    { unfold in_range in Hpos. apply andb_true_iff in Hpos as [H1 H2].
      apply N.leb_le in H1, H2. lia. }
    assert (Hlt : (10 ^ Z.of_nat (length t) < 10 ^ Z.of_nat (length ds))%Z).
    { assert (Hp : (0 < 10 ^ Z.of_nat (length t))%Z) by (apply Z.pow_pos_nonneg; lia).
      revert Hlo' Hhi Hc Hp. generalize (10 ^ Z.of_nat (length t))%Z
        (10 ^ Z.of_nat (length ds))%Z (Z.of_N (c - 48)) (Z_of_digits ds). clear.
      intros A B k V Hlo Hhi Hc Hp.
      assert (H1 : (1 * A ≤ k * A)%Z) by (apply Z.mul_le_mono_nonneg_r; lia).
      lia. }
    apply Z.pow_lt_mono_r_iff in Hlt; [| lia | lia]. cbn [length]. lia.
Qed.

Lemma too_many_digits_mono (m n : nat) :
  (m ≤ n)%nat → too_many_digits n = false → too_many_digits m = false.
Proof.
  unfold too_many_digits. intros Hle Hn.
  destruct (Nat.ltb_spec INT_DIGITS_THRESHOLD m) as [H1 | H1]; [| reflexivity].
  destruct (Nat.ltb_spec 0 int_max_str_digits) as [H2 | H2]; [| reflexivity].
  destruct (Nat.ltb_spec int_max_str_digits m) as [H3 | H3]; [| reflexivity].
  exfalso. revert Hn.
  replace (Nat.ltb INT_DIGITS_THRESHOLD n) with true by (symmetry; apply Nat.ltb_lt; lia).
  replace (Nat.ltb 0 int_max_str_digits) with true by (symmetry; apply Nat.ltb_lt; lia).
  replace (Nat.ltb int_max_str_digits n) with true by (symmetry; apply Nat.ltb_lt; lia).
  discriminate.
Qed.

(** ** Strings *)

Lemma hex_digit_val (k : N) : k < 16 → hex_val (hex_digit k) = Some k.
Proof.
  intros Hk. unfold hex_digit, hex_val, in_range.
  destruct (N.ltb_spec k 10) as [Hlt | Hge].
  - replace (48 <=? 48 + k) with true by (symmetry; apply N.leb_le; lia).
    replace (48 + k <=? 57) with true by (symmetry; apply N.leb_le; lia).
    cbn [andb]. f_equal. lia.
  - replace (87 + k <=? 57) with false by (symmetry; apply N.leb_gt; lia).
    rewrite andb_false_r.
    replace (97 <=? 87 + k) with true by (symmetry; apply N.leb_le; lia).
    replace (87 + k <=? 102) with true by (symmetry; apply N.leb_le; lia).
    cbn [andb]. f_equal. lia.
Qed.

Lemma surrogate_pair_low (u : N) (s : str) :
  is_high_surrogate u = false → surrogate_pair u s = None.
Proof.
  intros Hu. unfold surrogate_pair.
  destruct s as [| b [| u' [| g1 [| g2 [| g3 [| g4 s4]]]]]]; try reflexivity.
  destruct (hex4 g1 g2 g3 g4); [| reflexivity]. rewrite Hu. reflexivity.
Qed.

Lemma escape_char_scans (c : char) (s : str) :
  scanstring (escape_char c ++ s) = push c (scanstring s).
Proof.
  unfold escape_char.
  destruct (N.eqb_spec c DQUOTE) as [-> | H1]; [apply scanstring_esc; reflexivity |].
  destruct (N.eqb_spec c BACKSLASH) as [-> | H2]; [apply scanstring_esc; reflexivity |].
  destruct (N.eqb_spec c LF) as [-> | H3]; [apply scanstring_esc; reflexivity |].
  destruct (N.eqb_spec c CR) as [-> | H4]; [apply scanstring_esc; reflexivity |].
  destruct (N.eqb_spec c TAB) as [-> | H5]; [apply scanstring_esc; reflexivity |].
  destruct (N.eqb_spec c 8) as [-> | H6]; [apply scanstring_esc; reflexivity |].
  destruct (N.eqb_spec c 12) as [-> | H7]; [apply scanstring_esc; reflexivity |].
  destruct (N.leb_spec c 31) as [Hle | Hgt].
  - assert (Hdiv : c / 16 < 16) by (apply N.Div0.div_lt_upper_bound; lia).
    assert (Hmod : c mod 16 < 16) by (apply N.mod_lt; lia).
    assert (Hh : hex4 48 48 (hex_digit (c / 16)) (hex_digit (c mod 16)) = Some c).
    { unfold hex4. change (hex_val 48) with (Some 0).
      rewrite (hex_digit_val _ Hdiv), (hex_digit_val _ Hmod). f_equal.
      pose proof (N.div_mod c 16 ltac:(lia)) as Hdm.
      revert Hdm. generalize (c / 16) (c mod 16). clear. intros. lia. }
    change ([BACKSLASH; 117; 48; 48; hex_digit (c / 16); hex_digit (c mod 16)] ++ s)
      with ([BACKSLASH; 117; 48; 48; hex_digit (c / 16); hex_digit (c mod 16)] ++ s).
    rewrite (scanstring_u4 _ _ _ _ _ s Hh), surrogate_pair_low; [reflexivity |].
    unfold is_high_surrogate, in_range.
    replace (55296 <=? c) with false by (symmetry; apply N.leb_gt; lia). reflexivity.
  - cbn [app]. rewrite scanstring_cons.
    apply N.eqb_neq in H1, H2. apply N.leb_gt in Hgt. rewrite H1, H2, Hgt. reflexivity.
Qed.

Lemma encoded_string_scans (s x : str) :
  scanstring (flat_map escape_char s ++ DQUOTE :: x) = Some (s, x).
Proof.
  induction s as [| c s IH]; [reflexivity |].
  cbn [flat_map]. rewrite <- app_assoc, escape_char_scans, IH. reflexivity.
Qed.

Lemma encode_str_scans (s x : str) (f d : nat) :
  scan_value (S f) d (encode_str s ++ x) = Ret (JStr s, x).
Proof.
  unfold encode_str. cbn [app]. rewrite scan_value_str, <- app_assoc.
  cbn [app]. rewrite encoded_string_scans. reflexivity.
Qed.

(** ** Objects: keys that are new *)

Lemma keys_distinct_fresh (acc : list (str * json)) (k : str) (rest : list str) :
  keys_distinct (map fst acc ++ k :: rest) = true →
  Forall (λ p, str_eqb (fst p) k = false) acc.
Proof.
  induction acc as [| [k0 v0] acc IH]; [constructor |].
  cbn [map app keys_distinct fst]. intros [Hk0 Hrest]%andb_true_iff.
  constructor; [| apply IH, Hrest].
  apply negb_true_iff in Hk0. rewrite existsb_app in Hk0.
  apply orb_false_iff in Hk0 as [_ Hk0]. cbn [existsb] in Hk0.
  apply orb_false_iff in Hk0 as [Hk0 _]. exact Hk0.
Qed.

Lemma dict_set_fresh (k : str) (v : json) (acc : list (str * json)) :
  Forall (λ p, str_eqb (fst p) k = false) acc → dict_set k v acc = acc ++ [(k, v)].
Proof.
  induction 1 as [| [k0 v0] acc Hk0 Hacc IH]; [reflexivity |].
  cbn [dict_set app]. cbn [fst] in Hk0. rewrite Hk0, IH. reflexivity.
Qed.

Lemma skip_ws_nonblank (s : str) :
  match s with c :: _ => is_ws c = false | [] => True end → skip_ws s = s.
Proof. intros Hs. exact (skip_ws_app [] s eq_refl Hs). Qed.

Lemma scan_value_arr_elements (f d : nat) (c : char) (t : str) :
  is_ws c = false → c ≠ RBRACKET → too_deep (S d) = false →
  scan_value (S f) d (LBRACKET :: c :: t) = scan_elements f (S d) (c :: t) [].
Proof.
  intros Hc Hb Hd. rewrite scan_value_arr, Hd. cbn [skip_ws]. rewrite Hc.
  apply N.eqb_neq in Hb. rewrite Hb. reflexivity.
Qed.

Lemma scan_value_obj_members (f d : nat) (c : char) (t : str) :
  is_ws c = false → c ≠ RBRACE → too_deep (S d) = false →
  scan_value (S f) d (LBRACE :: c :: t) = scan_members f (S d) (c :: t) [].
Proof.
  intros Hc Hb Hd. rewrite scan_value_obj, Hd. cbn [skip_ws]. rewrite Hc.
  apply N.eqb_neq in Hb. rewrite Hb. reflexivity.
Qed.

(** ** [json.dumps] read back *)

Lemma dumps_head (v : json) :
  float_free v = true →
  ∃ c t, dumps v = c :: t ∧ is_ws c = false ∧ c ≠ RBRACKET ∧ c ≠ RBRACE.
Proof.
  destruct v as [| [|] | z | lx | s | l | kv]; intros Hff; try discriminate Hff;
    try (eexists _, _; split; [reflexivity |]; repeat split; discriminate).
  destruct z as [| p | p]; cbn [dumps str_of_Z].
  - eexists _, _; split; [reflexivity |]; repeat split; discriminate.
  - destruct (str_of_N_spec (Npos p)) as (c & t & -> & Hdig & _).
    cbn [forallb] in Hdig. apply andb_true_iff in Hdig as [Hc _].
    exists c, t. split; [reflexivity |].
    repeat split; try (intros ->; discriminate Hc).
    destruct (is_ws c) eqn:E; [| reflexivity].
    unfold is_ws in E. rewrite !orb_true_iff, !N.eqb_eq in E.
    destruct E as [[[-> | ->] | ->] | ->]; discriminate Hc.
  - eexists _, _; split; [reflexivity |]; repeat split; discriminate.
Qed.

Lemma join_cons2 (sep x y : str) (l : list str) :
  join sep (x :: y :: l) = x ++ sep ++ join sep (y :: l).
Proof. reflexivity. Qed.

Lemma join_head (sep : str) (d : str) (l : list str) (c : char) (t : str) :
  d = c :: t → ∃ t', join sep (d :: l) = c :: t'.
Proof.
  intros ->. destruct l as [| y l]; [exists t; reflexivity |].
  rewrite join_cons2. eexists. reflexivity.
Qed.

Lemma elements_read_back (l : list json) :
  Forall reads_back l → forallb float_free l = true → forallb distinct_keys l = true →
  l ≠ [] →
  ∀ d acc x f, forallb (within_limits d) l = true →
    (2 * length (join (s2u ", ") (map dumps l)) + 1 ≤ f)%nat →
    scan_elements f d (join (s2u ", ") (map dumps l) ++ RBRACKET :: x) acc
    = Ret (JArr (rev acc ++ l), x).
Proof.
  induction 1 as [| v l Hv Hl IH]; intros Hff Hdk Hne d acc x f Hwl Hf; [contradiction |].
  cbn [forallb] in Hff, Hdk, Hwl.
  apply andb_true_iff in Hff as [Hffv Hffl]. apply andb_true_iff in Hdk as [Hdkv Hdkl].
  apply andb_true_iff in Hwl as [Hwv Hwl].
  destruct f as [| f]; [lia |]. rewrite scan_elements_S.
  destruct l as [| v' l'].
  - cbn [map join] in *.
    rewrite (Hv Hffv Hdkv d (RBRACKET :: x) f Hwv) by (first [reflexivity | lia]).
    cbn [skip_ws]. change (is_ws RBRACKET) with false. cbv iota.
    change (N.eqb RBRACKET RBRACKET) with true. cbv iota.
    cbn [rev]. reflexivity.
  - cbn [map] in *. rewrite join_cons2 in *. rewrite <- !app_assoc.
    rewrite length_app, length_app in Hf. change (length (s2u ", ")) with 2%nat in Hf.
    rewrite (Hv Hffv Hdkv d _ f Hwv) by (first [reflexivity | lia]).
    change (s2u ", " ++ ?y) with (COMMA :: SPACE :: y).
    cbn [skip_ws]. change (is_ws COMMA) with false. cbv iota.
    change (N.eqb COMMA RBRACKET) with false. change (N.eqb COMMA COMMA) with true.
    cbv iota. cbn [skip_ws]. change (is_ws SPACE) with true. cbv iota.
    destruct (dumps_head v') as (c & t & Hd & Hc & _);
      [cbn [forallb] in Hffl; apply andb_true_iff in Hffl; tauto |].
    destruct (join_head (s2u ", ") (dumps v') (map dumps l') c t Hd) as (t' & Hj).
    rewrite skip_ws_nonblank by (rewrite Hj; exact Hc).
    cbn [app].
    rewrite (IH Hffl Hdkl ltac:(discriminate) d (v :: acc) x f Hwl) by lia.
    cbn [rev]. rewrite <- app_assoc. reflexivity.
Qed.

Lemma members_read_back (kv : list (str * json)) :
  Forall (λ p, reads_back (snd p)) kv →
  forallb (λ p, float_free (snd p)) kv = true →
  forallb (λ p, distinct_keys (snd p)) kv = true →
  kv ≠ [] →
  ∀ d acc x f, forallb (λ p, within_limits d (snd p)) kv = true →
    keys_distinct (map fst (acc ++ kv)) = true →
    (2 * length (join (s2u ", ") (map member_text kv)) + 1 ≤ f)%nat →
    scan_members f d (join (s2u ", ") (map member_text kv) ++ RBRACE :: x) acc
    = Ret (JObj (acc ++ kv), x).
Proof.
  induction 1 as [| [k v] kv Hv Hkv IH]; intros Hff Hdk Hne d acc x f Hwl Hkeys Hf;
    [contradiction |].
  cbn [forallb snd] in Hff, Hdk, Hwl. cbn [snd] in Hv.
  apply andb_true_iff in Hff as [Hffv Hffl]. apply andb_true_iff in Hdk as [Hdkv Hdkl].
  apply andb_true_iff in Hwl as [Hwv Hwl].
  destruct f as [| f]; [lia |].
  assert (Hset : dict_set k v acc = acc ++ [(k, v)]).
  { apply dict_set_fresh. rewrite map_app in Hkeys. cbn [map fst] in Hkeys.
    exact (keys_distinct_fresh acc k _ Hkeys). }
  assert (Hlen : (length (member_text (k, v)) = length (flat_map escape_char k) + 4
                                               + length (dumps v))%nat).
  { unfold member_text, encode_str.
    repeat first [rewrite length_app | progress cbn [length app fst snd]].
    change (length (s2u ": ")) with 2%nat. lia. }
  assert (Hstart : ∀ y, member_text (k, v) ++ y
            = DQUOTE :: (flat_map escape_char k ++ DQUOTE :: (COLON :: SPACE :: dumps v ++ y))).
  { intros y. unfold member_text, encode_str. cbn [fst snd].
    rewrite <- !app_assoc. cbn [app]. rewrite <- app_assoc. reflexivity. }
  destruct (dumps_head v Hffv) as (c & t & Hd & Hc & _).
  assert (Hskip : ∀ y, skip_ws (SPACE :: dumps v ++ y) = dumps v ++ y).
  { intros y. cbn [skip_ws]. change (is_ws SPACE) with true. cbv iota.
    apply skip_ws_nonblank. rewrite Hd. exact Hc. }
  destruct kv as [| p' kv'].
  - cbn [map join] in *. rewrite Hstart, scan_members_S, encoded_string_scans.
    cbn [skip_ws]. change (is_ws COLON) with false. cbv iota.
    change (N.eqb COLON COLON) with true. cbv iota.
    rewrite Hskip, (Hv Hffv Hdkv d (RBRACE :: x) f Hwv) by (first [reflexivity | lia]).
    cbn [skip_ws]. change (is_ws RBRACE) with false. cbv iota.
    change (N.eqb RBRACE RBRACE) with true. cbv iota.
    rewrite Hset. reflexivity.
  - cbn [map] in *. rewrite join_cons2 in *. rewrite <- !app_assoc.
    rewrite length_app, length_app in Hf. change (length (s2u ", ")) with 2%nat in Hf.
    rewrite Hstart, scan_members_S, encoded_string_scans.
    cbn [skip_ws]. change (is_ws COLON) with false. cbv iota.
    change (N.eqb COLON COLON) with true. cbv iota.
    rewrite Hskip, (Hv Hffv Hdkv d _ f Hwv) by (first [reflexivity | lia]).
    change (s2u ", " ++ ?y) with (COMMA :: SPACE :: y).
    cbn [skip_ws]. change (is_ws COMMA) with false. cbv iota.
    change (N.eqb COMMA RBRACE) with false. change (N.eqb COMMA COMMA) with true.
    cbv iota. cbn [skip_ws]. change (is_ws SPACE) with true. cbv iota.
    assert (Hnext : ∃ t', join (s2u ", ") (member_text p' :: map member_text kv')
                          = DQUOTE :: t').
    { apply (join_head _ _ _ DQUOTE (flat_map escape_char (fst p') ++ [DQUOTE]
                                       ++ s2u ": " ++ dumps (snd p'))).
      unfold member_text, encode_str. cbn [app]. rewrite <- !app_assoc. reflexivity. }
    destruct Hnext as (t' & Hj).
    rewrite skip_ws_nonblank by (rewrite Hj; reflexivity).
    cbn [app]. rewrite Hset.
    rewrite (IH Hffl Hdkl ltac:(discriminate) d (acc ++ [(k, v)]) x f Hwl);
      [rewrite <- app_assoc; reflexivity | rewrite <- app_assoc; exact Hkeys | lia].
Qed.

Lemma dumps_reads_back (v : json) : reads_back v.
Proof.
  induction v as [| b | z | lx | s | l IHl | kv IHkv] using json_induction;
    intros Hff Hdk d x f Hwl Hx Hf.
  - destruct f as [| f]; [cbn in Hf; lia |]. reflexivity.
  - destruct f as [| f]; [destruct b; cbn in Hf; lia |]. destruct b; reflexivity.
  - destruct (dumps_head (JInt z) eq_refl) as (c & t & Hd & Hc & _).
    destruct f as [| f]; [rewrite Hd in Hf; cbn in Hf; lia |].
    cbn [dumps] in *. rewrite Hd. cbn [app].
    assert (Hz : c ≠ DQUOTE ∧ c ≠ LBRACE ∧ c ≠ LBRACKET).
    { pose proof (int_text_parses z []) as Hp. rewrite app_nil_r, Hd in Hp.
      specialize (Hp I). destruct (scan_scalar_local _ _ _ Hp) as (pre & Hpre & _ & Hs & _).
      rewrite app_nil_r in Hpre. subst pre.
      destruct Hs as (c' & t' & [= <- <-] & Hs). exact Hs. }
    rewrite scan_value_scalar by tauto.
    change (c :: t ++ x) with ((c :: t) ++ x). rewrite <- Hd.
    apply int_text_scans; [exact Hx |].
    cbn [within_limits] in Hwl. apply negb_true_iff, Hwl.
  - discriminate Hff.
  - destruct f as [| f]; [cbn in Hf; lia |]. apply encode_str_scans.
  - cbn [float_free distinct_keys] in Hff, Hdk.
    cbn [within_limits] in Hwl. apply andb_true_iff in Hwl as [Hdeep Hwl].
    apply negb_true_iff in Hdeep.
    destruct f as [| f]; [cbn in Hf; lia |].
    cbn [dumps]. cbn [app].
    destruct l as [| v l]; [rewrite scan_value_arr, Hdeep; reflexivity |].
    destruct (dumps_head v) as (c & t & Hd & Hc & Hnb & _);
      [cbn [forallb] in Hff; apply andb_true_iff in Hff; tauto |].
    destruct (join_head (s2u ", ") (dumps v) (map dumps l) c t Hd) as (t' & Hj).
    assert (Hbody : ∃ t2, (join (s2u ", ") (map dumps (v :: l)) ++ [RBRACKET]) ++ x = c :: t2)
      by (cbn [map]; rewrite Hj; eexists; reflexivity).
    destruct Hbody as (t2 & Hbody). rewrite Hbody.
    rewrite (scan_value_arr_elements f d c t2 Hc Hnb Hdeep), <- Hbody, <- app_assoc.
    change ([RBRACKET] ++ x) with (RBRACKET :: x).
    rewrite (elements_read_back (v :: l) IHl Hff Hdk ltac:(discriminate) (S d) [] x f Hwl);
      [reflexivity |].
    cbn [dumps length] in Hf. rewrite length_app in Hf. cbn [map length] in Hf.
    cbn [map]. lia.
  - cbn [float_free distinct_keys] in Hff, Hdk. apply andb_true_iff in Hdk as [Hkeys Hdk].
    cbn [within_limits] in Hwl. apply andb_true_iff in Hwl as [Hdeep Hwl].
    apply negb_true_iff in Hdeep.
    destruct f as [| f]; [cbn in Hf; lia |].
    cbn [dumps]. cbn [app].
    destruct kv as [| p kv]; [rewrite scan_value_obj, Hdeep; reflexivity |].
    change (map (λ p0, encode_str (fst p0) ++ s2u ": " ++ dumps (snd p0)) (p :: kv))
      with (map member_text (p :: kv)) in *.
    assert (Hnext : ∃ t', join (s2u ", ") (map member_text (p :: kv)) = DQUOTE :: t').
    { cbn [map].
      apply (join_head _ _ _ DQUOTE (flat_map escape_char (fst p) ++ [DQUOTE]
                                       ++ s2u ": " ++ dumps (snd p))).
      unfold member_text, encode_str. cbn [app]. rewrite <- !app_assoc. reflexivity. }
    destruct Hnext as (t' & Hj).
    assert (Hbody : ∃ t2, (join (s2u ", ") (map member_text (p :: kv)) ++ [RBRACE]) ++ x
                          = DQUOTE :: t2)
      by (rewrite Hj; eexists; reflexivity).
    destruct Hbody as (t2 & Hbody). rewrite Hbody.
    rewrite (scan_value_obj_members f d DQUOTE t2 eq_refl ltac:(discriminate) Hdeep),
      <- Hbody, <- app_assoc.
    change ([RBRACE] ++ x) with (RBRACE :: x).
    rewrite (members_read_back (p :: kv) IHkv Hff Hdk ltac:(discriminate) (S d) [] x f Hwl);
      [reflexivity | exact Hkeys |].
    cbn [dumps length] in Hf. rewrite length_app in Hf. cbn [length] in Hf.
    change (map (λ p0, encode_str (fst p0) ++ s2u ": " ++ dumps (snd p0)) (p :: kv))
      with (map member_text (p :: kv)) in Hf. lia.
Qed.

(** What [json.dumps] writes for a value without floats and within the
    limits, [json.loads] reads back as that value. *)
Lemma loads_dumps (v : json) :
  float_free v = true → distinct_keys v = true → within_limits 0 v = true →
  loads (dumps v) = Ret v.
Proof.
  intros Hff Hdk Hwl. unfold loads.
  destruct (dumps_head v Hff) as (c & t & Hd & Hc & _).
  rewrite skip_ws_nonblank by (rewrite Hd; exact Hc).
  pose proof (dumps_reads_back v Hff Hdk 0%nat [] (2 * length (dumps v) + 2)%nat
                Hwl I ltac:(lia)) as Hp.
  rewrite app_nil_r in Hp. rewrite Hp. reflexivity.
Qed.

(** ** What [json.loads] returns has no repeated key *)

Lemma dict_set_keys_exist (P : str → bool) (k : str) (v : json) (acc : list (str * json)) :
  existsb P (map fst (dict_set k v acc)) = true →
  existsb P (map fst acc) = true ∨ P k = true.
Proof.
  induction acc as [| [k0 v0] acc IH]; cbn [dict_set map fst existsb].
  - rewrite orb_false_r. auto.
  - destruct (str_eqb k0 k); cbn [map fst existsb]; [auto |].
    intros [H | H]%orb_true_iff; [rewrite H; auto |].
    destruct (IH H) as [H' | H']; [rewrite H', orb_true_r; auto | auto].
Qed.

Lemma dict_set_keys_distinct (k : str) (v : json) (acc : list (str * json)) :
  keys_distinct (map fst acc) = true → keys_distinct (map fst (dict_set k v acc)) = true.
Proof.
  induction acc as [| [k0 v0] acc IH]; [reflexivity |].
  cbn [dict_set map fst keys_distinct]. intros [Hk0 Hacc]%andb_true_iff.
  destruct (str_eqb k0 k) eqn:E; cbn [map fst keys_distinct].
  - rewrite Hk0, Hacc. reflexivity.
  - rewrite (IH Hacc), andb_true_r. apply negb_true_iff.
    destruct (existsb (str_eqb k0) (map fst (dict_set k v acc))) eqn:Hex; [| reflexivity].
    apply dict_set_keys_exist in Hex as [Hex | Hex].
    + apply negb_true_iff in Hk0. congruence.
    + congruence.
Qed.

Lemma dict_set_values (Q : json → bool) (k : str) (v : json) (acc : list (str * json)) :
  Q v = true → forallb (λ p, Q (snd p)) acc = true →
  forallb (λ p, Q (snd p)) (dict_set k v acc) = true.
Proof.
  intros Hv. induction acc as [| [k0 v0] acc IH]; cbn [dict_set forallb snd].
  - intros _. rewrite Hv. reflexivity.
  - intros [H0 Hacc]%andb_true_iff.
    destruct (str_eqb k0 k); cbn [forallb snd].
    + rewrite Hv, Hacc. reflexivity.
    + rewrite H0, (IH Hacc). reflexivity.
Qed.

Lemma scan_scalar_keys (s : str) (v : json) (r : str) :
  scan_scalar s = Some (v, r) → distinct_keys v = true.
Proof.
  unfold scan_scalar, match_number.
  repeat match goal with
         | |- context [if ?b then _ else _] => destruct b
         end; try (intros [= <- _]; reflexivity).
  destruct (scan_int s) as [[[neg ds] r1] |]; [| discriminate].
  destruct (scan_frac r1) as [fr r2]. destruct (scan_exp r2) as [ex r3].
  destruct fr, ex; intros [= <- _]; reflexivity.
Qed.

Lemma value_keys_step (f : nat) : elements_keys f → members_keys f → value_keys (S f).
Proof.
  intros He Hm s v r H.
  destruct s as [| c s1]; [discriminate H |].
  destruct (N.eqb_spec c DQUOTE) as [-> | Hq].
  { rewrite parse_value_str in H.
    destruct (scanstring s1) as [[k r0] |]; [| discriminate H].
    injection H as <- <-. reflexivity. }
  destruct (N.eqb_spec c LBRACE) as [-> | Hlb].
  { rewrite parse_value_obj in H.
    destruct (skip_ws s1) as [| c2 s2]; [discriminate H |].
    destruct (N.eqb c2 RBRACE); [injection H as <- <-; reflexivity |].
    exact (Hm _ _ _ _ H eq_refl eq_refl). }
  destruct (N.eqb_spec c LBRACKET) as [-> | Hlk].
  { rewrite parse_value_arr in H.
    destruct (skip_ws s1) as [| c2 s2]; [discriminate H |].
    destruct (N.eqb c2 RBRACKET); [injection H as <- <-; reflexivity |].
    exact (He _ _ _ _ H eq_refl). }
  rewrite parse_value_scalar in H by assumption.
  exact (scan_scalar_keys _ _ _ H).
Qed.

Lemma elements_keys_step (f : nat) : value_keys f → elements_keys f → elements_keys (S f).
Proof.
  intros Hv He s acc v r H Hacc. rewrite parse_elements_S in H.
  destruct (parse_value f s) as [[v1 r0] |] eqn:Hp; [| discriminate H].
  pose proof (Hv _ _ _ Hp) as Hv1.
  destruct (skip_ws r0) as [| c r1]; [discriminate H |].
  destruct (N.eqb c RBRACKET).
  - injection H as <- <-. cbn [distinct_keys].
    apply (forallb_rev_true distinct_keys (v1 :: acc)).
    cbn [forallb]. rewrite Hv1, Hacc. reflexivity.
  - destruct (N.eqb c COMMA); [| discriminate H].
    apply (He _ _ _ _ H). cbn [forallb]. rewrite Hv1, Hacc. reflexivity.
Qed.

Lemma members_keys_step (f : nat) : value_keys f → members_keys f → members_keys (S f).
Proof.
  intros Hv Hm s acc v r H Hkeys Hvals.
  destruct s as [| q s1]; [discriminate H |].
  destruct (N.eqb_spec q DQUOTE) as [-> | Hq];
    [| cbn [parse_members] in H; apply N.eqb_neq in Hq; rewrite Hq in H; discriminate H].
  rewrite parse_members_S in H.
  destruct (scanstring s1) as [[key r0] |]; [| discriminate H].
  destruct (skip_ws r0) as [| c r1]; [discriminate H |].
  destruct (N.eqb c COLON); [| discriminate H].
  destruct (parse_value f (skip_ws r1)) as [[v1 r2] |] eqn:Hp; [| discriminate H].
  pose proof (Hv _ _ _ Hp) as Hv1.
  destruct (skip_ws r2) as [| d r3]; [discriminate H |].
  destruct (N.eqb d RBRACE).
  - injection H as <- <-. cbn [distinct_keys].
    rewrite (dict_set_keys_distinct key v1 acc Hkeys).
    rewrite (dict_set_values distinct_keys key v1 acc Hv1 Hvals). reflexivity.
  - destruct (N.eqb d COMMA); [| discriminate H].
    apply (Hm _ _ _ _ H);
      [apply dict_set_keys_distinct, Hkeys | apply dict_set_values; assumption].
Qed.

Lemma parsers_keys (f : nat) : value_keys f ∧ elements_keys f ∧ members_keys f.
Proof.
  induction f as [| f (Hv & He & Hm)].
  - repeat split; intros ? **; discriminate.
  - split; [apply value_keys_step; assumption |].
    split; [apply elements_keys_step | apply members_keys_step]; assumption.
Qed.

Lemma loads_distinct_keys (s : str) (v : json) : loads s = Ret v → distinct_keys v = true.
Proof.
  intros (r & Hp & _)%loads_parse.
  destruct (parsers_keys (2 * length s + 2)) as (Hv & _). exact (Hv _ _ _ Hp).
Qed.

(** ** What [json.loads] returns is within the limits *)

Lemma scan_int_all_digits (s : str) (neg : bool) (ds r1 : str) :
  scan_int s = Some (neg, ds, r1) → forallb isdigit_ascii ds = true ∧ ds ≠ [].
Proof.
  assert (Hbody : ∀ neg0 s0,
            match s0 with
            | c :: s2 =>
                if N.eqb c 48 then Some (neg0, [c], s2)
                else if in_range 49 57 c then
                  let (d, r) := span_digits s2 in Some (neg0, c :: d, r)
                else None
            | [] => None
            end = Some (neg, ds, r1) →
            forallb isdigit_ascii ds = true ∧ ds ≠ []).
  { intros neg0 s0 Hb.
    assert (Hn : neg0 = neg).
    { destruct s0 as [| c s2]; [discriminate |].
      destruct (N.eqb c 48); [congruence |].
      destruct (in_range 49 57 c); [| discriminate].
      destruct (span_digits s2). congruence. }
    subst neg0.
    destruct (scan_int_digits _ _ _ _ Hb) as (_ & Hd & (c0 & t0 & ->) & _).
    split; [exact Hd | discriminate]. }
  unfold scan_int. destruct s as [| c s']; [discriminate |].
  destruct (N.eqb c 45); [exact (Hbody true s') | exact (Hbody false (c :: s'))].
Qed.

Lemma scan_scalar_flat (s : str) (v : json) (r : str) :
  scan_scalar s = Some (v, r) →
  match v with JArr _ | JObj _ => False | _ => True end.
Proof.
  unfold scan_scalar, match_number.
  repeat match goal with
         | |- context [if ?b then _ else _] => destruct b
         end; try (intros [= <- _]; exact I).
  destruct (scan_int s) as [[[neg ds] r1] |]; [| discriminate].
  destruct (scan_frac r1) as [fr r2]. destruct (scan_exp r2) as [ex r3].
  destruct fr, ex; intros [= <- _]; exact I.
Qed.

Lemma scan_token_within (d : nat) (s : str) (v : json) (r : str) :
  scan_token s = Ret (v, r) → within_limits d v = true.
Proof.
  unfold scan_token. destruct (scan_scalar s) as [[v0 r0] |] eqn:Hs; [| discriminate].
  pose proof (scan_scalar_flat s v0 r0 Hs) as Hflat.
  destruct v0; try contradiction; try (intros [= <- _]; reflexivity).
  destruct (too_many_digits (int_digits s)) eqn:Hd; [discriminate |].
  intros [= <- _]. cbn [within_limits]. apply negb_true_iff.
  apply scalar_int_number in Hs. unfold match_number in Hs.
  unfold int_digits in Hd.
  destruct (scan_int s) as [[[neg ds] r1] |] eqn:Hi; [| discriminate].
  destruct (scan_frac r1) as [fr r2]. destruct (scan_exp r2) as [ex r3].
  destruct fr; [| destruct ex; discriminate]. destruct ex; [| discriminate].
  injection Hs as Hz _.
  destruct (scan_int_all_digits s neg ds r1 Hi) as [Hdig Hne].
  apply (too_many_digits_mono _ (length ds)); [| exact Hd].
  pose proof (digits_of_value ds Hdig Hne) as Hle.
  pose proof (digits_value_bound ds Hdig 0%Z ltac:(lia)) as [Hlo _].
  change (fold_left digit_step ds 0%Z) with (Z_of_digits ds) in Hlo.
  unfold digits. replace (Z.abs_N z) with (Z.to_N (Z_of_digits ds)); [exact Hle |].
  subst z. destruct neg; lia.
Qed.

Lemma value_within_step (f : nat) :
  elements_within f → members_within f → value_within (S f).
Proof.
  intros He Hm d s v r. destruct s as [| c s1]; [discriminate |].
  destruct (N.eqb_spec c DQUOTE) as [-> | Hq].
  { rewrite scan_value_str. destruct (scanstring s1) as [[k r0] |]; [| discriminate].
    intros [= <- _]. reflexivity. }
  destruct (N.eqb_spec c LBRACE) as [-> | Hlb].
  { rewrite scan_value_obj. destruct (too_deep (S d)) eqn:Hd; [discriminate |].
    destruct (skip_ws s1) as [| c2 s2]; [discriminate |].
    destruct (N.eqb c2 RBRACE).
    - intros [= <- _]. cbn [within_limits forallb]. rewrite Hd. reflexivity.
    - intros Hs. destruct (Hm _ _ _ _ _ Hs eq_refl) as (kv & -> & Hkv).
      cbn [within_limits]. rewrite Hd, Hkv. reflexivity. }
  destruct (N.eqb_spec c LBRACKET) as [-> | Hlk].
  { rewrite scan_value_arr. destruct (too_deep (S d)) eqn:Hd; [discriminate |].
    destruct (skip_ws s1) as [| c2 s2]; [discriminate |].
    destruct (N.eqb c2 RBRACKET).
    - intros [= <- _]. cbn [within_limits forallb]. rewrite Hd. reflexivity.
    - intros Hs. destruct (He _ _ _ _ _ Hs eq_refl) as (l & -> & Hl).
      cbn [within_limits]. rewrite Hd, Hl. reflexivity. }
  rewrite scan_value_scalar by assumption. apply scan_token_within.
Qed.

Lemma elements_within_step (f : nat) :
  value_within f → elements_within f → elements_within (S f).
Proof.
  intros Hv He d s acc v r. rewrite scan_elements_S.
  destruct (scan_value f d s) as [[v1 r0] | e] eqn:Hs; [| discriminate].
  pose proof (Hv _ _ _ _ Hs) as Hv1.
  destruct (skip_ws r0) as [| c r1]; [discriminate |].
  destruct (N.eqb c RBRACKET).
  - intros [= <- _] Hacc. eexists. split; [reflexivity |].
    apply (forallb_rev_true (within_limits d) (v1 :: acc)).
    cbn [forallb]. rewrite Hv1, Hacc. reflexivity.
  - destruct (N.eqb c COMMA); [| discriminate].
    intros H Hacc. apply (He _ _ _ _ _ H). cbn [forallb]. rewrite Hv1, Hacc. reflexivity.
Qed.

Lemma members_within_step (f : nat) :
  value_within f → members_within f → members_within (S f).
Proof.
  intros Hv Hm d s acc v r.
  destruct s as [| q s1]; [discriminate |].
  destruct (N.eqb_spec q DQUOTE) as [-> | Hq];
    [| cbn [scan_members]; apply N.eqb_neq in Hq; rewrite Hq; discriminate].
  rewrite scan_members_S.
  destruct (scanstring s1) as [[key r0] |]; [| discriminate].
  destruct (skip_ws r0) as [| c r1]; [discriminate |].
  destruct (N.eqb c COLON); [| discriminate].
  destruct (scan_value f d (skip_ws r1)) as [[v1 r2] | e] eqn:Hs; [| discriminate].
  pose proof (Hv _ _ _ _ Hs) as Hv1.
  destruct (skip_ws r2) as [| c3 r3]; [discriminate |].
  destruct (N.eqb c3 RBRACE).
  - intros [= <- _] Hacc. eexists. split; [reflexivity |].
    exact (dict_set_values (within_limits d) key v1 acc Hv1 Hacc).
  - destruct (N.eqb c3 COMMA); [| discriminate].
    intros H Hacc. apply (Hm _ _ _ _ _ H).
    exact (dict_set_values (within_limits d) key v1 acc Hv1 Hacc).
Qed.

Lemma scanners_within (f : nat) : value_within f ∧ elements_within f ∧ members_within f.
Proof.
  induction f as [| f (Hv & He & Hm)].
  - repeat split; intros ? **; discriminate.
  - split; [apply value_within_step; assumption |].
    split; [apply elements_within_step | apply members_within_step]; assumption.
Qed.

Lemma loads_within (s : str) (v : json) : loads s = Ret v → within_limits 0 v = true.
Proof.
  intros (r & Hs & _)%loads_scan.
  destruct (scanners_within (2 * length s + 2)) as (Hv & _). exact (Hv _ _ _ _ Hs).
Qed.

Lemma entry_invocation_json (p : nat * str) :
  well_formed p.2 = true → json_arguments (entry_invocation p).
Proof.
  unfold well_formed, entry_invocation, entry_arguments, Json.valid.
  destruct (search TOOL_NAME_RE p.2) as [nm |]; [| discriminate].
  destruct (search ARGUMENTS_RE p.2) as [am |]; [| discriminate].
  destruct (Json.loads (strip (group 1 am))) as [v |] eqn:Hl; [intros _ | discriminate].
  eexists _, _, _, v. split; [reflexivity |]. split; [exact Hl |].
  intros Hff. apply loads_dumps;
    [exact Hff | exact (loads_distinct_keys _ _ Hl) | exact (loads_within _ _ Hl)].
Qed.

Lemma pi_scan_json (a : pyval) (r : ToolCallResult) :
  pi_scan a = Ret r → ∃ calls, tool_calls r = PList calls ∧ Forall json_arguments calls.
Proof.
  unfold pi_scan. destruct a as [| | | | text | | |]; try discriminate.
  destruct (search TOOL_CALLS_RE text) as [m |].
  - destruct (fault_or_not (findall1 TOOL_CALL_RE (group 1 m))) as [Hall | Hex];
      [| destruct (tool_call_loop_fault _ 0 [] Hex) as [x ->]; discriminate].
    rewrite (tool_call_loop_spec _ 0 [] Hall). cbn [rbind app].
    intros [= <-]. cbn [tool_calls]. eexists. split; [reflexivity |].
    apply List.Forall_forall. intros inv Hin.
    apply in_map_iff in Hin as (p & <- & Hp). apply filter_In in Hp as [_ Hwf].
    apply entry_invocation_json, Hwf.
  - intros [= <-]. exists []. split; [reflexivity | constructor].
Qed.

Lemma pi_normalize_early (ai_response : pyval) (r : ToolCallResult) :
  pi_normalize ai_response = Ret (inl r) → tool_calls r = PList [].
Proof.
  unfold pi_normalize. destruct (is_dict ai_response).
  - destruct (py_get ai_response K_choices _) as [choices |]; [| discriminate]. cbn [rbind].
    destruct (py_index0 choices) as [first |]; [| discriminate]. cbn [rbind].
    destruct (py_get first K_message _) as [message |]; [| discriminate]. cbn [rbind].
    destruct (py_get message K_content _) as [content |]; [| discriminate]. cbn [rbind].
    destruct (negb (truthy content)); [intros [= <-]; reflexivity | discriminate].
  - destruct (negb (is_str ai_response)); discriminate.
Qed.

(** X11.  For every response, [PromptInjectionAdapter.parse_tool_calls]
    returns a result whose [tool_calls] is a list in which every invocation
    has the type function and, as arguments, the text [json.dumps] writes for
    a value that [json.loads] returned; when that value holds no float,
    [json.loads] reads the arguments back as the same value. *)
Theorem pi_arguments_are_json (ai_response : pyval) :
  ∃ r calls,
    pi_parse_tool_calls ai_response = Ret r
    ∧ tool_calls r = PList calls
    ∧ Forall json_arguments calls.
Proof.
  unfold pi_parse_tool_calls.
  destruct (pi_normalize ai_response) as [[r0 | a] | e] eqn:Hn.
  - exists r0, []. split; [reflexivity |].
    split; [exact (pi_normalize_early _ _ Hn) | constructor].
  - destruct (pi_scan a) as [r | e] eqn:Hs.
    + destruct (pi_scan_json a r Hs) as (calls & Hc & Hall). exists r, calls. auto.
    + eexists _, []. split; [reflexivity |]. split; [reflexivity | constructor].
  - eexists _, []. split; [reflexivity |]. split; [reflexivity | constructor].
Qed.

(** ** The decoder on what [json.dumps] writes *)


End WithRuntime.

(** ** Closed instances *)

#[local] Existing Instance sample_runtime.


End RoundTrip.

(* ===================================================================== *)
(** * The tags of the prompt-injection format *)
(* ===================================================================== *)

Module TagFacts.
Import Re Adapters Spec Props AdapterFacts.

Section WithRuntime.
Context {runtime : Runtime}.

(** ** The matcher on the pattern of a tag *)

Lemma m_lits_i (pat : str) (p : option char) (s : str) (g : list (nat * str)) (k : kont) :
  m (lits_i pat) (MState p s g) k
  = if istarts pat s
    then k (MState (prev_after p (length pat) s) (drop (length pat) s) g)
    else None.
Proof.
  revert p s. induction pat as [| x pat IH]; intros p s; [reflexivity |].
  unfold lits_i in *. cbn [map].
  destruct pat as [| y pat].
  - cbn [cats map m rest groups istarts length prev_after].
    destruct s as [| c s]; [reflexivity |].
    rewrite andb_true_r. destruct (ichar x c); reflexivity.
  - change (cats (Chr (ichar x) :: map (λ p0, Chr (ichar p0)) (y :: pat)))
      with (Cat (Chr (ichar x)) (cats (map (λ p0, Chr (ichar p0)) (y :: pat)))).
    cbn [m rest groups].
    destruct s as [| c s]; [reflexivity |].
    cbn [istarts]. destruct (ichar x c); [| reflexivity].
    rewrite IH. reflexivity.
Qed.

Lemma lazy_any_scan (k : kont) (p : option char) (s : str) (g : list (nat * str)) :
  star_lazy (m any) (length s) (MState p s g) k = lazy_scan k p s g.
Proof.
  revert p. induction s as [| c s IH]; intros p; cbn [length star_lazy lazy_scan].
  - destruct (k (MState p [] g)); reflexivity.
  - destruct (k (MState p (c :: s) g)); [reflexivity |].
    cbn [any m rest groups length].
    replace (Nat.ltb (length s) (S (length s))) with true
      by (symmetry; apply Nat.ltb_lt; lia).
    apply IH.
Qed.

Lemma find_i_bound (pat s : str) (j : nat) :
  find_i pat s = Some j → istarts pat (drop j s) = true ∧ (j ≤ length s)%nat.
Proof.
  revert j. induction s as [| c s IH]; intros j; cbn [find_i].
  - destruct (istarts pat []) eqn:E; [| discriminate].
    intros [= <-]. split; [exact E | cbn; lia].
  - destruct (istarts pat (c :: s)) eqn:E.
    + intros [= <-]. split; [exact E | cbn; lia].
    + destruct (find_i pat s) as [j' |]; [| discriminate].
      intros [= <-]. destruct (IH j' eq_refl) as [Hs Hl]. split; [exact Hs | cbn; lia].
Qed.

Lemma istarts_length (pat s : str) :
  istarts pat s = true → (length pat ≤ length s)%nat.
Proof.
  revert s. induction pat as [| x pat IH]; intros s; [cbn; lia |].
  destruct s as [| c s]; [discriminate |]. cbn [istarts length].
  intros Hx. apply andb_true_iff in Hx as [_ Hx]. apply IH in Hx. lia.
Qed.

(** The scan for the closing tag, from a position [length pre] inside the
    text [s1] after the opening tag. *)
Lemma lazy_scan_close (c : str) (s1 : str) (k : kont) :
  (∀ p s g, k (MState p s g)
            = if istarts c s
              then Some (MState (prev_after p (length c) s) (drop (length c) s)
                                ((1%nat, take (length s1 - length s) s1) :: g))
              else None) →
  ∀ pre s p, s1 = pre ++ s →
    match lazy_scan k p s [] with
    | Some st =>
        ∃ j, find_i c s = Some j
             ∧ rest st = drop (j + length c) s
             ∧ groups st = [(1%nat, take (length pre + j) s1)]
    | None => find_i c s = None
    end.
Proof.
  intros Hk pre s. revert pre.
  induction s as [| x s IH]; intros pre p Hs1; cbn [lazy_scan find_i]; rewrite Hk.
  - destruct (istarts c []) eqn:E; [| reflexivity].
    exists 0%nat. cbn [rest groups]. rewrite Hs1, length_app. cbn [length].
    repeat split. f_equal. f_equal. f_equal. lia.
  - destruct (istarts c (x :: s)) eqn:E.
    + exists 0%nat. cbn [rest groups]. rewrite Hs1, length_app.
      repeat split. f_equal. f_equal. f_equal. lia.
    + specialize (IH (pre ++ [x]) (Some x)).
      rewrite <- app_assoc in IH. specialize (IH Hs1).
      destruct (lazy_scan k (Some x) s []) as [st |].
      * destruct IH as (j & Hj & Hr & Hg). exists (S j). rewrite Hj.
        split; [reflexivity |]. split; [exact Hr |].
        rewrite Hg, length_app. cbn [length]. f_equal. f_equal. f_equal. lia.
      * rewrite IH. reflexivity.
Qed.

Lemma tag_re_unfold (tag : string) :
  tag_re tag = Cat (lits_i (open_tag tag))
                   (Cat (Group 1 (Lazy any)) (lits_i (close_tag tag))).
Proof. reflexivity. Qed.

(** One attempt of the pattern of a tag, whatever the character before. *)
Lemma match_here_tag (tag : string) (p : option char) (s : str) :
  match match_here (tag_re tag) p s with
  | Some st => ∃ body, tag_split tag s = Some (body, rest st)
                       ∧ groups st = [(1%nat, body)]
  | None => tag_split tag s = None
  end.
Proof.
  unfold match_here, tag_split. rewrite tag_re_unfold. cbn [m].
  rewrite m_lits_i.
  destruct (istarts (open_tag tag) s) eqn:Ho; [| reflexivity].
  cbn [rest groups]. cbv zeta.
  set (s1 := drop (length (open_tag tag)) s).
  rewrite lazy_any_scan.
  pose proof (lazy_scan_close (close_tag tag) s1
    (λ st', m (lits_i (close_tag tag))
              (set_group 1 (take (length s1 - length (rest st')) s1) st') Some)) as Hscan.
  cbv beta in Hscan.
  specialize (Hscan ltac:(intros p0 s0 g0; unfold set_group; cbn [prev rest groups];
                          rewrite m_lits_i; reflexivity)).
  specialize (Hscan [] s1 (prev_after p (length (open_tag tag)) s) eq_refl).
  destruct (lazy_scan _ _ s1 []) as [st |].
  - destruct Hscan as (j & -> & Hr & Hg). exists (take j s1).
    rewrite Hr. split; [reflexivity | exact Hg].
  - rewrite Hscan. reflexivity.
Qed.

Lemma istarts_take (pat s : str) (n : nat) :
  (length pat ≤ n)%nat → istarts pat (take n s) = istarts pat s.
Proof.
  revert s n. induction pat as [| x pat IH]; intros s n Hn; [reflexivity |].
  destruct n as [| n]; [cbn in Hn; lia |].
  destruct s as [| c s]; [reflexivity |]. cbn [take istarts].
  rewrite IH by (cbn in Hn; lia). reflexivity.
Qed.

Lemma istarts_take_true (pat s : str) (n : nat) :
  istarts pat (take n s) = true → istarts pat s = true.
Proof.
  revert s n. induction pat as [| x pat IH]; intros s n; [reflexivity |].
  destruct n as [| n]; [destruct s; discriminate |].
  destruct s as [| c s]; [discriminate |]. cbn [take istarts].
  intros Hx. apply andb_true_iff in Hx as [Hc Hx]. rewrite Hc, (IH _ _ Hx). reflexivity.
Qed.

Lemma find_i_take (pat s : str) (j : nat) :
  find_i pat s = Some j → find_i pat (take (j + length pat) s) = Some j.
Proof.
  revert j. induction s as [| c s IH]; intros j; cbn [find_i].
  - destruct (istarts pat []) eqn:E; [| discriminate]. intros [= <-].
    rewrite take_nil. cbn [find_i]. rewrite E. reflexivity.
  - destruct (istarts pat (c :: s)) eqn:E.
    + intros [= <-]. cbn [Nat.add].
      destruct (take (length pat) (c :: s)) as [| c' t] eqn:Ht.
      * cbn [find_i]. rewrite <- Ht, istarts_take by lia. rewrite E. reflexivity.
      * cbn [find_i]. rewrite <- Ht, istarts_take by lia. rewrite E. reflexivity.
    + destruct (find_i pat s) as [j' |] eqn:Hf; [| discriminate].
      intros [= <-]. cbn [Nat.add take find_i].
      destruct (istarts pat (c :: take (j' + length pat) s)) eqn:E'.
      * apply (istarts_take_true pat (c :: s) (S (j' + length pat))) in E'. congruence.
      * rewrite (IH j' eq_refl). reflexivity.
Qed.

Lemma tag_split_lengths (tag : string) (s body r : str) :
  tag_split tag s = Some (body, r) →
  ∃ j, find_i (close_tag tag) (drop (length (open_tag tag)) s) = Some j
       ∧ istarts (open_tag tag) s = true
       ∧ body = take j (drop (length (open_tag tag)) s)
       ∧ r = drop (length (open_tag tag) + j + length (close_tag tag)) s
       ∧ (length (open_tag tag) + j + length (close_tag tag) ≤ length s)%nat.
Proof.
  unfold tag_split. destruct (istarts (open_tag tag) s) eqn:Ho; [| discriminate].
  cbv zeta. destruct (find_i _ _) as [j |] eqn:Hf; [| discriminate].
  intros [= <- <-]. exists j. split; [reflexivity |]. split; [reflexivity |].
  split; [reflexivity |]. split; [rewrite drop_drop, Nat.add_assoc; reflexivity |].
  apply find_i_bound in Hf as [Hc Hj]. apply istarts_length in Hc, Ho.
  rewrite !length_drop in Hc. rewrite length_drop in Hj. lia.
Qed.

(** The text a match covers is matched again with the same body. *)
Lemma tag_split_group0 (tag : string) (s body r : str) :
  tag_split tag s = Some (body, r) →
  tag_split tag (take (length s - length r) s) = Some (body, []).
Proof.
  intros Hs. destruct (tag_split_lengths tag s body r Hs) as (j & Hf & Ho & -> & -> & Hlen).
  rewrite length_drop.
  replace (length s - (length s - (length (open_tag tag) + j + length (close_tag tag))))%nat
    with (length (open_tag tag) + (j + length (close_tag tag)))%nat by lia.
  unfold tag_split. rewrite istarts_take by lia. rewrite Ho. cbv zeta.
  rewrite <- take_drop_commute. rewrite (find_i_take _ _ _ Hf).
  rewrite take_take. replace (j `min` (j + length (close_tag tag)))%nat with j by lia.
  f_equal. f_equal. apply drop_ge. rewrite length_take. lia.
Qed.

(** ** [re.search] with the pattern of a tag *)

Lemma search_at_tag (tag : string) (s : str) (p : option char) (pos : nat) :
  match search_at (tag_re tag) p s pos with
  | Some mt =>
      ∃ pre s', s = pre ++ s'
        ∧ tag_split tag s' = Some (group 1 mt, m_rest mt)
        ∧ group 0 mt = take (length s' - length (m_rest mt)) s'
  | None => ∀ pre s', s = pre ++ s' → tag_split tag s' = None
  end.
Proof.
  revert p pos. induction s as [| c s IH]; intros p pos; cbn [search_at].
  - pose proof (match_here_tag tag p []) as Hm.
    destruct (match_here (tag_re tag) p []) as [st |].
    + destruct Hm as (body & Hs & Hg). exists [], []. split; [reflexivity |].
      unfold mk_match, group. cbn [m_groups m_rest m_group0]. rewrite Hg.
      cbn [group_lookup Nat.eqb default from_option id]. auto.
    + intros pre s' Heq. symmetry in Heq. apply app_eq_nil in Heq as [_ ->]. exact Hm.
  - pose proof (match_here_tag tag p (c :: s)) as Hm.
    destruct (match_here (tag_re tag) p (c :: s)) as [st |].
    + destruct Hm as (body & Hs & Hg). exists [], (c :: s). split; [reflexivity |].
      unfold mk_match, group. cbn [m_groups m_rest m_group0]. rewrite Hg.
      cbn [group_lookup Nat.eqb default from_option id]. auto.
    + specialize (IH (Some c) (S pos)).
      destruct (search_at (tag_re tag) (Some c) s (S pos)) as [mt |].
      * destruct IH as (pre & s' & -> & Hs & Hg0). exists (c :: pre), s'. auto.
      * intros pre s' Heq. destruct pre as [| x pre].
        -- cbn in Heq. subst s'. exact Hm.
        -- injection Heq as _ ->. eapply IH. reflexivity.
Qed.

Lemma search_tag_found (tag : string) (s' : str) (body r : str) :
  tag_split tag s' = Some (body, r) →
  ∃ mt, search (tag_re tag) s' = Some mt ∧ group 1 mt = body ∧ m_rest mt = r.
Proof.
  intros Hs. unfold search. destruct s' as [| c s]; cbn [search_at].
  - pose proof (match_here_tag tag None []) as Hm.
    destruct (match_here (tag_re tag) None []) as [st |]; [| congruence].
    destruct Hm as (b & Hb & Hg). rewrite Hs in Hb. injection Hb as Hb Hr.
    eexists. split; [reflexivity |]. unfold mk_match, group. cbn [m_groups m_rest].
    rewrite Hg. cbn [group_lookup Nat.eqb default from_option id]. auto.
  - pose proof (match_here_tag tag None (c :: s)) as Hm.
    destruct (match_here (tag_re tag) None (c :: s)) as [st |]; [| congruence].
    destruct Hm as (b & Hb & Hg). rewrite Hs in Hb. injection Hb as Hb Hr.
    eexists. split; [reflexivity |]. unfold mk_match, group. cbn [m_groups m_rest].
    rewrite Hg. cbn [group_lookup Nat.eqb default from_option id]. auto.
Qed.

(** ** [_extract_tool_calls_text] *)

Lemma no_block_in_apology : search TOOL_CALLS_RE NO_TOOL_CALLS_FOUND = None.
Proof. vm_compute. reflexivity. Qed.

(** The result depends on the response through the body of the block. *)
Lemma pi_parse_body (text : str) (m : Match) :
  search TOOL_CALLS_RE text = Some m →
  pi_parse_tool_calls (PStr text)
  = match tool_call_loop (findall1 TOOL_CALL_RE (group 1 m)) 0 [] with
    | Ret calls => Ret (MkToolCallResult (PList calls) (PStr text)
                          (Nat.ltb 0 (length calls)) (Nat.ltb 0 (length calls)))
    | Raise _ => Ret (no_tool_calls (PStr text))
    end.
Proof.
  intros Hm. unfold pi_parse_tool_calls, pi_normalize, pi_scan.
  cbn [is_dict is_str negb]. rewrite Hm.
  destruct (tool_call_loop _ 0 []); reflexivity.
Qed.

Lemma pi_parse_plain (text : str) :
  search TOOL_CALLS_RE text = None →
  pi_parse_tool_calls (PStr text) = Ret (no_tool_calls (PStr text)).
Proof.
  intros Hs. unfold pi_parse_tool_calls, pi_normalize, pi_scan.
  cbn [is_dict is_str negb]. rewrite Hs. reflexivity.
Qed.

(** X13.  The text [_extract_tool_calls_text] returns carries the tool calls
    of the response: it is a contiguous part of the response, or the fixed
    notice when the response has no tool_calls block, and
    [PromptInjectionAdapter.parse_tool_calls] reads from it the same
    [tool_calls] list and the same [has_tool_calls] flag as from the whole
    response. *)
Theorem extracted_text_parses_alike (text : str) :
  ∃ extracted r r',
    _extract_tool_calls_text (PStr text) = Ret extracted
    ∧ (extracted = NO_TOOL_CALLS_FOUND ∨ ∃ pre post, text = pre ++ extracted ++ post)
    ∧ pi_parse_tool_calls (PStr text) = Ret r
    ∧ pi_parse_tool_calls (PStr extracted) = Ret r'
    ∧ tool_calls r' = tool_calls r
    ∧ has_tool_calls r' = has_tool_calls r.
Proof.
  unfold _extract_tool_calls_text.
  pose proof (search_at_tag "tool_calls" text None 0) as Hsearch.
  fold (search (tag_re "tool_calls") text) in Hsearch. fold TOOL_CALLS_RE in Hsearch.
  destruct (search TOOL_CALLS_RE text) as [mt |] eqn:Hs.
  - destruct Hsearch as (pre & s' & Htext & Hsplit & Hg0).
    pose proof (tag_split_group0 _ _ _ _ Hsplit) as Hagain. rewrite <- Hg0 in Hagain.
    destruct (search_tag_found _ _ _ _ Hagain) as (mt' & Hs' & Hg1 & _).
    fold TOOL_CALLS_RE in Hs'.
    assert (Hpart : ∃ pre post, text = pre ++ group 0 mt ++ post).
    { exists pre, (m_rest mt).
      rewrite Htext. f_equal. rewrite Hg0.
      destruct (tag_split_lengths _ _ _ _ Hsplit) as (j & _ & _ & _ & Hr & Hlen).
      rewrite Hr at 2. rewrite Hr, length_drop.
      replace (length s' - (length s' - (length (open_tag "tool_calls") + j
                 + length (close_tag "tool_calls"))))%nat
        with (length (open_tag "tool_calls") + j + length (close_tag "tool_calls"))%nat
        by lia.
      symmetry. apply take_drop. }
    exists (group 0 mt).
    rewrite (pi_parse_body text mt Hs), (pi_parse_body (group 0 mt) mt' Hs'), Hg1.
    destruct (tool_call_loop _ 0 []); eexists _, _;
      (split; [reflexivity |]; split; [right; exact Hpart |]; repeat split).
  - eexists _, _, _. split; [reflexivity |]. split; [left; reflexivity |].
    rewrite (pi_parse_plain text Hs), (pi_parse_plain _ no_block_in_apology).
    split; [reflexivity |]. split; [reflexivity |]. split; reflexivity.
Qed.

(** ** Texts the pattern of a tag passes over *)















(** ** [re.search] and [re.findall] over such texts *)







(** ** The tags of the prompt-injection format *)













(** ** The response the prompt asks for *)




End WithRuntime.

(** ** Closed instances *)

#[local] Existing Instance sample_runtime.


End TagFacts.

(* ===================================================================== *)
(** * Results and messages of the adapters *)
(* ===================================================================== *)

Module ResultFacts.
Import Re Adapters Universal Spec CallProps AdapterFacts UniversalFacts.

Section WithRuntime.
Context `{Runtime}.

(** ** The flags of a result *)

Lemma mapM_res_Forall {A B} (f : A → res pyexc B) (l : list A) (l' : list B) :
  mapM_res f l = Ret l' → Forall (λ x, ∃ y, f x = Ret y) l.
Proof.
  revert l'. induction l as [| x l IH]; intros l'; cbn [mapM_res]; [constructor |].
  destruct (f x) as [y |] eqn:Hx; cbn [rbind]; [| discriminate].
  destruct (mapM_res f l) as [ys |]; cbn [rbind]; [| discriminate].
  intros _. constructor; [eauto | eapply IH; reflexivity].
Qed.

Lemma logged_name_needs_dict (tc : pyval) (name : pyval) :
  logged_name tc = Ret name → is_dict tc = true.
Proof. destruct tc; cbn; try discriminate. reflexivity. Qed.

Lemma fc_finish_coherent (tcs content : pyval) (r : ToolCallResult) :
  fc_finish tcs content = Ret r → coherent r.
Proof.
  unfold fc_finish, coherent.
  destruct (py_len tcs) as [n |] eqn:Hlen; cbn [rbind]; [| discriminate].
  destruct (Nat.ltb 0 n) eqn:Hn.
  - destruct (py_iter tcs) as [items |] eqn:Hit; cbn [rbind]; [| discriminate].
    destruct (mapM_res logged_name items) as [names |] eqn:Hm; cbn [rbind]; [| discriminate].
    intros [= <-]. cbn [needs_continuation has_tool_calls tool_calls].
    split; [reflexivity |].
    apply mapM_res_Forall in Hm. apply Nat.ltb_lt in Hn.
    destruct tcs as [| | | | s | l | kv |]; try discriminate.
    + exfalso. injection Hit as <-. injection Hlen as <-.
      destruct s as [| c s]; [cbn in Hn; lia |].
      apply Forall_cons in Hm as [[name Hname] _]. discriminate.
    + injection Hit as <-. injection Hlen as <-.
      destruct l as [| tc l]; [cbn in Hn; lia |]. eauto.
    + exfalso. injection Hit as <-. injection Hlen as <-.
      destruct kv as [| p kv]; [cbn in Hn; lia |].
      apply Forall_cons in Hm as [[name Hname] _]. discriminate.
  - cbn [rbind]. intros [= <-]. cbn [needs_continuation has_tool_calls tool_calls].
    split; [reflexivity |]. apply Nat.ltb_ge in Hn. rewrite Hlen. f_equal. lia.
Qed.

Lemma no_tool_calls_coherent (raw : pyval) : coherent (no_tool_calls raw).
Proof. split; reflexivity. Qed.

Lemma fc_try_coherent (ai_response : pyval) (r : ToolCallResult) :
  fc_try ai_response = Ret r → coherent r.
Proof.
  unfold fc_try. destruct (is_dict ai_response).
  - destruct (py_get ai_response K_choices _) as [choices |]; cbn [rbind]; [| discriminate].
    destruct (py_index0 choices) as [first |]; cbn [rbind]; [| discriminate].
    destruct (py_get first K_message _) as [message |]; cbn [rbind]; [| discriminate].
    destruct (py_get message K_tool_calls _) as [tcs |]; cbn [rbind]; [| discriminate].
    destruct (py_get message K_content _) as [content |]; cbn [rbind]; [| discriminate].
    apply fc_finish_coherent.
  - destruct (py_hasattr ai_response K_choices).
    + destruct (py_getattr ai_response K_choices) as [choices |]; cbn [rbind]; [| discriminate].
      destruct (py_index0 choices) as [first |]; cbn [rbind]; [| discriminate].
      destruct (py_getattr first K_message) as [message |]; cbn [rbind]; [| discriminate].
      cbv zeta.
      destruct (truthy _).
      * destruct (py_iter _) as [items |]; cbn [rbind]; [| discriminate].
        destruct (mapM_res convert_tool_call items) as [l |]; cbn [rbind]; [| discriminate].
        apply fc_finish_coherent.
      * cbn [rbind]. apply fc_finish_coherent.
    + intros [= <-]. apply no_tool_calls_coherent.
Qed.

Lemma entry_invocation_name (p : nat * str) :
  logged_name (entry_invocation p) = Ret (PStr (entry_name p.2)).
Proof. reflexivity. Qed.

Lemma pi_scan_coherent (a : pyval) (r : ToolCallResult) :
  pi_scan a = Ret r → coherent r.
Proof.
  unfold pi_scan. destruct a as [| | | | text | | |]; try discriminate.
  destruct (search TOOL_CALLS_RE text) as [m |]; [| intros [= <-]; apply no_tool_calls_coherent].
  destruct (fault_or_not (findall1 TOOL_CALL_RE (group 1 m))) as [Hnf | Hex];
    [| destruct (tool_call_loop_fault _ 0 [] Hex) as [x ->]; discriminate].
  rewrite (tool_call_loop_spec _ 0 [] Hnf). cbn [rbind app].
  intros [= <-]. unfold coherent. cbn [needs_continuation has_tool_calls tool_calls].
  split; [reflexivity |].
  set (calls := map entry_invocation _).
  assert (Hall : names_readable calls).
  { apply List.Forall_forall. intros inv Hin. apply in_map_iff in Hin as (p & <- & _).
    eexists. apply entry_invocation_name. }
  destruct calls as [| tc l]; [reflexivity | cbn; eauto].
Qed.

Lemma pi_normalize_coherent (ai_response : pyval) (r : ToolCallResult) :
  pi_normalize ai_response = Ret (inl r) → coherent r.
Proof.
  unfold pi_normalize. destruct (is_dict ai_response).
  - destruct (py_get ai_response K_choices _) as [choices |]; [| discriminate]. cbn [rbind].
    destruct (py_index0 choices) as [first |]; [| discriminate]. cbn [rbind].
    destruct (py_get first K_message _) as [message |]; [| discriminate]. cbn [rbind].
    destruct (py_get message K_content _) as [content |]; [| discriminate]. cbn [rbind].
    destruct (negb (truthy content)); [intros [= <-]; apply no_tool_calls_coherent | discriminate].
  - destruct (negb (is_str ai_response)); discriminate.
Qed.

(** X15.  Whatever the response, the result of either adapter is coherent:
    [needs_continuation] equals [has_tool_calls]; when they are set,
    [tool_calls] is a non-empty list and the name of every invocation can be
    read as the log line reads it (the item function, then the item name);
    when they are not set, [tool_calls] is empty. *)
Theorem results_are_coherent (ai_response : pyval) :
  (∃ r, fc_parse_tool_calls ai_response = Ret r ∧ coherent r)
  ∧ (∃ r, pi_parse_tool_calls ai_response = Ret r ∧ coherent r).
Proof.
  split.
  - unfold fc_parse_tool_calls. destruct (fc_try ai_response) as [r | e] eqn:Ht.
    + exists r. split; [reflexivity | exact (fc_try_coherent _ _ Ht)].
    + eexists. split; [reflexivity | apply no_tool_calls_coherent].
  - unfold pi_parse_tool_calls.
    destruct (pi_normalize ai_response) as [[r0 | a] | e] eqn:Hn.
    + exists r0. split; [reflexivity | exact (pi_normalize_coherent _ _ Hn)].
    + destruct (pi_scan a) as [r | e] eqn:Hs.
      * exists r. split; [reflexivity | exact (pi_scan_coherent _ _ Hs)].
      * eexists. split; [reflexivity | apply no_tool_calls_coherent].
    + eexists. split; [reflexivity | apply no_tool_calls_coherent].
Qed.

(** ** A [tool_calls] field that is [None] *)

(** X16.  A mapping-shaped response whose first choice holds a message with
    the key tool_calls set to [None] makes the length test fail inside the
    [try] block of [FunctionCallingAdapter.parse_tool_calls]: the result has
    no invocation, both flags are false, and [raw_response] is the text of the
    whole response, not the content of the message. *)
Theorem null_tool_calls_lose_content (kv : list (str * pyval)) (first : list (str * pyval))
    (others : list pyval) (message : list (str * pyval)) :
  Py.assoc K_choices kv = Some (PList (PDict first :: others)) →
  Py.assoc K_message first = Some (PDict message) →
  Py.assoc K_tool_calls message = Some PNone →
  fc_parse_tool_calls (PDict kv) = Ret (no_tool_calls (PStr (repr_other (PDict kv)))).
Proof.
  intros Hc Hm Ht. unfold fc_parse_tool_calls, fc_try.
  cbn [is_dict py_get]. rewrite Hc. cbn [default from_option id rbind py_index0 py_get].
  rewrite Hm. cbn [default from_option id rbind py_get]. rewrite Ht. reflexivity.
Qed.

(** ** Detection and parsing *)

Lemma fc_finish_has_calls (tcs content : pyval) (r : ToolCallResult) :
  fc_finish tcs content = Ret r → has_tool_calls r = true →
  tool_calls r = tcs ∧ truthy tcs = true.
Proof.
  intros Hf Hh. pose proof (fc_finish_tool_calls _ _ _ Hf) as Htc.
  destruct (fc_finish_coherent _ _ _ Hf) as [_ Hc]. rewrite Hh in Hc.
  destruct Hc as (tc & l & Hl & _). split; [exact Htc |].
  rewrite <- Htc, Hl. reflexivity.
Qed.

(** X17.  A response in which the function-calling adapter finds tool calls is
    a response the capability probe accepts: when
    [FunctionCallingAdapter.parse_tool_calls] sets [has_tool_calls],
    [_is_function_calling_response] is true for the same response. *)
Theorem parsed_calls_imply_detection (response : pyval) (r : ToolCallResult) :
  fc_parse_tool_calls response = Ret r →
  has_tool_calls r = true →
  _is_function_calling_response response = true.
Proof.
  unfold fc_parse_tool_calls, _is_function_calling_response, fc_try, fc_response_try.
  destruct (is_dict response).
  - destruct (py_get response K_choices _) as [choices |]; cbn [rbind];
      [| intros [= <-]; discriminate].
    destruct (py_index0 choices) as [first |]; cbn [rbind]; [| intros [= <-]; discriminate].
    destruct (py_get first K_message _) as [message |]; cbn [rbind];
      [| intros [= <-]; discriminate].
    destruct message as [| | | | | | mk |]; cbn [py_get rbind py_contains];
      try (intros [= <-]; discriminate).
    destruct (fc_finish _ _) as [r' |] eqn:Hf; [| intros [= <-]; discriminate].
    intros [= <-] Hh. destruct (fc_finish_has_calls _ _ _ Hf Hh) as [_ Ht].
    destruct (Py.assoc K_tool_calls mk); [reflexivity | discriminate].
  - destruct (py_hasattr response K_choices); [| intros [= <-]; discriminate].
    destruct (py_getattr response K_choices) as [choices |]; cbn [rbind];
      [| intros [= <-]; discriminate].
    destruct (py_index0 choices) as [first |]; cbn [rbind]; [| intros [= <-]; discriminate].
    destruct (py_getattr first K_message) as [message |]; cbn [rbind];
      [| intros [= <-]; discriminate].
    cbv zeta.
    destruct (truthy (py_or (py_getattr_default message K_tool_calls PNone) (PList [])))
      eqn:Htr.
    + intros _ _.
      assert (Hattr : py_hasattr message K_tool_calls = true).
      { revert Htr. unfold py_or, py_getattr_default, py_getattr, py_hasattr.
        destruct message as [| | | | | | | attrs]; try (cbn; discriminate).
        destruct (Py.assoc K_tool_calls attrs); [reflexivity | cbn; discriminate]. }
      rewrite Hattr. reflexivity.
    + cbn [rbind].
      destruct (fc_finish _ _) as [r' |] eqn:Hf; [| intros [= <-]; discriminate].
      intros [= <-] Hh. destruct (fc_finish_has_calls _ _ _ Hf Hh) as [_ Ht].
      rewrite Ht in Htr. discriminate.
Qed.

End WithRuntime.

(** ** [build_messages_with_tool_results] *)

Lemma tool_message_dict (kv : list (str * pyval)) :
  tool_message (PDict kv) = Ret (tool_message_of kv).
Proof. reflexivity. Qed.

Lemma tool_message_not_dict (r : pyval) :
  is_dict r = false → tool_message r = Raise AttributeError.
Proof. destruct r; try reflexivity. discriminate. Qed.

Lemma tool_results_loop_spec (tool_results acc : list pyval) :
  match tool_results_loop tool_results acc with
  | Ret out => ∃ tail, out = acc ++ tail ∧ Forall2 answers tool_results tail
  | Raise e => e = AttributeError ∧ Exists (λ r, is_dict r = false) tool_results
  end.
Proof.
  revert acc. induction tool_results as [| r rs IH]; intros acc; cbn [tool_results_loop].
  - exists []. split; [symmetry; apply app_nil_r | constructor].
  - destruct (is_dict r) eqn:Hd.
    + destruct r as [| | | | | | kv |]; try discriminate.
      rewrite tool_message_dict. cbn [rbind].
      specialize (IH (acc ++ [tool_message_of kv])).
      destruct (tool_results_loop rs _) as [out | e].
      * destruct IH as (tail & -> & Hall). exists (tool_message_of kv :: tail).
        split; [rewrite <- app_assoc; reflexivity |].
        constructor; [exists kv; auto | exact Hall].
      * destruct IH as [-> Hex]. split; [reflexivity | apply Exists_cons_tl, Hex].
    + rewrite (tool_message_not_dict r Hd). cbn [rbind].
      split; [reflexivity | apply Exists_cons_hd, Hd].
Qed.

(** X18.  [build_messages_with_tool_results] extends the history and never
    rewrites it: the result is the given messages, then the assistant message
    holding the tool calls with the content [None], then one message of role
    tool per tool result, in order, whose fields tool_call_id, name and
    content are those of the result, the empty string where the result has no
    such key.  It raises (an [AttributeError]) exactly when some tool result
    is not a dictionary. *)
Theorem history_is_extended (messages : list pyval) (tool_calls : pyval)
    (tool_results : list pyval) :
  match build_messages_with_tool_results messages tool_calls tool_results with
  | Ret out =>
      ∃ tail, out = messages ++ assistant_message tool_calls :: tail
              ∧ Forall2 answers tool_results tail
  | Raise e => e = AttributeError ∧ Exists (λ r, is_dict r = false) tool_results
  end.
Proof.
  unfold build_messages_with_tool_results. cbv zeta.
  pose proof (tool_results_loop_spec tool_results (messages ++ [assistant_message tool_calls]))
    as Hspec.
  destruct (tool_results_loop tool_results _) as [out | e]; [| exact Hspec].
  destruct Hspec as (tail & -> & Hall). exists tail.
  split; [rewrite <- app_assoc; reflexivity | exact Hall].
Qed.

Section WithRuntime.
Context `{Runtime}.

(** ** [FunctionCallingAdapter.build_continuation_prompt] *)

Lemma result_text_dict (r : pyval) :
  is_dict r = true →
  match result_text r with
  | Ret _ => named_result r = true
  | Raise e => e = KeyError ∧ named_result r = false
  end.
Proof.
  destruct r as [| | | | | | kv |]; try discriminate. intros _.
  unfold result_text, named_result, has_key. cbn [py_item].
  destruct (Py.assoc K_name kv); cbn [rbind andb]; [| auto].
  destruct (Py.assoc K_content kv); cbn [rbind]; auto.
Qed.

Lemma result_texts_dict (results : list pyval) :
  Forall (λ r, is_dict r = true) results →
  match mapM_res result_text results with
  | Ret _ => Forall (λ r, named_result r = true) results
  | Raise e => e = KeyError ∧ Exists (λ r, named_result r = false) results
  end.
Proof.
  induction 1 as [| r rs Hr Hrs IH]; cbn [mapM_res]; [constructor |].
  pose proof (result_text_dict r Hr) as Hx.
  destruct (result_text r) as [t |]; cbn [rbind].
  - destruct (mapM_res result_text rs) as [ts |]; cbn [rbind].
    + constructor; assumption.
    + destruct IH as [-> Hex]. split; [reflexivity | apply Exists_cons_tl, Hex].
  - destruct Hx as [-> Hx]. split; [reflexivity | apply Exists_cons_hd, Hx].
Qed.

(** X19.  [FunctionCallingAdapter.build_continuation_prompt] reads the items
    name and content of every tool result without a default: for tool results
    that are dictionaries it returns a prompt (the original message, the title
    line, the results, the closing request) exactly when every result has both
    keys, and raises [KeyError] when one lacks a key. *)
Theorem continuation_prompt_needs_fields (original_message : str) (ai_response : pyval)
    (tool_results : list pyval) :
  Forall (λ r, is_dict r = true) tool_results →
  match fc_build_continuation_prompt original_message ai_response tool_results with
  | Ret prompt =>
      Forall (λ r, named_result r = true) tool_results
      ∧ ∃ results_text,
          prompt = original_message ++ RESULTS_TITLE ++ results_text ++ RESULTS_REQUEST
  | Raise e => e = KeyError ∧ Exists (λ r, named_result r = false) tool_results
  end.
Proof.
  intros Hd. unfold fc_build_continuation_prompt.
  pose proof (result_texts_dict tool_results Hd) as Hx.
  destruct (mapM_res result_text tool_results) as [ts |]; cbn [rbind]; [| exact Hx].
  split; [exact Hx | eexists; reflexivity].
Qed.

End WithRuntime.

(** ** Closed instances *)

Lemma null_tool_calls_lose_content_witness :
  @fc_parse_tool_calls sample_runtime null_tool_calls_response
  = Ret (no_tool_calls (PStr (s2u "<object>"))).
Proof.
  exact (@null_tool_calls_lose_content sample_runtime
           [(K_choices, PList [PDict [(K_message, PDict
              [(K_content, PStr (s2u "hello")); (K_tool_calls, PNone)])]])]
           [(K_message, PDict [(K_content, PStr (s2u "hello")); (K_tool_calls, PNone)])]
           [] [(K_content, PStr (s2u "hello")); (K_tool_calls, PNone)]
           eq_refl eq_refl eq_refl).
Defined.

Lemma parsed_calls_imply_detection_witness :
  ∃ r, @fc_parse_tool_calls sample_runtime raw_arguments_response = Ret r
       ∧ has_tool_calls r = true
       ∧ _is_function_calling_response raw_arguments_response = true.
Proof.
  eexists. split; [reflexivity |]. split; [reflexivity |].
  apply (@parsed_calls_imply_detection sample_runtime raw_arguments_response _ eq_refl eq_refl).
Defined.

Lemma continuation_prompt_needs_fields_witness :
  let complete := PDict [(K_name, PStr (s2u "search")); (K_content, PStr (s2u "ok"))] in
  let partial := PDict [(K_name, PStr (s2u "search"))] in
  (∃ prompt, @fc_build_continuation_prompt sample_runtime (s2u "hi") PNone [complete]
             = Ret prompt)
  ∧ @fc_build_continuation_prompt sample_runtime (s2u "hi") PNone [complete; partial]
    = Raise KeyError
  ∧ ∃ out, build_messages_with_tool_results [] PNone [complete; partial] = Ret out.
Proof.
  intros complete partial.
  split; [eexists; reflexivity |]. split; [| eexists; reflexivity].
  pose proof (@continuation_prompt_needs_fields sample_runtime (s2u "hi") PNone
                [complete; partial]) as Hx.
  destruct (@fc_build_continuation_prompt sample_runtime (s2u "hi") PNone [complete; partial])
    as [p | e].
  - destruct Hx as [Hall _]; [repeat constructor |].
    apply Forall_cons in Hall as [_ Hall]. apply Forall_cons in Hall as [Hp _].
    discriminate Hp.
  - destruct Hx as [-> _]; [repeat constructor | reflexivity].
Defined.

End ResultFacts.

(* ===================================================================== *)
(** * The orchestrator: probes, calls and the cache *)
(* ===================================================================== *)

Module CallFacts.
Import Re Adapters Universal Spec CallProps AdapterFacts UniversalFacts.

Section WithRuntime.
Context `{Runtime}.

(** ** The adapter [get_adapter] returns *)

Lemma get_adapter_selects (id : str) (tf : option test_fn) (st : State) :
  ∃ st', get_adapter id tf st = (Ret (adapter_for (_capability_cache st' !! id)), st')
    ∧ _enable_auto_fallback st' = _enable_auto_fallback st
    ∧ _cache_ttl st' = _cache_ttl st.
Proof.
  rewrite get_adapter_unfold.
  destruct (get_cached_state id st) as (oc & st1 & -> & Ht & Hf & _ & _ & Hoc & _).
  destruct oc as [c |].
  - exists st1. rewrite Hoc. auto.
  - destruct tf as [f |].
    + rewrite detect_spec.
      match goal with |- context [(_, ?s)] => exists s end.
      cbn [_capability_cache _enable_auto_fallback _cache_ttl].
      rewrite lookup_insert_eq. auto.
    + exists st1. rewrite Hoc. auto.
Qed.

Lemma adapter_for_cases (oc : option APICapability) :
  (adapter_for oc = FunctionCallingAdapter
   ∧ ∃ c, oc = Some c ∧ supports_function_calling c = true)
  ∨ (adapter_for oc = PromptInjectionAdapter
     ∧ ∀ c, oc = Some c → supports_function_calling c = false).
Proof.
  destruct oc as [c |]; cbn; [destruct (supports_function_calling c) eqn:Hs |].
  - left. eauto.
  - right. split; [reflexivity |]. intros c' [= <-]. exact Hs.
  - right. split; [reflexivity |]. intros c' [=].
Qed.

(** X20.  [get_adapter] never raises, whatever the probe does, and the adapter
    it returns is the one its cache then records for the endpoint: the
    function-calling adapter exactly when the record left for the endpoint
    says function calling is supported, the prompt-injection adapter when the
    record says it is not or when there is no record. *)
Theorem adapter_agrees_with_cache (id : str) (tf : option test_fn) (st : State) :
  ∃ a st',
    get_adapter id tf st = (Ret a, st')
    ∧ (supports_native_tools a = true
       ↔ ∃ c, _capability_cache st' !! id = Some c ∧ supports_function_calling c = true)
    ∧ (a = FunctionCallingAdapter ∨ a = PromptInjectionAdapter).
Proof.
  destruct (get_adapter_selects id tf st) as (st' & Hg & _).
  exists (adapter_for (_capability_cache st' !! id)), st'. split; [exact Hg |].
  destruct (adapter_for_cases (_capability_cache st' !! id)) as [[-> Hc] | [-> Hc]].
  - split; [| left; reflexivity]. split; [intros _; exact Hc | reflexivity].
  - split; [| right; reflexivity]. split; [discriminate |].
    intros (c & Hl & Hs). rewrite (Hc c Hl) in Hs. discriminate.
Qed.

(** X21.  Without a probe function [get_adapter] awaits nothing and writes no
    record: the trace of awaited calls is unchanged, and every record in the
    cache afterwards was there before. *)
Theorem no_probe_without_test_function (id : str) (st : State) :
  ∃ a st',
    get_adapter id None st = (Ret a, st')
    ∧ trace st' = trace st
    ∧ ∀ j c, _capability_cache st' !! j = Some c → _capability_cache st !! j = Some c.
Proof.
  destruct (get_adapter_state id None st) as (a & st' & Hg & _ & _ & _ & Hother & Hcase).
  exists a, st'. split; [exact Hg |].
  destruct Hcase as [(Htr & _ & Hid) | (f & Hf & _)]; [| discriminate].
  split; [exact Htr |]. intros j c Hl.
  destruct (decide (j = id)) as [-> | Hne]; [| rewrite <- Hother by auto; exact Hl].
  destruct Hid as [Heq | Hnone]; congruence.
Qed.

(** ** A probe that fails *)

(** X22.  A probe that raises is not an error of [get_adapter]: for an
    endpoint without a record the prompt-injection adapter is returned, and
    the failure is cached as a record that does not support function calling
    and holds the text of the exception.  While that record is within the TTL
    the endpoint is not probed again: the next [get_adapter] answers from the
    record with one clock reading. *)
Theorem failed_probe_is_cached (id : str) (tf : test_fn) (st : State) (e : pyexc) :
  _capability_cache st !! id = None →
  tf tt = Raise e →
  ∃ st' c,
    get_adapter id (Some tf) st = (Ret PromptInjectionAdapter, st')
    ∧ trace st' = trace st ++ [EvProbe id]
    ∧ _capability_cache st' !! id = Some c
    ∧ supports_function_calling c = false
    ∧ error_message c = Some (exc_str e)
    ∧ ∀ tf2 : option test_fn,
        (now (clock_reads st') - tested_at c ≤ _cache_ttl st')%Z →
        get_adapter id tf2 st' = (Ret PromptInjectionAdapter, tick st').
Proof.
  intros Hc He.
  rewrite get_adapter_unfold, (get_cached_miss id st Hc), detect_spec.
  unfold probed_record. rewrite He. cbn [adapter_for supports_function_calling].
  eexists _, _. split; [reflexivity |]. cbn [trace _capability_cache].
  split; [reflexivity |]. split; [apply lookup_insert_eq |].
  split; [reflexivity |]. split; [reflexivity |].
  intros tf2 Ht.
  match type of Ht with (now (clock_reads ?s) - tested_at ?c ≤ _)%Z =>
    apply (get_adapter_hit id tf2 s c); [apply lookup_insert_eq | exact Ht] end.
Qed.

(** ** An expired record *)

(** X23.  A cached record is used as long as its age does not exceed the TTL,
    the boundary included.  Once it is older, the lookup deletes it: without a
    probe function [get_adapter] then returns the prompt-injection adapter
    whatever the record said, and with a probe function it probes the endpoint
    again. *)
Theorem expiry_is_strict (id : str) (tf : option test_fn) (st : State)
    (c : APICapability) :
  _capability_cache st !! id = Some c →
  let age := (now (clock_reads st) - tested_at c)%Z in
  ((age ≤ _cache_ttl st)%Z →
     get_adapter id tf st = (Ret (adapter_for (Some c)), tick st))
  ∧ ((_cache_ttl st < age)%Z →
     get_adapter id None st
     = (Ret PromptInjectionAdapter, set_cache (delete id (_capability_cache st)) (tick st))
     ∧ ∀ f, ∃ a st', get_adapter id (Some f) st = (Ret a, st')
                     ∧ trace st' = trace st ++ [EvProbe id]).
Proof.
  intros Hc age. split; intros Ht.
  - apply get_adapter_hit; assumption.
  - split.
    + rewrite get_adapter_unfold, (get_cached_expired id st c Hc Ht). reflexivity.
    + intros f. rewrite get_adapter_unfold, (get_cached_expired id st c Hc Ht), detect_spec.
      eexists _, _. split; reflexivity.
Qed.

(** ** [clear_cache] *)

(** X24.  [clear_cache] with a non-empty identifier removes the record of that
    endpoint and no other; with [None], and also with the empty string, it
    removes every record; it awaits nothing.  A cleared endpoint is probed
    again by the next [get_adapter] that is given a probe function, and the
    record of that probe is cached. *)
Theorem clear_cache_forces_probe (oid : option str) (id : str) (tf : test_fn)
    (st : State) :
  let st1 := snd (clear_cache oid st) in
  (∀ j, _capability_cache st1 !! j
        = if clears j (OpClearCache oid) then None else _capability_cache st !! j)
  ∧ trace st1 = trace st
  ∧ (clears id (OpClearCache oid) = true →
     ∃ a st2, get_adapter id (Some tf) st1 = (Ret a, st2)
              ∧ trace st2 = trace st ++ [EvProbe id]
              ∧ _capability_cache st2 !! id = Some (probed_record tf st1)).
Proof.
  intros st1.
  assert (Hl : ∀ j, _capability_cache st1 !! j
        = if clears j (OpClearCache oid) then None else _capability_cache st !! j).
  { intros j. unfold st1, clear_cache, clears.
    destruct oid as [[| x s] |]; cbn [snd set_cache _capability_cache].
    - apply lookup_empty.
    - destruct (str_eqb (x :: s) j) eqn:E.
      + apply str_eqb_eq in E. subst j. apply lookup_delete_eq.
      + apply lookup_delete_ne. intros Heq. subst j.
        rewrite (proj2 (str_eqb_eq _ _) eq_refl) in E. discriminate.
    - apply lookup_empty. }
  assert (Htr : trace st1 = trace st).
  { unfold st1, clear_cache. destruct oid as [[| x s] |]; reflexivity. }
  split; [exact Hl |]. split; [exact Htr |].
  intros Hcl. specialize (Hl id). rewrite Hcl in Hl.
  rewrite get_adapter_unfold, (get_cached_miss id st1 Hl), detect_spec.
  eexists _, _. split; [reflexivity |]. cbn [trace _capability_cache].
  rewrite Htr. split; [reflexivity | apply lookup_insert_eq].
Qed.

(** ** The calls of [call_with_fallback] *)

Lemma fc_parse_returns (response : pyval) :
  ∃ r, fc_parse_tool_calls response = Ret r.
Proof. unfold fc_parse_tool_calls. destruct (fc_try response); eauto. Qed.

Lemma try_pi_trace (tools : list pyval) (msg : str) (cf : call_fn) (st : State) :
  let st' := snd (_try_prompt_injection tools msg cf PromptInjectionAdapter st) in
  trace st' = trace st ++ injected_calls tools msg
  ∧ _capability_cache st' = _capability_cache st.
Proof.
  unfold _try_prompt_injection, bind, lift, await_call, injected_calls.
  cbn [format_tools_for_prompt PromptInjectionAdapter].
  destruct (pi_format_tools_for_prompt tools msg) as [p | e]; cbn.
  - destruct (cf p None None) as [response | e]; cbn; auto.
  - rewrite app_nil_r. auto.
Qed.

Lemma attempt_trace (id : str) (tools : list pyval) (msg : str) (cf : call_fn)
    (a : BaseMCPAdapter) (st : State) :
  a = FunctionCallingAdapter ∨ a = PromptInjectionAdapter →
  let st' := snd (attempt id tools msg cf a st) in
  trace st' = trace st ++
    (if supports_native_tools a
     then native_call tools msg ::
          (if native_raises cf tools msg && _enable_auto_fallback st
           then injected_calls tools msg else [])
     else injected_calls tools msg).
Proof.
  intros [-> | ->]; cbn [supports_native_tools FunctionCallingAdapter PromptInjectionAdapter].
  - unfold attempt, try_except, native_raises.
    cbn [supports_native_tools FunctionCallingAdapter].
    unfold _try_function_calling at 1. unfold bind at 1. unfold await_call at 1.
    destruct (cf msg (Some tools) (Some (s2u "auto"))) as [response | e].
    + cbn [parse_tool_calls FunctionCallingAdapter lift].
      destruct (fc_parse_returns response) as [r ->]. reflexivity.
    + cbn [log _enable_auto_fallback andb].
      destruct (_enable_auto_fallback st); cbn [andb].
      * unfold bind at 1, degrade, bind, read_clock, store.
        cbn -[_try_prompt_injection s2u].
        match goal with |- context [_try_prompt_injection _ _ _ _ ?s] =>
          destruct (try_pi_trace tools msg cf s) as [-> _] end.
        cbn [trace set_cache tick log]. rewrite <- app_assoc. reflexivity.
      * reflexivity.
  - rewrite attempt_not_native by reflexivity.
    apply try_pi_trace.
Qed.

(** X25.  The calls [call_with_fallback] awaits once the adapter is chosen.
    With the prompt-injection adapter: one call, with the injected prompt and
    no tools parameter (none if the prompt cannot be built).  With the
    function-calling adapter: the native call with the user message, the tools
    and the tool choice auto, followed by the prompt-injection call exactly
    when the native call raised and auto-fallback is enabled.  So the API is
    called at most twice, and the tools are passed natively at most once, in
    the first call. *)
Theorem calls_of_call_with_fallback (id : str) (tools : list pyval) (msg : str)
    (cf : call_fn) (tf : option test_fn) (st : State) :
  ∃ a st_a,
    get_adapter id tf st = (Ret a, st_a)
    ∧ trace (snd (call_with_fallback id tools msg cf tf st))
      = trace st_a ++
        (if supports_native_tools a
         then native_call tools msg ::
              (if native_raises cf tools msg && _enable_auto_fallback st
               then injected_calls tools msg else [])
         else injected_calls tools msg).
Proof.
  destruct (get_adapter_selects id tf st) as (st_a & Hg & Hf & _).
  eexists _, _. split; [exact Hg |].
  rewrite (call_with_fallback_unfold _ _ _ _ _ _ _ _ Hg), <- Hf.
  apply attempt_trace.
  destruct (adapter_for_cases (_capability_cache st_a !! id)) as [[-> _] | [-> _]]; auto.
Qed.

(** X26.  With auto-fallback disabled, a native call that raises is not
    retried: [call_with_fallback] raises the same exception after that one
    call, and the cache is as [get_adapter] left it. *)
Theorem no_fallback_propagates (id : str) (tools : list pyval) (msg : str)
    (cf : call_fn) (tf : option test_fn) (st st_a : State) (a : BaseMCPAdapter)
    (e : pyexc) :
  _enable_auto_fallback st = false →
  get_adapter id tf st = (Ret a, st_a) →
  supports_native_tools a = true →
  cf msg (Some tools) (Some (s2u "auto")) = Raise e →
  call_with_fallback id tools msg cf tf st
  = (Raise e, log (native_call tools msg) st_a).
Proof.
  intros Hf Hg Hn He.
  destruct (get_adapter_selects id tf st) as (st' & Hg' & Hf' & _).
  rewrite Hg in Hg'. injection Hg' as _ <-.
  rewrite (call_with_fallback_unfold _ _ _ _ _ _ _ _ Hg).
  unfold attempt, try_except. rewrite Hn.
  unfold _try_function_calling, bind, await_call. rewrite He.
  cbn [log _enable_auto_fallback]. rewrite Hf', Hf. reflexivity.
Qed.

(** X27.  An exception of the prompt-injection call is not caught: when the
    adapter chosen is the prompt-injection adapter and the call raises,
    [call_with_fallback] raises the same exception after that one call, with
    the cache as [get_adapter] left it, whether auto-fallback is enabled or
    not. *)
Theorem injected_failure_propagates (id : str) (tools : list pyval) (msg : str)
    (cf : call_fn) (tf : option test_fn) (st st_a : State) (a : BaseMCPAdapter)
    (p : str) (e : pyexc) :
  get_adapter id tf st = (Ret a, st_a) →
  supports_native_tools a = false →
  pi_format_tools_for_prompt tools msg = Ret p →
  cf p None None = Raise e →
  call_with_fallback id tools msg cf tf st = (Raise e, log (EvCall p None None) st_a).
Proof.
  intros Hg Hn Hp He.
  assert (Ha : a = PromptInjectionAdapter).
  { destruct (get_adapter_selects id tf st) as (st' & Hg' & _).
    rewrite Hg in Hg'. injection Hg' as -> _.
    destruct (adapter_for_cases (_capability_cache st' !! id)) as [[Hx _] | [Hx _]];
      rewrite Hx in *; [discriminate | reflexivity]. }
  subst a.
  rewrite (call_with_fallback_unfold _ _ _ _ _ _ _ _ Hg).
  rewrite attempt_not_native by reflexivity.
  unfold _try_prompt_injection, bind, lift, await_call.
  cbn [format_tools_for_prompt PromptInjectionAdapter]. rewrite Hp, He. reflexivity.
Qed.

End WithRuntime.

(** ** Closed instances *)

Lemma failed_probe_is_cached_witness :
  ∃ st' c,
    @get_adapter sample_runtime endpoint (Some probe_fails) (init 24 true)
    = (Ret (@PromptInjectionAdapter sample_runtime), st')
    ∧ _capability_cache st' !! endpoint = Some c
    ∧ supports_function_calling c = false
    ∧ error_message c = Some (s2u "down").
Proof.
  destruct (@failed_probe_is_cached sample_runtime endpoint probe_fails (init 24 true)
              (Exception (s2u "down")) (lookup_empty _) eq_refl)
    as (st' & c & Hg & _ & Hc & Hs & He & _).
  exists st', c. split; [exact Hg |]. split; [exact Hc |]. split; [exact Hs | exact He].
Defined.

Lemma expiry_is_strict_witness :
  let st := snd (@get_adapter sample_runtime endpoint (Some probe_native) (init 0 true)) in
  _capability_cache st !! endpoint = Some (MkCapability true 2 1 None)
  ∧ fst (@get_adapter sample_runtime endpoint None st)
    = Ret (@PromptInjectionAdapter sample_runtime).
Proof.
  intros st.
  assert (Hc : _capability_cache st !! endpoint = Some (MkCapability true 2 1 None))
    by (vm_compute; reflexivity).
  split; [exact Hc |].
  destruct (@expiry_is_strict sample_runtime endpoint None st _ Hc) as [_ Hexp].
  destruct Hexp as [-> _]; [vm_compute; reflexivity | reflexivity].
Defined.

Lemma no_fallback_propagates_witness :
  ∃ st_a,
    @call_with_fallback sample_runtime endpoint [PDict []] (s2u "hi") native_fails
      (Some probe_native) (init 24 false)
    = (Raise (Exception (s2u "boom")), log (native_call [PDict []] (s2u "hi")) st_a).
Proof.
  eexists.
  apply (@no_fallback_propagates sample_runtime endpoint [PDict []] (s2u "hi") native_fails
           (Some probe_native) (init 24 false) _ _ (Exception (s2u "boom"))
           eq_refl eq_refl eq_refl eq_refl).
Defined.

Lemma injected_failure_propagates_witness :
  ∃ st_a,
    @call_with_fallback sample_runtime endpoint [PDict []] (s2u "hi") call_fails
      None (init 24 true)
    = (Raise (Exception (s2u "down")), log (EvCall (s2u "hi") None None) st_a).
Proof.
  eexists.
  apply (@injected_failure_propagates sample_runtime endpoint [PDict []] (s2u "hi")
           call_fails None (init 24 true) _ _ (s2u "hi") (Exception (s2u "down"))
           eq_refl eq_refl eq_refl eq_refl).
Defined.

Lemma clear_cache_forces_probe_witness :
  let st := snd (@get_adapter sample_runtime endpoint (Some probe_native) (init 24 true)) in
  let st1 := snd (clear_cache (Some []) st) in
  _capability_cache st1 !! endpoint = None
  ∧ ∃ a st2,
      @get_adapter sample_runtime endpoint (Some probe_native) st1 = (Ret a, st2)
      ∧ trace st2 = [EvProbe endpoint; EvProbe endpoint].
Proof.
  intros st st1.
  destruct (@clear_cache_forces_probe sample_runtime (Some []) endpoint probe_native st)
    as (Hl & _ & Hprobe).
  split; [exact (Hl endpoint) |].
  destruct (Hprobe eq_refl) as (a & st2 & Hg & Ht & _).
  exists a, st2. split; [exact Hg | rewrite Ht; reflexivity].
Defined.

End CallFacts.

